(** * SerialTree: the serialized tree storage engine of MRCPP

    A shallow embedding of [SerialTree.cpp]: the stack allocators of the
    node pool and of the two coefficient pools, the pointer rewriting that
    follows a copy of the arena, the top-down tree addition and the
    bottom-up recompression pass.

    Conventions.
    - A C++ [int] is a [Z]; where the source adds or multiplies caller
      supplied values the 32-bit wrap-around is written out ([int32]).
    - A pointer is a [Z], the address in bytes; [0] is the null pointer.
      [double*] arithmetic moves in steps of [sizeof(double) = 8].
    - A [double] is a primitive binary64 [float].
    - An [int] array is a [list Z] read and written through [arr_get] and
      [arr_set]; an access outside the array is undefined in C++ and is
      modelled as reading [0] and writing nothing.
    - [println] appends a message to the log of the allocator.
    - The stacks of the tree walks, arrays of [DepthMax*8] pointers in
      the source, are lists with the top first; a push beyond the end of
      the array is undefined in C++ and is the fault [StackOverflow].
    - Loops that follow the tree take a step budget; a run that is cut
      by the budget is [OutOfFuel], and results are stated for every
      budget that is large enough. *)

From Stdlib Require Import ZArith Lia Bool List Floats.
From stdpp Require Import base tactics option list gmap.

Open Scope Z_scope.

(** ** Machine integers and arrays *)

Definition INT_MAX : Z := 2147483647.
Definition INT_MIN : Z := -2147483648.

(** Two's complement wrap-around of a 32-bit [int]. *)
Definition int32 (z : Z) : Z := (z + 2147483648) mod 4294967296 - 2147483648.

(** Conversion of an [int] to [size_t] (64-bit unsigned). *)
Definition to_size_t (z : Z) : Z := z mod 18446744073709551616.

Definition sizeof_double : Z := 8.

Definition arr_get (a : list Z) (i : Z) : Z :=
  if 0 <=? i then default 0 (a !! Z.to_nat i) else 0.

Definition arr_set (a : list Z) (i v : Z) : list Z :=
  if 0 <=? i then <[Z.to_nat i := v]> a else a.

(** [p + n] for [double *p]. *)
Definition dptr_add (p n : Z) : Z := p + sizeof_double * n.

(** [p - q] for [double *p, *q]: the distance in doubles. *)
Definition dptr_diff (p q : Z) : Z := Z.quot (p - q) sizeof_double.

(** ** Messages and outcomes *)

Inductive msg : Type :=
| MaxNodesExceeded (maxN : Z)
| MinNodesExceeded (n : Z)
| NodeStackNotAvailable (ix v : Z)
| MaxNodesCoeffExceeded (maxN : Z)
| CoeffStackNotAvailable (ix v : Z)
| MaxGenNodesCoeffExceeded (maxN : Z)
| GenCoeffStackNotAvailable (ix v : Z)
| DeletingUnallocatedCoeff (ix : Z)
| DeletingUnallocatedGencoeff (ix : Z)
| AddingTwoGeneratedNodes (slenA : Z)
| OnlyTwoPowDImplemented.

(** [MSG_FATAL] prints and aborts the process: nothing of the state
    survives it, and the statements that follow it in the source are
    never run. *)
Inductive outcome (A : Type) : Type :=
| Ok (a : A)
| Fatal (m : msg).
Arguments Ok {A} a.
Arguments Fatal {A} m.

(** ** The allocator state *)

Record SerialTree : Type := mkSerialTree {
  Dim : Z;                          (* template parameter D *)
  nNodes : Z;
  nNodesCoeff : Z;
  nGenNodesCoeff : Z;
  maxNodes : Z;
  maxNodesCoeff : Z;
  maxGenNodesCoeff : Z;
  sizeTreeMeta : Z;
  sizeNodeMeta : Z;
  sizeNode : Z;
  sizeNodeCoeff : Z;
  sizeGenNodeCoeff : Z;
  SData : Z;
  GenCoeffArray : Z;
  lastNode : Z;
  firstNode : Z;
  lastNodeCoeff : Z;
  firstNodeCoeff : Z;
  lastGenNodeCoeff : Z;
  NodeStackStatus : list Z;
  CoeffStack : list Z;
  CoeffStackStatus : list Z;
  GenCoeffStack : list Z;
  GenCoeffStackStatus : list Z;
  NodeRankAt : gmap Z Z;            (* the NodeRank field of the node at an address *)
  log : list msg
}.

Definition set_nNodes (t : SerialTree) (v : Z) : SerialTree :=
  mkSerialTree (Dim t) v (nNodesCoeff t) (nGenNodesCoeff t) (maxNodes t)
    (maxNodesCoeff t) (maxGenNodesCoeff t) (sizeTreeMeta t) (sizeNodeMeta t)
    (sizeNode t) (sizeNodeCoeff t) (sizeGenNodeCoeff t) (SData t)
    (GenCoeffArray t) (lastNode t) (firstNode t) (lastNodeCoeff t)
    (firstNodeCoeff t) (lastGenNodeCoeff t) (NodeStackStatus t) (CoeffStack t)
    (CoeffStackStatus t) (GenCoeffStack t) (GenCoeffStackStatus t)
    (NodeRankAt t) (log t).

Definition set_nNodesCoeff (t : SerialTree) (v : Z) : SerialTree :=
  mkSerialTree (Dim t) (nNodes t) v (nGenNodesCoeff t) (maxNodes t)
    (maxNodesCoeff t) (maxGenNodesCoeff t) (sizeTreeMeta t) (sizeNodeMeta t)
    (sizeNode t) (sizeNodeCoeff t) (sizeGenNodeCoeff t) (SData t)
    (GenCoeffArray t) (lastNode t) (firstNode t) (lastNodeCoeff t)
    (firstNodeCoeff t) (lastGenNodeCoeff t) (NodeStackStatus t) (CoeffStack t)
    (CoeffStackStatus t) (GenCoeffStack t) (GenCoeffStackStatus t)
    (NodeRankAt t) (log t).

Definition set_nGenNodesCoeff (t : SerialTree) (v : Z) : SerialTree :=
  mkSerialTree (Dim t) (nNodes t) (nNodesCoeff t) v (maxNodes t)
    (maxNodesCoeff t) (maxGenNodesCoeff t) (sizeTreeMeta t) (sizeNodeMeta t)
    (sizeNode t) (sizeNodeCoeff t) (sizeGenNodeCoeff t) (SData t)
    (GenCoeffArray t) (lastNode t) (firstNode t) (lastNodeCoeff t)
    (firstNodeCoeff t) (lastGenNodeCoeff t) (NodeStackStatus t) (CoeffStack t)
    (CoeffStackStatus t) (GenCoeffStack t) (GenCoeffStackStatus t)
    (NodeRankAt t) (log t).

Definition set_lastNode (t : SerialTree) (v : Z) : SerialTree :=
  mkSerialTree (Dim t) (nNodes t) (nNodesCoeff t) (nGenNodesCoeff t) (maxNodes t)
    (maxNodesCoeff t) (maxGenNodesCoeff t) (sizeTreeMeta t) (sizeNodeMeta t)
    (sizeNode t) (sizeNodeCoeff t) (sizeGenNodeCoeff t) (SData t)
    (GenCoeffArray t) v (firstNode t) (lastNodeCoeff t)
    (firstNodeCoeff t) (lastGenNodeCoeff t) (NodeStackStatus t) (CoeffStack t)
    (CoeffStackStatus t) (GenCoeffStack t) (GenCoeffStackStatus t)
    (NodeRankAt t) (log t).

Definition set_lastNodeCoeff (t : SerialTree) (v : Z) : SerialTree :=
  mkSerialTree (Dim t) (nNodes t) (nNodesCoeff t) (nGenNodesCoeff t) (maxNodes t)
    (maxNodesCoeff t) (maxGenNodesCoeff t) (sizeTreeMeta t) (sizeNodeMeta t)
    (sizeNode t) (sizeNodeCoeff t) (sizeGenNodeCoeff t) (SData t)
    (GenCoeffArray t) (lastNode t) (firstNode t) v
    (firstNodeCoeff t) (lastGenNodeCoeff t) (NodeStackStatus t) (CoeffStack t)
    (CoeffStackStatus t) (GenCoeffStack t) (GenCoeffStackStatus t)
    (NodeRankAt t) (log t).

Definition set_NodeStackStatus (t : SerialTree) (v : list Z) : SerialTree :=
  mkSerialTree (Dim t) (nNodes t) (nNodesCoeff t) (nGenNodesCoeff t) (maxNodes t)
    (maxNodesCoeff t) (maxGenNodesCoeff t) (sizeTreeMeta t) (sizeNodeMeta t)
    (sizeNode t) (sizeNodeCoeff t) (sizeGenNodeCoeff t) (SData t)
    (GenCoeffArray t) (lastNode t) (firstNode t) (lastNodeCoeff t)
    (firstNodeCoeff t) (lastGenNodeCoeff t) v (CoeffStack t)
    (CoeffStackStatus t) (GenCoeffStack t) (GenCoeffStackStatus t)
    (NodeRankAt t) (log t).

Definition set_CoeffStack (t : SerialTree) (v : list Z) : SerialTree :=
  mkSerialTree (Dim t) (nNodes t) (nNodesCoeff t) (nGenNodesCoeff t) (maxNodes t)
    (maxNodesCoeff t) (maxGenNodesCoeff t) (sizeTreeMeta t) (sizeNodeMeta t)
    (sizeNode t) (sizeNodeCoeff t) (sizeGenNodeCoeff t) (SData t)
    (GenCoeffArray t) (lastNode t) (firstNode t) (lastNodeCoeff t)
    (firstNodeCoeff t) (lastGenNodeCoeff t) (NodeStackStatus t) v
    (CoeffStackStatus t) (GenCoeffStack t) (GenCoeffStackStatus t)
    (NodeRankAt t) (log t).

Definition set_CoeffStackStatus (t : SerialTree) (v : list Z) : SerialTree :=
  mkSerialTree (Dim t) (nNodes t) (nNodesCoeff t) (nGenNodesCoeff t) (maxNodes t)
    (maxNodesCoeff t) (maxGenNodesCoeff t) (sizeTreeMeta t) (sizeNodeMeta t)
    (sizeNode t) (sizeNodeCoeff t) (sizeGenNodeCoeff t) (SData t)
    (GenCoeffArray t) (lastNode t) (firstNode t) (lastNodeCoeff t)
    (firstNodeCoeff t) (lastGenNodeCoeff t) (NodeStackStatus t) (CoeffStack t)
    v (GenCoeffStack t) (GenCoeffStackStatus t)
    (NodeRankAt t) (log t).

Definition set_GenCoeffStackStatus (t : SerialTree) (v : list Z) : SerialTree :=
  mkSerialTree (Dim t) (nNodes t) (nNodesCoeff t) (nGenNodesCoeff t) (maxNodes t)
    (maxNodesCoeff t) (maxGenNodesCoeff t) (sizeTreeMeta t) (sizeNodeMeta t)
    (sizeNode t) (sizeNodeCoeff t) (sizeGenNodeCoeff t) (SData t)
    (GenCoeffArray t) (lastNode t) (firstNode t) (lastNodeCoeff t)
    (firstNodeCoeff t) (lastGenNodeCoeff t) (NodeStackStatus t) (CoeffStack t)
    (CoeffStackStatus t) (GenCoeffStack t) v
    (NodeRankAt t) (log t).

Definition set_NodeRankAt (t : SerialTree) (v : gmap Z Z) : SerialTree :=
  mkSerialTree (Dim t) (nNodes t) (nNodesCoeff t) (nGenNodesCoeff t) (maxNodes t)
    (maxNodesCoeff t) (maxGenNodesCoeff t) (sizeTreeMeta t) (sizeNodeMeta t)
    (sizeNode t) (sizeNodeCoeff t) (sizeGenNodeCoeff t) (SData t)
    (GenCoeffArray t) (lastNode t) (firstNode t) (lastNodeCoeff t)
    (firstNodeCoeff t) (lastGenNodeCoeff t) (NodeStackStatus t) (CoeffStack t)
    (CoeffStackStatus t) (GenCoeffStack t) (GenCoeffStackStatus t)
    v (log t).

(** [println(0, m)]. *)
Definition println (t : SerialTree) (m : msg) : SerialTree :=
  mkSerialTree (Dim t) (nNodes t) (nNodesCoeff t) (nGenNodesCoeff t) (maxNodes t)
    (maxNodesCoeff t) (maxGenNodesCoeff t) (sizeTreeMeta t) (sizeNodeMeta t)
    (sizeNode t) (sizeNodeCoeff t) (sizeGenNodeCoeff t) (SData t)
    (GenCoeffArray t) (lastNode t) (firstNode t) (lastNodeCoeff t)
    (firstNodeCoeff t) (lastGenNodeCoeff t) (NodeStackStatus t) (CoeffStack t)
    (CoeffStackStatus t) (GenCoeffStack t) (GenCoeffStackStatus t)
    (NodeRankAt t) (log t ++ [m]).

(** ** Construction of the pools (constructor, lines 22 to 95) *)

(** Modelled from the spec: [MathUtils::ipow] is not part of the sources;
    the block size is [2^axes * (order+1)^axes] doubles, so [ipow b e] is
    the integer power, held in an [int]. *)
Definition ipow (b e : Z) : Z := int32 (b ^ e).

(** [n * size / sizeof(double)]: the product is an [int], the division is
    done in [size_t]. *)
Definition elem_offset (n size : Z) : Z :=
  to_size_t (int32 (n * size)) / sizeof_double.

(** [16*((s+15)/16)], stored in an [int]. *)
Definition round16 (s : Z) : Z := int32 (16 * ((s + 15) / 16)).

Definition SizeCoefOnly (D order : Z) : Z :=
  int32 (to_size_t (int32 (Z.shiftl 1 D * ipow (order + 1) D)) * sizeof_double).

(** The state the constructor builds before it allocates the root nodes.
    [sizeofProjectedNode] and [sizeofFunctionTree] are the two [sizeof]
    values of types declared elsewhere; [sdata] and [gendata] are the
    addresses the two [new double[]] return. *)
Definition SerialTree_init
    (D order sizeofProjectedNode sizeofFunctionTree max_nodes sdata gendata : Z)
    : SerialTree :=
  let szNodeMeta := round16 sizeofProjectedNode in
  let szCoeff := SizeCoefOnly D order in
  let szTreeMeta := round16 sizeofFunctionTree in
  let first_node := dptr_add sdata (to_size_t szTreeMeta / sizeof_double) in
  let first_coeff :=
    dptr_add (dptr_add sdata (to_size_t szTreeMeta / sizeof_double))
             (elem_offset max_nodes szNodeMeta) in
  {| Dim := D;
     nNodes := 0;
     nNodesCoeff := -1;
     nGenNodesCoeff := -1;
     maxNodes := max_nodes;
     maxNodesCoeff := max_nodes;
     maxGenNodesCoeff := max_nodes;
     sizeTreeMeta := szTreeMeta;
     sizeNodeMeta := szNodeMeta;
     sizeNode := int32 (szNodeMeta + szCoeff);
     sizeNodeCoeff := szCoeff;
     sizeGenNodeCoeff := szCoeff;
     SData := sdata;
     GenCoeffArray := gendata;
     lastNode := first_node;
     firstNode := first_node;
     lastNodeCoeff := first_coeff;
     firstNodeCoeff := first_coeff;
     lastGenNodeCoeff := gendata;
     NodeStackStatus := replicate (Z.to_nat max_nodes) 0 ++ [-1];
     CoeffStack :=
       (fun i => dptr_add first_coeff (elem_offset i szCoeff)) <$> seqZ 0 max_nodes;
     CoeffStackStatus := replicate (Z.to_nat max_nodes) 0 ++ [-1];
     GenCoeffStack :=
       (fun i => dptr_add gendata (elem_offset i szCoeff)) <$> seqZ 0 max_nodes;
     GenCoeffStackStatus := replicate (Z.to_nat max_nodes) 0 ++ [-1];
     NodeRankAt := ∅;
     log := [] |}.

(** ** Node pool *)

(** One round of the marking loop of [allocNodes]: the rank is written
    through [oldlastNode], the pointer to the first new slot, and the
    index is taken from [nNodes], which already counts the new slots. *)
Definition allocNodes_mark (oldlastNode : Z) (t : SerialTree) (i : Z) : SerialTree :=
  let ix := nNodes t + i - 1 in
  let t1 := set_NodeRankAt t (<[oldlastNode := ix]> (NodeRankAt t)) in
  let t2 := if arr_get (NodeStackStatus t1) ix =? 0 then t1
            else println t1 (NodeStackNotAvailable ix (arr_get (NodeStackStatus t1) ix)) in
  set_NodeStackStatus t2 (arr_set (NodeStackStatus t2) ix 1).

(** [allocNodes(nAlloc)]: the new state and the returned pointer. *)
Definition allocNodes (t : SerialTree) (nAlloc : Z) : outcome (SerialTree * Z) :=
  let t1 := set_nNodes t (int32 (nNodes t + nAlloc)) in
  if maxNodes t1 <? nNodes t1 then
    Fatal (MaxNodesExceeded (maxNodes t1))
  else
    let oldlastNode := lastNode t1 in
    let t2 := set_lastNode t1 (lastNode t1 + int32 (nAlloc * sizeNodeMeta t1)) in
    Ok (fold_left (allocNodes_mark oldlastNode) (seqZ 0 nAlloc) t2, oldlastNode).

(** The loop [while (status[TopStack+off]==0 and TopStack>0) TopStack--],
    shared by the three release functions ([off] is [-1] for the node
    pool and [0] for the coefficient pools).  [TopStack] decreases at
    every round and the loop stops at [0], so [TopStack] rounds are
    enough. *)
Fixpoint recede_loop (status : list Z) (off : Z) (fuel : nat) (TopStack : Z) : Z :=
  match fuel with
  | O => TopStack
  | S fuel' =>
      if (arr_get status (TopStack + off) =? 0) && (0 <? TopStack)
      then recede_loop status off fuel' (TopStack - 1)
      else TopStack
  end.

Definition recede (status : list Z) (off : Z) (TopStack : Z) : Z :=
  recede_loop status off (Z.to_nat TopStack) TopStack.

(** [DeAllocNodes(NodeRank)]. *)
Definition DeAllocNodes (t : SerialTree) (NodeRank : Z) : SerialTree :=
  let t1 := if nNodes t <? 0
            then set_nNodes (println t (MinNodesExceeded (nNodes t))) (nNodes t + 1)
            else t in
  let t2 := set_NodeStackStatus t1 (arr_set (NodeStackStatus t1) NodeRank 0) in
  if NodeRank =? nNodes t2 - 1
  then set_nNodes t2 (recede (NodeStackStatus t2) (-1) (nNodes t2))
  else t2.

(** [allocGenNodes(nAlloc)]: the same pool, the same code. *)
Definition allocGenNodes (t : SerialTree) (nAlloc : Z) : outcome (SerialTree * Z) :=
  let t1 := set_nNodes t (int32 (nNodes t + nAlloc)) in
  if maxNodes t1 <? nNodes t1 then
    Fatal (MaxNodesExceeded (maxNodes t1))
  else
    let oldlastNode := lastNode t1 in
    let t2 := set_lastNode t1 (lastNode t1 + int32 (nAlloc * sizeNodeMeta t1)) in
    Ok (fold_left (allocNodes_mark oldlastNode) (seqZ 0 nAlloc) t2, oldlastNode).

(** ** Permanent coefficient pool *)

(** [allocCoeff(nAllocCoeff)]; the returned pointer is [0] when the slot
    above the top is not free. *)
Definition allocCoeff (t : SerialTree) (nAllocCoeff : Z) : outcome (SerialTree * Z) :=
  let t1 := set_nNodesCoeff t (int32 (nNodesCoeff t + 1)) in
  if negb (nAllocCoeff =? Z.shiftl 1 (Dim t1)) then Fatal OnlyTwoPowDImplemented
  else if maxNodesCoeff t1 <? nNodesCoeff t1 then
    Fatal (MaxNodesCoeffExceeded (maxNodesCoeff t1))
  else if negb (arr_get (CoeffStackStatus t1) (nNodesCoeff t1) =? 0) then
    Ok (println t1 (CoeffStackNotAvailable (nNodesCoeff t1)
                      (arr_get (CoeffStackStatus t1) (nNodesCoeff t1))), 0)
  else
    let coeffVectorXd := arr_get (CoeffStack t1) (nNodesCoeff t1) in
    Ok (set_CoeffStackStatus t1 (arr_set (CoeffStackStatus t1) (nNodesCoeff t1) 1),
        coeffVectorXd).

(** [DeAllocCoeff(DeallocIx)]. *)
Definition DeAllocCoeff (t : SerialTree) (DeallocIx : Z) : SerialTree :=
  let t1 := if arr_get (CoeffStackStatus t) DeallocIx =? 0
            then println t (DeletingUnallocatedCoeff DeallocIx) else t in
  let t2 := set_CoeffStackStatus t1 (arr_set (CoeffStackStatus t1) DeallocIx 0) in
  if DeallocIx =? nNodesCoeff t2
  then set_nNodesCoeff t2 (recede (CoeffStackStatus t2) 0 (nNodesCoeff t2))
  else t2.

(** ** Generated coefficient pool *)

(** [allocGenCoeff(nAllocCoeff)]. *)
Definition allocGenCoeff (t : SerialTree) (nAllocCoeff : Z) : outcome (SerialTree * Z) :=
  if negb (nAllocCoeff =? Z.shiftl 1 (Dim t)) then Fatal OnlyTwoPowDImplemented
  else
    let t1 := set_nGenNodesCoeff t (int32 (nGenNodesCoeff t + 1)) in
    if maxGenNodesCoeff t1 <? nGenNodesCoeff t1 then
      Fatal (MaxGenNodesCoeffExceeded (maxGenNodesCoeff t1))
    else if negb (arr_get (GenCoeffStackStatus t1) (nGenNodesCoeff t1) =? 0) then
      Ok (println t1 (GenCoeffStackNotAvailable (nGenNodesCoeff t1)
                        (arr_get (GenCoeffStackStatus t1) (nGenNodesCoeff t1))), 0)
    else
      let coeffVectorXd := arr_get (GenCoeffStack t1) (nGenNodesCoeff t1) in
      Ok (set_GenCoeffStackStatus t1
            (arr_set (GenCoeffStackStatus t1) (nGenNodesCoeff t1) 1),
          coeffVectorXd).

(** [DeAllocGenCoeff(DeallocIx)].  The loop that moves the top reads
    [CoeffStackStatus], the occupancy of the permanent pool, as the
    source does. *)
Definition DeAllocGenCoeff (t : SerialTree) (DeallocIx : Z) : SerialTree :=
  if arr_get (GenCoeffStackStatus t) DeallocIx =? 0 then
    println t (DeletingUnallocatedGencoeff DeallocIx)
  else
    let t1 := set_GenCoeffStackStatus t (arr_set (GenCoeffStackStatus t) DeallocIx 0) in
    if DeallocIx =? nGenNodesCoeff t1
    then set_nGenNodesCoeff t1 (recede (CoeffStackStatus t1) 0 (nGenNodesCoeff t1))
    else t1.

(** ** Vocabulary for the pools *)

(** [n] single-slot allocations in a row, as the constructor does for the
    root nodes. *)
Fixpoint allocNodes_times (n : nat) (t : SerialTree) : outcome SerialTree :=
  match n with
  | O => Ok t
  | S k => match allocNodes t 1 with
           | Ok (t', _) => allocNodes_times k t'
           | Fatal m => Fatal m
           end
  end.

(** Releases, in the order of the list. *)
Definition release_all (t : SerialTree) (ranks : list Z) : SerialTree :=
  fold_left DeAllocNodes ranks t.

(** The ranks [n0 + N - 1, ..., n0 + 1, n0]. *)
Definition reverse_ranks (n0 : Z) (N : nat) : list Z := rev (seqZ n0 (Z.of_nat N)).

(** Number of free entries among the first [n] of an occupancy array. *)
Fixpoint count_free (status : list Z) (n : nat) : nat :=
  match n with
  | O => O
  | S k => ((if (arr_get status (Z.of_nat k) =? 0)%Z then 1 else 0) + count_free status k)%nat
  end.

(** Holes of the node pool: free slots below the top. *)
Definition holes (t : SerialTree) : nat :=
  count_free (NodeStackStatus t) (Z.to_nat (nNodes t)).

(** Releases of a slot that is not the top slot when it is released. *)
Fixpoint non_top_releases (t : SerialTree) (ranks : list Z) : nat :=
  match ranks with
  | [] => O
  | r :: rs => ((if (r =? nNodes t - 1)%Z then 0 else 1)
                + non_top_releases (DeAllocNodes t r) rs)%nat
  end.

(** Holes that the releases of a top slot move the top past. *)
Fixpoint receded_holes (t : SerialTree) (ranks : list Z) : nat :=
  match ranks with
  | [] => O
  | r :: rs => ((if (r =? nNodes t - 1)%Z
                 then Z.to_nat (nNodes t - 1 - nNodes (DeAllocNodes t r))%Z else 0)
                + receded_holes (DeAllocNodes t r) rs)%nat
  end.

(** Every rank of the list is an occupied slot below the top when its
    turn comes. *)
Fixpoint valid_releases (t : SerialTree) (ranks : list Z) : Prop :=
  match ranks with
  | [] => True
  | r :: rs => 0 <= r < nNodes t /\ arr_get (NodeStackStatus t) r <> 0
               /\ valid_releases (DeAllocNodes t r) rs
  end.

(** What every node pool built by the constructor and used through
    [allocNodes(1)] and [DeAllocNodes] satisfies: the count is within the
    budget, the occupancy array has [maxNodes + 1] entries, and the slot
    below the top is occupied. *)
Definition node_pool_ok (t : SerialTree) : Prop :=
  0 <= nNodes t <= maxNodes t /\ maxNodes t <= INT_MAX /\
  Z.of_nat (length (NodeStackStatus t)) = maxNodes t + 1 /\
  (nNodes t = 0 \/ arr_get (NodeStackStatus t) (nNodes t - 1) <> 0).

(** The same for the permanent coefficient pool, whose top is the index
    of the last block handed out ([-1] at the start). *)
Definition coeff_pool_ok (t : SerialTree) : Prop :=
  -1 <= nNodesCoeff t <= maxNodesCoeff t /\ maxNodesCoeff t < INT_MAX /\
  Z.of_nat (length (CoeffStackStatus t)) = maxNodesCoeff t + 1 /\
  (nNodesCoeff t <= 0 \/ arr_get (CoeffStackStatus t) (nNodesCoeff t) <> 0).

(** The operations of the allocator, to speak of every state it can
    reach. *)
Inductive alloc_op : Type :=
| OpAllocNodes (nAlloc : Z)
| OpDeAllocNodes (NodeRank : Z)
| OpAllocGenNodes (nAlloc : Z)
| OpAllocCoeff (nAllocCoeff : Z)
| OpDeAllocCoeff (DeallocIx : Z)
| OpAllocGenCoeff (nAllocCoeff : Z)
| OpDeAllocGenCoeff (DeallocIx : Z).

Definition run_op (t : SerialTree) (o : alloc_op) : outcome SerialTree :=
  match o with
  | OpAllocNodes n => match allocNodes t n with Ok (t', _) => Ok t' | Fatal m => Fatal m end
  | OpDeAllocNodes r => Ok (DeAllocNodes t r)
  | OpAllocGenNodes n => match allocGenNodes t n with Ok (t', _) => Ok t' | Fatal m => Fatal m end
  | OpAllocCoeff n => match allocCoeff t n with Ok (t', _) => Ok t' | Fatal m => Fatal m end
  | OpDeAllocCoeff i => Ok (DeAllocCoeff t i)
  | OpAllocGenCoeff n => match allocGenCoeff t n with Ok (t', _) => Ok t' | Fatal m => Fatal m end
  | OpDeAllocGenCoeff i => Ok (DeAllocGenCoeff t i)
  end.

Fixpoint run_ops (t : SerialTree) (os : list alloc_op) : outcome SerialTree :=
  match os with
  | [] => Ok t
  | o :: os' => match run_op t o with
                | Ok t' => run_ops t' os'
                | Fatal m => Fatal m
                end
  end.

(** ** A small arena for examples

    Three axes, order 1 (blocks of [8 * 2^3] doubles, 512 bytes), node
    records of 400 bytes, a tree header of 800 bytes, a budget of four
    nodes, the arena at address 4096 and the generated pool at 1000000. *)
Definition pool4 : SerialTree := SerialTree_init 3 1 400 800 4 4096 1000000.

Definition state_of (o : outcome SerialTree) (fallback : SerialTree) : SerialTree :=
  match o with Ok t => t | Fatal _ => fallback end.

(** [pool4] after two and after three single-slot allocations. *)
Definition pool4_two : SerialTree := state_of (allocNodes_times 2 pool4) pool4.
Definition pool4_three : SerialTree := state_of (allocNodes_times 3 pool4) pool4.

(** The part of [RewritePointers] that touches the pools (lines 131 to
    134): [lastNodeCoeff] is set again, and every entry of [CoeffStack]
    is moved by [d_p_shift], which is still [0] at that point. *)
Definition RewritePointers_pool (t : SerialTree) : SerialTree :=
  let d_p_shift := 0 in
  let t1 := set_lastNodeCoeff t
              (dptr_add (dptr_add (SData t) (to_size_t (sizeTreeMeta t) / sizeof_double))
                        (elem_offset (maxNodes t) (sizeNodeMeta t))) in
  fold_left (fun t' i =>
               set_CoeffStack t'
                 (arr_set (CoeffStack t') i (dptr_add (arr_get (CoeffStack t') i) d_p_shift)))
            (seqZ 0 (maxNodesCoeff t1)) t1.

(** A run of allocator operations in which [RewritePointers] may occur. *)
Inductive pool_op : Type :=
| Alloc (o : alloc_op)
| Rewrite.

Fixpoint run_pool_ops (t : SerialTree) (os : list pool_op) : outcome SerialTree :=
  match os with
  | [] => Ok t
  | Alloc o :: os' => match run_op t o with
                      | Ok t' => run_pool_ops t' os'
                      | Fatal m => Fatal m
                      end
  | Rewrite :: os' => run_pool_ops (RewritePointers_pool t) os'
  end.

(** [pool4] after one block of the permanent pool was handed out and
    released, and after the node slots 0, 1, 2 were allocated and slot 1
    released. *)
Definition pool4_coeff_released : SerialTree :=
  state_of (run_ops pool4 [OpAllocCoeff 8; OpDeAllocCoeff 0]) pool4.
Definition pool4_hole : SerialTree := DeAllocNodes pool4_three 1.

(** What fixes the addresses of the blocks of the permanent pool. *)
Definition coeff_layout (t : SerialTree) : list Z * Z * Z * Z * Z :=
  (CoeffStack t, firstNodeCoeff t, sizeNodeCoeff t, maxNodesCoeff t, Dim t).

(** [pool4] after a block was handed out, a node slot allocated, the
    pointers rewritten and the block released. *)
Definition pool4_ops : list pool_op :=
  [Alloc (OpAllocCoeff 8); Alloc (OpAllocNodes 1); Rewrite; Alloc (OpDeAllocCoeff 0)].
Definition pool4_rewritten : SerialTree := state_of (run_pool_ops pool4 pool4_ops) pool4.

(** ** Coefficient memory

    The coefficient blocks live in one address space, a map from byte
    addresses to doubles.  The local array [tmpcoeff] of the transform
    kernels is a second address space that starts at address 0. *)

Definition cmem : Type := Z -> float.

(** The [n] doubles that start at [p]. *)
Definition read_block (m : cmem) (p n : Z) : list float :=
  (fun i => m (dptr_add p i)) <$> seqZ 0 n.

(** [a] is the address of one of the [n] doubles that start at [p]. *)
Definition in_block (p n a : Z) : bool :=
  (p <=? a) && (a <? p + sizeof_double * n) && ((a - p) mod sizeof_double =? 0).

(** [p[i] = v]. *)
Definition store (m : cmem) (p i : Z) (v : float) : cmem :=
  fun a => if a =? dptr_add p i then v else m a.

Inductive space : Type := Heap | Tmp.

Record bufs : Type := mkBufs { heap : cmem; tmpcoeff : cmem }.

Definition buf (b : bufs) (s : space) : cmem :=
  match s with Heap => heap b | Tmp => tmpcoeff b end.

Definition set_buf (b : bufs) (s : space) (m : cmem) : bufs :=
  match s with
  | Heap => mkBufs m (tmpcoeff b)
  | Tmp => mkBufs (heap b) m
  end.

(** ** The filter (MWFilter.cpp) *)

Definition matrix : Type := list (list float).

Record MWFilter : Type := mkMWFilter {
  G0 : matrix; G1 : matrix; H0 : matrix; H1 : matrix;
  G0t : matrix; G1t : matrix; H0t : matrix; H1t : matrix
}.

Inductive operation : Type := Compression | Reconstruction.

Inductive kernel_error : Type :=
| FilterIndexOutOfBounds
| OnlyD3Implemented.

Inductive result (A : Type) : Type :=
| Done (a : A)
| Abort (e : kernel_error).
Arguments Done {A} a.
Arguments Abort {A} e.

(** [MWFilter::getSubFilter(i, oper)]. *)
Definition getSubFilter (f : MWFilter) (i : Z) (oper : operation) : result matrix :=
  match oper with
  | Compression =>
      match i with
      | 0 => Done (H0t f)
      | 1 => Done (H1t f)
      | 2 => Done (G0t f)
      | 3 => Done (G1t f)
      | _ => Abort FilterIndexOutOfBounds
      end
  | Reconstruction =>
      match i with
      | 0 => Done (H0 f)
      | 1 => Done (G0 f)
      | 2 => Done (H1 f)
      | 3 => Done (G1 f)
      | _ => Abort FilterIndexOutOfBounds
      end
  end.

(** ** The transform kernels *)

(** What the kernels take from outside [SerialTree.cpp]: the order of
    the tree, its filter, the matrix product inside
    [MathUtils::applyFilter] (entry [j] of the product of a block with a
    sub-filter), and the content of the uninitialized local array. *)
Record Kernel : Type := mkKernel {
  kp1 : Z;
  filter : MWFilter;
  filterProduct : matrix -> Z -> Z -> list float -> Z -> float;
  uninit : cmem
}.

(** Modelled from the spec: [MathUtils::applyFilter] is not part of the
    sources.  It applies the sub-filter to the block at [in_] and puts
    the product into the block at [out]; the last argument is the
    overwrite or accumulate flag: with [0.0] the product overwrites the
    block, otherwise it is added in place. *)
Definition applyFilter (K : Kernel) (b : bufs) (so : space) (out : Z)
    (si : space) (in_ : Z) (oper : matrix) (kp1 kp1_dm1 : Z) (overwrite : float)
    : bufs :=
  let n := kp1 * kp1_dm1 in
  let inblk := read_block (buf b si) in_ n in
  let mo := buf b so in
  set_buf b so
    (fun a =>
       if in_block out n a then
         let j := (a - out) / sizeof_double in
         if PrimFloat.eqb overwrite 0 then filterProduct K oper kp1 kp1_dm1 inblk j
         else (mo a + filterProduct K oper kp1 kp1_dm1 inblk j)%float
       else mo a).

(** The body of the inner loop of a sweep: the state is the buffers and
    the variable [overwrite]. *)
Definition sweep_ft (K : Kernel) (oper : operation) (i mask : Z)
    (so : space) (out : Z) (si : space) (in_base in_stride : Z)
    (kp1 kp1_dm1 : Z) (gt : Z)
    (st : result (bufs * float)) (ft : Z) : result (bufs * float) :=
  match st with
  | Abort e => Abort e
  | Done (b, overwrite) =>
      if Z.lor gt mask =? Z.lor ft mask then
        let in_ := dptr_add in_base (ft * in_stride) in
        let filter_index := 2 * Z.land (Z.shiftr gt i) 1 + Z.land (Z.shiftr ft i) 1 in
        match getSubFilter (filter K) filter_index oper with
        | Abort e => Abort e
        | Done m =>
            Done (applyFilter K b so out si in_ m kp1 kp1_dm1 overwrite, 1%float)
        end
      else Done (b, overwrite)
  end.

(** The body of the outer loop of a sweep. *)
Definition sweep_gt (K : Kernel) (oper : operation) (i mask : Z) (ftlim : Z)
    (so : space) (out_base out_stride : Z) (si : space) (in_base in_stride : Z)
    (kp1 kp1_dm1 : Z)
    (st : result (bufs * float)) (gt : Z) : result (bufs * float) :=
  match st with
  | Abort e => Abort e
  | Done (b, overwrite) =>
      let out := dptr_add out_base (gt * out_stride) in
      match fold_left (sweep_ft K oper i mask so out si in_base in_stride
                                kp1 kp1_dm1 gt)
                      (seqZ 0 ftlim) (Done (b, overwrite)) with
      | Abort e => Abort e
      | Done (b', _) => Done (b', 0%float)
      end
  end.

(** One of the three sweeps of a kernel: direction [i], the blocks read
    at [in_base + ft * in_stride], the blocks written at
    [out_base + gt * out_stride]. *)
Definition sweep (K : Kernel) (oper : operation) (i mask : Z) (tDim ftlim : Z)
    (so : space) (out_base out_stride : Z) (si : space) (in_base in_stride : Z)
    (kp1 kp1_dm1 : Z) (st : result (bufs * float)) : result (bufs * float) :=
  fold_left (sweep_gt K oper i mask ftlim so out_base out_stride si in_base in_stride
                      kp1 kp1_dm1)
            (seqZ 0 tDim) st.

(** [S_mwTransform(coeff_in, coeff_out, ReadOnlyScalingCoeff,
    Children_Stride)] on the heap [m]. *)
Definition S_mwTransform (K : Kernel) (D : Z) (m : cmem)
    (coeff_in coeff_out : Z) (ReadOnlyScalingCoeff : bool) (Children_Stride : Z)
    : result cmem :=
  if negb (D =? 3) then Abort OnlyD3Implemented
  else
    let kp1 := kp1 K in
    let tDim := Z.shiftl 1 D in
    let kp1_dm1 := kp1 * kp1 in
    let kp1_d := kp1_dm1 * kp1 in
    let ftlim := if ReadOnlyScalingCoeff then 1 else tDim in
    let ftlim2 := if ReadOnlyScalingCoeff then 2 else tDim in
    let ftlim3 := if ReadOnlyScalingCoeff then 4 else tDim in
    let st0 := Done (mkBufs m (uninit K), 0%float) in
    let st1 := sweep K Reconstruction 0 1 tDim ftlim
                 Heap coeff_out kp1_d Heap coeff_in kp1_d kp1 kp1_dm1 st0 in
    let st2 := sweep K Reconstruction 1 2 tDim ftlim2
                 Tmp 0 kp1_d Heap coeff_out kp1_d kp1 kp1_dm1 st1 in
    let st3 := sweep K Reconstruction 2 4 tDim ftlim3
                 Heap coeff_out Children_Stride Tmp 0 kp1_d kp1 kp1_dm1 st2 in
    match st3 with
    | Abort e => Abort e
    | Done (b, _) => Done (heap b)
    end.

(** [S_mwTransformBack(coeff_in, coeff_out, Children_Stride)] on the
    heap [m]. *)
Definition S_mwTransformBack (K : Kernel) (D : Z) (m : cmem)
    (coeff_in coeff_out : Z) (Children_Stride : Z) : result cmem :=
  if negb (D =? 3) then Abort OnlyD3Implemented
  else
    let kp1 := kp1 K in
    let tDim := Z.shiftl 1 D in
    let kp1_dm1 := kp1 * kp1 in
    let kp1_d := kp1_dm1 * kp1 in
    let st0 := Done (mkBufs m (uninit K), 0%float) in
    let st1 := sweep K Compression 0 1 tDim tDim
                 Heap coeff_out kp1_d Heap coeff_in Children_Stride kp1 kp1_dm1 st0 in
    let st2 := sweep K Compression 1 2 tDim tDim
                 Tmp 0 kp1_d Heap coeff_out kp1_d kp1 kp1_dm1 st1 in
    let st3 := sweep K Compression 2 4 tDim tDim
                 Heap coeff_out kp1_d Tmp 0 kp1_d kp1 kp1_dm1 st2 in
    match st3 with
    | Abort e => Abort e
    | Done (b, _) => Done (heap b)
    end.

(** ** Nodes and trees *)

(** The fields of [MWNode] that [SerialTree.cpp] reads and writes.
    [coefvec] is the data pointer of the coefficient vector, [coefs] the
    pointer to the vector object, [children] the first [getNChildren()]
    entries of the child array. *)
Record MWNode : Type := mkMWNode {
  parent : Z;
  children : list Z;
  tree : Z;
  coefvec : Z;
  coefs : Z;
  NodeCoeffIx : Z;
  NodeRank : Z;
  hasWCoefs : bool;
  isGenNode : bool;
  squareNorm : float
}.

Definition getNChildren (n : MWNode) : Z := Z.of_nat (length (children n)).

(** The allocator ([this]), the node records by address, the coefficient
    memory, and the two fields of the tree header the code writes. *)
Record Forest : Type := mkForest {
  this : SerialTree;
  nodes : gmap Z MWNode;
  mem : cmem;
  tree_nNodes : Z;
  tree_squareNorm : float
}.

Definition set_this (f : Forest) (t : SerialTree) : Forest :=
  mkForest t (nodes f) (mem f) (tree_nNodes f) (tree_squareNorm f).
Definition set_nodes (f : Forest) (n : gmap Z MWNode) : Forest :=
  mkForest (this f) n (mem f) (tree_nNodes f) (tree_squareNorm f).
Definition set_mem (f : Forest) (m : cmem) : Forest :=
  mkForest (this f) (nodes f) m (tree_nNodes f) (tree_squareNorm f).
Definition set_tree_nNodes (f : Forest) (n : Z) : Forest :=
  mkForest (this f) (nodes f) (mem f) n (tree_squareNorm f).

Inductive fault : Type :=
| FatalMsg (m : msg)                (* MSG_FATAL *)
| KernelFault (e : kernel_error)    (* MSG_FATAL inside a kernel *)
| RootNodesNotEqual                 (* MSG_FATAL of the tree addition *)
| InvalidPointer (p : Z)            (* a pointer that is not the address of a node *)
| StackOverflow.                    (* a push beyond the end of a stack array *)

(** The stacks of the tree walks are arrays of [DepthMax*8] pointers; a
    push beyond their end is a fault of the model. *)
Definition DepthMax : Z := 100.
Definition stack_size : Z := DepthMax * 8.

(** A run ends, fails, or is cut by the step budget of the model. *)
Inductive run (A : Type) : Type :=
| Finished (a : A)
| Failed (e : fault)
| OutOfFuel.
Arguments Finished {A} a.
Arguments Failed {A} e.
Arguments OutOfFuel {A}.

Definition bind {A B : Type} (r : run A) (k : A -> run B) : run B :=
  match r with
  | Finished a => k a
  | Failed e => Failed e
  | OutOfFuel => OutOfFuel
  end.

Notation "'do' x <- r ; k" := (bind r (fun x => k))
  (at level 10, x name, r at level 100, k at level 200).

(** [*p] for a node pointer [p]. *)
Definition deref (f : Forest) (p : Z) : run MWNode :=
  match nodes f !! p with
  | Some n => Finished n
  | None => Failed (InvalidPointer p)
  end.

Definition of_kernel {A : Type} (r : result A) : run A :=
  match r with
  | Done a => Finished a
  | Abort e => Failed (KernelFault e)
  end.

(** What the tree algorithms take from outside [SerialTree.cpp]:
    [MWNode::genChildren], which makes the children of a node and
    allocates their coefficients without setting them, and the squared
    norm that [MWNode::calcNorms] computes from the flags and the
    coefficients of a node. *)
Record TreeEnv : Type := mkTreeEnv {
  kernel : Kernel;
  genChildren : Forest -> Z -> run Forest;
  calcSquareNorm : MWNode -> list float -> float
}.

Definition getKp1_d (E : TreeEnv) (f : Forest) : Z := ipow (kp1 (kernel E)) (Dim (this f)).
Definition getTDim (f : Forest) : Z := Z.shiftl 1 (Dim (this f)).

(** ** GenS_nodes *)

Definition GenS_nodes (E : TreeEnv) (f : Forest) (Node : Z) : run Forest :=
  do nd <- deref f Node ;
  let ReadOnlyScalingCoeff := negb (hasWCoefs nd) in
  do f1 <- genChildren E f Node ;
  do nd1 <- deref f1 Node ;
  do child0 <- deref f1 (default 0 (children nd1 !! 0%nat)) ;
  let coeffin := coefvec nd1 in
  let coeffout := coefvec child0 in
  let Children_Stride := to_size_t (sizeGenNodeCoeff (this f1)) / sizeof_double in
  do m <- of_kernel (S_mwTransform (kernel E) (Dim (this f1)) (mem f1)
                    coeffin coeffout ReadOnlyScalingCoeff Children_Stride) ;
  Finished (set_mem f1 m).

(** ** SerialTreeAdd *)

(** [for (i = lo; i < hi; i++) cA[i] += c*cB[i]]. *)
Definition add_scaled (c : float) (cA cB lo hi : Z) (m : cmem) : cmem :=
  fold_left (fun m i => store m cA i (m (dptr_add cA i) + c * m (dptr_add cB i))%float)
            (seqZ lo (hi - lo)) m.

(** [for (i = lo; i < hi; i++) cA[i] = c*cB[i]]. *)
Definition set_scaled (c : float) (cA cB lo hi : Z) (m : cmem) : cmem :=
  fold_left (fun m i => store m cA i (c * m (dptr_add cB i))%float)
            (seqZ lo (hi - lo)) m.

Definition setHasWCoefs (n : MWNode) : MWNode :=
  mkMWNode (parent n) (children n) (tree n) (coefvec n) (coefs n) (NodeCoeffIx n)
    (NodeRank n) true (isGenNode n) (squareNorm n).

Definition set_squareNorm (n : MWNode) (x : float) : MWNode :=
  mkMWNode (parent n) (children n) (tree n) (coefvec n) (coefs n) (NodeCoeffIx n)
    (NodeRank n) (hasWCoefs n) (isGenNode n) x.

(** The block under [if(1)] (lines 244 to 264): the coefficients of
    [fposA] and [fposB] are combined, then the flag and the norms of
    [fposA] are set and the total is advanced. *)
Definition add_coefs (E : TreeEnv) (c : float) (N_GenCoeff N_Coeff : Z)
    (slenA : Z) (fposA fposB : Z) (fT : Forest * float) : run (Forest * float) :=
  let (f, Tsum) := fT in
  do ndA <- deref f fposA ;
  do ndB <- deref f fposB ;
  let cA := coefvec ndA in
  let cB := coefvec ndB in
  let f1 :=
    if hasWCoefs ndA then
      if hasWCoefs ndB then set_mem f (add_scaled c cA cB 0 N_Coeff (mem f))
      else set_mem f (add_scaled c cA cB 0 N_GenCoeff (mem f))
    else
      let f' := set_mem f (add_scaled c cA cB 0 N_GenCoeff (mem f)) in
      if hasWCoefs ndB then set_mem f' (set_scaled c cA cB N_GenCoeff N_Coeff (mem f'))
      else set_this f' (println (this f') (AddingTwoGeneratedNodes slenA)) in
  let ndA1 := setHasWCoefs ndA in
  let ndA2 := set_squareNorm ndA1
                (calcSquareNorm E ndA1 (read_block (mem f1) (coefvec ndA1) N_Coeff)) in
  let f2 := set_nodes f1 (<[fposA := ndA2]> (nodes f1)) in
  let Tsum' := if getNChildren ndA2 =? 0 then (Tsum + squareNorm ndA2)%float else Tsum in
  Finished (f2, Tsum').

Record add_state : Type := mkAddState {
  forest : Forest;
  stackA : list Z;                  (* top first *)
  stackB : list Z;
  Tsum : float
}.

(** One round of the [while (slenA)] loop. *)
Definition SerialTreeAdd_body (E : TreeEnv) (c : float) (st : add_state) : run add_state :=
  match stackA st, stackB st with
  | fposA :: sA, fposB :: sB =>
      let f := forest st in
      let slenA := Z.of_nat (length sA) in
      do ndA <- deref f fposA ;
      do ndB <- deref f fposB ;
      do grown <-
        (if negb (getNChildren ndA + getNChildren ndB =? 0) then
           do f1 <- (if getNChildren ndA =? 0 then GenS_nodes E f fposA else Finished f) ;
           do f2 <- (if getNChildren ndB =? 0 then GenS_nodes E f1 fposB else Finished f1) ;
           do ndA2 <- deref f2 fposA ;
           do ndB2 <- deref f2 fposB ;
           let kidsA := children ndA2 in
           let kidsB := (fun i => default 0 (children ndB2 !! i))
                          <$> seq 0 (length kidsA) in
           if Z.of_nat (length sA + length kidsA) <=? stack_size
           then Finished (f2, rev kidsA ++ sA, rev kidsB ++ sB)
           else Failed StackOverflow
         else Finished (f, sA, sB)) ;
      let '(f3, sA', sB') := grown in
      do r <- add_coefs E c (getKp1_d E f) (getKp1_d E f * getTDim f)
             (Z.of_nat (length sA')) fposA fposB (f3, Tsum st) ;
      Finished (mkAddState (fst r) sA' sB' (snd r))
  | fposA :: _, [] => Failed (InvalidPointer 0)
  | [], _ => Finished st
  end.





(** Two blocks of [n] doubles that do not overlap. *)
Definition blocks_apart (p q n : Z) : Prop :=
  p + sizeof_double * n <= q \/ q + sizeof_double * n <= p.

Definition is_finished {A : Type} (r : run A) : bool :=
  match r with Finished _ => true | _ => false end.

(** ** RewritePointers *)

Definition set_links (n : MWNode) (par : Z) (kids : list Z) (tr cv cs : Z) : MWNode :=
  mkMWNode par kids tr cv cs (NodeCoeffIx n) (NodeRank n) (hasWCoefs n)
    (isGenNode n) (squareNorm n).

Record rw_state : Type := mkRwState {
  rw_forest : Forest;
  rw_stack : list Z                 (* top first *)
}.

(** One round of the [while (slen)] loop.  [mwTree_p] is
    [this->getTree()], [offsetof_coefvec] the place of the field
    [coefvec] in a node record. *)
Definition RewritePointers_body (mwTree_p offsetof_coefvec d_p_shift : Z)
    (st : rw_state) : run rw_state :=
  match rw_stack st with
  | [] => Finished st
  | fpos :: s =>
      let f := set_tree_nNodes (rw_forest st) (tree_nNodes (rw_forest st) + 1) in
      do nd <- deref f fpos ;
      let kids := if negb (getNChildren nd =? 0)
                  then (fun c => dptr_add c d_p_shift) <$> children nd
                  else children nd in
      let s' := if negb (getNChildren nd =? 0) then rev kids ++ s else s in
      let nd' := set_links nd
                   (dptr_add (parent nd) d_p_shift)
                   kids
                   mwTree_p
                   (dptr_add (firstNodeCoeff (this f))
                      (elem_offset (NodeCoeffIx nd) (sizeNodeCoeff (this f))))
                   (fpos + offsetof_coefvec) in
      if negb (getNChildren nd =? 0) && (stack_size <? Z.of_nat (length s'))
      then Failed StackOverflow
      else Finished (mkRwState (set_nodes f (<[fpos := nd']> (nodes f))) s')
  end.

Fixpoint RewritePointers_loop (mwTree_p offsetof_coefvec d_p_shift : Z)
    (fuel : nat) (st : rw_state) : run rw_state :=
  match rw_stack st with
  | [] => Finished st
  | _ :: _ =>
      match fuel with
      | O => OutOfFuel
      | S fuel' =>
          do st' <- RewritePointers_body mwTree_p offsetof_coefvec d_p_shift st ;
          RewritePointers_loop mwTree_p offsetof_coefvec d_p_shift fuel' st'
      end
  end.

(** [RewritePointers()]; [roots] is the node array of the root box.  The
    call of [resetEndNodeTable] at the end rebuilds a table of the tree
    object that is not part of this model. *)
Definition RewritePointers (mwTree_p offsetof_coefvec : Z) (roots : list Z)
    (fuel : nat) (f : Forest) : run Forest :=
  let f1 := set_this f (RewritePointers_pool (this f)) in
  do root0 <- deref f1 (default 0 (roots !! 0%nat)) ;
  do _ <- (if stack_size <? Z.of_nat (length roots) then Failed StackOverflow
           else Finished tt) ;
  let d_p_shift := dptr_diff (firstNodeCoeff (this f1)) (coefvec root0) in
  do st <- RewritePointers_loop mwTree_p offsetof_coefvec d_p_shift fuel
             (mkRwState (set_tree_nNodes f1 0) (rev roots)) ;
  Finished (rw_forest st).

(** The copy of an arena to an address [delta] bytes further: every
    record and every double is found [delta] further, with the bytes it
    had. *)
Definition copy_arena (delta : Z) (t' : SerialTree) (f : Forest) : Forest :=
  mkForest t' (kmap (fun a => a + delta) (nodes f)) (fun a => mem f (a - delta))
    (tree_nNodes f) (tree_squareNorm f).

(** The test for a root node in [SerialTreeAdd_Up] (lines 377 and 385):
    [fposA->parent != 0] is false. *)
Definition is_root (n : MWNode) : bool := parent n =? 0.

(** The nodes reached from a list of nodes through the child pointers,
    in depth-first order with the children in their order. *)
Fixpoint traversal (fuel : nat) (nodes : gmap Z MWNode) (ps : list Z) : list Z :=
  match fuel with
  | O => []
  | S fuel' =>
      match ps with
      | [] => []
      | p :: ps' =>
          match nodes !! p with
          | Some n => p :: traversal fuel' nodes (children n ++ ps')
          | None => []
          end
      end
  end.

(** ** S_mwTreeTransformUp *)

Record up_state : Type := mkUpState {
  up_forest : Forest;
  up_stack : list Z;                (* top first *)
  up_status : list Z
}.

(** [Children_Stride] of the recompression pass. *)
Definition up_stride (f : Forest) : Z :=
  to_size_t (sizeGenNodeCoeff (this f)) / sizeof_double.

(** [stack[++slen] = x]: the stack is filled from index 1, so that a
    push needs [slen + 1 < DepthMax*8]. *)
Definition up_push (x : Z) (stack : list Z) : run (list Z) :=
  if Z.of_nat (length stack) + 1 <? stack_size then Finished (x :: stack)
  else Failed StackOverflow.

(** The loop over the root nodes that fills the stack and sets their
    status. *)
Definition up_push_root (f : Forest) (acc : run (list Z * list Z)) (root : Z)
    : run (list Z * list Z) :=
  do a <- acc ;
  do nd <- deref f root ;
  do s <- up_push root (fst a) ;
  Finished (s, arr_set (snd a) (NodeRank nd) (if 0 <? getNChildren nd then 0 else 1)).

(** The loop over the children of [fpos]: [childok] counts the children
    that are finished or leaves, the others are pushed. *)
Definition up_child (f : Forest) (status : list Z) (acc : run (Z * list Z)) (c : Z)
    : run (Z * list Z) :=
  do a <- acc ;
  do cn <- deref f c ;
  if (0 <? arr_get status (NodeRank cn)) || (getNChildren cn =? 0)
  then Finished (fst a + 1, snd a)
  else if 0 <? getNChildren cn then
    do s <- up_push c (snd a) ; Finished (fst a, s)
  else Finished a.

(** One round of the [while (slen)] loop. *)
Definition S_mwTreeTransformUp_body (E : TreeEnv) (st : up_state) : run up_state :=
  match up_stack st with
  | [] => Finished st
  | fpos :: rest =>
      let f := up_forest st in
      let status := up_status st in
      do nd <- deref f fpos ;
      if (0 <? getNChildren nd) && (arr_get status (NodeRank nd) =? 0) then
        do r <- fold_left (up_child f status) (children nd) (Finished (0, fpos :: rest)) ;
        if fst r =? getNChildren nd then
          do c0 <- deref f (default 0 (children nd !! 0%nat)) ;
          do m <- of_kernel (S_mwTransformBack (kernel E) (Dim (this f)) (mem f)
                              (coefvec c0) (coefvec nd) (up_stride f)) ;
          Finished (mkUpState (set_mem f m) (snd r) (arr_set status (NodeRank nd) 1))
        else Finished (mkUpState f (snd r) status)
      else Finished (mkUpState f rest (arr_set status (NodeRank nd) 1))
  end.

Fixpoint S_mwTreeTransformUp_loop (E : TreeEnv) (fuel : nat) (st : up_state)
    : run up_state :=
  match up_stack st with
  | [] => Finished st
  | _ :: _ =>
      match fuel with
      | O => OutOfFuel
      | S fuel' =>
          do st' <- S_mwTreeTransformUp_body E st ;
          S_mwTreeTransformUp_loop E fuel' st'
      end
  end.

(** [S_mwTreeTransformUp()]; [roots] are the nodes [findNode] returns for
    the indices of the root box, in their order. *)
Definition S_mwTreeTransformUp (E : TreeEnv) (roots : list Z) (fuel : nat) (f : Forest)
    : run Forest :=
  let status0 := replicate (Z.to_nat (nNodes (this f))) 0 in
  do a <- fold_left (up_push_root f) roots (Finished ([], status0)) ;
  do st <- S_mwTreeTransformUp_loop E fuel (mkUpState f (fst a) (snd a)) ;
  Finished (up_forest st).

(** ** What the Analysis kernel computes

    The three sweeps on values: a sweep takes the blocks it reads, as
    lists, and gives each block it writes as a function of the position
    in the block, or nothing when no filter is applied to that block. *)

Definition filter_index (i gt ft : Z) : Z :=
  2 * Z.land (Z.shiftr gt i) 1 + Z.land (Z.shiftr ft i) 1.

Definition subfilter (K : Kernel) (idx : Z) (oper : operation) : matrix :=
  match getSubFilter (filter K) idx oper with
  | Done m => m
  | Abort _ => []
  end.

Definition sweep_value_ft (K : Kernel) (oper : operation) (i mask : Z)
    (kp1 kp1_dm1 : Z) (ins : Z -> list float) (gt : Z)
    (acc : option (Z -> float)) (ft : Z) : option (Z -> float) :=
  if Z.lor gt mask =? Z.lor ft mask then
    let P := filterProduct K (subfilter K (filter_index i gt ft) oper)
               kp1 kp1_dm1 (ins ft) in
    Some (match acc with
          | None => P
          | Some v => fun j => (v j + P j)%float
          end)
  else acc.

Definition sweep_value (K : Kernel) (oper : operation) (i mask ftlim : Z)
    (kp1 kp1_dm1 : Z) (ins : Z -> list float) (gt : Z) : option (Z -> float) :=
  fold_left (sweep_value_ft K oper i mask kp1 kp1_dm1 ins gt) (seqZ 0 ftlim) None.

(** The block a sweep leaves: the new values, or the old block. *)
Definition swept (n : Z) (new : option (Z -> float)) (old : list float) : list float :=
  match new with
  | Some v => v <$> seqZ 0 n
  | None => old
  end.

(** Block [gt] of the parent that Analysis computes from the scaling
    blocks [ins 0], ..., [ins 7] of the children. *)
Definition analysis_block (K : Kernel) (ins : Z -> list float) (gt : Z) : list float :=
  let kp1 := kp1 K in
  let kp1_dm1 := kp1 * kp1 in
  let n := kp1 * kp1_dm1 in
  let v1 := fun g => swept n (sweep_value K Compression 0 1 8 kp1 kp1_dm1 ins g) [] in
  let v2 := fun g => swept n (sweep_value K Compression 1 2 8 kp1 kp1_dm1 v1 g) [] in
  swept n (sweep_value K Compression 2 4 8 kp1 kp1_dm1 v2 gt) [].

(** The scaling blocks of eight children whose blocks start at [cin] and
    are [stride] doubles apart. *)
Definition child_blocks (K : Kernel) (m : cmem) (cin stride : Z) (ft : Z) : list float :=
  read_block m (dptr_add cin (ft * stride)) (kp1 K * (kp1 K * kp1 K)).

(** ** Well-formed trees *)

(** Doubles in a coefficient block, [2^3 * kp1^3]. *)
Definition block_len (K : Kernel) : Z := 8 * (kp1 K * (kp1 K * kp1 K)).

(** What the recompression pass takes for granted: three dimensions; the
    children of a node are nodes, eight of them, with blocks that follow
    each other at the stride; [h] bounds the levels of refinement below
    a node, and the stack has room for the roots and eight nodes for
    each level below them; ranks index the status array and are not
    shared; the blocks of different nodes do not overlap; the roots are
    nodes. *)
Record up_wf (E : TreeEnv) (f : Forest) (roots : list Z) (h : Z -> nat) : Prop := mkUpWf {
  wf_dim : Dim (this f) = 3;
  wf_kp1 : 0 <= kp1 (kernel E);
  wf_roots : forall p, p ∈ roots -> is_Some (nodes f !! p);
  wf_rank : forall p nd, nodes f !! p = Some nd -> 0 <= NodeRank nd < nNodes (this f);
  wf_rank_inj : forall p q nd md,
      nodes f !! p = Some nd -> nodes f !! q = Some md ->
      NodeRank nd = NodeRank md -> p = q;
  wf_children : forall p nd c,
      nodes f !! p = Some nd -> c ∈ children nd ->
      exists cn, nodes f !! c = Some cn /\ (h c < h p)%nat;
  wf_stack : forall p, p ∈ roots ->
      Z.of_nat (length roots) + 8 * Z.of_nat (h p) < stack_size;
  wf_eight : forall p nd,
      nodes f !! p = Some nd -> children nd <> [] -> length (children nd) = 8%nat;
  wf_stride : forall p nd c0 (i : nat) c cn0 cn,
      nodes f !! p = Some nd -> children nd !! 0%nat = Some c0 ->
      children nd !! i = Some c ->
      nodes f !! c0 = Some cn0 -> nodes f !! c = Some cn ->
      coefvec cn = dptr_add (coefvec cn0) (Z.of_nat i * up_stride f);
  wf_apart : forall p q nd md,
      nodes f !! p = Some nd -> nodes f !! q = Some md -> p <> q ->
      blocks_apart (coefvec nd) (coefvec md) (block_len (kernel E))
}.

(** The nodes of the tree: the roots and the children of nodes of the
    tree. *)
Inductive reach (f : Forest) (roots : list Z) : Z -> Prop :=
| reach_root p : p ∈ roots -> reach f roots p
| reach_child p nd c :
    reach f roots p -> nodes f !! p = Some nd -> c ∈ children nd -> reach f roots c.

(** ** Vocabulary for the sweeps *)

(** [b] is [b0] but for the block of [n] doubles at [out] in the space
    [so]. *)
Definition same_but (so : space) (n out : Z) (b b0 : bufs) : Prop :=
  (forall s, s <> so -> buf b s = buf b0 s) /\
  (forall a, in_block out n a = false -> buf b so a = buf b0 so a).

(** The state of the inner loop of a sweep: the block at [out] holds the
    values accumulated so far, and [overwrite] tells whether there are
    any. *)
Definition inner_rel (so : space) (n out : Z) (b0 b : bufs)
    (acc : option (Z -> float)) (ow : float) : Prop :=
  same_but so n out b b0 /\
  (forall j, 0 <= j < n ->
     buf b so (dptr_add out j)
     = match acc with Some v => v j | None => buf b0 so (dptr_add out j) end) /\
  ow = match acc with Some _ => 1%float | None => 0%float end.

(** [b] is [b0] but for the [tDim] blocks a sweep writes. *)
Definition same_but_all (so : space) (out_base out_stride n tDim : Z)
    (b b0 : bufs) : Prop :=
  (forall s, s <> so -> buf b s = buf b0 s) /\
  (forall a, (forall g, 0 <= g < tDim ->
                in_block (dptr_add out_base (g * out_stride)) n a = false) ->
     buf b so a = buf b0 so a).

(** ** Vocabulary for the recompression pass *)

(** The test of the loop over the children: the child is finished or a
    leaf. *)
Definition up_ok (f : Forest) (status : list Z) (c : Z) : bool :=
  match nodes f !! c with
  | Some cn => (0 <? arr_get status (NodeRank cn)) || (getNChildren cn =? 0)
  | None => false
  end.

(** What stays as it is during the pass, the shape of the status array,
    and the stack within its array. *)
Definition up_base (f0 : Forest) (st : up_state) : Prop :=
  nodes (up_forest st) = nodes f0 /\
  this (up_forest st) = this f0 /\
  (forall i, arr_get (up_status st) i = 0 \/ arr_get (up_status st) i = 1) /\
  nNodes (this f0) <= Z.of_nat (length (up_status st)) /\
  (forall p, p ∈ up_stack st -> is_Some (nodes f0 !! p)) /\
  Z.of_nat (length (up_stack st)) < stack_size.

(** The block of a node is the same in two memories. *)
Definition same_block (K : Kernel) (m m0 : cmem) (nd : MWNode) : Prop :=
  forall j, 0 <= j < block_len K -> m (dptr_add (coefvec nd) j) = m0 (dptr_add (coefvec nd) j).

(** The block of a node is what Analysis makes of the scaling blocks of
    its children, as they are in the same memory. *)
Definition consistent (E : TreeEnv) (f0 : Forest) (m : cmem) (nd : MWNode) : Prop :=
  forall c0 cn0,
    children nd !! 0%nat = Some c0 -> nodes f0 !! c0 = Some cn0 ->
    forall g, 0 <= g < 8 ->
      read_block m (dptr_add (coefvec nd) (g * (kp1 (kernel E) * (kp1 (kernel E) * kp1 (kernel E)))))
                 (kp1 (kernel E) * (kp1 (kernel E) * kp1 (kernel E)))
      = analysis_block (kernel E)
          (child_blocks (kernel E) m (coefvec cn0) (up_stride f0)) g.

Definition finished_or_leaf (f0 : Forest) (status : list Z) (c : Z) : Prop :=
  exists cn, nodes f0 !! c = Some cn /\
             (children cn = [] \/ arr_get status (NodeRank cn) = 1).

(** The invariant of the pass, for the memory [m0] it started from:
    leaves and unfinished nodes have the block they had; a finished node
    is consistent and its children are finished or leaves; nothing
    outside the blocks of the nodes has changed. *)
Definition up_inv (E : TreeEnv) (f0 : Forest) (st : up_state) : Prop :=
  (forall p nd, nodes f0 !! p = Some nd ->
     (children nd = [] -> same_block (kernel E) (mem (up_forest st)) (mem f0) nd) /\
     (children nd <> [] ->
        (arr_get (up_status st) (NodeRank nd) = 0 /\
         same_block (kernel E) (mem (up_forest st)) (mem f0) nd) \/
        (arr_get (up_status st) (NodeRank nd) = 1 /\
         consistent E f0 (mem (up_forest st)) nd /\
         forall c, c ∈ children nd -> finished_or_leaf f0 (up_status st) c))) /\
  (forall a, (forall p nd, nodes f0 !! p = Some nd ->
                in_block (coefvec nd) (block_len (kernel E)) a = false) ->
     mem (up_forest st) a = mem f0 a).

(** The nodes that a finished pass has left finished, or leaves. *)
Definition up_good (f0 : Forest) (status1 : list Z) (p : Z) : Prop :=
  finished_or_leaf f0 status1 p.

(** The invariant of a second pass: the memory stays as the first pass
    left it, and only nodes the first pass finished are on the stack. *)
Definition up_inv2 (f0 : Forest) (m1 : cmem) (status1 : list Z) (st : up_state) : Prop :=
  (forall a, mem (up_forest st) a = m1 a) /\
  (forall p, p ∈ up_stack st -> up_good f0 status1 p).

(** The status a root is given before the rounds. *)
Definition up_mark_root (f : Forest) (status : list Z) (root : Z) : list Z :=
  match nodes f !! root with
  | Some nd => arr_set status (NodeRank nd) (if 0 <? getNChildren nd then 0 else 1)
  | None => status
  end.

(** The state at the first round. *)
Definition up_start (f : Forest) (roots : list Z) : up_state :=
  mkUpState f (rev roots)
    (fold_left (up_mark_root f) roots (replicate (Z.to_nat (nNodes (this f))) 0)).

(** ** A test for well-formed trees *)

Definition blocks_apart_b (p q n : Z) : bool :=
  (p + sizeof_double * n <=? q) || (q + sizeof_double * n <=? p).

(** What [up_wf] asks of the node [nd] at [p]. *)
Definition up_wf_node (E : TreeEnv) (f : Forest) (h : Z -> nat) (pn : Z * MWNode) : bool :=
  let p := fst pn in
  let nd := snd pn in
  (0 <=? NodeRank nd) && (NodeRank nd <? nNodes (this f)) &&
  match children nd with
  | [] => true
  | c0 :: _ =>
      (length (children nd) =? 8)%nat &&
      match nodes f !! c0 with
      | None => false
      | Some cn0 =>
          forallb (fun ic : nat * Z =>
                     match nodes f !! snd ic with
                     | Some cn =>
                         (h (snd ic) <? h p)%nat &&
                         (coefvec cn
                          =? dptr_add (coefvec cn0) (Z.of_nat (fst ic) * up_stride f))
                     | None => false
                     end)
                  (imap pair (children nd))
      end
  end &&
  forallb (fun qm : Z * MWNode =>
             (p =? fst qm) ||
             (negb (NodeRank nd =? NodeRank (snd qm)) &&
              blocks_apart_b (coefvec nd) (coefvec (snd qm)) (block_len (kernel E))))
          (map_to_list (nodes f)).

Definition up_wf_b (E : TreeEnv) (f : Forest) (roots : list Z) (h : Z -> nat) : bool :=
  (Dim (this f) =? 3) && (0 <=? kp1 (kernel E)) &&
  forallb (fun p => match nodes f !! p with
                    | Some _ => Z.of_nat (length roots) + 8 * Z.of_nat (h p) <? stack_size
                    | None => false
                    end) roots &&
  forallb (up_wf_node E f h) (map_to_list (nodes f)).

(** ** Sample data for the examples

    An arena of order 1 in three dimensions: blocks of [8 * 2^3 = 64]
    doubles (512 bytes), node records of 400 bytes, room for 128 nodes. *)

Definition float_of_Z (z : Z) : float := PrimFloat.of_uint63 (Uint63.of_Z z).

Definition mat_get (m : matrix) (r c : Z) : float :=
  nth (Z.to_nat c) (nth (Z.to_nat r) m []) 0%float.

(** A product for [applyFilter]: the block is read as a [kp1] by
    [kp1_dm1] matrix in column-major order, and the result is its
    transpose times the sub-filter. *)
Definition transposeProduct (oper : matrix) (kp1 kp1_dm1 : Z) (inblk : list float)
    (j : Z) : float :=
  let r := j mod kp1_dm1 in
  let c := j / kp1_dm1 in
  fold_left (fun acc k =>
               (acc + nth (Z.to_nat (k + kp1 * r)) inblk 0 * mat_get oper k c)%float)
            (seqZ 0 kp1) 0%float.

Definition transpose2 (m : matrix) : matrix :=
  [[mat_get m 0 0; mat_get m 1 0]; [mat_get m 0 1; mat_get m 1 1]].

Definition sample_filter : MWFilter :=
  let g0 := [[0.5; 0.25]; [0; 0.125]]%float in
  let g1 := [[-0.5; 0.25]; [0; -0.125]]%float in
  let h0 := [[0.75; 0]; [-0.25; 0.5]]%float in
  let h1 := [[0.75; 0]; [0.25; 0.5]]%float in
  mkMWFilter g0 g1 h0 h1 (transpose2 g0) (transpose2 g1) (transpose2 h0) (transpose2 h1).

Definition sample_kernel : Kernel :=
  mkKernel 2 sample_filter transposeProduct (fun a => float_of_Z (a mod 5)).

Definition sample_pool : SerialTree := SerialTree_init 3 1 400 800 128 4096 1000000.

(** Sample coefficient memory: small numbers that depend on the address. *)
Definition sample_mem : cmem := fun a => float_of_Z ((a / 8) mod 11).

(** A squared norm for [calcNorms]: the sum of the squares. *)
Definition sum_of_squares (n : MWNode) (blk : list float) : float :=
  fold_left (fun acc x => (acc + x * x)%float) blk 0%float.

(** A [genChildren] for the examples: [2^D] generated leaves, a node slot
    from [allocGenNodes(1)] and a block from [allocGenCoeff(2^D)] each. *)
Definition genChild (Node : Z) (tr : Z) (fk : run (Forest * list Z)) (i : Z)
    : run (Forest * list Z) :=
  do fk' <- fk ;
  let (f, kids) := fk' : Forest * list Z in
  match allocGenNodes (this f) 1 with
  | Fatal m => Failed (FatalMsg m)
  | Ok (t1, p) =>
      match allocGenCoeff t1 (Z.shiftl 1 (Dim t1)) with
      | Fatal m => Failed (FatalMsg m)
      | Ok (t2, q) =>
          let nd := mkMWNode Node [] tr q (p + 16) (nGenNodesCoeff t2)
                      (nNodes t2 - 1) false true 0%float in
          Finished (set_nodes (set_this f t2) (<[p := nd]> (nodes f)), kids ++ [p])
      end
  end.

Definition sample_genChildren (f : Forest) (Node : Z) : run (Forest * list Z) :=
  do nd <- deref f Node ;
  fold_left (genChild Node (tree nd)) (seqZ 0 (Z.shiftl 1 (Dim (this f))))
            (Finished (f, [])).

Definition sample_genChildren_link (f : Forest) (Node : Z) : run Forest :=
  do nd <- deref f Node ;
  do fk <- sample_genChildren f Node ;
  let nd' := mkMWNode (parent nd) (snd fk) (tree nd) (coefvec nd) (coefs nd)
               (NodeCoeffIx nd) (NodeRank nd) (hasWCoefs nd) (isGenNode nd)
               (squareNorm nd) in
  Finished (set_nodes (fst fk) (<[Node := nd']> (nodes (fst fk)))).

Definition sample_env : TreeEnv :=
  mkTreeEnv sample_kernel sample_genChildren_link sum_of_squares.

(** Node [r] of an arena: its record at [firstNode + r * sizeNodeMeta],
    its block at [firstNodeCoeff + r * sizeNodeCoeff]. *)
Definition node_addr (t : SerialTree) (r : Z) : Z := firstNode t + r * sizeNodeMeta t.
Definition block_addr (t : SerialTree) (r : Z) : Z := firstNodeCoeff t + r * sizeNodeCoeff t.

Definition arena_node (t : SerialTree) (par : option Z) (kids : list Z) (w : bool)
    (r : Z) : MWNode :=
  mkMWNode (match par with Some q => node_addr t q | None => 0 end)
    (node_addr t <$> kids) 64 (block_addr t r) (node_addr t r + 16) r r w false 0%float.

(** The nodes of a tree given by the list of the children of each rank
    and the parent of each rank. *)
Definition arena_nodes (t : SerialTree) (par : Z -> option Z) (kids : Z -> list Z)
    (w : Z -> bool) (ranks : list Z) : gmap Z MWNode :=
  fold_left (fun m r => <[node_addr t r := arena_node t (par r) (kids r) (w r) r]> m)
            ranks ∅.

(** Two single-root trees: the root of the first at rank 0 holds scaling
    coefficients only, the root of the second at rank 1 holds both. *)
Definition two_roots : Forest :=
  mkForest sample_pool
    (arena_nodes sample_pool (fun _ => None) (fun _ => []) (fun r => r =? 1) [0; 1])
    sample_mem 2 0%float.

(** A result tree whose single root (rank 0) is a leaf, and a second tree
    whose root (rank 100) has eight leaves (ranks 101 to 108); the
    allocator has handed out the slot and the block of rank 0. *)
Definition merge_pool : SerialTree :=
  state_of (run_ops sample_pool [OpAllocNodes 1; OpAllocCoeff 8]) sample_pool.

Definition merge_forest : Forest :=
  mkForest merge_pool
    (arena_nodes sample_pool
       (fun r => if (101 <=? r) && (r <=? 108) then Some 100 else None)
       (fun r => if r =? 100 then seqZ 101 8 else [])
       (fun _ => true) (0 :: seqZ 100 9))
    sample_mem 1 0%float.


(** A tree with three levels of refinement: the root (rank 0) has the
    children 1 to 8, node 1 has the children 9 to 16, and node 9 has the
    children 17 to 24. *)
Definition deep_kids (r : Z) : list Z :=
  if r =? 0 then seqZ 1 8 else if r =? 1 then seqZ 9 8
  else if r =? 9 then seqZ 17 8 else [].
Definition deep_parent (r : Z) : option Z :=
  if r =? 0 then None else if r <=? 8 then Some 0
  else if r <=? 16 then Some 1 else Some 9.

Definition deep_pool : SerialTree :=
  state_of (run_ops sample_pool
              (concat (replicate 25 [OpAllocNodes 1; OpAllocCoeff 8]))) sample_pool.

Definition deep_forest : Forest :=
  mkForest deep_pool
    (arena_nodes sample_pool deep_parent deep_kids (fun _ => true) (seqZ 0 25))
    sample_mem 25 0%float.

(** The arena copied 1 MiB further, into the arena of a second allocator
    whose pools were used in the same way. *)
Definition moved_pool : SerialTree :=
  state_of (run_ops (SerialTree_init 3 1 400 800 128 (4096 + 1048576) 3000000)
              (concat (replicate 25 [OpAllocNodes 1; OpAllocCoeff 8])))
           sample_pool.

Definition moved_forest : Forest := copy_arena 1048576 moved_pool deep_forest.

Definition moved_root : Z := node_addr sample_pool 0 + 1048576.

Definition forest_of (r : run Forest) (fallback : Forest) : Forest :=
  match r with Finished f => f | _ => fallback end.

Definition moved_rewritten : Forest :=
  forest_of (RewritePointers 77 24 [moved_root] 100 moved_forest) moved_forest.

(** A tree of uniform refinement depth 2: the root (rank 0) has the
    children 1 to 8, and the node of rank [r] among these has the
    children [8 r + 1] to [8 r + 8]; 73 nodes, 64 of them leaves. *)
Definition depth2_kids (r : Z) : list Z :=
  if r =? 0 then seqZ 1 8 else if r <=? 8 then seqZ (8 * r + 1) 8 else [].
Definition depth2_parent (r : Z) : option Z :=
  if r =? 0 then None else Some ((r - 1) / 8).

Definition depth2_pool : SerialTree :=
  state_of (run_ops sample_pool
              (concat (replicate 73 [OpAllocNodes 1; OpAllocCoeff 8]))) sample_pool.

Definition depth2_forest : Forest :=
  mkForest depth2_pool
    (arena_nodes sample_pool depth2_parent depth2_kids (fun _ => true) (seqZ 0 73))
    sample_mem 73 0%float.

Definition depth2_root : Z := node_addr sample_pool 0.

(** The levels of refinement below the node at [p]. *)
Definition depth2_height (p : Z) : nat :=
  match nodes depth2_forest !! p with
  | Some nd => if NodeRank nd =? 0 then 2 else if NodeRank nd <=? 8 then 1 else 0
  | None => 0
  end.

(** ** The pools in use

    More vocabulary for the three pools: runs of the allocator in which
    every argument is one the arrays have an entry for, the pointers a
    series of calls returns, and the size of the arena. *)

(** [n] calls of [allocNodes(1)] with the pointers they return, as the
    loop over the root box in the constructor makes them (lines 102 to
    107). *)
Fixpoint allocNodes_seq (n : nat) (t : SerialTree) : outcome (SerialTree * list Z) :=
  match n with
  | O => Ok (t, [])
  | S k =>
      match allocNodes t 1 with
      | Fatal m => Fatal m
      | Ok (t1, p) =>
          match allocNodes_seq k t1 with
          | Fatal m => Fatal m
          | Ok (t2, ps) => Ok (t2, p :: ps)
          end
      end
  end.

(** A node is made by [allocNodes(1)] and released again through the
    rank that was written into it. *)
Definition alloc_release (t : SerialTree) : outcome (SerialTree * Z) :=
  match allocNodes t 1 with
  | Fatal m => Fatal m
  | Ok (t1, p) => Ok (DeAllocNodes t1 (default 0 (NodeRankAt t1 !! p)), p)
  end.

Fixpoint alloc_release_times (k : nat) (t : SerialTree) : outcome SerialTree :=
  match k with
  | O => Ok t
  | S k' =>
      match alloc_release t with
      | Fatal m => Fatal m
      | Ok (t1, _) => alloc_release_times k' t1
      end
  end.

(** [n] calls of [allocCoeff(2^D)] with the pointers they return. *)
Fixpoint allocCoeff_seq (n : nat) (t : SerialTree) : outcome (SerialTree * list Z) :=
  match n with
  | O => Ok (t, [])
  | S k =>
      match allocCoeff t (Z.shiftl 1 (Dim t)) with
      | Fatal m => Fatal m
      | Ok (t1, p) =>
          match allocCoeff_seq k t1 with
          | Fatal m => Fatal m
          | Ok (t2, ps) => Ok (t2, p :: ps)
          end
      end
  end.

(** The same for [allocGenCoeff(2^D)]. *)
Fixpoint allocGenCoeff_seq (n : nat) (t : SerialTree) : outcome (SerialTree * list Z) :=
  match n with
  | O => Ok (t, [])
  | S k =>
      match allocGenCoeff t (Z.shiftl 1 (Dim t)) with
      | Fatal m => Fatal m
      | Ok (t1, p) =>
          match allocGenCoeff_seq k t1 with
          | Fatal m => Fatal m
          | Ok (t2, ps) => Ok (t2, p :: ps)
          end
      end
  end.

(** Releases of blocks of the permanent pool, in the order of the
    list. *)
Definition release_coeffs (t : SerialTree) (ixs : list Z) : SerialTree :=
  fold_left DeAllocCoeff ixs t.

(** [mysize], the number of doubles of the arena (line 52): the
    divisions and the product are done in [size_t], the result is stored
    in an [int]. *)
Definition arena_doubles (t : SerialTree) : Z :=
  int32 (to_size_t (to_size_t (sizeTreeMeta t) / sizeof_double
                    + to_size_t (maxNodes t) * (to_size_t (sizeNode t) / sizeof_double))).

(** An operation whose arguments the arrays of the pools have entries
    for: nodes are allocated one at a time, blocks by [2^D], and what is
    released is an index of the pool. *)
Definition op_in_range (t : SerialTree) (o : alloc_op) : Prop :=
  match o with
  | OpAllocNodes n | OpAllocGenNodes n => n = 1
  | OpDeAllocNodes r => 0 <= r < maxNodes t
  | OpAllocCoeff n | OpAllocGenCoeff n => n = Z.shiftl 1 (Dim t)
  | OpDeAllocCoeff i => 0 <= i < maxNodesCoeff t
  | OpDeAllocGenCoeff i => 0 <= i < maxGenNodesCoeff t
  end.

(** What the node pool keeps in every such run: the count is within
    the budget, the slot below the top is occupied, every slot from the
    top on is free, and the entry after the last slot is the mark
    [-1]. *)
Definition node_pool_inv (t : SerialTree) : Prop :=
  node_pool_ok t /\
  (forall i, nNodes t <= i < maxNodes t -> arr_get (NodeStackStatus t) i = 0) /\
  arr_get (NodeStackStatus t) (maxNodes t) = -1.

(** What the permanent pool keeps: the top is an index of the pool or
    [-1], the block at the top is occupied when the top is above [0],
    every block above the top is free, and the entry after the last
    block is the mark [-1]. *)
Definition coeff_pool_inv (t : SerialTree) : Prop :=
  coeff_pool_ok t /\
  (forall i, nNodesCoeff t < i < maxNodesCoeff t -> arr_get (CoeffStackStatus t) i = 0) /\
  arr_get (CoeffStackStatus t) (maxNodesCoeff t) = -1.

(** The messages of the node pool. *)
Definition node_pool_msg (m : msg) : bool :=
  match m with
  | MinNodesExceeded _ | NodeStackNotAvailable _ _ => true
  | _ => false
  end.

(** What no operation of the allocator changes. *)
Definition pool_consts (t : SerialTree) : Z * Z * Z * Z * Z :=
  (Dim t, maxNodes t, maxNodesCoeff t, maxGenNodesCoeff t, sizeNodeMeta t).

(** A run on [pool4] with every kind of operation. *)
Definition pool4_run : list alloc_op :=
  [OpAllocNodes 1; OpAllocCoeff 8; OpAllocGenNodes 1; OpAllocGenCoeff 8;
   OpAllocNodes 1; OpDeAllocNodes 0; OpDeAllocCoeff 0; OpDeAllocGenCoeff 0;
   OpDeAllocNodes 1; OpAllocCoeff 8].
Definition pool4_used : SerialTree := state_of (run_ops pool4 pool4_run) pool4.

(** [pool4] when its four blocks have been handed out. *)
Definition pool4_full : SerialTree :=
  state_of (run_ops pool4 (replicate 4 (OpAllocCoeff 8))) pool4.

(** [pool4] when two blocks have been handed out and released, the
    last one first. *)
Definition pool4_round_trip : SerialTree :=
  state_of (run_ops pool4 [OpAllocCoeff 8; OpAllocCoeff 8; OpDeAllocCoeff 1;
                           OpDeAllocCoeff 0]) pool4.

(** [pool4] when three blocks of the generated pool have been handed
    out, and when two blocks of each coefficient pool have been. *)
Definition pool4_gen3 : SerialTree :=
  state_of (run_ops pool4 (replicate 3 (OpAllocGenCoeff 8))) pool4.
Definition pool4_both2 : SerialTree :=
  state_of (run_ops pool4 [OpAllocCoeff 8; OpAllocCoeff 8; OpAllocGenCoeff 8;
                           OpAllocGenCoeff 8]) pool4.

(** The number of doubles of the array of the generated pool (line 56):
    the product is an [int], the division is done in [size_t]. *)
Definition gen_doubles (t : SerialTree) : Z :=
  elem_offset (maxGenNodesCoeff t) (sizeGenNodeCoeff t).

(** An arena of order 10 in three dimensions with room for 50421 nodes:
    blocks of [8 * 11^3] doubles (85184 bytes), node records of 400
    bytes.  The constructor asks for 539403958 doubles, a number an
    [int] holds. *)
Definition big_pool : SerialTree := SerialTree_init 3 10 400 800 50421 4096 1000000.

(** ** Values of the Synthesis kernel *)

(** Sub-block [ft] of the block of the parent at [cin]. *)
Definition parent_blocks (K : Kernel) (m : cmem) (cin : Z) (ft : Z) : list float :=
  read_block m (dptr_add cin (ft * (kp1 K * (kp1 K * kp1 K))))
             (kp1 K * (kp1 K * kp1 K)).

(** What the first sweep of [S_mwTransform] puts into sub-block [g] at
    [coeff_out], if it writes there. *)
Definition synthesis_first (K : Kernel) (ReadOnlyScalingCoeff : bool)
    (ins : Z -> list float) (g : Z) : option (Z -> float) :=
  sweep_value K Reconstruction 0 1 (if ReadOnlyScalingCoeff then 1 else 8)
              (kp1 K) (kp1 K * kp1 K) ins g.

(** The scaling block of child [gt] that Synthesis computes from the
    sub-blocks [ins 0], ..., [ins 7] of the parent. *)
Definition synthesis_block (K : Kernel) (ReadOnlyScalingCoeff : bool)
    (ins : Z -> list float) (gt : Z) : list float :=
  let kp1 := kp1 K in
  let kp1_dm1 := kp1 * kp1 in
  let n := kp1 * kp1_dm1 in
  let v1 := fun g => swept n (synthesis_first K ReadOnlyScalingCoeff ins g) [] in
  let v2 := fun g => swept n (sweep_value K Reconstruction 1 2
                                (if ReadOnlyScalingCoeff then 2 else 8)
                                kp1 kp1_dm1 v1 g) [] in
  swept n (sweep_value K Reconstruction 2 4 (if ReadOnlyScalingCoeff then 4 else 8)
             kp1 kp1_dm1 v2 gt) [].

(** The product of a block with one sub-filter, as a block. *)
Definition filtered (k : Z) (product : matrix -> Z -> Z -> list float -> Z -> float)
    (m : matrix) (blk : list float) : list float :=
  product m k (k * k) blk <$> seqZ 0 (k * (k * k)).

(** A scaling block pushed through the scaling filters: [h0] or [h1] in
    each of the three directions, as the bits of [g] say. *)
Definition scaling_synthesis (k : Z)
    (product : matrix -> Z -> Z -> list float -> Z -> float)
    (h0 h1 : matrix) (blk : list float) (g : Z) : list float :=
  let h := fun bit : Z => if bit =? 0 then h0 else h1 in
  filtered k product (h (Z.land (Z.shiftr g 2) 1))
    (filtered k product (h (Z.land (Z.shiftr g 1) 1))
       (filtered k product (h (Z.land g 1)) blk)).

(** The kernel [K] with the content [u] in its local array. *)
Definition with_uninit (K : Kernel) (u : cmem) : Kernel :=
  mkKernel (kp1 K) (filter K) (filterProduct K) u.

(** ** A node that gets children *)



Definition node_at (f : Forest) (p : Z) : MWNode :=
  default (arena_node sample_pool None [] false 0) (nodes f !! p).

(** ** The blocks of the filter (MWFilter.cpp) *)

(** [m.block(i, j, p, q)]: the [p] rows from row [i] on, and of each the
    [q] entries from column [j] on; the matrix is a list of rows. *)
Definition block (m : matrix) (i j p q : Z) : matrix :=
  (fun row => take (Z.to_nat q) (drop (Z.to_nat j) row))
    <$> take (Z.to_nat p) (drop (Z.to_nat i) m).

(** [m.transpose()] for a matrix of [p] rows and [q] columns. *)
Definition transpose (p q : Z) (m : matrix) : matrix :=
  (fun c => (fun r => mat_get m r c) <$> seqZ 0 p) <$> seqZ 0 q.

(** [MWFilter::fillFilterBlocks()] for the fields [order] and [filter]. *)
Definition fillFilterBlocks (order : Z) (filter : matrix) : MWFilter :=
  let K := int32 (order + 1) in
  let G0 := block filter 0 0 K K in
  let G1 := block filter 0 K K K in
  let H0 := block filter K 0 K K in
  let H1 := block filter K K K K in
  mkMWFilter G0 G1 H0 H1
    (transpose K K G0) (transpose K K G1) (transpose K K H0) (transpose K K H1).

(** A matrix of [n] rows and [n] columns. *)
Definition square (n : Z) (m : matrix) : Prop :=
  length m = Z.to_nat n /\ Forall (fun row => length row = Z.to_nat n) m.

(** The filter matrix with the blocks of [sample_filter]. *)
Definition sample_filter_matrix : matrix :=
  [[0.5; 0.25; -0.5; 0.25]; [0; 0.125; 0; -0.125];
   [0.75; 0; 0.75; 0]; [-0.25; 0.5; 0.25; 0.5]]%float.

(** ** Trees of node addresses *)

(** The shape of a tree in the arena: the address of a node and the
    trees of its children, in the order of the child array. *)
#[warnings="-register-all"] Inductive rtree : Type := RNode (addr : Z) (kids : list rtree).

Definition raddr (t : rtree) : Z := match t with RNode p _ => p end.

(** The addresses of the nodes of a tree, and of a list of trees. *)
Fixpoint raddrs (t : rtree) : list Z :=
  match t with RNode p ks => p :: concat (map raddrs ks) end.

Definition addrs (ts : list rtree) : list Z := concat (map raddrs ts).

(** The entries of the stack that the walk of [RewritePointers] needs
    above the place of a tree: its children are pushed together, and
    child [i] is walked with the children before it still below it. *)
Definition need_list (need : rtree -> nat) : list rtree -> nat -> nat :=
  fix go (ks : list rtree) (i : nat) : nat :=
    match ks with
    | [] => 0%nat
    | k :: ks' => Nat.max (i + need k) (go ks' (S i))
    end.

Fixpoint stack_need (t : rtree) : nat :=
  match t with RNode _ ks => Nat.max (length ks) (need_list stack_need ks 0) end.

(** A stack of trees, top first, whose walk stays inside the stack
    array. *)
Fixpoint fits (S : list rtree) : Prop :=
  match S with
  | [] => True
  | t :: rest => (length rest + stack_need t <= Z.to_nat stack_size)%nat /\ fits rest
  end.

(** The records of a tree after the arena was copied: the record of a
    node is at its address, and its child pointers, moved by [d]
    doubles, are the addresses of its children. *)
#[warnings="-register-all"] Inductive moved_tree (nodes : gmap Z MWNode) (d : Z) : rtree -> Prop :=
| moved_node p ks nd :
    nodes !! p = Some nd ->
    (fun c => dptr_add c d) <$> children nd = raddr <$> ks ->
    Forall (moved_tree nodes d) ks ->
    moved_tree nodes d (RNode p ks).

Fixpoint moved_tree_b (nodes : gmap Z MWNode) (d : Z) (t : rtree) : bool :=
  match t with
  | RNode p ks =>
      match nodes !! p with
      | Some nd => bool_decide ((fun c => dptr_add c d) <$> children nd = raddr <$> ks)
      | None => false
      end && forallb (moved_tree_b nodes d) ks
  end.

(** The record that [RewritePointers] leaves for the node at [p] whose
    record was [nd]. *)
Definition relocated (t : SerialTree) (mwTree_p offsetof_coefvec d_p_shift : Z)
    (p : Z) (nd : MWNode) : MWNode :=
  set_links nd (dptr_add (parent nd) d_p_shift)
    ((fun c => dptr_add c d_p_shift) <$> children nd)
    mwTree_p
    (dptr_add (firstNodeCoeff t) (elem_offset (NodeCoeffIx nd) (sizeNodeCoeff t)))
    (p + offsetof_coefvec).

(** The tree of a node given by rank, with the children of each rank. *)
Fixpoint rtree_of (fuel : nat) (kids : Z -> list Z) (addr : Z -> Z) (r : Z) : rtree :=
  match fuel with
  | O => RNode (addr r) []
  | S fuel' => RNode (addr r) (map (rtree_of fuel' kids addr) (kids r))
  end.

(** The tree of [deep_forest] at the addresses of its copy. *)
Definition moved_rtree : rtree :=
  rtree_of 4 deep_kids (fun r => node_addr sample_pool r + 1048576) 0.

(** ** Node pairs for the merge *)

(** Two single-root trees whose roots (ranks 0 and 1) both hold scaling
    coefficients only. *)
Definition two_plain : Forest :=
  mkForest sample_pool
    (arena_nodes sample_pool (fun _ => None) (fun _ => []) (fun _ => false) [0; 1])
    sample_mem 2 0%float.

(** ** Two trees of the same shape *)










(** * Properties *)

(** ** Machine integers and arrays *)

Lemma int32_id z : INT_MIN <= z <= INT_MAX -> int32 z = z.
Proof.
  unfold INT_MIN, INT_MAX, int32. intros H.
  rewrite Z.mod_small by lia. lia.
Qed.

Lemma arr_get_set_eq a i v :
  0 <= i < Z.of_nat (length a) -> arr_get (arr_set a i v) i = v.
Proof.
  intros H. unfold arr_get, arr_set.
  destruct (0 <=? i) eqn:E; [|lia].
  rewrite list_lookup_insert_eq by lia. reflexivity.
Qed.

Lemma arr_get_set_ne a i j v : i <> j -> arr_get (arr_set a i v) j = arr_get a j.
Proof.
  intros H. unfold arr_get, arr_set.
  destruct (0 <=? j) eqn:Ej; [|reflexivity].
  destruct (0 <=? i) eqn:Ei; [|reflexivity].
  rewrite list_lookup_insert_ne; [reflexivity|].
  intros E. apply H. apply Z.leb_le in Ei, Ej. lia.
Qed.

Lemma arr_set_length a i v : length (arr_set a i v) = length a.
Proof. unfold arr_set. destruct (0 <=? i); [apply length_insert|reflexivity]. Qed.

Lemma arr_set_same a i : arr_get a i = 0 -> arr_set a i 0 = a.
Proof.
  unfold arr_get, arr_set. intros H.
  destruct (0 <=? i) eqn:E; [|reflexivity].
  destruct (a !! Z.to_nat i) eqn:L; simpl in H.
  - apply list_insert_id. congruence.
  - apply list_insert_ge. apply lookup_ge_None in L. exact L.
Qed.

(** The loop that moves the top stops at the first occupied slot, or
    at [0]. *)
Lemma recede_loop_spec status off fuel top :
  (Z.to_nat top <= fuel)%nat ->
  let r := recede_loop status off fuel top in
  r <= top /\ (top <= 0 -> r = top) /\ (0 <= top -> 0 <= r) /\
  (forall i, r < i <= top -> arr_get status (i + off) = 0) /\
  (r <= 0 \/ arr_get status (r + off) <> 0).
Proof.
  revert top. induction fuel as [|fuel IH]; intros top Hf; simpl.
  - repeat split; try lia.
  - destruct (arr_get status (top + off) =? 0) eqn:E1;
    destruct (0 <? top) eqn:E2; simpl.
    + apply Z.eqb_eq in E1. apply Z.ltb_lt in E2.
      destruct (IH (top - 1)) as (H1 & H2 & H3 & H4 & H5); [lia|].
      split; [lia|]. split; [lia|]. split; [lia|]. split; [|exact H5].
      intros i Hi. destruct (Z.eq_dec i top) as [->|Hne]; [exact E1|].
      apply H4. lia.
    + apply Z.ltb_ge in E2. repeat split; try lia.
    + apply Z.eqb_neq in E1.
      split; [lia|]. split; [lia|]. split; [lia|]. split; [|right; exact E1].
      intros i Hi. lia.
    + apply Z.ltb_ge in E2. repeat split; try lia.
Qed.

Lemma recede_spec status off top :
  let r := recede status off top in
  r <= top /\ (top <= 0 -> r = top) /\ (0 <= top -> 0 <= r) /\
  (forall i, r < i <= top -> arr_get status (i + off) = 0) /\
  (r <= 0 \/ arr_get status (r + off) <> 0).
Proof. apply recede_loop_spec. lia. Qed.

(** A top that sits on an occupied slot does not move. *)
Lemma recede_occupied status off top :
  arr_get status (top + off) <> 0 -> recede status off top = top.
Proof.
  intros H. unfold recede. destruct (Z.to_nat top) eqn:E; simpl; [reflexivity|].
  apply Z.eqb_neq in H. rewrite H. reflexivity.
Qed.

Lemma recede_nonpos status off top : top <= 0 -> recede status off top = top.
Proof. intros H. apply (recede_spec status off top). exact H. Qed.

(** The top goes down to [lo] when every slot from [lo] up is free and
    the slot below [lo] is occupied (or [lo] is [0]). *)
Lemma recede_to status off top lo :
  0 <= lo <= top ->
  (forall i, lo < i <= top -> arr_get status (i + off) = 0) ->
  (lo = 0 \/ arr_get status (lo + off) <> 0) ->
  recede status off top = lo.
Proof.
  intros Hlo Hfree Hstop.
  destruct (recede_spec status off top) as (H1 & H2 & H3 & H4 & H5).
  set (r := recede status off top) in *.
  destruct (Z.lt_trichotomy r lo) as [Hlt|[Heq|Hgt]]; [|exact Heq|].
  - destruct Hstop as [->|Hocc]; [lia|].
    exfalso. apply Hocc. apply H4. lia.
  - exfalso. destruct H5 as [H5|H5]; [lia|]. apply H5. apply Hfree. lia.
Qed.

(** ** Node pool *)

(** A single-slot allocation below the budget takes the slot at the
    top. *)
Lemma allocNodes_one t :
  node_pool_ok t -> nNodes t < maxNodes t ->
  exists t',
    allocNodes t 1 = Ok (t', lastNode t) /\
    nNodes t' = nNodes t + 1 /\
    maxNodes t' = maxNodes t /\
    NodeStackStatus t' = arr_set (NodeStackStatus t) (nNodes t) 1 /\
    NodeRankAt t' = <[lastNode t := nNodes t]> (NodeRankAt t).
Proof.
  intros (Hn & Hmax & Hlen & Htop) Hlt.
  unfold allocNodes. cbn [nNodes maxNodes set_nNodes lastNode].
  rewrite int32_id by (unfold INT_MIN, INT_MAX in *; lia).
  destruct (maxNodes t <? nNodes t + 1) eqn:E; [apply Z.ltb_lt in E; lia|].
  eexists. split; [reflexivity|].
  change (seqZ 0 1) with [0]. cbn [fold_left].
  unfold allocNodes_mark.
  cbn [nNodes set_nNodes set_lastNode set_NodeRankAt NodeStackStatus NodeRankAt].
  replace (nNodes t + 1 + 0 - 1) with (nNodes t) by lia.
  destruct (arr_get (NodeStackStatus t) (nNodes t) =? 0); cbn; auto.
Qed.

Lemma node_pool_ok_alloc t t' p :
  node_pool_ok t -> nNodes t < maxNodes t -> allocNodes t 1 = Ok (t', p) ->
  node_pool_ok t'.
Proof.
  intros Hok Hlt Ha.
  destruct (allocNodes_one t Hok Hlt) as (t1 & E & Hn & Hm & Hs & _).
  rewrite E in Ha. injection Ha as <- <-.
  destruct Hok as (Hn0 & Hmax & Hlen & Htop).
  unfold node_pool_ok. rewrite Hn, Hm, Hs, arr_set_length.
  repeat split; try lia.
  right. replace (nNodes t + 1 - 1) with (nNodes t) by lia.
  rewrite arr_get_set_eq by lia. lia.
Qed.

(** Releasing a slot that is not the top slot only clears its entry. *)
Lemma DeAllocNodes_non_top t r :
  0 <= nNodes t -> r <> nNodes t - 1 ->
  DeAllocNodes t r = set_NodeStackStatus t (arr_set (NodeStackStatus t) r 0).
Proof.
  intros Hn Hr. unfold DeAllocNodes.
  destruct (nNodes t <? 0) eqn:E; [apply Z.ltb_lt in E; lia|].
  cbn [nNodes set_NodeStackStatus].
  destruct (r =? nNodes t - 1) eqn:E2; [apply Z.eqb_eq in E2; lia|reflexivity].
Qed.

(** Releasing the top slot clears its entry and moves the top. *)
Lemma DeAllocNodes_top t :
  0 <= nNodes t ->
  DeAllocNodes t (nNodes t - 1) =
  set_nNodes (set_NodeStackStatus t (arr_set (NodeStackStatus t) (nNodes t - 1) 0))
    (recede (arr_set (NodeStackStatus t) (nNodes t - 1) 0) (-1) (nNodes t)).
Proof.
  intros Hn. unfold DeAllocNodes.
  destruct (nNodes t <? 0) eqn:E; [apply Z.ltb_lt in E; lia|].
  cbn [nNodes set_NodeStackStatus NodeStackStatus].
  rewrite Z.eqb_refl. reflexivity.
Qed.

Lemma DeAllocNodes_status t r :
  0 <= nNodes t ->
  NodeStackStatus (DeAllocNodes t r) = arr_set (NodeStackStatus t) r 0.
Proof.
  intros Hn. destruct (Z.eq_dec r (nNodes t - 1)) as [->|Hne].
  - rewrite DeAllocNodes_top by exact Hn. reflexivity.
  - rewrite DeAllocNodes_non_top by assumption. reflexivity.
Qed.

Lemma DeAllocNodes_maxNodes t r : maxNodes (DeAllocNodes t r) = maxNodes t.
Proof.
  unfold DeAllocNodes.
  destruct (nNodes t <? 0); cbn [nNodes set_NodeStackStatus set_nNodes println];
  match goal with |- context [if ?c then _ else _] => destruct c end; reflexivity.
Qed.

Lemma node_pool_ok_release t r : node_pool_ok t -> node_pool_ok (DeAllocNodes t r).
Proof.
  intros (Hn & Hmax & Hlen & Htop).
  destruct (Z.eq_dec r (nNodes t - 1)) as [->|Hne].
  - rewrite DeAllocNodes_top by lia.
    set (s := arr_set (NodeStackStatus t) (nNodes t - 1) 0).
    destruct (recede_spec s (-1) (nNodes t)) as (H1 & H2 & H3 & H4 & H5).
    unfold node_pool_ok. cbn [nNodes maxNodes NodeStackStatus set_nNodes set_NodeStackStatus].
    subst s. rewrite arr_set_length.
    repeat split; try lia.
    destruct H5 as [H5|H5]; [left; lia|right].
    replace (recede (arr_set (NodeStackStatus t) (nNodes t - 1) 0) (-1) (nNodes t) - 1)
      with (recede (arr_set (NodeStackStatus t) (nNodes t - 1) 0) (-1) (nNodes t) + -1)
      by lia.
    exact H5.
  - rewrite DeAllocNodes_non_top by lia.
    unfold node_pool_ok. cbn [nNodes maxNodes NodeStackStatus set_NodeStackStatus].
    rewrite arr_set_length. repeat split; try lia.
    destruct Htop as [H0|Hocc]; [left; exact H0|right].
    rewrite arr_get_set_ne by lia. exact Hocc.
Qed.

(** Where the top lands after the release of the top slot. *)
Lemma DeAllocNodes_top_lands t :
  node_pool_ok t -> 0 < nNodes t ->
  let t' := DeAllocNodes t (nNodes t - 1) in
  nNodes t' < nNodes t /\
  (forall i, nNodes t' <= i < nNodes t -> arr_get (NodeStackStatus t') i = 0) /\
  (nNodes t' = 0 \/ arr_get (NodeStackStatus t') (nNodes t' - 1) <> 0).
Proof.
  intros Hok Hpos. pose proof (node_pool_ok_release t (nNodes t - 1) Hok) as Hok'.
  destruct Hok as (Hn & Hmax & Hlen & Htop).
  cbn zeta. rewrite DeAllocNodes_top in * by lia.
  set (s := arr_set (NodeStackStatus t) (nNodes t - 1) 0) in *.
  cbn [nNodes NodeStackStatus set_nNodes set_NodeStackStatus].
  destruct (recede_spec s (-1) (nNodes t)) as (H1 & H2 & H3 & H4 & H5).
  assert (Hs : arr_get s (nNodes t + -1) = 0).
  { subst s. replace (nNodes t + -1) with (nNodes t - 1) by lia.
    apply arr_get_set_eq. lia. }
  split; [|split].
  - destruct (Z.eq_dec (recede s (-1) (nNodes t)) (nNodes t)) as [E|E]; [|lia].
    destruct H5 as [H5|H5]; [lia|]. rewrite E in H5. contradiction.
  - intros i Hi. replace i with ((i + 1) + -1) by lia. apply H4. lia.
  - destruct Hok' as (_ & _ & _ & Ht'). exact Ht'.
Qed.

(** ** Allocating and releasing in reverse order *)

Lemma reverse_ranks_S n0 N :
  reverse_ranks n0 (S N) = reverse_ranks (n0 + 1) N ++ [n0].
Proof.
  unfold reverse_ranks.
  replace (Z.of_nat (S N)) with (Z.succ (Z.of_nat N)) by lia.
  rewrite seqZ_cons by lia. cbn [rev].
  replace (Z.succ n0) with (n0 + 1) by lia.
  replace (Z.pred (Z.succ (Z.of_nat N))) with (Z.of_nat N) by lia.
  reflexivity.
Qed.

Lemma alloc_release_reverse N : forall t,
  node_pool_ok t -> nNodes t + Z.of_nat N <= maxNodes t ->
  exists t1,
    allocNodes_times N t = Ok t1 /\
    nNodes t1 = nNodes t + Z.of_nat N /\
    (forall i, nNodes t <= i < nNodes t + Z.of_nat N ->
               arr_get (NodeStackStatus t1) i = 1) /\
    (forall i, i < nNodes t ->
               arr_get (NodeStackStatus t1) i = arr_get (NodeStackStatus t) i) /\
    let t2 := release_all t1 (reverse_ranks (nNodes t) N) in
    node_pool_ok t2 /\
    nNodes t2 = nNodes t /\
    (forall i, i < nNodes t ->
               arr_get (NodeStackStatus t2) i = arr_get (NodeStackStatus t) i) /\
    (forall i, nNodes t <= i < nNodes t + Z.of_nat N ->
               arr_get (NodeStackStatus t2) i = 0).
Proof.
  induction N as [|N IH]; intros t Hok Hfit.
  - exists t. split; [reflexivity|]. split; [lia|].
    split; [intros; lia|]. split; [reflexivity|].
    change (reverse_ranks (nNodes t) 0) with (@nil Z). cbn [release_all fold_left].
    split; [exact Hok|]. split; [reflexivity|]. split; [reflexivity|intros; lia].
  - assert (Hlt : nNodes t < maxNodes t) by lia.
    destruct (allocNodes_one t Hok Hlt) as (t' & Ea & Hn' & Hm' & Hs' & _).
    pose proof (node_pool_ok_alloc t t' _ Hok Hlt Ea) as Hok'.
    destruct (IH t' Hok') as (t1 & E1 & Hn1 & Hocc1 & Hlow1 & Hok2 & Hn2 & Hlow2 & Hfree2);
      [lia|].
    destruct Hok as (Hn0 & Hmax & Hlen & Htop).
    exists t1. cbn [allocNodes_times]. rewrite Ea.
    split; [exact E1|]. split; [lia|]. split.
    { intros i Hi. destruct (Z.eq_dec i (nNodes t)) as [->|Hne].
      - rewrite Hlow1 by lia. rewrite Hs'. apply arr_get_set_eq. lia.
      - apply Hocc1. lia. }
    split.
    { intros i Hi. rewrite Hlow1 by lia. rewrite Hs'. apply arr_get_set_ne. lia. }
    cbn zeta. rewrite reverse_ranks_S. unfold release_all.
    rewrite fold_left_app. cbn [fold_left].
    rewrite Hn' in *.
    set (t2 := fold_left DeAllocNodes (reverse_ranks (nNodes t + 1) N) t1) in *.
    unfold release_all in Hok2, Hn2, Hlow2, Hfree2. fold t2 in Hok2, Hn2, Hlow2, Hfree2.
    assert (Hst : NodeStackStatus (DeAllocNodes t2 (nNodes t))
                  = arr_set (NodeStackStatus t2) (nNodes t) 0).
    { apply DeAllocNodes_status. lia. }
    assert (Hlen2 : Z.of_nat (length (NodeStackStatus t2)) = maxNodes t2 + 1)
      by apply Hok2.
    assert (Hm2 : nNodes t2 <= maxNodes t2) by apply Hok2.
    split; [apply node_pool_ok_release; exact Hok2|].
    split; [|split].
    + replace (nNodes t) with (nNodes t2 - 1) at 1 by lia.
      rewrite DeAllocNodes_top by lia.
      cbn [nNodes set_nNodes]. rewrite Hn2.
      replace (nNodes t + 1 - 1) with (nNodes t) by lia.
      apply recede_to; [lia| |].
      * intros i Hi. assert (i = nNodes t + 1) as -> by lia.
        replace (nNodes t + 1 + -1) with (nNodes t) by lia.
        apply arr_get_set_eq. lia.
      * destruct Htop as [H0|Hocc]; [left; exact H0|right].
        rewrite arr_get_set_ne by lia.
        replace (nNodes t + -1) with (nNodes t - 1) by lia.
        rewrite Hlow2 by lia. rewrite Hs'.
        rewrite arr_get_set_ne by lia. exact Hocc.
    + intros i Hi. rewrite Hst. rewrite arr_get_set_ne by lia.
      rewrite Hlow2 by lia. rewrite Hs'. apply arr_get_set_ne. lia.
    + intros i Hi. rewrite Hst.
      destruct (Z.eq_dec i (nNodes t)) as [->|Hne].
      * apply arr_get_set_eq. lia.
      * rewrite arr_get_set_ne by lia. apply Hfree2. lia.
Qed.

(** ** Counting holes *)

Lemma count_free_ext s s' n :
  (forall i, 0 <= i < Z.of_nat n -> arr_get s i = arr_get s' i) ->
  count_free s n = count_free s' n.
Proof.
  induction n as [|n IH]; intros H; [reflexivity|].
  cbn [count_free]. rewrite (H (Z.of_nat n)) by lia.
  rewrite IH; [reflexivity|]. intros i Hi. apply H. lia.
Qed.

Lemma count_free_clear s r n :
  0 <= r < Z.of_nat n -> r < Z.of_nat (length s) -> arr_get s r <> 0 ->
  count_free (arr_set s r 0) n = S (count_free s n).
Proof.
  induction n as [|n IH]; intros Hr Hlen Hocc; [lia|].
  cbn [count_free].
  destruct (Z.eq_dec r (Z.of_nat n)) as [E|E].
  - rewrite <- E. rewrite arr_get_set_eq by lia. cbn.
    apply Z.eqb_neq in Hocc. rewrite Hocc. cbn. f_equal.
    apply count_free_ext. intros i Hi. apply arr_get_set_ne. lia.
  - rewrite arr_get_set_ne by lia. rewrite IH by lia. lia.
Qed.

Lemma count_free_run s lo n :
  (forall i, Z.of_nat lo <= i < Z.of_nat (lo + n) -> arr_get s i = 0) ->
  count_free s (lo + n) = (count_free s lo + n)%nat.
Proof.
  induction n as [|n IH]; intros H.
  - rewrite Nat.add_0_r. lia.
  - replace (lo + S n)%nat with (S (lo + n)) by lia. cbn [count_free].
    rewrite H by lia. cbn. rewrite IH; [lia|]. intros i Hi. apply H. lia.
Qed.

(** The release of an occupied slot below the top slot adds a hole. *)
Lemma holes_non_top t r :
  node_pool_ok t -> 0 <= r < nNodes t - 1 -> arr_get (NodeStackStatus t) r <> 0 ->
  holes (DeAllocNodes t r) = S (holes t).
Proof.
  intros (Hn & Hmax & Hlen & Htop) Hr Hocc.
  rewrite DeAllocNodes_non_top by lia. unfold holes.
  cbn [nNodes NodeStackStatus set_NodeStackStatus].
  apply count_free_clear; lia.
Qed.

(** The release of the occupied top slot takes away the holes the top
    moves past. *)
Lemma holes_top t :
  node_pool_ok t -> 0 < nNodes t ->
  arr_get (NodeStackStatus t) (nNodes t - 1) <> 0 ->
  let t' := DeAllocNodes t (nNodes t - 1) in
  (holes t' + Z.to_nat (nNodes t - 1 - nNodes t'))%nat = holes t.
Proof.
  intros Hok Hpos Hocc.
  destruct (DeAllocNodes_top_lands t Hok Hpos) as (Hlt & Hfree & _).
  pose proof (node_pool_ok_release t (nNodes t - 1) Hok) as (Hn' & _).
  destruct Hok as (Hn & Hmax & Hlen & Htop).
  cbn zeta. set (t' := DeAllocNodes t (nNodes t - 1)) in *.
  assert (Hst : NodeStackStatus t' = arr_set (NodeStackStatus t) (nNodes t - 1) 0)
    by (apply DeAllocNodes_status; lia).
  unfold holes.
  assert (Hcnt : count_free (NodeStackStatus t') (Z.to_nat (nNodes t))
                 = S (count_free (NodeStackStatus t) (Z.to_nat (nNodes t)))).
  { rewrite Hst. apply count_free_clear; lia. }
  assert (Hrun : count_free (NodeStackStatus t') (Z.to_nat (nNodes t))
                 = (count_free (NodeStackStatus t') (Z.to_nat (nNodes t'))
                    + Z.to_nat (nNodes t - nNodes t'))%nat).
  { replace (Z.to_nat (nNodes t))
      with (Z.to_nat (nNodes t') + Z.to_nat (nNodes t - nNodes t'))%nat by lia.
    apply count_free_run. intros i Hi. apply Hfree. lia. }
  lia.
Qed.

(** Along any sequence of releases of occupied slots, the holes are the
    releases of non-top slots less the holes the top has moved past. *)
Lemma holes_accounting ranks : forall t,
  node_pool_ok t -> valid_releases t ranks ->
  (holes (release_all t ranks) + receded_holes t ranks
   = holes t + non_top_releases t ranks)%nat.
Proof.
  induction ranks as [|r rs IH]; intros t Hok Hv.
  - cbn. lia.
  - destruct Hv as (Hr & Hocc & Hv).
    pose proof (node_pool_ok_release t r Hok) as Hok'.
    specialize (IH _ Hok' Hv).
    cbn [release_all fold_left receded_holes non_top_releases].
    unfold release_all in IH.
    destruct (Z.eq_dec r (nNodes t - 1)) as [E|E].
    + subst r. rewrite Z.eqb_refl.
      pose proof (holes_top t Hok ltac:(lia) Hocc) as Ht. cbn zeta in Ht. lia.
    + destruct (r =? nNodes t - 1) eqn:Eb; [apply Z.eqb_eq in Eb; lia|].
      pose proof (holes_non_top t r Hok ltac:(lia) Hocc) as Ht. lia.
Qed.

(** ** The pools the constructor builds *)

Lemma SerialTree_init_node_pool_ok D order sp sf max_nodes sdata gendata :
  0 <= max_nodes <= INT_MAX ->
  node_pool_ok (SerialTree_init D order sp sf max_nodes sdata gendata).
Proof.
  intros H. unfold node_pool_ok, SerialTree_init.
  cbn [nNodes maxNodes NodeStackStatus].
  rewrite length_app, length_replicate. cbn [length].
  split; [lia|]. split; [lia|]. split; [lia|]. left. reflexivity.
Qed.

Lemma pool4_three_ok : node_pool_ok pool4_three.
Proof.
  unfold node_pool_ok. vm_compute.
  repeat split; try discriminate. right. discriminate.
Qed.

(** C3, the slip.  [allocNodes(2)] on the fresh pool: the count goes from
    0 to 2, but the slots marked occupied are 1 and 2, not the new slots
    0 and 1, and a rank is written to the first new slot only (twice, the
    value left is 2); the second new slot has none. *)
Lemma allocNodes_two_marks_wrong_slots :
  exists t',
    allocNodes pool4 2 = Ok (t', firstNode pool4) /\
    nNodes t' = 2 /\
    NodeStackStatus t' = [0; 1; 1; 0; -1] /\
    NodeRankAt t' !! firstNode pool4 = Some 2 /\
    NodeRankAt t' !! (firstNode pool4 + sizeNodeMeta pool4) = None /\
    allocGenNodes pool4 2 = Ok (t', firstNode pool4).
Proof.
  eexists. split; [vm_compute; reflexivity|].
  vm_compute. repeat split; reflexivity.
Qed.

(** The same slip in general: a request for two or more slots leaves the
    first new slot unmarked. *)
Lemma allocNodes_mark_fold oldlast t ixs :
  let t' := fold_left (allocNodes_mark oldlast) ixs t in
  nNodes t' = nNodes t /\
  forall j, (forall i, i ∈ ixs -> nNodes t + i - 1 <> j) ->
            arr_get (NodeStackStatus t') j = arr_get (NodeStackStatus t) j.
Proof.
  revert t. induction ixs as [|i ixs IH]; intros t; cbn [fold_left].
  - split; reflexivity.
  - destruct (IH (allocNodes_mark oldlast t i)) as (Hn & Hs).
    assert (Hn1 : nNodes (allocNodes_mark oldlast t i) = nNodes t).
    { unfold allocNodes_mark. cbn [nNodes set_NodeRankAt NodeStackStatus].
      destruct (_ =? 0); reflexivity. }
    split; [congruence|].
    intros j Hj. rewrite Hs.
    + unfold allocNodes_mark. cbn [nNodes set_NodeRankAt NodeStackStatus].
      destruct (_ =? 0); cbn [NodeStackStatus set_NodeStackStatus println set_NodeRankAt];
        apply arr_get_set_ne; apply Hj; left.
    + intros i' Hi'. rewrite Hn1. apply Hj. right. exact Hi'.
Qed.

Lemma allocNodes_many_first_slot_unmarked t k t' p :
  node_pool_ok t -> 2 <= k -> nNodes t + k <= maxNodes t ->
  allocNodes t k = Ok (t', p) ->
  nNodes t' = nNodes t + k /\
  arr_get (NodeStackStatus t') (nNodes t) = arr_get (NodeStackStatus t) (nNodes t).
Proof.
  intros (Hn & Hmax & Hlen & Htop) Hk Hfit. unfold allocNodes.
  cbn [nNodes maxNodes set_nNodes lastNode].
  rewrite int32_id by (unfold INT_MIN, INT_MAX in *; lia).
  destruct (maxNodes t <? nNodes t + k) eqn:E; [apply Z.ltb_lt in E; lia|].
  intros [= <- <-].
  match goal with |- context [fold_left _ _ ?t0] =>
    destruct (allocNodes_mark_fold (lastNode t) t0 (seqZ 0 k)) as (H1 & H2) end.
  cbn [nNodes set_lastNode set_nNodes NodeStackStatus] in H1, H2.
  split; [exact H1|].
  apply H2. intros i Hi. apply elem_of_seqZ in Hi. lia.
Qed.

(** ** C4: stack discipline of the node pool *)

(** C4 as stated fails.  Two slots are allocated and released in the
    order 0, 1 (not the reverse order): the release of slot 0 is a
    release of a non-top slot, yet no hole is left, because the release
    of slot 1 moves the top past the hole. *)
Lemma release_in_order_leaves_no_hole :
  non_top_releases pool4_two [0; 1] = 1%nat /\
  holes (release_all pool4_two [0; 1]) = 0%nat /\
  holes (release_all pool4_two [0; 1]) <> non_top_releases pool4_two [0; 1].
Proof. vm_compute. repeat split; try reflexivity. discriminate. Qed.

(** C4, amended.  For a node pool whose top slot is occupied:
    - the release of the top slot clears it and moves the top down past
      every free slot that follows, to an occupied slot or to 0;
    - the release of any other slot clears its entry and leaves the top
      where it is;
    - [N] slots allocated one at a time and released in reverse order
      bring the top back to where it was;
    - along any sequence of releases of occupied slots, each release of
      a non-top slot adds one hole and each release of the top slot takes
      away the holes the top moves past, so that the holes left are the
      releases of non-top slots less the holes moved past. *)
Theorem DeAllocNodes_stack_discipline (t : SerialTree) :
  node_pool_ok t ->
  (0 < nNodes t ->
     let t' := DeAllocNodes t (nNodes t - 1) in
     NodeStackStatus t' = arr_set (NodeStackStatus t) (nNodes t - 1) 0 /\
     nNodes t' < nNodes t /\
     (forall i, nNodes t' <= i < nNodes t -> arr_get (NodeStackStatus t') i = 0) /\
     (nNodes t' = 0 \/ arr_get (NodeStackStatus t') (nNodes t' - 1) <> 0)) /\
  (forall r, r <> nNodes t - 1 ->
     let t' := DeAllocNodes t r in
     nNodes t' = nNodes t /\
     NodeStackStatus t' = arr_set (NodeStackStatus t) r 0) /\
  (forall N : nat, nNodes t + Z.of_nat N <= maxNodes t ->
     exists t1,
       allocNodes_times N t = Ok t1 /\
       nNodes t1 = nNodes t + Z.of_nat N /\
       nNodes (release_all t1 (reverse_ranks (nNodes t) N)) = nNodes t) /\
  (forall ranks, valid_releases t ranks ->
     (holes (release_all t ranks) + receded_holes t ranks
      = holes t + non_top_releases t ranks)%nat).
Proof.
  intros Hok. split; [|split; [|split]].
  - intros Hpos. cbn zeta.
    destruct (DeAllocNodes_top_lands t Hok Hpos) as (H1 & H2 & H3).
    split; [apply DeAllocNodes_status; destruct Hok; lia|].
    repeat split; assumption.
  - intros r Hr. cbn zeta. destruct Hok as (Hn & _).
    rewrite DeAllocNodes_non_top by lia. split; reflexivity.
  - intros N HN.
    destruct (alloc_release_reverse N t Hok HN)
      as (t1 & E1 & Hn1 & _ & _ & _ & Hn2 & _).
    exists t1. repeat split; assumption.
  - intros ranks Hv. apply holes_accounting; assumption.
Qed.

Lemma DeAllocNodes_stack_discipline_witness :
  node_pool_ok pool4_three /\
  (let t' := DeAllocNodes pool4_three (nNodes pool4_three - 1) in
   nNodes t' < nNodes pool4_three) /\
  (exists t1, allocNodes_times 1 pool4_three = Ok t1 /\
     nNodes (release_all t1 (reverse_ranks (nNodes pool4_three) 1))
     = nNodes pool4_three).
Proof.
  pose proof (DeAllocNodes_stack_discipline pool4_three pool4_three_ok)
    as (Htop & _ & Hrev & _).
  split; [exact pool4_three_ok|]. split.
  - apply Htop. vm_compute. reflexivity.
  - destruct (Hrev 1%nat) as (t1 & E & _ & H); [vm_compute; discriminate|].
    exists t1. split; assumption.
Defined.

(** ** C8: releasing a slot twice *)

Lemma set_NodeStackStatus_id t : set_NodeStackStatus t (NodeStackStatus t) = t.
Proof. destruct t; reflexivity. Qed.

Lemma set_nNodes_id t : set_nNodes t (nNodes t) = t.
Proof. destruct t; reflexivity. Qed.

Lemma set_CoeffStackStatus_id t : set_CoeffStackStatus t (CoeffStackStatus t) = t.
Proof. destruct t; reflexivity. Qed.

Lemma set_nNodesCoeff_id t : set_nNodesCoeff t (nNodesCoeff t) = t.
Proof. destruct t; reflexivity. Qed.

Lemma set_CoeffStack_id t : set_CoeffStack t (CoeffStack t) = t.
Proof. destruct t; reflexivity. Qed.

(** Generated pool: the release of a free block only logs. *)
Lemma DeAllocGenCoeff_free t ix :
  arr_get (GenCoeffStackStatus t) ix = 0 ->
  DeAllocGenCoeff t ix = println t (DeletingUnallocatedGencoeff ix).
Proof.
  intros H. unfold DeAllocGenCoeff. rewrite H. reflexivity.
Qed.

(** Permanent pool: the release of a free block logs, and the code then
    goes on as for an occupied block; with the top on an occupied block
    (or at most 0) nothing moves. *)
Lemma DeAllocCoeff_free t ix :
  coeff_pool_ok t -> arr_get (CoeffStackStatus t) ix = 0 ->
  DeAllocCoeff t ix = println t (DeletingUnallocatedCoeff ix).
Proof.
  intros (Hn & Hmax & Hlen & Htop) H. unfold DeAllocCoeff. rewrite H.
  cbn [Z.eqb CoeffStackStatus println nNodesCoeff set_CoeffStackStatus].
  rewrite (arr_set_same _ _ H).
  destruct (ix =? nNodesCoeff t) eqn:E.
  - apply Z.eqb_eq in E. subst ix.
    rewrite recede_nonpos by (destruct Htop; [lia|contradiction]).
    destruct t; reflexivity.
  - destruct t; reflexivity.
Qed.

(** Node pool: the release of a free slot changes nothing at all, and
    logs nothing: [DeAllocNodes] has no test of the occupancy. *)
Lemma DeAllocNodes_free t r :
  node_pool_ok t -> arr_get (NodeStackStatus t) r = 0 -> DeAllocNodes t r = t.
Proof.
  intros (Hn & Hmax & Hlen & Htop) H.
  destruct (Z.eq_dec r (nNodes t - 1)) as [E|E].
  - subst r. destruct Htop as [H0|Hocc]; [|contradiction].
    rewrite DeAllocNodes_top by lia. rewrite (arr_set_same _ _ H).
    rewrite recede_nonpos by (cbn; lia).
    rewrite set_NodeStackStatus_id. apply set_nNodes_id.
  - rewrite DeAllocNodes_non_top by lia. rewrite (arr_set_same _ _ H).
    apply set_NodeStackStatus_id.
Qed.

(** The pool invariants hold at construction and after every operation,
    so the three lemmas above apply to every state the allocator
    reaches. *)
Lemma SerialTree_init_coeff_pool_ok D order sp sf max_nodes sdata gendata :
  0 <= max_nodes < INT_MAX ->
  coeff_pool_ok (SerialTree_init D order sp sf max_nodes sdata gendata).
Proof.
  intros H. unfold coeff_pool_ok, SerialTree_init.
  cbn [nNodesCoeff maxNodesCoeff CoeffStackStatus].
  rewrite length_app, length_replicate. cbn [length].
  split; [lia|]. split; [lia|]. split; [lia|]. left. lia.
Qed.

Lemma coeff_pool_ok_alloc t n t' p :
  coeff_pool_ok t -> allocCoeff t n = Ok (t', p) -> coeff_pool_ok t'.
Proof.
  intros (Hn & Hmax & Hlen & Htop). unfold allocCoeff.
  cbn [Dim nNodesCoeff maxNodesCoeff CoeffStackStatus CoeffStack set_nNodesCoeff].
  rewrite int32_id by (unfold INT_MIN, INT_MAX in *; lia).
  destruct (negb (n =? Z.shiftl 1 (Dim t))); [discriminate|].
  destruct (maxNodesCoeff t <? nNodesCoeff t + 1) eqn:E1; [discriminate|].
  apply Z.ltb_ge in E1.
  destruct (arr_get (CoeffStackStatus t) (nNodesCoeff t + 1) =? 0) eqn:E2;
    cbn [negb]; intros [= <- <-]; unfold coeff_pool_ok;
    cbn [nNodesCoeff maxNodesCoeff CoeffStackStatus set_nNodesCoeff println
         set_CoeffStackStatus].
  - rewrite arr_set_length.
    split; [lia|]. split; [lia|]. split; [lia|]. right.
    rewrite arr_get_set_eq by lia. lia.
  - apply Z.eqb_neq in E2.
    split; [lia|]. split; [lia|]. split; [lia|]. right. exact E2.
Qed.

Lemma coeff_pool_ok_release t ix : coeff_pool_ok t -> coeff_pool_ok (DeAllocCoeff t ix).
Proof.
  intros (Hn & Hmax & Hlen & Htop). unfold DeAllocCoeff.
  set (t1 := if arr_get (CoeffStackStatus t) ix =? 0
             then println t (DeletingUnallocatedCoeff ix) else t).
  assert (H1 : nNodesCoeff t1 = nNodesCoeff t /\ maxNodesCoeff t1 = maxNodesCoeff t
               /\ CoeffStackStatus t1 = CoeffStackStatus t).
  { subst t1. destruct (_ =? 0); repeat split; reflexivity. }
  destruct H1 as (Hn1 & Hm1 & Hs1).
  cbn [nNodesCoeff set_CoeffStackStatus CoeffStackStatus].
  rewrite Hn1, Hs1.
  destruct (ix =? nNodesCoeff t) eqn:E; unfold coeff_pool_ok;
    cbn [nNodesCoeff maxNodesCoeff CoeffStackStatus set_nNodesCoeff set_CoeffStackStatus];
    rewrite ?Hn1, ?Hm1, arr_set_length.
  - destruct (recede_spec (arr_set (CoeffStackStatus t) ix 0) 0 (nNodesCoeff t))
      as (R1 & R2 & R3 & R4 & R5).
    set (r := recede (arr_set (CoeffStackStatus t) ix 0) 0 (nNodesCoeff t)) in *.
    assert (-1 <= r) by (destruct (Z_le_gt_dec (nNodesCoeff t) 0); lia).
    split; [lia|]. split; [lia|]. split; [lia|].
    destruct R5 as [R5|R5]; [left; exact R5|right].
    replace r with (r + 0) at 1 by lia. exact R5.
  - apply Z.eqb_neq in E.
    split; [lia|]. split; [lia|]. split; [lia|].
    destruct Htop as [H0|Hocc]; [left; exact H0|right].
    rewrite arr_get_set_ne by exact E. exact Hocc.
Qed.

(** C8, where the code falls short.  Slots 0, 1 and 2 are allocated and
    slot 1 released; a second release of slot 1 leaves the whole state as
    it is, log included: the node pool does not notice it.  The permanent
    and the generated coefficient pools do log the release of a free
    block, and leave occupancy and top as they are. *)
Lemma double_release_of_node_slot_not_logged :
  arr_get (NodeStackStatus pool4_hole) 1 = 0 /\
  DeAllocNodes pool4_hole 1 = pool4_hole /\
  log (DeAllocNodes pool4_hole 1) = [] /\
  arr_get (CoeffStackStatus pool4_coeff_released) 0 = 0 /\
  DeAllocCoeff pool4_coeff_released 0
    = println pool4_coeff_released (DeletingUnallocatedCoeff 0) /\
  DeAllocGenCoeff pool4 0 = println pool4 (DeletingUnallocatedGencoeff 0).
Proof.
  split; [vm_compute; reflexivity|].
  assert (Hok : node_pool_ok pool4_hole).
  { apply node_pool_ok_release. exact pool4_three_ok. }
  assert (H1 : arr_get (NodeStackStatus pool4_hole) 1 = 0) by (vm_compute; reflexivity).
  split; [apply DeAllocNodes_free; assumption|].
  split; [rewrite DeAllocNodes_free by assumption; vm_compute; reflexivity|].
  split; [vm_compute; reflexivity|].
  split; [|apply DeAllocGenCoeff_free; vm_compute; reflexivity].
  apply DeAllocCoeff_free; [|vm_compute; reflexivity].
  unfold pool4_coeff_released, run_ops, run_op.
  destruct (allocCoeff pool4 8) as [[t1 p]|m] eqn:E; [|vm_compute in E; discriminate].
  cbn [state_of]. apply coeff_pool_ok_release.
  apply (coeff_pool_ok_alloc pool4 8 t1 p); [|exact E].
  apply SerialTree_init_coeff_pool_ok. unfold INT_MAX. lia.
Qed.

(** ** The addresses of the permanent blocks *)

Lemma allocNodes_mark_layout p l : forall t,
  coeff_layout (fold_left (allocNodes_mark p) l t) = coeff_layout t.
Proof.
  induction l as [|i l IH]; intros t; cbn [fold_left]; [reflexivity|].
  rewrite IH. unfold allocNodes_mark.
  cbn [NodeStackStatus set_NodeRankAt]. destruct (_ =? 0); reflexivity.
Qed.

Lemma run_op_layout t o t' : run_op t o = Ok t' -> coeff_layout t' = coeff_layout t.
Proof.
  destruct o as [n|r|n|n|ix|n|ix]; cbn [run_op].
  - unfold allocNodes. destruct (_ <? _); [discriminate|].
    intros [= <-]. rewrite allocNodes_mark_layout. reflexivity.
  - intros [= <-]. unfold DeAllocNodes.
    destruct (nNodes t <? 0);
      match goal with |- context [if ?c then _ else _] => destruct c end; reflexivity.
  - unfold allocGenNodes. destruct (_ <? _); [discriminate|].
    intros [= <-]. rewrite allocNodes_mark_layout. reflexivity.
  - unfold allocCoeff. destruct (negb (n =? _)); [discriminate|].
    destruct (_ <? _); [discriminate|].
    destruct (negb _); intros [= <-]; reflexivity.
  - intros [= <-]. unfold DeAllocCoeff.
    destruct (arr_get (CoeffStackStatus t) ix =? 0);
      match goal with |- context [if ?c then _ else _] => destruct c end; reflexivity.
  - unfold allocGenCoeff. destruct (negb (n =? _)); [discriminate|].
    destruct (_ <? _); [discriminate|].
    destruct (negb _); intros [= <-]; reflexivity.
  - intros [= <-]. unfold DeAllocGenCoeff.
    destruct (arr_get (GenCoeffStackStatus t) ix =? 0); [reflexivity|].
    match goal with |- context [if ?c then _ else _] => destruct c end; reflexivity.
Qed.

Lemma arr_set_get_id a i : arr_set a i (arr_get a i) = a.
Proof.
  unfold arr_get, arr_set. destruct (0 <=? i); [|reflexivity].
  destruct (a !! Z.to_nat i) eqn:L; simpl.
  - apply list_insert_id. exact L.
  - apply list_insert_ge. apply lookup_ge_None in L. exact L.
Qed.

Lemma RewritePointers_pool_layout t : coeff_layout (RewritePointers_pool t) = coeff_layout t.
Proof.
  unfold RewritePointers_pool. cbn [maxNodesCoeff set_lastNodeCoeff].
  set (t1 := set_lastNodeCoeff t _).
  change (coeff_layout t) with (coeff_layout t1).
  generalize (seqZ 0 (maxNodesCoeff t)) as l. generalize t1 as u. clear t1.
  intros u l. revert u. induction l as [|i l IH]; intros u; cbn [fold_left]; [reflexivity|].
  rewrite IH. unfold dptr_add. rewrite Z.mul_0_r, Z.add_0_r, arr_set_get_id.
  rewrite set_CoeffStack_id. reflexivity.
Qed.

Lemma run_pool_ops_layout os : forall t t',
  run_pool_ops t os = Ok t' -> coeff_layout t' = coeff_layout t.
Proof.
  induction os as [|o os IH]; intros t t'; cbn [run_pool_ops].
  - intros [= <-]. reflexivity.
  - destruct o as [o|].
    + destruct (run_op t o) as [t1|m] eqn:E; [|discriminate].
      intros H. rewrite (IH _ _ H). apply (run_op_layout _ _ _ E).
    + intros H. rewrite (IH _ _ H). apply RewritePointers_pool_layout.
Qed.

Lemma elem_offset_exact i size :
  0 <= i * size <= INT_MAX -> (8 | size) ->
  sizeof_double * elem_offset i size = i * size.
Proof.
  intros H [k Hk]. unfold elem_offset, to_size_t, sizeof_double.
  rewrite int32_id by (unfold INT_MIN, INT_MAX in *; lia).
  rewrite Z.mod_small by (unfold INT_MAX in *; lia).
  subst size. replace (i * (k * 8)) with ((i * k) * 8) by lia.
  rewrite Z.div_mul by lia. lia.
Qed.

Lemma SizeCoefOnly_div8 D order : (8 | SizeCoefOnly D order).
Proof.
  unfold SizeCoefOnly, sizeof_double, int32.
  set (x := to_size_t _).
  exists (x - 536870912 * ((x * 8 + 2147483648) / 4294967296)).
  pose proof (Z_div_mod_eq_full (x * 8 + 2147483648) 4294967296). lia.
Qed.

Lemma arr_get_fmap_seqZ (f : Z -> Z) n i :
  0 <= i < n -> arr_get (f <$> seqZ 0 n) i = f i.
Proof.
  intros H. unfold arr_get. destruct (0 <=? i) eqn:E; [|lia].
  rewrite list_lookup_fmap, lookup_seqZ_lt by lia. cbn. f_equal. lia.
Qed.

Lemma allocNodes_mark_status_length p l : forall t,
  length (CoeffStackStatus (fold_left (allocNodes_mark p) l t))
  = length (CoeffStackStatus t).
Proof.
  induction l as [|i l IH]; intros t; cbn [fold_left]; [reflexivity|].
  rewrite IH. unfold allocNodes_mark.
  cbn [NodeStackStatus set_NodeRankAt]. destruct (_ =? 0); reflexivity.
Qed.

Lemma run_op_status_length t o t' :
  run_op t o = Ok t' -> length (CoeffStackStatus t') = length (CoeffStackStatus t).
Proof.
  destruct o as [n|r|n|n|ix|n|ix]; cbn [run_op].
  - unfold allocNodes. destruct (_ <? _); [discriminate|].
    intros [= <-]. rewrite allocNodes_mark_status_length. reflexivity.
  - intros [= <-]. unfold DeAllocNodes.
    destruct (nNodes t <? 0);
      match goal with |- context [if ?c then _ else _] => destruct c end; reflexivity.
  - unfold allocGenNodes. destruct (_ <? _); [discriminate|].
    intros [= <-]. rewrite allocNodes_mark_status_length. reflexivity.
  - unfold allocCoeff. destruct (negb (n =? _)); [discriminate|].
    destruct (_ <? _); [discriminate|].
    destruct (negb _); intros [= <-]; [reflexivity|].
    cbn [CoeffStackStatus set_CoeffStackStatus set_nNodesCoeff]. apply arr_set_length.
  - intros [= <-]. unfold DeAllocCoeff.
    destruct (arr_get (CoeffStackStatus t) ix =? 0);
      match goal with |- context [if ?c then _ else _] => destruct c end;
      cbn [CoeffStackStatus set_CoeffStackStatus set_nNodesCoeff println];
      apply arr_set_length.
  - unfold allocGenCoeff. destruct (negb (n =? _)); [discriminate|].
    destruct (_ <? _); [discriminate|].
    destruct (negb _); intros [= <-]; reflexivity.
  - intros [= <-]. unfold DeAllocGenCoeff.
    destruct (arr_get (GenCoeffStackStatus t) ix =? 0); [reflexivity|].
    match goal with |- context [if ?c then _ else _] => destruct c end; reflexivity.
Qed.

Lemma RewritePointers_pool_status_length t :
  length (CoeffStackStatus (RewritePointers_pool t)) = length (CoeffStackStatus t).
Proof.
  unfold RewritePointers_pool. cbn [maxNodesCoeff set_lastNodeCoeff].
  set (t1 := set_lastNodeCoeff t _).
  change (CoeffStackStatus t) with (CoeffStackStatus t1).
  generalize (seqZ 0 (maxNodesCoeff t)) as l. generalize t1 as u. clear t1.
  intros u l. revert u. induction l as [|i l IH]; intros u; cbn [fold_left]; [reflexivity|].
  rewrite IH. reflexivity.
Qed.

Lemma run_pool_ops_status_length os : forall t t',
  run_pool_ops t os = Ok t' ->
  length (CoeffStackStatus t') = length (CoeffStackStatus t).
Proof.
  induction os as [|o os IH]; intros t t'; cbn [run_pool_ops].
  - intros [= <-]. reflexivity.
  - destruct o as [o|].
    + destruct (run_op t o) as [t1|m] eqn:E; [|discriminate].
      intros H. rewrite (IH _ _ H). apply (run_op_status_length _ _ _ E).
    + intros H. rewrite (IH _ _ H). apply RewritePointers_pool_status_length.
Qed.

(** The addresses inside the range of an [int].  In an arena built by
    the constructor whose permanent pool is within the range of an [int]
    in bytes ([maxNodes * sizeNodeCoeff <= INT_MAX]), and after any run of
    allocations, releases and pointer rewritings: the table [CoeffStack]
    is the one the constructor filled; for every index [i] below the
    capacity its entry is the start of the coefficient region plus [i]
    times [sizeNodeCoeff]; and [allocCoeff(2^D)], called when the slot
    above the top is the free slot [i], returns that address and moves
    the top to [i]. *)
Theorem CoeffStack_address_fixed
    (D order sp sf max_nodes sdata gendata : Z) (ops : list pool_op) (t : SerialTree) :
  let t0 := SerialTree_init D order sp sf max_nodes sdata gendata in
  0 <= max_nodes < INT_MAX ->
  0 <= sizeNodeCoeff t0 ->
  max_nodes * sizeNodeCoeff t0 <= INT_MAX ->
  run_pool_ops t0 ops = Ok t ->
  CoeffStack t = CoeffStack t0 /\
  firstNodeCoeff t = firstNodeCoeff t0 /\
  sizeNodeCoeff t = sizeNodeCoeff t0 /\
  forall i, 0 <= i < maxNodesCoeff t ->
    arr_get (CoeffStack t) i = firstNodeCoeff t + i * sizeNodeCoeff t /\
    (nNodesCoeff t + 1 = i -> arr_get (CoeffStackStatus t) i = 0 ->
     exists t',
       allocCoeff t (Z.shiftl 1 D) = Ok (t', firstNodeCoeff t + i * sizeNodeCoeff t) /\
       nNodesCoeff t' = i /\
       arr_get (CoeffStackStatus t') i = 1 /\
       CoeffStack t' = CoeffStack t).
Proof.
  intros t0 Hmax Hsz Hfit Hrun.
  pose proof (run_pool_ops_layout _ _ _ Hrun) as Hl.
  unfold coeff_layout in Hl. injection Hl as Hcs Hfirst Hsize Hcap HD.
  split; [exact Hcs|]. split; [exact Hfirst|]. split; [exact Hsize|].
  intros i Hi.
  assert (Hcap0 : maxNodesCoeff t0 = max_nodes) by reflexivity.
  assert (Haddr : arr_get (CoeffStack t) i = firstNodeCoeff t + i * sizeNodeCoeff t).
  { rewrite Hcs, Hfirst, Hsize. subst t0.
    cbn [CoeffStack firstNodeCoeff sizeNodeCoeff SerialTree_init] in *.
    rewrite arr_get_fmap_seqZ by lia. unfold dptr_add at 1.
    rewrite elem_offset_exact; [reflexivity| |apply SizeCoefOnly_div8].
    split; [apply Z.mul_nonneg_nonneg; lia|].
    apply Z.le_trans with (max_nodes * SizeCoefOnly D order); [|exact Hfit].
    apply Z.mul_le_mono_nonneg_r; lia. }
  split; [exact Haddr|].
  intros Htop Hfree. unfold allocCoeff.
  cbn [Dim nNodesCoeff maxNodesCoeff CoeffStackStatus CoeffStack set_nNodesCoeff].
  rewrite Htop, HD.
  rewrite int32_id by (unfold INT_MIN, INT_MAX in *; lia).
  change (Dim t0) with D. rewrite Z.eqb_refl. cbn [negb].
  destruct (maxNodesCoeff t <? i) eqn:E; [apply Z.ltb_lt in E; lia|].
  rewrite Hfree. cbn [Z.eqb negb]. rewrite Haddr.
  eexists. split; [reflexivity|].
  cbn [nNodesCoeff CoeffStackStatus CoeffStack set_CoeffStackStatus set_nNodesCoeff].
  split; [reflexivity|]. split; [|reflexivity].
  apply arr_get_set_eq.
  rewrite (run_pool_ops_status_length _ _ _ Hrun). subst t0.
  cbn [CoeffStackStatus SerialTree_init].
  rewrite length_app, length_replicate. cbn [length]. lia.
Qed.

Lemma CoeffStack_address_fixed_witness :
  arr_get (CoeffStack pool4_rewritten) 3
    = firstNodeCoeff pool4_rewritten + 3 * sizeNodeCoeff pool4_rewritten /\
  exists t', allocCoeff pool4_rewritten 8
    = Ok (t', firstNodeCoeff pool4_rewritten + 1 * sizeNodeCoeff pool4_rewritten).
Proof.
  assert (E : run_pool_ops pool4 pool4_ops = Ok pool4_rewritten)
    by (vm_compute; reflexivity).
  assert (H0 : 0 <= 4 < INT_MAX) by (unfold INT_MAX; lia).
  assert (H1 : 0 <= sizeNodeCoeff pool4) by (vm_compute; discriminate).
  assert (H2 : 4 * sizeNodeCoeff pool4 <= INT_MAX) by (vm_compute; discriminate).
  destruct (CoeffStack_address_fixed 3 1 400 800 4 4096 1000000 pool4_ops
              pool4_rewritten H0 H1 H2 E) as (_ & _ & _ & H).
  split.
  - apply (H 3). vm_compute. split; [discriminate|reflexivity].
  - destruct (H 1) as (_ & Ha); [vm_compute; split; [discriminate|reflexivity]|].
    destruct Ha as (t' & Ht' & _); [vm_compute; reflexivity|vm_compute; reflexivity|].
    exists t'. exact Ht'.
Defined.

(** ** Coefficient loops *)

Lemma dptr_add_inj p i j : dptr_add p i = dptr_add p j -> i = j.
Proof. unfold dptr_add, sizeof_double. lia. Qed.

Lemma store_eq m p i v : store m p i v (dptr_add p i) = v.
Proof. unfold store. rewrite Z.eqb_refl. reflexivity. Qed.

Lemma store_ne m p i v a : a <> dptr_add p i -> store m p i v a = m a.
Proof. unfold store. intros H. apply Z.eqb_neq in H. rewrite H. reflexivity. Qed.

Lemma seqZ_snoc lo (n : nat) :
  seqZ lo (Z.of_nat (S n)) = seqZ lo (Z.of_nat n) ++ [lo + Z.of_nat n].
Proof.
  replace (Z.of_nat (S n)) with (Z.of_nat n + 1) by lia.
  rewrite seqZ_app by lia. reflexivity.
Qed.

(** A loop [for (i = lo; i < lo + n; i++) cA[i] = g(i, memory)] whose
    right-hand side reads nothing the earlier rounds wrote. *)
Lemma store_loop_spec (g : cmem -> Z -> float) cA lo (n : nat) m :
  (forall i m1 m2, lo <= i < lo + Z.of_nat n ->
     (forall a, (forall k, lo <= k < i -> a <> dptr_add cA k) -> m1 a = m2 a) ->
     g m1 i = g m2 i) ->
  let m' := fold_left (fun m i => store m cA i (g m i)) (seqZ lo (Z.of_nat n)) m in
  (forall i, lo <= i < lo + Z.of_nat n -> m' (dptr_add cA i) = g m i) /\
  (forall a, (forall k, lo <= k < lo + Z.of_nat n -> a <> dptr_add cA k) -> m' a = m a).
Proof.
  induction n as [|n IH]; intros Hg.
  - cbn. split; [intros; lia|reflexivity].
  - cbn zeta. rewrite seqZ_snoc, fold_left_app. cbn [fold_left].
    destruct IH as (IH1 & IH2).
    { intros i m1 m2 Hi H. apply Hg; [lia|exact H]. }
    cbn zeta in IH1, IH2.
    set (mn := fold_left _ (seqZ lo (Z.of_nat n)) m) in *.
    assert (Hlast : g mn (lo + Z.of_nat n) = g m (lo + Z.of_nat n)).
    { apply Hg; [lia|]. intros a Ha. apply IH2. exact Ha. }
    split.
    + intros i Hi. destruct (Z.eq_dec i (lo + Z.of_nat n)) as [->|Hne].
      * rewrite store_eq. exact Hlast.
      * rewrite store_ne by (intros E; apply dptr_add_inj in E; lia).
        apply IH1. lia.
    + intros a Ha. rewrite store_ne by (apply Ha; lia). apply IH2.
      intros k Hk. apply Ha. lia.
Qed.

(** [cA[i] += c*cB[i]] over [lo <= i < hi], when no [cB[i]] is one of the
    [cA[k]] written before it (the blocks are apart, or they are the
    same block). *)
Lemma add_scaled_spec c cA cB lo hi m :
  (forall i k, lo <= k < i -> i < hi -> dptr_add cB i <> dptr_add cA k) ->
  (forall i, lo <= i < hi ->
     add_scaled c cA cB lo hi m (dptr_add cA i)
     = (m (dptr_add cA i) + c * m (dptr_add cB i))%float) /\
  (forall a, (forall k, lo <= k < hi -> a <> dptr_add cA k) ->
     add_scaled c cA cB lo hi m a = m a).
Proof.
  intros Hal. unfold add_scaled.
  destruct (Z_le_gt_dec hi lo) as [Hle|Hgt].
  - rewrite seqZ_nil by lia. cbn. split; [intros; lia|reflexivity].
  - pose proof (store_loop_spec
      (fun m i => (m (dptr_add cA i) + c * m (dptr_add cB i))%float)
      cA lo (Z.to_nat (hi - lo)) m) as H.
    rewrite Z2Nat.id in H by lia. cbn zeta in H.
    replace (lo + (hi - lo)) with hi in H by lia.
    apply H. intros i m1 m2 Hi Hm. cbn beta.
    rewrite (Hm (dptr_add cA i)), (Hm (dptr_add cB i)); [reflexivity| |].
    + intros k Hk. apply Hal; lia.
    + intros k Hk E. apply dptr_add_inj in E. lia.
Qed.

(** [cA[i] = c*cB[i]] over [lo <= i < hi], under the same condition. *)
Lemma set_scaled_spec c cA cB lo hi m :
  (forall i k, lo <= k < i -> i < hi -> dptr_add cB i <> dptr_add cA k) ->
  (forall i, lo <= i < hi ->
     set_scaled c cA cB lo hi m (dptr_add cA i) = (c * m (dptr_add cB i))%float) /\
  (forall a, (forall k, lo <= k < hi -> a <> dptr_add cA k) ->
     set_scaled c cA cB lo hi m a = m a).
Proof.
  intros Hal. unfold set_scaled.
  destruct (Z_le_gt_dec hi lo) as [Hle|Hgt].
  - rewrite seqZ_nil by lia. cbn. split; [intros; lia|reflexivity].
  - pose proof (store_loop_spec
      (fun m i => (c * m (dptr_add cB i))%float)
      cA lo (Z.to_nat (hi - lo)) m) as H.
    rewrite Z2Nat.id in H by lia. cbn zeta in H.
    replace (lo + (hi - lo)) with hi in H by lia.
    apply H. intros i m1 m2 Hi Hm. cbn beta.
    rewrite (Hm (dptr_add cB i)); [reflexivity|].
    intros k Hk. apply Hal; lia.
Qed.

(** The loops write nothing but [cA[lo]], ..., [cA[hi-1]]. *)
Lemma store_loop_frame (g : cmem -> Z -> float) cA (l : list Z) : forall m a,
  (forall k, k ∈ l -> a <> dptr_add cA k) ->
  fold_left (fun m i => store m cA i (g m i)) l m a = m a.
Proof.
  induction l as [|i l IH]; intros m a Ha; cbn [fold_left]; [reflexivity|].
  rewrite IH by (intros k Hk; apply Ha; right; exact Hk).
  apply store_ne. apply Ha. left.
Qed.

Lemma add_scaled_frame c cA cB lo hi m a :
  (forall k, lo <= k < hi -> a <> dptr_add cA k) ->
  add_scaled c cA cB lo hi m a = m a.
Proof.
  intros Ha. unfold add_scaled. apply store_loop_frame.
  intros k Hk. apply elem_of_seqZ in Hk. apply Ha. lia.
Qed.

Lemma set_scaled_frame c cA cB lo hi m a :
  (forall k, lo <= k < hi -> a <> dptr_add cA k) ->
  set_scaled c cA cB lo hi m a = m a.
Proof.
  intros Ha. unfold set_scaled. apply store_loop_frame.
  intros k Hk. apply elem_of_seqZ in Hk. apply Ha. lia.
Qed.

Lemma blocks_apart_ne p q n i k :
  blocks_apart p q n -> 0 <= i < n -> 0 <= k < n -> dptr_add q i <> dptr_add p k.
Proof. unfold blocks_apart, dptr_add, sizeof_double. lia. Qed.

(** ** The combination of a node pair *)

Lemma add_coefs_unfold E c NG NC slenA fposA fposB f T ndA ndB :
  nodes f !! fposA = Some ndA -> nodes f !! fposB = Some ndB ->
  add_coefs E c NG NC slenA fposA fposB (f, T) =
  let cA := coefvec ndA in
  let cB := coefvec ndB in
  let f1 :=
    if hasWCoefs ndA then
      if hasWCoefs ndB then set_mem f (add_scaled c cA cB 0 NC (mem f))
      else set_mem f (add_scaled c cA cB 0 NG (mem f))
    else
      let f' := set_mem f (add_scaled c cA cB 0 NG (mem f)) in
      if hasWCoefs ndB then set_mem f' (set_scaled c cA cB NG NC (mem f'))
      else set_this f' (println (this f') (AddingTwoGeneratedNodes slenA)) in
  let ndA1 := setHasWCoefs ndA in
  let ndA2 := set_squareNorm ndA1
                (calcSquareNorm E ndA1 (read_block (mem f1) (coefvec ndA1) NC)) in
  let f2 := set_nodes f1 (<[fposA := ndA2]> (nodes f1)) in
  Finished (f2, if getNChildren ndA2 =? 0 then (T + squareNorm ndA2)%float else T).
Proof.
  intros HA HB. unfold add_coefs, deref. rewrite HA, HB. reflexivity.
Qed.

(** Every round of the loop ends with [add_coefs] on the pair it took
    from the stacks, with [N_GenCoeff = getKp1_d()] and
    [N_Coeff = N_GenCoeff * getTDim()]. *)
Lemma SerialTreeAdd_body_add_coefs E c st st' fposA sA fposB sB :
  stackA st = fposA :: sA -> stackB st = fposB :: sB ->
  SerialTreeAdd_body E c st = Finished st' ->
  exists f3 slenA,
    add_coefs E c (getKp1_d E (forest st)) (getKp1_d E (forest st) * getTDim (forest st))
      slenA fposA fposB (f3, Tsum st)
    = Finished (forest st', Tsum st').
Proof.
  intros HA HB. unfold SerialTreeAdd_body. rewrite HA, HB.
  destruct (deref (forest st) fposA) as [ndA| |]; cbn [bind]; try discriminate.
  destruct (deref (forest st) fposB) as [ndB| |]; cbn [bind]; try discriminate.
  match goal with |- context [bind ?g _] => destruct g as [[[f3 sA'] sB']| |] end;
    cbn [bind]; try discriminate.
  match goal with |- context [bind ?g _] => destruct g as [r| |] eqn:Er end;
    cbn [bind]; try discriminate.
  intros [= <-]. cbn [forest Tsum]. exists f3, (Z.of_nat (length sA')).
  rewrite Er. destruct r; reflexivity.
Qed.

(** C1.  Every round of the top-down merge combines the pair it visits
    with [add_coefs], and for a pair whose coefficient blocks do not
    overlap:
    - if A has detail and B has none, the scaling sub-block of A becomes
      [A + c*B] and the detail sub-block of A is left as it was;
    - if A has no detail and B has, the scaling sub-block of A becomes
      [A + c*B], the detail sub-block of A becomes [c*B] (a copy, not a
      sum), and A is marked as holding detail.
    This holds for every scale [c], so for [2.0]. *)
Theorem add_coefs_policy (E : TreeEnv) (c : float) :
  (forall st st' fposA sA fposB sB,
     stackA st = fposA :: sA -> stackB st = fposB :: sB ->
     SerialTreeAdd_body E c st = Finished st' ->
     exists f3 slenA,
       add_coefs E c (getKp1_d E (forest st))
         (getKp1_d E (forest st) * getTDim (forest st)) slenA fposA fposB (f3, Tsum st)
       = Finished (forest st', Tsum st')) /\
  (forall N_GenCoeff N_Coeff slenA fposA fposB f T ndA ndB,
     nodes f !! fposA = Some ndA -> nodes f !! fposB = Some ndB ->
     0 <= N_GenCoeff <= N_Coeff ->
     blocks_apart (coefvec ndA) (coefvec ndB) N_Coeff ->
     exists f' T' ndA',
       add_coefs E c N_GenCoeff N_Coeff slenA fposA fposB (f, T) = Finished (f', T') /\
       nodes f' !! fposA = Some ndA' /\
       coefvec ndA' = coefvec ndA /\
       (hasWCoefs ndA = true -> hasWCoefs ndB = false ->
          (forall i, 0 <= i < N_GenCoeff ->
             mem f' (dptr_add (coefvec ndA) i)
             = (mem f (dptr_add (coefvec ndA) i)
                + c * mem f (dptr_add (coefvec ndB) i))%float) /\
          (forall i, N_GenCoeff <= i < N_Coeff ->
             mem f' (dptr_add (coefvec ndA) i) = mem f (dptr_add (coefvec ndA) i))) /\
       (hasWCoefs ndA = false -> hasWCoefs ndB = true ->
          (forall i, 0 <= i < N_GenCoeff ->
             mem f' (dptr_add (coefvec ndA) i)
             = (mem f (dptr_add (coefvec ndA) i)
                + c * mem f (dptr_add (coefvec ndB) i))%float) /\
          (forall i, N_GenCoeff <= i < N_Coeff ->
             mem f' (dptr_add (coefvec ndA) i)
             = (c * mem f (dptr_add (coefvec ndB) i))%float) /\
          hasWCoefs ndA' = true)).
Proof.
  split.
  { intros st st' fposA sA fposB sB HA HB Hb.
    exact (SerialTreeAdd_body_add_coefs E c st st' fposA sA fposB sB HA HB Hb). }
  intros NG NC slenA fposA fposB f T ndA ndB HA HB HN Hap.
  rewrite (add_coefs_unfold E c NG NC slenA fposA fposB f T ndA ndB HA HB).
  cbn zeta. eexists _, _, _. split; [reflexivity|].
  cbn [nodes set_nodes]. rewrite lookup_insert_eq.
  split; [reflexivity|]. split; [reflexivity|].
  assert (Hal : forall hi, hi <= NC ->
            forall i k, 0 <= k < i -> i < hi ->
              dptr_add (coefvec ndB) i <> dptr_add (coefvec ndA) k).
  { intros hi Hhi i k Hk Hi. apply (blocks_apart_ne _ _ NC); [exact Hap|lia|lia]. }
  split.
  - intros -> ->. cbn [mem set_mem set_nodes].
    destruct (add_scaled_spec c (coefvec ndA) (coefvec ndB) 0 NG (mem f)) as (H1 & _).
    { apply Hal. lia. }
    split; [exact H1|].
    intros i Hi. apply add_scaled_frame.
    intros k Hk E'. apply dptr_add_inj in E'. lia.
  - intros -> ->. cbn [mem set_mem set_nodes].
    destruct (add_scaled_spec c (coefvec ndA) (coefvec ndB) 0 NG (mem f)) as (H1 & _).
    { apply Hal. lia. }
    set (m1 := add_scaled c (coefvec ndA) (coefvec ndB) 0 NG (mem f)) in *.
    destruct (set_scaled_spec c (coefvec ndA) (coefvec ndB) NG NC m1) as (H2 & _).
    { intros i k Hk Hi. apply (blocks_apart_ne _ _ NC); [exact Hap|lia|lia]. }
    split; [|split; [|reflexivity]].
    + intros i Hi. rewrite set_scaled_frame; [apply H1; exact Hi|].
      intros k Hk E'. apply dptr_add_inj in E'. lia.
    + intros i Hi. rewrite H2 by exact Hi. f_equal.
      subst m1. apply add_scaled_frame.
      intros k Hk. apply (blocks_apart_ne _ _ NC); [exact Hap|lia|lia].
Qed.

Lemma add_coefs_policy_witness :
  let A := node_addr sample_pool 0 in
  let B := node_addr sample_pool 1 in
  let cA := block_addr sample_pool 0 in
  let cB := block_addr sample_pool 1 in
  exists f' T',
    add_coefs sample_env 2 8 64 0 A B (two_roots, 0%float) = Finished (f', T') /\
    mem f' (dptr_add cA 3)
    = (mem two_roots (dptr_add cA 3) + 2 * mem two_roots (dptr_add cB 3))%float /\
    mem f' (dptr_add cA 20) = (2 * mem two_roots (dptr_add cB 20))%float.
Proof.
  cbn zeta.
  destruct (proj2 (add_coefs_policy sample_env 2) 8 64 0
              (node_addr sample_pool 0) (node_addr sample_pool 1) two_roots 0%float
              (arena_node sample_pool None [] false 0)
              (arena_node sample_pool None [] true 1))
    as (f' & T' & ndA' & He & _ & _ & _ & Hrow).
  - vm_compute. reflexivity.
  - vm_compute. reflexivity.
  - lia.
  - left. vm_compute. discriminate.
  - destruct Hrow as (H1 & H2 & _); [reflexivity|reflexivity|].
    exists f', T'. split; [exact He|]. split.
    + apply (H1 3). lia.
    + apply (H2 20). lia.
Defined.



(** ** Norm accounting *)

Lemma is_finished_true {A : Type} (r : run A) :
  is_finished r = true -> exists a, r = Finished a.
Proof. destruct r; [eauto|discriminate..]. Qed.





(** ** C2: relocation *)

(** C2, where the code falls short.  A tree with three levels of
    refinement (25 nodes) is copied 1 MiB further and [RewritePointers]
    is run on the copy.  The run ends, counts 25 nodes, and the
    depth-first order through the child pointers is the one of the
    original, moved by the offset.  But the parent pointer of the root,
    which is null in the original, is moved by the offset like any other
    and comes out as the non-null address 1048576, where no node is: the
    test for a root, [parent != 0], no longer recognises the root, so the
    walk through the parent pointers is not the one of the original. *)
Lemma RewritePointers_moves_null_parent :
  RewritePointers 77 24 [moved_root] 100 moved_forest = Finished moved_rewritten /\
  tree_nNodes moved_rewritten = 25 /\
  traversal 100 (nodes moved_rewritten) [moved_root]
  = (fun a => a + 1048576) <$> traversal 100 (nodes deep_forest) [node_addr sample_pool 0] /\
  parent <$> nodes deep_forest !! node_addr sample_pool 0 = Some 0 /\
  is_root <$> nodes deep_forest !! node_addr sample_pool 0 = Some true /\
  parent <$> nodes moved_rewritten !! moved_root = Some 1048576 /\
  is_root <$> nodes moved_rewritten !! moved_root = Some false /\
  nodes moved_rewritten !! 1048576 = None.
Proof.
  split.
  { unfold moved_rewritten.
    destruct (is_finished_true (RewritePointers 77 24 [moved_root] 100 moved_forest))
      as (f' & He); [vm_compute; reflexivity|].
    rewrite He. reflexivity. }
  vm_compute. repeat split; reflexivity.
Qed.

(** ** Blocks of coefficient memory *)

Lemma in_block_dptr p n j : 0 <= j < n -> in_block p n (dptr_add p j) = true.
Proof.
  intros H. unfold in_block, dptr_add, sizeof_double.
  replace (p + 8 * j - p) with (j * 8) by lia. rewrite Z.mod_mul by lia.
  repeat (apply andb_true_intro; split); lia.
Qed.

Lemma dptr_index p j : (dptr_add p j - p) / sizeof_double = j.
Proof.
  unfold dptr_add, sizeof_double.
  replace (p + 8 * j - p) with (j * 8) by lia. apply Z.div_mul. lia.
Qed.

Lemma in_block_inv p n a :
  in_block p n a = true -> exists j, 0 <= j < n /\ a = dptr_add p j.
Proof.
  unfold in_block, dptr_add, sizeof_double. intros H.
  apply andb_prop in H as [H H3]. apply andb_prop in H as [H1 H2].
  apply Z.leb_le in H1. apply Z.ltb_lt in H2. apply Z.eqb_eq in H3.
  exists ((a - p) / 8).
  pose proof (Z_div_mod_eq_full (a - p) 8). lia.
Qed.

Lemma in_block_false_ne p n a j : in_block p n a = false -> 0 <= j < n -> a <> dptr_add p j.
Proof.
  intros H Hj E. subst a. rewrite in_block_dptr in H by exact Hj. discriminate.
Qed.

Lemma in_block_apart p q n j :
  blocks_apart p q n -> 0 <= j < n -> in_block q n (dptr_add p j) = false.
Proof.
  intros Hap Hj. destruct (in_block q n (dptr_add p j)) eqn:E; [|reflexivity].
  apply in_block_inv in E as (k & Hk & E).
  exfalso. revert Hap E. unfold blocks_apart, dptr_add, sizeof_double. lia.
Qed.

Lemma blocks_apart_sym p q n : blocks_apart p q n -> blocks_apart q p n.
Proof. unfold blocks_apart. tauto. Qed.

(** A sub-block of a block. *)
Lemma in_block_sub p n k g a :
  0 <= g -> 0 <= k -> (g + 1) * k <= n ->
  in_block (dptr_add p (g * k)) k a = true -> in_block p n a = true.
Proof.
  intros Hg Hk Hn H. apply in_block_inv in H as (j & Hj & ->).
  unfold dptr_add, sizeof_double.
  replace (p + 8 * (g * k) + 8 * j) with (p + 8 * (g * k + j)) by lia.
  apply (in_block_dptr p n (g * k + j)). nia.
Qed.

Lemma read_block_nth m p n j :
  0 <= j < n -> read_block m p n !! Z.to_nat j = Some (m (dptr_add p j)).
Proof.
  intros H. unfold read_block.
  rewrite list_lookup_fmap, lookup_seqZ_lt by lia. cbn. do 3 f_equal. lia.
Qed.

Lemma read_block_ext m m' p n :
  (forall j, 0 <= j < n -> m (dptr_add p j) = m' (dptr_add p j)) ->
  read_block m p n = read_block m' p n.
Proof.
  intros H. unfold read_block. apply list_eq. intros i.
  rewrite !list_lookup_fmap.
  destruct (seqZ 0 n !! i) as [j|] eqn:E; [|reflexivity]. cbn.
  apply lookup_seqZ in E. f_equal. apply H. lia.
Qed.

Lemma read_block_eq_inv m m' p n j :
  read_block m p n = read_block m' p n -> 0 <= j < n ->
  m (dptr_add p j) = m' (dptr_add p j).
Proof.
  intros H Hj.
  pose proof (read_block_nth m p n j Hj) as H1.
  pose proof (read_block_nth m' p n j Hj) as H2.
  rewrite H in H1. congruence.
Qed.

Lemma read_block_fmap m p n (v : Z -> float) :
  (forall j, 0 <= j < n -> m (dptr_add p j) = v j) ->
  read_block m p n = v <$> seqZ 0 n.
Proof.
  intros H. unfold read_block. apply list_eq. intros i.
  rewrite !list_lookup_fmap.
  destruct (seqZ 0 n !! i) as [j|] eqn:E; [|reflexivity]. cbn.
  apply lookup_seqZ in E. f_equal. apply H. lia.
Qed.

(** ** applyFilter *)

Lemma buf_set_buf_eq b s m : buf (set_buf b s m) s = m.
Proof. destruct s; reflexivity. Qed.

Lemma buf_set_buf_ne b s s' m : s' <> s -> buf (set_buf b s m) s' = buf b s'.
Proof. destruct s, s'; intros H; try reflexivity; contradiction. Qed.

Lemma applyFilter_other K b so out si in_ oper k1 k2 ow s :
  s <> so -> buf (applyFilter K b so out si in_ oper k1 k2 ow) s = buf b s.
Proof. intros H. unfold applyFilter. apply buf_set_buf_ne. exact H. Qed.

Lemma applyFilter_outside K b so out si in_ oper k1 k2 ow a :
  in_block out (k1 * k2) a = false ->
  buf (applyFilter K b so out si in_ oper k1 k2 ow) so a = buf b so a.
Proof.
  intros H. unfold applyFilter. rewrite buf_set_buf_eq. cbn beta.
  rewrite H. reflexivity.
Qed.

Lemma applyFilter_inside K b so out si in_ oper k1 k2 ow j :
  0 <= j < k1 * k2 ->
  buf (applyFilter K b so out si in_ oper k1 k2 ow) so (dptr_add out j)
  = if PrimFloat.eqb ow 0
    then filterProduct K oper k1 k2 (read_block (buf b si) in_ (k1 * k2)) j
    else (buf b so (dptr_add out j)
          + filterProduct K oper k1 k2 (read_block (buf b si) in_ (k1 * k2)) j)%float.
Proof.
  intros H. unfold applyFilter. rewrite buf_set_buf_eq. cbn beta zeta.
  rewrite in_block_dptr by exact H. rewrite dptr_index. reflexivity.
Qed.

(** The filter index is one of 0, 1, 2, 3, so that [getSubFilter] never
    aborts in a sweep. *)
Lemma land_1_cases x : Z.land x 1 = 0 \/ Z.land x 1 = 1.
Proof.
  assert (H : Z.land x 1 = x mod 2).
  { change 1 with (Z.ones 1). rewrite Z.land_ones by lia. reflexivity. }
  rewrite H. pose proof (Z.mod_pos_bound x 2). lia.
Qed.

Lemma getSubFilter_in_sweep K i gt ft oper :
  getSubFilter (filter K) (filter_index i gt ft) oper
  = Done (subfilter K (filter_index i gt ft) oper).
Proof.
  unfold subfilter, filter_index.
  destruct (land_1_cases (Z.shiftr gt i)) as [-> | ->],
           (land_1_cases (Z.shiftr ft i)) as [-> | ->];
    destruct oper; reflexivity.
Qed.

(** ** A sweep on memory and on values *)

Section Sweep.
Context (K : Kernel) (oper : operation) (i mask : Z).
Context (so : space) (out_base out_stride : Z) (si : space) (in_base in_stride : Z).
Context (k1 k2 : Z).
Context (ins : Z -> list float).

Let n := k1 * k2.
Let out_of (gt : Z) := dptr_add out_base (gt * out_stride).
Let in_of (ft : Z) := dptr_add in_base (ft * in_stride).
Let same_but := same_but so n.
Let inner_rel := inner_rel so n.
Let same_but_all := same_but_all so out_base out_stride n.


Lemma sweep_ft_spec gt (b0 : bufs) (fts : list Z) : forall b acc ow,
  inner_rel (out_of gt) b0 b acc ow ->
  (forall b', same_but (out_of gt) b' b0 ->
     forall ft, ft ∈ fts -> read_block (buf b' si) (in_of ft) n = ins ft) ->
  exists b' ow',
    fold_left (sweep_ft K oper i mask so (out_of gt) si in_base in_stride k1 k2 gt)
              fts (Done (b, ow)) = Done (b', ow') /\
    inner_rel (out_of gt) b0 b'
      (fold_left (sweep_value_ft K oper i mask k1 k2 ins gt) fts acc) ow'.
Proof.
  induction fts as [|ft fts IH]; intros b acc ow Hrel Hst; cbn [fold_left].
  - exists b, ow. split; [reflexivity|exact Hrel].
  - unfold sweep_ft at 2. unfold sweep_value_ft at 2.
    destruct (Z.lor gt mask =? Z.lor ft mask).
    + pose proof (getSubFilter_in_sweep K i gt ft oper) as Hg.
      unfold filter_index in Hg at 1. rewrite Hg.
      apply IH; [|intros b' Hb' ft' Hft'; apply Hst; [exact Hb'|right; exact Hft']].
      destruct Hrel as ((Ho & Hout) & Hin & How).
      split; [split|split].
      * intros s Hs. rewrite applyFilter_other by exact Hs. apply Ho. exact Hs.
      * intros a Ha. rewrite applyFilter_outside by exact Ha. apply Hout. exact Ha.
      * intros j Hj. rewrite applyFilter_inside by exact Hj.
        fold n. fold (in_of ft).
        rewrite (Hst b (conj Ho Hout) ft) by left.
        rewrite How. destruct acc as [v|].
        -- change (PrimFloat.eqb 1 0) with false. cbn iota.
           rewrite (Hin j Hj). reflexivity.
        -- change (PrimFloat.eqb 0 0) with true. reflexivity.
      * reflexivity.
    + apply IH; [exact Hrel|].
      intros b' Hb' ft' Hft'. apply Hst; [exact Hb'|right; exact Hft'].
Qed.

Lemma sweep_gts_spec tDim ftlim (b0 : bufs) :
  (forall g g', 0 <= g < tDim -> 0 <= g' < tDim -> g <> g' ->
     blocks_apart (out_of g) (out_of g') n) ->
  (forall b', same_but_all tDim b' b0 ->
     forall ft, 0 <= ft < ftlim -> read_block (buf b' si) (in_of ft) n = ins ft) ->
  forall gts b,
    NoDup gts -> (forall g, g ∈ gts -> 0 <= g < tDim) ->
    same_but_all tDim b b0 ->
    exists b',
      fold_left (sweep_gt K oper i mask ftlim so out_base out_stride si
                          in_base in_stride k1 k2)
                gts (Done (b, 0%float)) = Done (b', 0%float) /\
      same_but_all tDim b' b0 /\
      (forall g j, g ∈ gts -> 0 <= j < n ->
         buf b' so (dptr_add (out_of g) j)
         = match sweep_value K oper i mask ftlim k1 k2 ins g with
           | Some v => v j
           | None => buf b so (dptr_add (out_of g) j)
           end) /\
      (forall g j, 0 <= g < tDim -> g ∉ gts -> 0 <= j < n ->
         buf b' so (dptr_add (out_of g) j) = buf b so (dptr_add (out_of g) j)).
Proof.
  intros Hapart Hst gts. induction gts as [|g gts IH]; intros b Hnd Hrange Hb.
  - exists b. cbn [fold_left]. split; [reflexivity|]. split; [exact Hb|].
    split; [intros g j Hg; inversion Hg|reflexivity].
  - cbn [fold_left]. unfold sweep_gt at 2. fold (out_of g).
    apply NoDup_cons in Hnd as (Hnotin & Hnd).
    assert (Hg : 0 <= g < tDim) by (apply Hrange; left).
    destruct (sweep_ft_spec g b (seqZ 0 ftlim) b None 0%float) as (b1 & ow1 & E1 & R1).
    { split; [split; reflexivity|]. split; reflexivity. }
    { intros b' (Ho' & Hout') ft Hft. apply elem_of_seqZ in Hft.
      apply Hst; [|lia]. destruct Hb as (Ho & Hout). split.
      - intros s Hs. rewrite Ho' by exact Hs. apply Ho. exact Hs.
      - intros a Ha. rewrite Hout' by (apply Ha; exact Hg). apply Hout. exact Ha. }
    rewrite E1. destruct R1 as ((Ho1 & Hout1) & Hin1 & _).
    fold (sweep_value K oper i mask ftlim k1 k2 ins g) in Hin1.
    destruct (IH b1) as (b' & E' & Hb' & Hdone & Hrest).
    { exact Hnd. }
    { intros g' Hg'. apply Hrange. right. exact Hg'. }
    { destruct Hb as (Ho & Hout). split.
      - intros s Hs. rewrite Ho1 by exact Hs. apply Ho. exact Hs.
      - intros a Ha. rewrite Hout1 by (apply Ha; exact Hg). apply Hout. exact Ha. }
    exists b'. split; [exact E'|]. split; [exact Hb'|]. split.
    + intros g' j Hg' Hj. apply elem_of_cons in Hg' as [-> | Hg'].
      * rewrite Hrest by assumption. apply Hin1. exact Hj.
      * rewrite Hdone by assumption.
        destruct (sweep_value K oper i mask ftlim k1 k2 ins g'); [reflexivity|].
        apply Hout1. apply in_block_apart; [|exact Hj].
        apply Hapart; [apply Hrange; right; exact Hg'|exact Hg|].
        intros ->. contradiction.
    + intros g' j Hg' Hnot Hj.
      rewrite Hrest; [|exact Hg'|intros H; apply Hnot; right; exact H|exact Hj].
      apply Hout1. apply in_block_apart; [|exact Hj].
      apply Hapart; [exact Hg'|exact Hg|].
      intros ->. apply Hnot. left.
Qed.

(** The whole sweep: the blocks it writes hold the values of the value
    level sweep, computed from the blocks read at the start; nothing
    else changes. *)
Lemma sweep_spec tDim ftlim (b0 : bufs) :
  (forall g g', 0 <= g < tDim -> 0 <= g' < tDim -> g <> g' ->
     blocks_apart (out_of g) (out_of g') n) ->
  (forall b', same_but_all tDim b' b0 ->
     forall ft, 0 <= ft < ftlim -> read_block (buf b' si) (in_of ft) n = ins ft) ->
  exists b',
    sweep K oper i mask tDim ftlim so out_base out_stride si in_base in_stride
          k1 k2 (Done (b0, 0%float)) = Done (b', 0%float) /\
    same_but_all tDim b' b0 /\
    (forall g j, 0 <= g < tDim -> 0 <= j < n ->
       buf b' so (dptr_add (out_of g) j)
       = match sweep_value K oper i mask ftlim k1 k2 ins g with
         | Some v => v j
         | None => buf b0 so (dptr_add (out_of g) j)
         end).
Proof.
  intros Hapart Hst.
  destruct (sweep_gts_spec tDim ftlim b0 Hapart Hst (seqZ 0 tDim) b0)
    as (b' & E & Hb' & Hdone & _).
  - apply NoDup_seqZ.
  - intros g Hg. apply elem_of_seqZ in Hg. lia.
  - split; reflexivity.
  - exists b'. split; [exact E|]. split; [exact Hb'|].
    intros g j Hg Hj. apply Hdone; [|exact Hj]. apply elem_of_seqZ. lia.
Qed.
End Sweep.

(** With as many blocks read as written, every block is written. *)
Lemma sweep_value_ft_some K oper i mask k1 k2 ins gt (l : list Z) : forall v,
  exists v', fold_left (sweep_value_ft K oper i mask k1 k2 ins gt) l (Some v) = Some v'.
Proof.
  induction l as [|ft l IH]; intros v; cbn [fold_left]; [eauto|].
  unfold sweep_value_ft at 2. destruct (_ =? _); apply IH.
Qed.

Lemma sweep_value_some K oper i mask ftlim k1 k2 ins gt :
  0 <= gt < ftlim ->
  exists v, sweep_value K oper i mask ftlim k1 k2 ins gt = Some v.
Proof.
  intros H. unfold sweep_value.
  assert (Hin : gt ∈ seqZ 0 ftlim) by (apply elem_of_seqZ; lia).
  generalize (@None (Z -> float)) as acc. revert Hin.
  generalize (seqZ 0 ftlim) as l.
  induction l as [|ft l IH]; intros Hin acc; [inversion Hin|].
  cbn [fold_left]. apply elem_of_cons in Hin as [<- | Hin].
  - unfold sweep_value_ft at 2. rewrite Z.eqb_refl. apply sweep_value_ft_some.
  - apply IH. exact Hin.
Qed.

Lemma swept_some K oper i mask ftlim k1 k2 ins gt n old :
  0 <= gt < ftlim ->
  exists v, sweep_value K oper i mask ftlim k1 k2 ins gt = Some v /\
            swept n (sweep_value K oper i mask ftlim k1 k2 ins gt) old = v <$> seqZ 0 n.
Proof.
  intros H. destruct (sweep_value_some K oper i mask ftlim k1 k2 ins gt H) as (v & E).
  exists v. rewrite E. split; reflexivity.
Qed.

(** Blocks of [kd] doubles that follow each other do not overlap. *)
Lemma consecutive_blocks_apart p kd g g' :
  0 <= kd -> g <> g' ->
  blocks_apart (dptr_add p (g * kd)) (dptr_add p (g' * kd)) kd.
Proof.
  intros Hk Hne. unfold blocks_apart, dptr_add, sizeof_double.
  destruct (Z_lt_le_dec g g'); [left|right]; nia.
Qed.

(** ** The Analysis kernel *)

(** [S_mwTransformBack] never aborts in three dimensions; it writes the
    eight sub-blocks of the parent block and nothing else, and what it
    writes is [analysis_block] of the scaling blocks of the children,
    provided these do not overlap the parent block. *)
Lemma S_mwTransformBack_spec K M cin cout stride :
  let kd := kp1 K * (kp1 K * kp1 K) in
  0 <= kp1 K ->
  (forall g ft, 0 <= g < 8 -> 0 <= ft < 8 ->
     blocks_apart (dptr_add cin (ft * stride)) (dptr_add cout (g * kd)) kd) ->
  exists M',
    S_mwTransformBack K 3 M cin cout stride = Done M' /\
    (forall a, (forall g, 0 <= g < 8 -> in_block (dptr_add cout (g * kd)) kd a = false) ->
       M' a = M a) /\
    (forall g, 0 <= g < 8 ->
       read_block M' (dptr_add cout (g * kd)) kd
       = analysis_block K (child_blocks K M cin stride) g).
Proof.
  intros kd Hk Hap. unfold S_mwTransformBack.
  change (negb (3 =? 3)) with false. cbn iota.
  change (Z.shiftl 1 3) with 8.
  assert (Hkd : 0 <= kd) by (subst kd; apply Z.mul_nonneg_nonneg; [|apply Z.mul_nonneg_nonneg]; lia).
  replace (kp1 K * kp1 K * kp1 K) with kd by (subst kd; lia).
  set (k2 := kp1 K * kp1 K).
  set (ins1 := child_blocks K M cin stride).
  set (ins2 := fun g => swept kd (sweep_value K Compression 0 1 8 (kp1 K) k2 ins1 g) []).
  set (ins3 := fun g => swept kd (sweep_value K Compression 1 2 8 (kp1 K) k2 ins2 g) []).
  (* first sweep: children to parent block *)
  destruct (sweep_spec K Compression 0 1 Heap cout kd Heap cin stride (kp1 K) k2 ins1
              8 8 (mkBufs M (uninit K))) as (b1 & E1 & (Ho1 & Hout1) & Hin1).
  { intros g g' _ _ Hne. apply consecutive_blocks_apart; assumption. }
  { intros b' (_ & Hout') ft Hft. subst ins1. unfold child_blocks.
    apply read_block_ext. intros j Hj. rewrite Hout'; [reflexivity|].
    intros g Hg. apply in_block_apart; [|exact Hj]. apply Hap; assumption. }
  rewrite E1.
  (* second sweep: parent block to the local array *)
  destruct (sweep_spec K Compression 1 2 Tmp 0 kd Heap cout kd (kp1 K) k2 ins2
              8 8 b1) as (b2 & E2 & (Ho2 & Hout2) & Hin2).
  { intros g g' _ _ Hne. apply consecutive_blocks_apart; assumption. }
  { intros b' (Ho' & _) ft Hft. rewrite (Ho' Heap) by discriminate.
    subst ins2. cbn beta.
    destruct (swept_some K Compression 0 1 8 (kp1 K) k2 ins1 ft kd [] Hft)
      as (v & Ev & ->).
    apply read_block_fmap. intros j Hj.
    rewrite (Hin1 ft j Hft Hj), Ev. reflexivity. }
  rewrite E2.
  (* third sweep: the local array to the parent block *)
  destruct (sweep_spec K Compression 2 4 Heap cout kd Tmp 0 kd (kp1 K) k2 ins3
              8 8 b2) as (b3 & E3 & (Ho3 & Hout3) & Hin3).
  { intros g g' _ _ Hne. apply consecutive_blocks_apart; assumption. }
  { intros b' (Ho' & _) ft Hft. rewrite (Ho' Tmp) by discriminate.
    subst ins3. cbn beta.
    destruct (swept_some K Compression 1 2 8 (kp1 K) k2 ins2 ft kd [] Hft)
      as (v & Ev & ->).
    apply read_block_fmap. intros j Hj.
    rewrite (Hin2 ft j Hft Hj), Ev. reflexivity. }
  rewrite E3. exists (heap b3). split; [reflexivity|]. split.
  - intros a Ha. change (heap b3) with (buf b3 Heap).
    rewrite (Hout3 a Ha). rewrite (Ho2 Heap) by discriminate.
    rewrite (Hout1 a Ha). reflexivity.
  - intros g Hg.
    change (read_block (heap b3) (dptr_add cout (g * kd)) kd
            = swept kd (sweep_value K Compression 2 4 8 (kp1 K) k2 ins3 g) []).
    destruct (swept_some K Compression 2 4 8 (kp1 K) k2 ins3 g kd [] Hg)
      as (v & Ev & ->).
    apply read_block_fmap. intros j Hj.
    change (heap b3) with (buf b3 Heap).
    rewrite (Hin3 g j Hg Hj), Ev. reflexivity.
Qed.

(** The values of a sweep depend on the blocks read only. *)
Lemma sweep_value_ext K oper i mask ftlim k1 k2 ins ins' gt :
  (forall ft, 0 <= ft < ftlim -> ins ft = ins' ft) ->
  sweep_value K oper i mask ftlim k1 k2 ins gt
  = sweep_value K oper i mask ftlim k1 k2 ins' gt.
Proof.
  intros H. unfold sweep_value.
  assert (Hl : forall ft, ft ∈ seqZ 0 ftlim -> ins ft = ins' ft).
  { intros ft Hft. apply elem_of_seqZ in Hft. apply H. lia. }
  revert Hl. generalize (@None (Z -> float)) as acc. generalize (seqZ 0 ftlim) as l.
  induction l as [|ft l IH]; intros acc Hl; cbn [fold_left]; [reflexivity|].
  unfold sweep_value_ft at 2 4. rewrite (Hl ft) by left.
  apply IH. intros ft' Hft'. apply Hl. right. exact Hft'.
Qed.

Lemma analysis_block_ext K ins ins' g :
  (forall ft, 0 <= ft < 8 -> ins ft = ins' ft) ->
  analysis_block K ins g = analysis_block K ins' g.
Proof.
  intros H. unfold analysis_block. cbn zeta. f_equal.
  apply sweep_value_ext. intros g2 Hg2. cbn beta. f_equal.
  apply sweep_value_ext. intros g1 Hg1. cbn beta. f_equal.
  apply sweep_value_ext. exact H.
Qed.

Lemma dptr_add_add p a b : dptr_add (dptr_add p a) b = dptr_add p (a + b).
Proof. unfold dptr_add, sizeof_double. lia. Qed.

(** An address outside a block is outside its eight sub-blocks. *)
Lemma outside_sub_blocks p kd a g :
  0 <= kd -> 0 <= g < 8 ->
  in_block p (8 * kd) a = false -> in_block (dptr_add p (g * kd)) kd a = false.
Proof.
  intros Hk Hg H. destruct (in_block (dptr_add p (g * kd)) kd a) eqn:E; [|reflexivity].
  rewrite (in_block_sub p (8 * kd) kd g a) in H; [discriminate|lia|lia|nia|exact E].
Qed.

(** ** The rounds of the recompression pass *)

Lemma up_child_failed f status cs e :
  fold_left (up_child f status) cs (Failed e) = Failed e.
Proof. induction cs as [|c cs IH]; [reflexivity|exact IH]. Qed.

Lemma up_child_fold f status cs : forall k s,
  (forall c, c ∈ cs -> is_Some (nodes f !! c)) ->
  Z.of_nat (length s) < stack_size ->
  fold_left (up_child f status) cs (Finished (k, s))
  = if Z.of_nat (length (List.filter (fun c => negb (up_ok f status c)) cs) + length s)
       <? stack_size
    then Finished (k + Z.of_nat (length (List.filter (up_ok f status) cs)),
                   rev (List.filter (fun c => negb (up_ok f status c)) cs) ++ s)
    else Failed StackOverflow.
Proof.
  induction cs as [|c cs IH]; intros k s Hin Hs; cbn [fold_left List.filter].
  - cbn [length Nat.add rev app].
    destruct (Z.ltb_spec (Z.of_nat (length s)) stack_size) as [_|H]; [|lia].
    f_equal. f_equal. lia.
  - destruct (Hin c) as (cn & Hc); [left|].
    assert (Hok : up_ok f status c
                  = (0 <? arr_get status (NodeRank cn)) || (getNChildren cn =? 0)).
    { unfold up_ok. rewrite Hc. reflexivity. }
    unfold up_child at 2. cbn [bind]. unfold deref. rewrite Hc. cbn [bind fst snd].
    rewrite Hok.
    destruct ((0 <? arr_get status (NodeRank cn)) || (getNChildren cn =? 0)) eqn:Eok.
    + rewrite IH by (try (intros c' Hc'; apply Hin; right; exact Hc'); exact Hs).
      cbn [negb length].
      destruct (_ <? stack_size); [|reflexivity]. f_equal. f_equal. lia.
    + apply orb_false_iff in Eok as (_ & E0). apply Z.eqb_neq in E0.
      assert (Hpos : (0 <? getNChildren cn) = true).
      { apply Z.ltb_lt. unfold getNChildren in *. lia. }
      rewrite Hpos. cbn [negb length]. unfold up_push.
      destruct (Z.ltb_spec (Z.of_nat (length s) + 1) stack_size) as [Hfit|Hfull];
        cbn [bind].
      * rewrite IH; [|intros c' Hc'; apply Hin; right; exact Hc'|cbn [length]; lia].
        cbn [length rev].
        replace (length (List.filter (fun c0 => negb (up_ok f status c0)) cs)
                 + S (length s))%nat
          with (S (length (List.filter (fun c0 => negb (up_ok f status c0)) cs))
                + length s)%nat by lia.
        destruct (_ <? stack_size); [|reflexivity].
        rewrite <- app_assoc. reflexivity.
      * rewrite up_child_failed.
        destruct (Z.ltb_spec
                    (Z.of_nat (S (length (List.filter
                                            (fun c0 => negb (up_ok f status c0)) cs))
                               + length s)) stack_size) as [H|_]; [lia|reflexivity].
Qed.

Lemma filter_negb_nil {A : Type} (P : A -> bool) (l : list A) :
  List.filter (fun x => negb (P x)) l = [] <-> length (List.filter P l) = length l.
Proof.
  induction l as [|x l IH]; cbn [List.filter length]; [tauto|].
  pose proof (List.filter_length_le P l) as Hle.
  destruct (P x); cbn [negb length].
  - rewrite IH. split; lia.
  - split; [discriminate|lia].
Qed.

Lemma filter_negb_all {A : Type} (P : A -> bool) (l : list A) :
  List.filter (fun x => negb (P x)) l = [] -> forall x, x ∈ l -> P x = true.
Proof.
  induction l as [|y l IH]; intros H x Hx; [inversion Hx|].
  cbn [List.filter] in H. destruct (P y) eqn:Ey; cbn [negb] in H; [|discriminate].
  apply elem_of_cons in Hx as [-> | Hx]; [exact Ey|apply IH; assumption].
Qed.

(** The blocks the kernel reads for a node are apart from the blocks it
    writes. *)
Lemma wf_kernel_apart E f0 roots h p nd c0 cn0 :
  up_wf E f0 roots h ->
  nodes f0 !! p = Some nd -> children nd !! 0%nat = Some c0 ->
  nodes f0 !! c0 = Some cn0 ->
  let kd := kp1 (kernel E) * (kp1 (kernel E) * kp1 (kernel E)) in
  forall g ft, 0 <= g < 8 -> 0 <= ft < 8 ->
    blocks_apart (dptr_add (coefvec cn0) (ft * up_stride f0))
                 (dptr_add (coefvec nd) (g * kd)) kd.
Proof.
  intros W Hp Hc0 Hcn0 kd g ft Hg Hft.
  assert (Hne : children nd <> []) by (intros E0; rewrite E0 in Hc0; discriminate).
  pose proof (wf_eight E f0 roots h W p nd Hp Hne) as H8.
  destruct (lookup_lt_is_Some_2 (children nd) (Z.to_nat ft)) as (c & Hc); [lia|].
  destruct (wf_children E f0 roots h W p nd c Hp) as (cn & Hcn & Hrk).
  { apply list_elem_of_lookup. eauto. }
  pose proof (wf_stride E f0 roots h W p nd c0 (Z.to_nat ft) c cn0 cn Hp Hc0 Hc Hcn0 Hcn)
    as Hst.
  rewrite Z2Nat.id in Hst by lia. rewrite <- Hst.
  assert (Hpc : c <> p).
  { intros ->. rewrite Hp in Hcn. injection Hcn as <-. lia. }
  pose proof (wf_apart E f0 roots h W c p cn nd Hcn Hp Hpc) as Hap.
  pose proof (wf_kp1 E f0 roots h W) as Hk.
  assert (Hkd : 0 <= kd).
  { subst kd. apply Z.mul_nonneg_nonneg; [|apply Z.mul_nonneg_nonneg]; lia. }
  revert Hap. unfold blocks_apart, block_len, dptr_add, sizeof_double. fold kd.
  intros [H|H]; [left|right]; nia.
Qed.

Section UpRounds.
Context (E : TreeEnv) (f0 : Forest) (roots : list Z) (h : Z -> nat).
Context (W : up_wf E f0 roots h).

Let K := kernel E.
Let kd := kp1 K * (kp1 K * kp1 K).

(** A leaf or a finished node on top of the stack is popped. *)
Lemma up_body_pop st p rest nd :
  up_base f0 st -> up_stack st = p :: rest -> nodes f0 !! p = Some nd ->
  children nd = [] \/ arr_get (up_status st) (NodeRank nd) = 1 ->
  S_mwTreeTransformUp_body E st
  = Finished (mkUpState (up_forest st) rest (arr_set (up_status st) (NodeRank nd) 1)).
Proof.
  intros (HN & _) Hs Hp Hcase. unfold S_mwTreeTransformUp_body.
  rewrite Hs. unfold deref. rewrite HN, Hp. cbn [bind].
  assert (Hc : (0 <? getNChildren nd) && (arr_get (up_status st) (NodeRank nd) =? 0) = false).
  { destruct Hcase as [Hl | H1].
    - unfold getNChildren. rewrite Hl. reflexivity.
    - rewrite H1. apply andb_false_r. }
  rewrite Hc. reflexivity.
Qed.

(** An unfinished node whose children are all finished or leaves is
    recompressed and marked finished; it stays on the stack. *)
Lemma up_body_transform st p rest nd :
  up_base f0 st -> up_stack st = p :: rest -> nodes f0 !! p = Some nd ->
  children nd <> [] -> arr_get (up_status st) (NodeRank nd) = 0 ->
  List.filter (fun c => negb (up_ok (up_forest st) (up_status st) c)) (children nd) = [] ->
  exists c0 cn0 M',
    children nd !! 0%nat = Some c0 /\ nodes f0 !! c0 = Some cn0 /\
    S_mwTransformBack K 3 (mem (up_forest st)) (coefvec cn0) (coefvec nd) (up_stride f0)
    = Done M' /\
    (forall a, (forall g, 0 <= g < 8 ->
                  in_block (dptr_add (coefvec nd) (g * kd)) kd a = false) ->
       M' a = mem (up_forest st) a) /\
    (forall g, 0 <= g < 8 ->
       read_block M' (dptr_add (coefvec nd) (g * kd)) kd
       = analysis_block K (child_blocks K (mem (up_forest st)) (coefvec cn0) (up_stride f0)) g) /\
    S_mwTreeTransformUp_body E st
    = Finished (mkUpState (set_mem (up_forest st) M') (p :: rest)
                  (arr_set (up_status st) (NodeRank nd) 1)).
Proof.
  intros (HN & HT & _ & _ & _ & Hfit) Hs Hp Hne H0 Hbad.
  destruct (children nd) as [|c0 cs] eqn:Hch; [contradiction|].
  destruct (wf_children E f0 roots h W p nd c0 Hp) as (cn0 & Hcn0 & _).
  { rewrite Hch. left. }
  assert (Hc0 : children nd !! 0%nat = Some c0) by (rewrite Hch; reflexivity).
  destruct (S_mwTransformBack_spec K (mem (up_forest st)) (coefvec cn0) (coefvec nd)
              (up_stride f0)) as (M' & EM & Hframe & Hval).
  { exact (wf_kp1 E f0 roots h W). }
  { exact (wf_kernel_apart E f0 roots h p nd c0 cn0 W Hp Hc0 Hcn0). }
  exists c0, cn0, M'. split; [reflexivity|]. split; [exact Hcn0|].
  split; [exact EM|]. split; [exact Hframe|]. split; [exact Hval|].
  unfold S_mwTreeTransformUp_body. rewrite Hs. unfold deref at 1. rewrite HN, Hp.
  cbn [bind]. rewrite H0.
  assert (Hpos : (0 <? getNChildren nd) = true).
  { apply Z.ltb_lt. unfold getNChildren. rewrite Hch. cbn [length]. lia. }
  rewrite Hpos. cbn [andb Z.eqb]. rewrite Hch.
  rewrite up_child_fold.
  2:{ intros c Hc. rewrite HN.
      destruct (wf_children E f0 roots h W p nd c Hp) as (cn & Hcn & _);
        [rewrite Hch; exact Hc|eauto]. }
  2:{ rewrite <- Hs. exact Hfit. }
  rewrite <- Hch in *.
  apply filter_negb_nil in Hbad as Hlen. rewrite Hbad, Hlen.
  cbn [length Nat.add].
  assert (Hroom : (Z.of_nat (S (length rest)) <? stack_size) = true).
  { apply Z.ltb_lt. rewrite Hs in Hfit. cbn [length] in Hfit. exact Hfit. }
  rewrite Hroom. cbn [bind fst snd rev app].
  unfold getNChildren at 1. rewrite Z.add_0_l, Z.eqb_refl.
  rewrite Hch at 1. cbn [lookup]. unfold deref. cbn. rewrite HN, Hcn0. cbn [bind].
  unfold up_stride. rewrite HT, (wf_dim E f0 roots h W).
  fold (up_stride f0). fold K. rewrite EM. reflexivity.
Qed.

(** An unfinished node with children that are neither finished nor
    leaves has these pushed, if the stack has room for them; memory and
    status stay as they are. *)
Lemma up_body_push st p rest nd :
  up_base f0 st -> up_stack st = p :: rest -> nodes f0 !! p = Some nd ->
  children nd <> [] -> arr_get (up_status st) (NodeRank nd) = 0 ->
  List.filter (fun c => negb (up_ok (up_forest st) (up_status st) c)) (children nd) <> [] ->
  S_mwTreeTransformUp_body E st
  = if Z.of_nat (length (List.filter
                           (fun c => negb (up_ok (up_forest st) (up_status st) c))
                           (children nd)) + length (p :: rest)) <? stack_size
    then Finished (mkUpState (up_forest st)
                     (rev (List.filter
                             (fun c => negb (up_ok (up_forest st) (up_status st) c))
                             (children nd)) ++ p :: rest)
                     (up_status st))
    else Failed StackOverflow.
Proof.
  intros (HN & HT & _ & _ & _ & Hfit) Hs Hp Hne H0 Hbad.
  unfold S_mwTreeTransformUp_body. rewrite Hs. unfold deref at 1. rewrite HN, Hp.
  cbn [bind]. rewrite H0.
  assert (Hpos : (0 <? getNChildren nd) = true).
  { apply Z.ltb_lt. unfold getNChildren. destruct (children nd); [contradiction|].
    cbn [length]. lia. }
  rewrite Hpos. cbn [andb Z.eqb].
  rewrite up_child_fold.
  2:{ intros c Hc. rewrite HN.
      destruct (wf_children E f0 roots h W p nd c Hp) as (cn & Hcn & _); [exact Hc|eauto]. }
  2:{ rewrite <- Hs. exact Hfit. }
  destruct (_ <? stack_size); [|reflexivity].
  cbn [bind fst snd].
  destruct (0 + Z.of_nat (length (List.filter (up_ok (up_forest st) (up_status st))
                                    (children nd))) =? getNChildren nd) eqn:Eq.
  - exfalso. apply Hbad. apply filter_negb_nil.
    apply Z.eqb_eq in Eq. unfold getNChildren in Eq. lia.
  - reflexivity.
Qed.
End UpRounds.

Lemma up_loop_step E st st' fuel :
  up_stack st <> [] -> S_mwTreeTransformUp_body E st = Finished st' ->
  S_mwTreeTransformUp_loop E (S fuel) st = S_mwTreeTransformUp_loop E fuel st'.
Proof.
  intros Hs Hb. cbn [S_mwTreeTransformUp_loop].
  destruct (up_stack st); [contradiction|]. rewrite Hb. reflexivity.
Qed.

Lemma up_ok_nodes f f0 status c :
  nodes f = nodes f0 -> up_ok f status c = up_ok f0 status c.
Proof. intros H. unfold up_ok. rewrite H. reflexivity. Qed.

Lemma arr_get_set_one s r r' :
  arr_get s r' = 1 -> arr_get (arr_set s r 1) r' = 1.
Proof.
  intros H. destruct (Z.eq_dec r r') as [->|Hne].
  - unfold arr_get, arr_set in *. destruct (0 <=? r') eqn:E0; [|discriminate].
    destruct (s !! Z.to_nat r') eqn:L; [|discriminate].
    rewrite list_lookup_insert_eq by (apply lookup_lt_Some in L; exact L).
    reflexivity.
  - rewrite arr_get_set_ne by exact Hne. exact H.
Qed.

Lemma arr_set_01 s r i :
  (forall i, arr_get s i = 0 \/ arr_get s i = 1) ->
  arr_get (arr_set s r 1) i = 0 \/ arr_get (arr_set s r 1) i = 1.
Proof.
  intros H. destruct (Z.eq_dec r i) as [->|Hne].
  - unfold arr_get, arr_set. destruct (0 <=? i) eqn:E0; [|left; reflexivity].
    destruct (s !! Z.to_nat i) eqn:L.
    + rewrite list_lookup_insert_eq by (apply lookup_lt_Some in L; exact L).
      right. reflexivity.
    + rewrite list_insert_ge by (apply lookup_ge_None in L; exact L).
      rewrite L. left. reflexivity.
  - rewrite arr_get_set_ne by exact Hne. apply H.
Qed.

Section UpBase.
Context (E : TreeEnv) (f0 : Forest) (roots : list Z) (h : Z -> nat).
Context (W : up_wf E f0 roots h).

(** The rounds keep the nodes, the allocator and the shape of the status
    array, and only nodes are pushed. *)
Lemma up_base_step st st' :
  up_base f0 st -> up_stack st <> [] ->
  S_mwTreeTransformUp_body E st = Finished st' -> up_base f0 st'.
Proof.
  intros HB Hs Hb. pose proof HB as (HN & HT & H01 & Hlen & Hst & Hfit).
  destruct (up_stack st) as [|p rest] eqn:Hstack; [contradiction|].
  destruct (Hst p) as (nd & Hp); [left|].
  assert (Hpop : S_mwTreeTransformUp_body E st
                 = Finished (mkUpState (up_forest st) rest
                               (arr_set (up_status st) (NodeRank nd) 1)) ->
                 up_base f0 st').
  { intros Eb. rewrite Eb in Hb. injection Hb as <-.
    split; [exact HN|]. split; [exact HT|]. cbn [up_forest up_stack up_status].
    split; [intros i; apply arr_set_01; exact H01|].
    split; [rewrite arr_set_length; exact Hlen|].
    split; [intros q Hq; apply Hst; right; exact Hq|].
    cbn [length] in Hfit. lia. }
  destruct (H01 (NodeRank nd)) as [H0 | H1].
  2:{ apply Hpop. apply (up_body_pop E f0 st p rest nd HB Hstack Hp). right. exact H1. }
  destruct (decide (children nd = [])) as [Hch | Hne].
  { apply Hpop. apply (up_body_pop E f0 st p rest nd HB Hstack Hp). left. exact Hch. }
  destruct (List.filter (fun c => negb (up_ok (up_forest st) (up_status st) c))
              (children nd)) as [|b bs] eqn:Hbad.
  - destruct (up_body_transform E f0 roots h W st p rest nd HB Hstack Hp Hne H0 Hbad)
      as (c0 & cn0 & M' & _ & _ & _ & _ & _ & Eb).
    rewrite Eb in Hb. injection Hb as <-.
    split; [exact HN|]. split; [exact HT|]. cbn [up_forest up_stack up_status].
    split; [intros i; apply arr_set_01; exact H01|].
    split; [rewrite arr_set_length; exact Hlen|].
    split; [exact Hst|exact Hfit].
  - assert (Hbad' : List.filter (fun c => negb (up_ok (up_forest st) (up_status st) c))
                      (children nd) <> []) by (rewrite Hbad; discriminate).
    rewrite (up_body_push E f0 roots h W st p rest nd HB Hstack Hp Hne H0 Hbad') in Hb.
    destruct (Z.ltb_spec
                (Z.of_nat (length (List.filter
                                     (fun c => negb (up_ok (up_forest st) (up_status st) c))
                                     (children nd)) + length (p :: rest)))
                stack_size) as [Hroom|_]; [|discriminate].
    injection Hb as <-.
    split; [exact HN|]. split; [exact HT|]. cbn [up_forest up_stack up_status].
    split; [exact H01|]. split; [exact Hlen|]. split.
    + intros q Hq. apply elem_of_app in Hq as [Hq | Hq]; [|apply Hst; exact Hq].
      apply list_elem_of_In in Hq. apply List.in_rev in Hq.
      apply List.filter_In in Hq as (Hq & _).
      apply list_elem_of_In in Hq.
      destruct (wf_children E f0 roots h W p nd q Hp Hq) as (cn & Hcn & _). eauto.
    + rewrite length_app, length_rev. lia.
Qed.
End UpBase.

(** ** The state at the first round *)

Lemma up_push_root_fold f l : forall s status,
  (forall p, p ∈ l -> is_Some (nodes f !! p)) ->
  Z.of_nat (length l + length s) < stack_size ->
  fold_left (up_push_root f) l (Finished (s, status))
  = Finished (rev l ++ s, fold_left (up_mark_root f) l status).
Proof.
  induction l as [|p l IH]; intros s status Hl Hroom; [reflexivity|].
  destruct (Hl p) as (nd & Hp); [left|].
  cbn [fold_left]. unfold up_push_root at 2. cbn [bind fst snd].
  unfold deref. rewrite Hp. cbn [bind]. unfold up_push.
  destruct (Z.ltb_spec (Z.of_nat (length s) + 1) stack_size) as [_|Hover];
    [|cbn [length] in Hroom; lia].
  cbn [bind]. rewrite IH.
  - unfold up_mark_root at 3. rewrite Hp. cbn [rev]. rewrite <- app_assoc. reflexivity.
  - intros q Hq. apply Hl. right. exact Hq.
  - cbn [length] in *. lia.
Qed.

Lemma elem_of_rev_iff {A : Type} (x : A) (l : list A) : x ∈ rev l <-> x ∈ l.
Proof. rewrite !list_elem_of_In. symmetry. apply List.in_rev. Qed.

Lemma up_loop_done E fuel st :
  up_stack st = [] -> S_mwTreeTransformUp_loop E fuel st = Finished st.
Proof. intros H. destruct fuel; cbn [S_mwTreeTransformUp_loop]; rewrite H; reflexivity. Qed.

Lemma arr_set_cases s r v i :
  arr_get (arr_set s r v) i = v \/ arr_get (arr_set s r v) i = arr_get s i.
Proof.
  destruct (Z.eq_dec r i) as [->|Hne]; [|right; apply arr_get_set_ne; exact Hne].
  unfold arr_get, arr_set. destruct (0 <=? i) eqn:E0; [|right; reflexivity].
  destruct (s !! Z.to_nat i) eqn:L.
  - left. rewrite list_lookup_insert_eq by (apply lookup_lt_Some in L; exact L).
    reflexivity.
  - right. rewrite list_insert_ge by (apply lookup_ge_None in L; exact L).
    rewrite L. reflexivity.
Qed.

Section UpStart.
Context (E : TreeEnv) (f0 : Forest) (roots : list Z) (h : Z -> nat).
Context (W : up_wf E f0 roots h).

Lemma wf_roots_fit : Z.of_nat (length roots) < stack_size.
Proof.
  pose proof (wf_stack E f0 roots h W) as Hs.
  destruct roots as [|p l]; [reflexivity|].
  specialize (Hs p ltac:(left)). lia.
Qed.

(** The status array when the roots are marked: zeros and ones, zero at
    every node with children. *)
Lemma up_mark_roots_status (l : list Z) : forall status,
  (forall i, arr_get status i = 0 \/ arr_get status i = 1) ->
  nNodes (this f0) <= Z.of_nat (length status) ->
  (forall p nd, nodes f0 !! p = Some nd -> children nd <> [] ->
                arr_get status (NodeRank nd) = 0) ->
  let status' := fold_left (up_mark_root f0) l status in
  (forall i, arr_get status' i = 0 \/ arr_get status' i = 1) /\
  nNodes (this f0) <= Z.of_nat (length status') /\
  (forall p nd, nodes f0 !! p = Some nd -> children nd <> [] ->
                arr_get status' (NodeRank nd) = 0).
Proof.
  induction l as [|r l IH]; intros status H01 Hlen Hz; [cbn; auto|].
  cbn [fold_left]. apply IH; unfold up_mark_root;
    destruct (nodes f0 !! r) as [rd|] eqn:Hr; auto.
  - intros i.
    destruct (arr_set_cases status (NodeRank rd)
                (if 0 <? getNChildren rd then 0 else 1) i) as [-> | ->];
      [destruct (0 <? getNChildren rd); auto|apply H01].
  - rewrite arr_set_length. exact Hlen.
  - intros p nd Hp Hne.
    destruct (Z.eq_dec (NodeRank rd) (NodeRank nd)) as [Er|Er].
    + pose proof (wf_rank_inj E f0 roots h W r p rd nd Hr Hp Er) as ->.
      rewrite Hp in Hr. injection Hr as <-.
      assert (Hpos : (0 <? getNChildren nd) = true).
      { apply Z.ltb_lt. unfold getNChildren. destruct (children nd); [contradiction|].
        cbn [length]. lia. }
      rewrite Hpos. apply arr_get_set_eq.
      pose proof (wf_rank E f0 roots h W p nd Hp). lia.
    + rewrite arr_get_set_ne by exact Er. exact (Hz p nd Hp Hne).
Qed.

Lemma arr_get_replicate n i : arr_get (replicate n 0) i = 0.
Proof.
  unfold arr_get. destruct (0 <=? i); [|reflexivity].
  destruct (replicate n 0 !! Z.to_nat i) eqn:L; [|reflexivity].
  apply lookup_replicate in L as (-> & _). reflexivity.
Qed.

Lemma up_start_status :
  let status := up_status (up_start f0 roots) in
  (forall i, arr_get status i = 0 \/ arr_get status i = 1) /\
  nNodes (this f0) <= Z.of_nat (length status) /\
  (forall p nd, nodes f0 !! p = Some nd -> children nd <> [] ->
                arr_get status (NodeRank nd) = 0).
Proof.
  unfold up_start. cbn [up_status]. apply up_mark_roots_status.
  - intros i. left. apply arr_get_replicate.
  - rewrite length_replicate. lia.
  - intros p nd _ _. apply arr_get_replicate.
Qed.
End UpStart.

Section UpStartBase.
Context (E : TreeEnv) (f0 : Forest) (roots : list Z) (h : Z -> nat).
Context (W : up_wf E f0 roots h).

Lemma up_start_eq f :
  nodes f = nodes f0 -> this f = this f0 ->
  up_start f roots = mkUpState f (rev roots) (up_status (up_start f0 roots)).
Proof.
  intros HN HT. unfold up_start. cbn [up_status]. unfold up_mark_root.
  rewrite HN, HT. reflexivity.
Qed.

Lemma up_start_base f :
  nodes f = nodes f0 -> this f = this f0 -> up_base f0 (up_start f roots).
Proof.
  intros HN HT. rewrite (up_start_eq f HN HT).
  destruct (up_start_status E f0 roots h W) as (H01 & Hlen & _).
  split; [exact HN|]. split; [exact HT|]. cbn [up_forest up_stack up_status].
  split; [exact H01|]. split; [exact Hlen|]. split.
  - intros p Hp. apply (wf_roots E f0 roots h W). rewrite elem_of_rev_iff in Hp. exact Hp.
  - rewrite length_rev. exact (wf_roots_fit E f0 roots h W).
Qed.

Lemma up_start_inv : up_inv E f0 (up_start f0 roots).
Proof.
  destruct (up_start_status E f0 roots h W) as (_ & _ & Hz).
  split.
  - intros p nd Hp. split; [intros _ j _; reflexivity|].
    intros Hne. left. split; [exact (Hz p nd Hp Hne)|intros j _; reflexivity].
  - intros a _. reflexivity.
Qed.

Lemma up_run_start f fuel :
  nodes f = nodes f0 ->
  S_mwTreeTransformUp E roots fuel f
  = do st <- S_mwTreeTransformUp_loop E fuel (up_start f roots) ; Finished (up_forest st).
Proof.
  intros HN. unfold S_mwTreeTransformUp. rewrite up_push_root_fold.
  - cbn [bind fst snd]. rewrite app_nil_r. reflexivity.
  - intros p Hp. rewrite HN. exact (wf_roots E f0 roots h W p Hp).
  - pose proof (wf_roots_fit E f0 roots h W). cbn [length]. lia.
Qed.
End UpStartBase.

(** ** The pass finishes every node it is given *)

Section UpProcess.
Context (E : TreeEnv) (f0 : Forest) (roots : list Z) (h : Z -> nat).
Context (W : up_wf E f0 roots h).
Context (P : up_state -> Prop).
Context (P_step : forall st st',
           up_base f0 st -> P st -> up_stack st <> [] ->
           S_mwTreeTransformUp_body E st = Finished st' -> P st').

(** What a stretch of rounds achieves: the stack is down to [rest], the
    invariants hold, finished nodes stay finished. *)
Let reaches (st : up_state) (rest : list Z) (st' : up_state) : Prop :=
  (exists n, forall fuel,
      S_mwTreeTransformUp_loop E (n + fuel) st = S_mwTreeTransformUp_loop E fuel st') /\
  up_stack st' = rest /\ up_base f0 st' /\ P st' /\
  (forall r, arr_get (up_status st) r = 1 -> arr_get (up_status st') r = 1).

Lemma reaches_step st st' rest st'' :
  up_base f0 st -> P st -> up_stack st <> [] ->
  S_mwTreeTransformUp_body E st = Finished st' ->
  (forall r, arr_get (up_status st) r = 1 -> arr_get (up_status st') r = 1) ->
  reaches st' rest st'' -> reaches st rest st''.
Proof.
  intros HB HP Hs Hb Hmono ((n & Hn) & Hrest & HB' & HP' & Hm').
  split; [|split; [exact Hrest|split; [exact HB'|split; [exact HP'|]]]].
  - exists (S n). intros fuel. cbn [Nat.add].
    rewrite (up_loop_step E st st' (n + fuel) Hs Hb). apply Hn.
  - intros r Hr. apply Hm'. apply Hmono. exact Hr.
Qed.

Lemma reaches_refl st :
  up_base f0 st -> P st -> reaches st (up_stack st) st.
Proof.
  intros HB HP. split; [exists O; reflexivity|].
  split; [reflexivity|]. split; [exact HB|]. split; [exact HP|]. auto.
Qed.

Lemma reaches_trans st rest1 st1 rest2 st2 :
  reaches st rest1 st1 -> reaches st1 rest2 st2 -> reaches st rest2 st2.
Proof.
  intros ((n1 & H1) & _ & _ & _ & Hm1) ((n2 & H2) & Hr & HB & HP & Hm2).
  split; [|split; [exact Hr|split; [exact HB|split; [exact HP|]]]].
  - exists (n1 + n2)%nat. intros fuel. rewrite <- Nat.add_assoc, H1. apply H2.
  - intros r Hr'. apply Hm2, Hm1, Hr'.
Qed.

(** A node on top of the stack is popped in one round when it is a leaf
    or finished. *)
Lemma up_pop_reaches st p rest nd :
  up_base f0 st -> P st -> up_stack st = p :: rest -> nodes f0 !! p = Some nd ->
  children nd = [] \/ arr_get (up_status st) (NodeRank nd) = 1 ->
  exists st', reaches st rest st' /\ arr_get (up_status st') (NodeRank nd) = 1.
Proof.
  intros HB HP Hs Hp Hcase.
  pose proof (up_body_pop E f0 st p rest nd HB Hs Hp Hcase) as Eb.
  assert (Hne : up_stack st <> []) by (rewrite Hs; discriminate).
  eexists. split.
  - eapply reaches_step; [exact HB|exact HP|exact Hne|exact Eb| |].
    + intros r Hr. cbn [up_status]. apply arr_get_set_one. exact Hr.
    + apply (reaches_refl (mkUpState (up_forest st) rest _)).
      * exact (up_base_step E f0 roots h W st _ HB Hne Eb).
      * exact (P_step st _ HB HP Hne Eb).
  - cbn [up_status]. apply arr_get_set_eq.
    destruct HB as (_ & _ & _ & Hlen & _).
    pose proof (wf_rank E f0 roots h W p nd Hp). lia.
Qed.

(** A node on top of the stack whose children are all finished or
    leaves is finished and popped in at most two rounds. *)
Lemma up_ready_reaches st p rest nd :
  up_base f0 st -> P st -> up_stack st = p :: rest -> nodes f0 !! p = Some nd ->
  (forall c, c ∈ children nd -> up_ok f0 (up_status st) c = true) ->
  exists st', reaches st rest st' /\ arr_get (up_status st') (NodeRank nd) = 1.
Proof.
  intros HB HP Hs Hp Hok. pose proof HB as (HN & HT & H01 & Hlen & Hst & Hfit).
  assert (Hne : up_stack st <> []) by (rewrite Hs; discriminate).
  destruct (H01 (NodeRank nd)) as [H0 | H1];
    [|apply (up_pop_reaches st p rest nd); auto].
  destruct (decide (children nd = [])) as [Hch | Hch];
    [apply (up_pop_reaches st p rest nd); auto|].
  assert (Hbad : List.filter (fun c => negb (up_ok (up_forest st) (up_status st) c))
                   (children nd) = []).
  { apply filter_negb_nil.
    rewrite (List.forallb_filter_id (up_ok (up_forest st) (up_status st)) (children nd));
      [reflexivity|].
    apply List.forallb_forall. intros c Hc. rewrite (up_ok_nodes _ f0) by exact HN.
    apply Hok. apply list_elem_of_In. exact Hc. }
  destruct (up_body_transform E f0 roots h W st p rest nd HB Hs Hp Hch H0 Hbad)
    as (c0 & cn0 & M' & _ & _ & _ & _ & _ & Eb).
  set (st1 := mkUpState (set_mem (up_forest st) M') (p :: rest)
                (arr_set (up_status st) (NodeRank nd) 1)) in *.
  pose proof (up_base_step E f0 roots h W st st1 HB Hne Eb) as HB1.
  pose proof (P_step st st1 HB HP Hne Eb) as HP1.
  assert (H11 : arr_get (up_status st1) (NodeRank nd) = 1).
  { cbn [st1 up_status]. apply arr_get_set_eq.
    pose proof (wf_rank E f0 roots h W p nd Hp). lia. }
  destruct (up_pop_reaches st1 p rest nd HB1 HP1 eq_refl Hp (or_intror H11))
    as (st2 & Hr2 & H2).
  exists st2. split; [|exact H2].
  eapply reaches_step; [exact HB|exact HP|exact Hne|exact Eb| |exact Hr2].
  intros r Hr. cbn [st1 up_status]. apply arr_get_set_one. exact Hr.
Qed.

(** A node on top of the stack is finished and popped, if the stack has
    room for eight nodes for each level below it. *)
Lemma up_process (b : nat) : forall p nd rest st,
  nodes f0 !! p = Some nd -> (h p <= b)%nat ->
  up_base f0 st -> P st -> up_stack st = p :: rest ->
  Z.of_nat (length (p :: rest)) + 8 * Z.of_nat b < stack_size ->
  exists st', reaches st rest st' /\ arr_get (up_status st') (NodeRank nd) = 1.
Proof.
  induction b as [|b IH]; intros p nd rest st Hp Hm HB HP Hs Hroom.
  { (* no level below: a leaf *)
    apply (up_pop_reaches st p rest nd); auto. left.
    destruct (children nd) as [|c cs] eqn:Hch; [reflexivity|].
    destruct (wf_children E f0 roots h W p nd c Hp) as (cn & _ & Hlt);
      [rewrite Hch; left|lia]. }
  (* a list of nodes with fewer levels below them on top of the stack *)
  assert (Hlist : forall l rest' st0,
            (forall c, c ∈ l -> is_Some (nodes f0 !! c) /\ (h c <= b)%nat) ->
            up_base f0 st0 -> P st0 -> up_stack st0 = l ++ rest' ->
            Z.of_nat (length (l ++ rest')) + 8 * Z.of_nat b < stack_size ->
            exists st', reaches st0 rest' st' /\
              forall c cn, c ∈ l -> nodes f0 !! c = Some cn ->
                           arr_get (up_status st') (NodeRank cn) = 1).
  { induction l as [|c l IHl]; intros rest' st0 Hl HB0 HP0 Hs0 Hroom0.
    - cbn [app] in Hs0. exists st0. split; [rewrite <- Hs0; apply reaches_refl; assumption|].
      intros c cn Hc. inversion Hc.
    - destruct (Hl c) as ((cn & Hcn) & Hmc); [left|].
      destruct (IH c cn (l ++ rest') st0 Hcn Hmc HB0 HP0 Hs0 Hroom0) as (st1 & Hr1 & H1).
      pose proof Hr1 as (_ & Hs1 & HB1 & HP1 & _).
      destruct (IHl rest' st1) as (st2 & Hr2 & H2); try assumption.
      { intros c' Hc'. apply Hl. right. exact Hc'. }
      { cbn [app length] in Hroom0. lia. }
      exists st2. split; [exact (reaches_trans _ _ _ _ _ Hr1 Hr2)|].
      intros c' cn' Hc' Hcn'. apply elem_of_cons in Hc' as [-> | Hc'].
      + rewrite Hcn in Hcn'. injection Hcn' as <-.
        destruct Hr2 as (_ & _ & _ & _ & Hmono). apply Hmono. exact H1.
      + apply (H2 c'); assumption. }
  pose proof HB as (HN & HT & H01 & Hlen & Hst & Hfit).
  assert (Hne : up_stack st <> []) by (rewrite Hs; discriminate).
  destruct (H01 (NodeRank nd)) as [H0 | H1];
    [|apply (up_pop_reaches st p rest nd); auto].
  destruct (decide (children nd = [])) as [Hch | Hch];
    [apply (up_pop_reaches st p rest nd); auto|].
  set (bad := List.filter (fun c => negb (up_ok (up_forest st) (up_status st) c))
                (children nd)).
  destruct (decide (bad = [])) as [Hbad | Hbad].
  { apply (up_ready_reaches st p rest nd); try assumption.
    intros c Hc. rewrite <- (up_ok_nodes (up_forest st)) by exact HN.
    exact (filter_negb_all _ _ Hbad c Hc). }
  assert (Hbad8 : (length bad <= 8)%nat).
  { rewrite <- (wf_eight E f0 roots h W p nd Hp Hch). apply List.filter_length_le. }
  pose proof (up_body_push E f0 roots h W st p rest nd HB Hs Hp Hch H0 Hbad) as Eb.
  fold bad in Eb.
  destruct (Z.ltb_spec (Z.of_nat (length bad + length (p :: rest))) stack_size)
    as [_|Hover]; [|lia].
  set (st1 := mkUpState (up_forest st) (rev bad ++ p :: rest) (up_status st)) in *.
  pose proof (up_base_step E f0 roots h W st st1 HB Hne Eb) as HB1.
  pose proof (P_step st st1 HB HP Hne Eb) as HP1.
  destruct (Hlist (rev bad) (p :: rest) st1) as (st2 & Hr2 & Hfin); try assumption.
  { intros c Hc. apply list_elem_of_In in Hc. apply List.in_rev in Hc.
    apply List.filter_In in Hc as (Hc & _). apply list_elem_of_In in Hc.
    destruct (wf_children E f0 roots h W p nd c Hp Hc) as (cn & Hcn & Hrk).
    split; [eauto|lia]. }
  { reflexivity. }
  { rewrite length_app, length_rev. lia. }
  pose proof Hr2 as (_ & Hs2 & HB2 & HP2 & Hmono2).
  destruct (up_ready_reaches st2 p rest nd HB2 HP2 Hs2 Hp) as (st3 & Hr3 & H3).
  { intros c Hc.
    destruct (wf_children E f0 roots h W p nd c Hp Hc) as (cn & Hcn & _).
    destruct (up_ok (up_forest st) (up_status st) c) eqn:Eok.
    - rewrite (up_ok_nodes _ f0) in Eok by exact HN.
      unfold up_ok in *. rewrite Hcn in *.
      apply orb_true_iff in Eok as [Epos | Eleaf]; apply orb_true_iff; [left|right; exact Eleaf].
      apply Z.ltb_lt in Epos.
      destruct (H01 (NodeRank cn)) as [Hz | Ho]; [lia|].
      rewrite (Hmono2 _ Ho). reflexivity.
    - unfold up_ok. rewrite Hcn. apply orb_true_iff. left.
      rewrite (Hfin c cn); [reflexivity| |exact Hcn].
      apply list_elem_of_In. apply -> List.in_rev.
      apply List.filter_In. split; [apply list_elem_of_In; exact Hc|].
      rewrite Eok. reflexivity. }
  exists st3. split; [|exact H3].
  eapply reaches_step; [exact HB|exact HP|exact Hne|exact Eb| |].
  - intros r Hr. exact Hr.
  - exact (reaches_trans _ _ _ _ _ Hr2 Hr3).
Qed.

(** All the nodes of a list on top of the stack. *)
Lemma up_process_list : forall l rest st,
  (forall c, c ∈ l ->
     is_Some (nodes f0 !! c) /\
     Z.of_nat (length (l ++ rest)) + 8 * Z.of_nat (h c) < stack_size) ->
  up_base f0 st -> P st -> up_stack st = l ++ rest ->
  exists st', reaches st rest st' /\
    forall c cn, c ∈ l -> nodes f0 !! c = Some cn ->
                 arr_get (up_status st') (NodeRank cn) = 1.
Proof.
  induction l as [|c l IHl]; intros rest st Hl HB HP Hs.
  - cbn [app] in Hs. exists st. split; [rewrite <- Hs; apply reaches_refl; assumption|].
    intros c cn Hc. inversion Hc.
  - destruct (Hl c) as ((cn & Hcn) & Hroom); [left|].
    destruct (up_process (h c) c cn (l ++ rest) st Hcn (le_n _) HB HP Hs Hroom)
      as (st1 & Hr1 & H1).
    pose proof Hr1 as (_ & Hs1 & HB1 & HP1 & _).
    destruct (IHl rest st1) as (st2 & Hr2 & H2); try assumption.
    { intros c' Hc'. destruct (Hl c') as (Hn & Hr); [right; exact Hc'|].
      split; [exact Hn|]. cbn [app length] in Hr. lia. }
    exists st2. split; [exact (reaches_trans _ _ _ _ _ Hr1 Hr2)|].
    intros c' cn' Hc' Hcn'. apply elem_of_cons in Hc' as [-> | Hc'].
    + rewrite Hcn in Hcn'. injection Hcn' as <-.
      destruct Hr2 as (_ & _ & _ & _ & Hmono). apply Hmono. exact H1.
    + apply (H2 c'); assumption.
Qed.
(** A pass from the first round: it ends, with every root finished. *)
Lemma up_pass f :
  nodes f = nodes f0 -> this f = this f0 -> P (up_start f roots) ->
  exists n st',
    (forall fuel, (n <= fuel)%nat ->
       S_mwTreeTransformUp E roots fuel f = Finished (up_forest st')) /\
    up_base f0 st' /\ P st' /\
    (forall p nd, p ∈ roots -> nodes f0 !! p = Some nd ->
                  arr_get (up_status st') (NodeRank nd) = 1).
Proof.
  intros HN HT HP.
  destruct (up_process_list (rev roots) [] (up_start f roots))
    as (st' & ((n & Hn) & Hs' & HB' & HP' & _) & Hfin).
  - intros c Hc. rewrite elem_of_rev_iff in Hc.
    split; [exact (wf_roots E f0 roots h W c Hc)|].
    rewrite app_nil_r, length_rev. exact (wf_stack E f0 roots h W c Hc).
  - exact (up_start_base E f0 roots h W f HN HT).
  - exact HP.
  - rewrite app_nil_r. reflexivity.
  - exists n, st'. split; [|split; [exact HB'|split; [exact HP'|]]].
    + intros fuel Hfuel. rewrite (up_run_start E f0 roots h W f fuel HN).
      replace fuel with (n + (fuel - n))%nat by lia.
      rewrite Hn, (up_loop_done E _ st' Hs'). reflexivity.
    + intros p nd Hp Hnd. apply (Hfin p nd); [|exact Hnd].
      rewrite elem_of_rev_iff. exact Hp.
Qed.
End UpProcess.

(** ** The invariant of a pass *)

Section UpInv.
Context (E : TreeEnv) (f0 : Forest) (roots : list Z) (h : Z -> nat).
Context (W : up_wf E f0 roots h).

Let K := kernel E.
Let kd := kp1 K * (kp1 K * kp1 K).

Lemma kd_nonneg : 0 <= kd.
Proof.
  pose proof (wf_kp1 E f0 roots h W). subst kd K.
  apply Z.mul_nonneg_nonneg; [|apply Z.mul_nonneg_nonneg]; lia.
Qed.

Lemma finished_or_leaf_mono s s' c :
  (forall r, arr_get s r = 1 -> arr_get s' r = 1) ->
  finished_or_leaf f0 s c -> finished_or_leaf f0 s' c.
Proof.
  intros Hm (cn & Hcn & [Hl | H1]); exists cn; split; auto.
Qed.

Lemma up_ok_finished_or_leaf s c :
  (forall i, arr_get s i = 0 \/ arr_get s i = 1) ->
  up_ok f0 s c = true -> finished_or_leaf f0 s c.
Proof.
  intros H01 H. unfold up_ok in H.
  destruct (nodes f0 !! c) as [cn|] eqn:Hcn; [|discriminate].
  exists cn. split; [exact Hcn|].
  apply orb_true_iff in H as [H | H].
  - right. apply Z.ltb_lt in H. destruct (H01 (NodeRank cn)); lia.
  - left. apply Z.eqb_eq in H. unfold getNChildren in H.
    destruct (children cn); [reflexivity|cbn [length] in H; lia].
Qed.

(** The kernel run for [nd] leaves the blocks of the other nodes. *)
Lemma other_block_kept (M M' : cmem) p nd q md j :
  nodes f0 !! p = Some nd -> nodes f0 !! q = Some md -> q <> p ->
  (forall a, (forall g, 0 <= g < 8 ->
                in_block (dptr_add (coefvec nd) (g * kd)) kd a = false) -> M' a = M a) ->
  0 <= j < block_len K ->
  M' (dptr_add (coefvec md) j) = M (dptr_add (coefvec md) j).
Proof.
  intros Hp Hq Hne Hframe Hj. apply Hframe. intros g Hg.
  apply outside_sub_blocks; [apply kd_nonneg|exact Hg|].
  apply in_block_apart; [|exact Hj].
  exact (wf_apart E f0 roots h W q p md nd Hq Hp Hne).
Qed.

(** The scaling blocks of the children of [md], read in two memories
    that agree on the blocks of these children. *)
Lemma child_blocks_kept (M M' : cmem) q md c0 cn0 :
  nodes f0 !! q = Some md -> children md !! 0%nat = Some c0 ->
  nodes f0 !! c0 = Some cn0 ->
  (forall c cn j, c ∈ children md -> nodes f0 !! c = Some cn -> 0 <= j < block_len K ->
     M' (dptr_add (coefvec cn) j) = M (dptr_add (coefvec cn) j)) ->
  forall ft, 0 <= ft < 8 ->
    child_blocks K M' (coefvec cn0) (up_stride f0) ft
    = child_blocks K M (coefvec cn0) (up_stride f0) ft.
Proof.
  intros Hq Hc0 Hcn0 Hsame ft Hft.
  assert (Hne : children md <> []) by (intros E0; rewrite E0 in Hc0; discriminate).
  pose proof (wf_eight E f0 roots h W q md Hq Hne) as H8.
  destruct (lookup_lt_is_Some_2 (children md) (Z.to_nat ft)) as (c & Hc); [lia|].
  assert (Hin : c ∈ children md) by (apply list_elem_of_lookup; eauto).
  destruct (wf_children E f0 roots h W q md c Hq Hin) as (cn & Hcn & _).
  pose proof (wf_stride E f0 roots h W q md c0 (Z.to_nat ft) c cn0 cn Hq Hc0 Hc Hcn0 Hcn)
    as Hst.
  rewrite Z2Nat.id in Hst by lia.
  unfold child_blocks. rewrite <- Hst. apply read_block_ext. intros j Hj.
  apply (Hsame c cn j Hin Hcn). fold K. fold kd. unfold block_len. fold K. fold kd.
  pose proof kd_nonneg. lia.
Qed.

Lemma up_inv_step st st' :
  up_base f0 st -> up_inv E f0 st -> up_stack st <> [] ->
  S_mwTreeTransformUp_body E st = Finished st' -> up_inv E f0 st'.
Proof.
  intros HB (Hnodes & Hframe0) Hs Hb. pose proof HB as (HN & HT & H01 & Hlen & Hst & Hfit).
  destruct (up_stack st) as [|p rest] eqn:Hstack; [contradiction|].
  destruct (Hst p) as (nd & Hp); [left|].
  (* the node on top is popped *)
  assert (Hpop : children nd = [] \/ arr_get (up_status st) (NodeRank nd) = 1 ->
                 up_inv E f0 st').
  { intros Hcase.
    rewrite (up_body_pop E f0 st p rest nd HB Hstack Hp Hcase) in Hb.
    injection Hb as <-. split; [|exact Hframe0].
    cbn [up_forest up_status]. intros q md Hq.
    destruct (Hnodes q md Hq) as (Hleaf & Hint). split; [exact Hleaf|].
    intros Hne. destruct (Hint Hne) as [(H0 & Hsame) | (H1 & Hcons & Hch)].
    - left. split; [|exact Hsame].
      rewrite arr_get_set_ne; [exact H0|].
      intros Er. assert (p = q) as ->.
      { apply (wf_rank_inj E f0 roots h W p q nd md Hp Hq Er). }
      rewrite Hp in Hq. injection Hq as ->.
      destruct Hcase as [Hl | H1]; [contradiction|lia].
    - right. split; [apply arr_get_set_one; exact H1|]. split; [exact Hcons|].
      intros c Hc. apply (finished_or_leaf_mono (up_status st)); [|apply Hch; exact Hc].
      intros r Hr. apply arr_get_set_one. exact Hr. }
  destruct (H01 (NodeRank nd)) as [H0 | H1]; [|apply Hpop; right; exact H1].
  destruct (decide (children nd = [])) as [Hch | Hne]; [apply Hpop; left; exact Hch|].
  destruct (List.filter (fun c => negb (up_ok (up_forest st) (up_status st) c))
              (children nd)) as [|b bs] eqn:Hbad.
  2:{ (* children are pushed *)
      assert (Hbad' : List.filter (fun c => negb (up_ok (up_forest st) (up_status st) c))
                        (children nd) <> []) by (rewrite Hbad; discriminate).
      rewrite (up_body_push E f0 roots h W st p rest nd HB Hstack Hp Hne H0 Hbad') in Hb.
      destruct (_ <? stack_size); [|discriminate].
      injection Hb as <-. split; [exact Hnodes|exact Hframe0]. }
  (* the node on top is recompressed *)
  destruct (up_body_transform E f0 roots h W st p rest nd HB Hstack Hp Hne H0 Hbad)
    as (c0 & cn0 & M' & Hc0 & Hcn0 & _ & Hframe & Hval & Eb).
  fold K in Hframe, Hval. fold kd in Hframe, Hval.
  rewrite Eb in Hb. injection Hb as <-.
  unfold up_inv. cbn [up_forest up_status mem set_mem].
  set (M := mem (up_forest st)) in *.
  assert (Hok : forall c, c ∈ children nd -> finished_or_leaf f0 (up_status st) c).
  { intros c Hc. apply up_ok_finished_or_leaf; [exact H01|].
    rewrite <- (up_ok_nodes (up_forest st)) by exact HN.
    exact (filter_negb_all _ _ Hbad c Hc). }
  assert (Hkept : forall q md j, nodes f0 !! q = Some md -> q <> p ->
            0 <= j < block_len K ->
            M' (dptr_add (coefvec md) j) = M (dptr_add (coefvec md) j)).
  { intros q md j Hq Hqp Hj. exact (other_block_kept M M' p nd q md j Hp Hq Hqp Hframe Hj). }
  assert (Hchild_ne : forall q md c, nodes f0 !! q = Some md -> c ∈ children md ->
            finished_or_leaf f0 (up_status st) c -> c <> p).
  { intros q md c Hq Hc (cn & Hcn & Hfl) ->. rewrite Hp in Hcn. injection Hcn as <-.
    destruct Hfl as [Hl | H1]; [contradiction|lia]. }
  split.
  - intros q md Hq. destruct (Hnodes q md Hq) as (Hleaf & Hint).
    destruct (decide (q = p)) as [-> | Hqp].
    + rewrite Hp in Hq. injection Hq as <-. split; [intros Hl; contradiction|].
      intros _. right.
      split; [apply arr_get_set_eq; pose proof (wf_rank E f0 roots h W p nd Hp); lia|].
      split.
      * intros c0' cn0' Hc0' Hcn0' g Hg. rewrite Hc0 in Hc0'. injection Hc0' as <-.
        rewrite Hcn0 in Hcn0'. injection Hcn0' as <-.
        fold K. fold kd. rewrite (Hval g Hg).
        apply analysis_block_ext. intros ft Hft. symmetry.
        apply (child_blocks_kept M M' p nd c0 cn0 Hp Hc0 Hcn0); [|exact Hft].
        intros c cn j Hc Hcn Hj. apply (Hkept c cn j Hcn); [|exact Hj].
        intros ->. destruct (wf_children E f0 roots h W p nd p Hp Hc) as (cn' & Hcn' & Hrk).
        rewrite Hp in Hcn'. injection Hcn' as <-. lia.
      * intros c Hc. apply (finished_or_leaf_mono (up_status st)); [|apply Hok; exact Hc].
        intros r Hr. apply arr_get_set_one. exact Hr.
    + assert (Hrk : NodeRank nd <> NodeRank md).
      { intros Er. apply Hqp. symmetry.
        exact (wf_rank_inj E f0 roots h W p q nd md Hp Hq Er). }
      split.
      * intros Hl j Hj. rewrite (Hkept q md j Hq Hqp Hj). apply (Hleaf Hl). exact Hj.
      * intros Hne'. destruct (Hint Hne') as [(Hz & Hsame) | (H1 & Hcons & Hch)].
        -- left. split; [rewrite arr_get_set_ne by exact Hrk; exact Hz|].
           intros j Hj. rewrite (Hkept q md j Hq Hqp Hj). apply Hsame. exact Hj.
        -- right. split; [apply arr_get_set_one; exact H1|]. split.
           ++ intros c0' cn0' Hc0' Hcn0' g Hg. fold K. fold kd.
              specialize (Hcons c0' cn0' Hc0' Hcn0' g Hg). fold K in Hcons. fold kd in Hcons.
              rewrite <- (analysis_block_ext K
                            (child_blocks K M (coefvec cn0') (up_stride f0))
                            (child_blocks K M' (coefvec cn0') (up_stride f0))).
              ** rewrite <- Hcons. apply read_block_ext. intros j Hj.
                 rewrite dptr_add_add. apply (Hkept q md _ Hq Hqp).
                 unfold block_len. fold K. fold kd. pose proof kd_nonneg. nia.
              ** intros ft Hft. symmetry.
                 apply (child_blocks_kept M M' q md c0' cn0' Hq Hc0' Hcn0'); [|exact Hft].
                 intros c cn j Hc Hcn Hj. apply (Hkept c cn j Hcn); [|exact Hj].
                 exact (Hchild_ne q md c Hq Hc (Hch c Hc)).
           ++ intros c Hc.
              apply (finished_or_leaf_mono (up_status st)); [|apply Hch; exact Hc].
              intros r Hr. apply arr_get_set_one. exact Hr.
  - intros a Ha. rewrite <- (Hframe0 a Ha). apply Hframe. intros g Hg.
    apply outside_sub_blocks; [apply kd_nonneg|exact Hg|].
    exact (Ha p nd Hp).
Qed.
End UpInv.

(** ** A second pass *)

Section UpSecond.
Context (E : TreeEnv) (f0 : Forest) (roots : list Z) (h : Z -> nat).
Context (W : up_wf E f0 roots h).
Context (m1 : cmem) (status1 : list Z).
Context (Hfin : forall p nd,
           nodes f0 !! p = Some nd -> children nd <> [] ->
           arr_get status1 (NodeRank nd) = 1 ->
           consistent E f0 m1 nd /\
           forall c, c ∈ children nd -> finished_or_leaf f0 status1 c).

Let K := kernel E.
Let kd := kp1 K * (kp1 K * kp1 K).

(** Analysis of a consistent node writes what the block holds. *)
Lemma recompress_same (M M' : cmem) p nd c0 cn0 :
  nodes f0 !! p = Some nd -> children nd !! 0%nat = Some c0 ->
  nodes f0 !! c0 = Some cn0 ->
  consistent E f0 m1 nd ->
  (forall a, M a = m1 a) ->
  (forall a, (forall g, 0 <= g < 8 ->
                in_block (dptr_add (coefvec nd) (g * kd)) kd a = false) -> M' a = M a) ->
  (forall g, 0 <= g < 8 ->
     read_block M' (dptr_add (coefvec nd) (g * kd)) kd
     = analysis_block K (child_blocks K M (coefvec cn0) (up_stride f0)) g) ->
  forall a, M' a = m1 a.
Proof.
  intros Hp Hc0 Hcn0 Hcons Hmem Hframe Hval a.
  pose proof (kd_nonneg E f0 roots h W) as Hkd. fold K in Hkd. fold kd in Hkd.
  destruct (in_block (coefvec nd) (8 * kd) a) eqn:Ein.
  - apply in_block_inv in Ein as (j & Hj & ->).
    assert (Hpos : 0 < kd) by lia.
    pose proof (Z.div_mod j kd ltac:(lia)) as Hdm.
    pose proof (Z.mod_pos_bound j kd Hpos) as Hmod.
    assert (Hg : 0 <= j / kd < 8).
    { split; [apply Z.div_pos; lia|apply Z.div_lt_upper_bound; lia]. }
    replace j with (j / kd * kd + j mod kd) by lia.
    rewrite <- dptr_add_add.
    apply (read_block_eq_inv M' m1 (dptr_add (coefvec nd) (j / kd * kd)) kd (j mod kd));
      [|exact Hmod].
    rewrite (Hval (j / kd) Hg).
    specialize (Hcons c0 cn0 Hc0 Hcn0 (j / kd) Hg). fold K in Hcons. fold kd in Hcons.
    rewrite Hcons. apply analysis_block_ext. intros ft Hft.
    unfold child_blocks. apply read_block_ext. intros i _. apply Hmem.
  - rewrite <- Hmem. apply Hframe. intros g Hg.
    apply outside_sub_blocks; [exact Hkd|exact Hg|exact Ein].
Qed.

Lemma up_inv2_step st st' :
  up_base f0 st -> up_inv2 f0 m1 status1 st -> up_stack st <> [] ->
  S_mwTreeTransformUp_body E st = Finished st' -> up_inv2 f0 m1 status1 st'.
Proof.
  intros HB (Hmem & Hgood) Hs Hb. pose proof HB as (HN & HT & H01 & Hlen & Hst & Hfit).
  destruct (up_stack st) as [|p rest] eqn:Hstack; [contradiction|].
  destruct (Hst p) as (nd & Hp); [left|].
  assert (Hpop : children nd = [] \/ arr_get (up_status st) (NodeRank nd) = 1 ->
                 up_inv2 f0 m1 status1 st').
  { intros Hcase.
    rewrite (up_body_pop E f0 st p rest nd HB Hstack Hp Hcase) in Hb.
    injection Hb as <-. split; [exact Hmem|].
    intros q Hq. apply Hgood. right. exact Hq. }
  destruct (H01 (NodeRank nd)) as [H0 | H1]; [|apply Hpop; right; exact H1].
  destruct (decide (children nd = [])) as [Hch | Hne]; [apply Hpop; left; exact Hch|].
  assert (Hp1 : arr_get status1 (NodeRank nd) = 1).
  { destruct (Hgood p) as (nd' & Hp' & [Hl | H1]); [left| |];
      rewrite Hp in Hp'; injection Hp' as <-; [contradiction|exact H1]. }
  destruct (Hfin p nd Hp Hne Hp1) as (Hcons & Hkids).
  destruct (List.filter (fun c => negb (up_ok (up_forest st) (up_status st) c))
              (children nd)) as [|b bs] eqn:Hbad.
  - destruct (up_body_transform E f0 roots h W st p rest nd HB Hstack Hp Hne H0 Hbad)
      as (c0 & cn0 & M' & Hc0 & Hcn0 & _ & Hframe & Hval & Eb).
    rewrite Eb in Hb. injection Hb as <-. split; [|exact Hgood].
    cbn [up_forest mem set_mem].
    exact (recompress_same (mem (up_forest st)) M' p nd c0 cn0 Hp Hc0 Hcn0 Hcons
             Hmem Hframe Hval).
  - assert (Hbad' : List.filter (fun c => negb (up_ok (up_forest st) (up_status st) c))
                      (children nd) <> []) by (rewrite Hbad; discriminate).
    rewrite (up_body_push E f0 roots h W st p rest nd HB Hstack Hp Hne H0 Hbad') in Hb.
    destruct (_ <? stack_size); [|discriminate].
    injection Hb as <-. split; [exact Hmem|]. cbn [up_stack].
    intros q Hq. apply elem_of_app in Hq as [Hq | Hq]; [|apply Hgood; exact Hq].
    rewrite elem_of_rev_iff in Hq. apply list_elem_of_In in Hq.
    apply List.filter_In in Hq as (Hq & _). apply list_elem_of_In in Hq.
    exact (Hkids q Hq).
Qed.
End UpSecond.

(** ** Analysis waits for the children *)

Lemma up_child_count f status cs : forall k s r,
  fold_left (up_child f status) cs (Finished (k, s)) = Finished r ->
  fst r = k + Z.of_nat (length (List.filter (up_ok f status) cs)).
Proof.
  induction cs as [|c cs IH]; intros k s r; cbn [fold_left List.filter].
  - intros [= <-]. cbn. lia.
  - unfold up_child at 2. cbn [bind fst snd]. unfold deref.
    assert (Hok : up_ok f status c
                  = match nodes f !! c with
                    | Some cn => (0 <? arr_get status (NodeRank cn)) || (getNChildren cn =? 0)
                    | None => false
                    end) by reflexivity.
    rewrite Hok. clear Hok.
    destruct (nodes f !! c) as [cn|]; cbn [bind];
      [|rewrite up_child_failed; discriminate].
    destruct ((0 <? arr_get status (NodeRank cn)) || (getNChildren cn =? 0)).
    + intros H. apply IH in H. cbn [length]. lia.
    + destruct (0 <? getNChildren cn); [|intros H; apply IH in H; lia].
      unfold up_push. destruct (_ <? stack_size); cbn [bind];
        [|rewrite up_child_failed; discriminate].
      intros H. apply IH in H. cbn [fst] in H. lia.
Qed.

Lemma filter_length_lt {A : Type} (P : A -> bool) (l : list A) (x : A) :
  x ∈ l -> P x = false -> (length (List.filter P l) < length l)%nat.
Proof.
  induction l as [|y l IH]; intros Hx Hf; [inversion Hx|].
  cbn [List.filter length]. pose proof (List.filter_length_le P l) as Hle.
  apply elem_of_cons in Hx as [<- | Hx].
  - rewrite Hf. lia.
  - specialize (IH Hx Hf). destruct (P y); cbn [length]; lia.
Qed.

(** A round leaves the coefficients alone as long as a child of the node
    on top of the stack is neither finished nor a leaf. *)
Lemma up_body_waits E st st' p rest nd c :
  up_stack st = p :: rest -> nodes (up_forest st) !! p = Some nd ->
  c ∈ children nd -> up_ok (up_forest st) (up_status st) c = false ->
  S_mwTreeTransformUp_body E st = Finished st' ->
  up_forest st' = up_forest st.
Proof.
  intros Hs Hp Hc Hbad. unfold S_mwTreeTransformUp_body. rewrite Hs.
  unfold deref at 1. rewrite Hp. cbn [bind].
  destruct ((0 <? getNChildren nd) && (arr_get (up_status st) (NodeRank nd) =? 0));
    [|intros [= <-]; reflexivity].
  destruct (fold_left _ _ _) as [r| |] eqn:Hfold; cbn [bind]; try discriminate.
  apply up_child_count in Hfold.
  pose proof (filter_length_lt _ _ c Hc Hbad) as Hlt.
  destruct (Z.eqb_spec (fst r) (getNChildren nd)) as [Heq|_];
    [unfold getNChildren in Heq; lia|].
  intros [= <-]. reflexivity.
Qed.

(** ** The recompression pass *)

Lemma up_reach_finished E f roots h st1 :
  up_wf E f roots h -> up_inv E f st1 ->
  (forall p nd, p ∈ roots -> nodes f !! p = Some nd ->
                arr_get (up_status st1) (NodeRank nd) = 1) ->
  forall p, reach f roots p -> finished_or_leaf f (up_status st1) p.
Proof.
  intros W (Hnodes & _) Hroots p Hr. induction Hr as [p Hp | p nd c _ IH Hp Hc].
  - destruct (wf_roots E f roots h W p Hp) as (nd & Hnd).
    exists nd. split; [exact Hnd|]. right. exact (Hroots p nd Hp Hnd).
  - destruct IH as (nd' & Hp' & Hcase). rewrite Hp in Hp'. injection Hp' as <-.
    assert (Hne : children nd <> []) by (intros E0; rewrite E0 in Hc; inversion Hc).
    destruct (proj2 (Hnodes p nd Hp) Hne) as [(H0 & _) | (_ & _ & Hch)].
    + destruct Hcase as [Hl | H1]; [contradiction|lia].
    + exact (Hch c Hc).
Qed.

(** C7.  For a tree that is laid out as the recompression pass expects
    it (three dimensions, eight children with consecutive blocks, at
    most [h] levels of refinement below a node and room on the stack for
    them; a tree of uniform refinement depth 2 is the case of [h] at
    most 2), [S_mwTreeTransformUp] returns for every step budget from
    some budget on; the nodes are the same and nothing outside their
    blocks is written; the coefficients of every leaf are the same;
    the block of every node of the tree with children is what Analysis
    ([S_mwTransformBack]) makes of the scaling blocks of its eight
    children as they are at the end; a round in which a child of the
    node on top of the stack is neither finished nor a leaf leaves the
    coefficients as they are; and a second pass right after the first
    ends with the same nodes and every coefficient as the first pass
    left it. *)
Theorem S_mwTreeTransformUp_fixpoint (E : TreeEnv) (f : Forest) (roots : list Z)
    (h : Z -> nat) :
  up_wf E f roots h ->
  exists n f1,
    (forall fuel, (n <= fuel)%nat ->
       S_mwTreeTransformUp E roots fuel f = Finished f1) /\
    nodes f1 = nodes f /\
    (forall a, (forall p nd, nodes f !! p = Some nd ->
                  in_block (coefvec nd) (block_len (kernel E)) a = false) ->
       mem f1 a = mem f a) /\
    (forall p nd, nodes f !! p = Some nd -> children nd = [] ->
       same_block (kernel E) (mem f1) (mem f) nd) /\
    (forall p nd, reach f roots p -> nodes f !! p = Some nd -> children nd <> [] ->
       consistent E f (mem f1) nd) /\
    (forall st st' p rest nd c,
       up_stack st = p :: rest -> nodes (up_forest st) !! p = Some nd ->
       c ∈ children nd -> up_ok (up_forest st) (up_status st) c = false ->
       S_mwTreeTransformUp_body E st = Finished st' ->
       up_forest st' = up_forest st) /\
    exists n2 f2,
      (forall fuel, (n2 <= fuel)%nat ->
         S_mwTreeTransformUp E roots fuel f1 = Finished f2) /\
      nodes f2 = nodes f1 /\
      (forall a, mem f2 a = mem f1 a).
Proof.
  intros W.
  destruct (up_pass E f roots h W (up_inv E f) (up_inv_step E f roots h W) f
              eq_refl eq_refl (up_start_inv E f roots h W))
    as (n & st1 & Hrun & HB1 & HI1 & Hroots1).
  pose proof HB1 as (HN1 & HT1 & _).
  pose proof HI1 as (Hnodes & Hframe).
  exists n, (up_forest st1).
  split; [exact Hrun|]. split; [exact HN1|]. split; [exact Hframe|].
  split; [intros p nd Hp Hl; exact (proj1 (Hnodes p nd Hp) Hl)|].
  assert (Hfin : forall p nd,
            nodes f !! p = Some nd -> children nd <> [] ->
            arr_get (up_status st1) (NodeRank nd) = 1 ->
            consistent E f (mem (up_forest st1)) nd /\
            forall c, c ∈ children nd -> finished_or_leaf f (up_status st1) c).
  { intros p nd Hp Hne H1.
    destruct (proj2 (Hnodes p nd Hp) Hne) as [(H0 & _) | (_ & Hcons & Hch)]; [lia|].
    split; assumption. }
  split.
  { intros p nd Hr Hp Hne.
    destruct (up_reach_finished E f roots h st1 W HI1 Hroots1 p Hr)
      as (nd' & Hp' & Hcase).
    rewrite Hp in Hp'. injection Hp' as <-.
    destruct Hcase as [Hl | H1]; [contradiction|].
    exact (proj1 (Hfin p nd Hp Hne H1)). }
  split; [exact (up_body_waits E)|].
  destruct (up_pass E f roots h W
              (up_inv2 f (mem (up_forest st1)) (up_status st1))
              (up_inv2_step E f roots h W (mem (up_forest st1)) (up_status st1) Hfin)
              (up_forest st1) HN1 HT1)
    as (n2 & st2 & Hrun2 & HB2 & (Hmem2 & _) & _).
  { split; [intros a; reflexivity|].
    cbn [up_start up_stack]. intros p Hp. rewrite elem_of_rev_iff in Hp.
    destruct (wf_roots E f roots h W p Hp) as (nd & Hnd).
    exists nd. split; [exact Hnd|]. right. exact (Hroots1 p nd Hp Hnd). }
  exists n2, (up_forest st2).
  split; [exact Hrun2|]. split; [|exact Hmem2].
  destruct HB2 as (HN2 & _). rewrite HN2, HN1. reflexivity.
Qed.

(** ** The test for well-formed trees is sound *)

Lemma blocks_apart_b_true p q n : blocks_apart_b p q n = true -> blocks_apart p q n.
Proof.
  unfold blocks_apart_b, blocks_apart. intros H.
  apply orb_true_iff in H as [H | H]; apply Z.leb_le in H; [left|right]; exact H.
Qed.

Lemma forallb_elem_of {A : Type} (P : A -> bool) (l : list A) (x : A) :
  forallb P l = true -> x ∈ l -> P x = true.
Proof.
  intros H Hx. apply list_elem_of_In in Hx.
  exact (proj1 (List.forallb_forall P l) H x Hx).
Qed.

Lemma up_wf_node_children E f h p nd i c :
  up_wf_node E f h (p, nd) = true -> children nd !! i = Some c ->
  length (children nd) = 8%nat /\
  exists c0 cn0 cn,
    children nd !! 0%nat = Some c0 /\ nodes f !! c0 = Some cn0 /\
    nodes f !! c = Some cn /\ (h c < h p)%nat /\
    coefvec cn = dptr_add (coefvec cn0) (Z.of_nat i * up_stride f).
Proof.
  unfold up_wf_node. cbn [fst snd]. intros H Hc.
  apply andb_true_iff in H as (H & _). apply andb_true_iff in H as (_ & H).
  destruct (children nd) as [|c0 cs] eqn:Hch; [rewrite lookup_nil in Hc; discriminate|].
  apply andb_true_iff in H as (H8 & H). apply Nat.eqb_eq in H8.
  split; [exact H8|].
  destruct (nodes f !! c0) as [cn0|] eqn:Hc0; [|discriminate].
  pose proof (forallb_elem_of _ _ (i, c) H) as Hic. cbn [fst snd] in Hic.
  destruct (nodes f !! c) as [cn|] eqn:Hcn.
  - exists c0, cn0, cn. split; [reflexivity|]. split; [exact Hc0|].
    split; [reflexivity|].
    assert (Hin : (i, c) ∈ imap pair (c0 :: cs)).
    { apply elem_of_lookup_imap. exists i, c. split; [reflexivity|exact Hc]. }
    specialize (Hic Hin). apply andb_true_iff in Hic as (Hh & Hcv).
    apply Nat.ltb_lt in Hh. apply Z.eqb_eq in Hcv. split; assumption.
  - assert (Hin : (i, c) ∈ imap pair (c0 :: cs)).
    { apply elem_of_lookup_imap. exists i, c. split; [reflexivity|exact Hc]. }
    specialize (Hic Hin). discriminate.
Qed.

Lemma up_wf_b_sound E f roots h : up_wf_b E f roots h = true -> up_wf E f roots h.
Proof.
  unfold up_wf_b. intros H.
  apply andb_true_iff in H as (H & Hnodes). apply andb_true_iff in H as (H & Hroots).
  apply andb_true_iff in H as (Hdim & Hk).
  apply Z.eqb_eq in Hdim. apply Z.leb_le in Hk.
  assert (Hnode : forall p nd, nodes f !! p = Some nd -> up_wf_node E f h (p, nd) = true).
  { intros p nd Hp. apply (forallb_elem_of _ _ (p, nd) Hnodes).
    apply elem_of_map_to_list. exact Hp. }
  assert (Hpair : forall p q nd md,
            nodes f !! p = Some nd -> nodes f !! q = Some md ->
            p = q \/ (NodeRank nd <> NodeRank md /\
                      blocks_apart (coefvec nd) (coefvec md) (block_len (kernel E)))).
  { intros p q nd md Hp Hq. pose proof (Hnode p nd Hp) as H.
    unfold up_wf_node in H. cbn [fst snd] in H. apply andb_true_iff in H as (_ & H).
    pose proof (forallb_elem_of _ _ (q, md) H) as Hqm. cbn [fst snd] in Hqm.
    specialize (Hqm ltac:(apply elem_of_map_to_list; exact Hq)).
    apply orb_true_iff in Hqm as [Heq | Hqm]; [left; apply Z.eqb_eq; exact Heq|].
    right. apply andb_true_iff in Hqm as (Hr & Hap).
    apply negb_true_iff in Hr. apply Z.eqb_neq in Hr.
    split; [exact Hr|apply blocks_apart_b_true; exact Hap]. }
  assert (Hroot : forall p, p ∈ roots ->
            is_Some (nodes f !! p) /\
            Z.of_nat (length roots) + 8 * Z.of_nat (h p) < stack_size).
  { intros p Hp. pose proof (forallb_elem_of _ _ p Hroots Hp) as H. cbn beta in H.
    destruct (nodes f !! p) as [nd|]; [|discriminate].
    split; [eauto|apply Z.ltb_lt; exact H]. }
  split.
  - exact Hdim.
  - exact Hk.
  - intros p Hp. exact (proj1 (Hroot p Hp)).
  - intros p nd Hp. pose proof (Hnode p nd Hp) as H.
    unfold up_wf_node in H. cbn [fst snd] in H.
    apply andb_true_iff in H as (H & _). apply andb_true_iff in H as (H & _).
    apply andb_true_iff in H as (H1 & H2).
    apply Z.leb_le in H1. apply Z.ltb_lt in H2. lia.
  - intros p q nd md Hp Hq Er.
    destruct (Hpair p q nd md Hp Hq) as [Heq | (Hne & _)]; [exact Heq|contradiction].
  - intros p nd c Hp Hc. apply list_elem_of_lookup in Hc as (i & Hc).
    destruct (up_wf_node_children E f h p nd i c (Hnode p nd Hp) Hc)
      as (_ & c0 & cn0 & cn & _ & _ & Hcn & Hh & _).
    exists cn. split; assumption.
  - intros p Hp. exact (proj2 (Hroot p Hp)).
  - intros p nd Hp Hne. destruct (children nd) as [|c0 cs] eqn:Hch; [contradiction|].
    rewrite <- Hch.
    apply (up_wf_node_children E f h p nd 0%nat c0 (Hnode p nd Hp)).
    rewrite Hch. reflexivity.
  - intros p nd c0 i c cn0 cn Hp Hc0 Hc Hcn0 Hcn.
    destruct (up_wf_node_children E f h p nd i c (Hnode p nd Hp) Hc)
      as (_ & c0' & cn0' & cn' & Hc0' & Hcn0' & Hcn' & _ & Hcv).
    rewrite Hc0 in Hc0'. injection Hc0' as <-.
    rewrite Hcn0 in Hcn0'. injection Hcn0' as <-.
    rewrite Hcn in Hcn'. injection Hcn' as <-. exact Hcv.
  - intros p q nd md Hp Hq Hne.
    destruct (Hpair p q nd md Hp Hq) as [Heq | (_ & Hap)]; [contradiction|exact Hap].
Qed.

Lemma S_mwTreeTransformUp_fixpoint_witness :
  up_wf sample_env depth2_forest [depth2_root] depth2_height /\
  exists n f1,
    (forall fuel, (n <= fuel)%nat ->
       S_mwTreeTransformUp sample_env [depth2_root] fuel depth2_forest = Finished f1) /\
    (forall p nd, nodes depth2_forest !! p = Some nd -> children nd = [] ->
       same_block sample_kernel (mem f1) sample_mem nd) /\
    (forall p nd, reach depth2_forest [depth2_root] p ->
       nodes depth2_forest !! p = Some nd -> children nd <> [] ->
       consistent sample_env depth2_forest (mem f1) nd) /\
    exists n2 f2,
      (forall fuel, (n2 <= fuel)%nat ->
         S_mwTreeTransformUp sample_env [depth2_root] fuel f1 = Finished f2) /\
      (forall a, mem f2 a = mem f1 a).
Proof.
  assert (W : up_wf sample_env depth2_forest [depth2_root] depth2_height).
  { apply up_wf_b_sound. vm_compute. reflexivity. }
  split; [exact W|].
  destruct (S_mwTreeTransformUp_fixpoint sample_env depth2_forest [depth2_root]
              depth2_height W)
    as (n & f1 & Hrun & _ & _ & Hleaf & Hcons & _ & n2 & f2 & Hrun2 & _ & Hmem2).
  exists n, f1. split; [exact Hrun|]. split; [exact Hleaf|]. split; [exact Hcons|].
  exists n2, f2. split; [exact Hrun2|exact Hmem2].
Defined.

(** * The pools in use *)

(** ** Single-slot allocation, in full *)

Lemma round16_pos s : 0 < s <= INT_MAX - 15 -> 0 < round16 s <= INT_MAX /\ (16 | round16 s).
Proof.
  unfold round16, INT_MAX. intros H.
  pose proof (Z.div_mod (s + 15) 16 ltac:(lia)) as Hdm.
  pose proof (Z.mod_pos_bound (s + 15) 16 ltac:(lia)) as Hm.
  rewrite int32_id by (unfold INT_MIN, INT_MAX; lia).
  split; [lia|]. exists ((s + 15) / 16). lia.
Qed.

(** [allocNodes(1)] below the budget, the slot at the top being free:
    the state it leaves. *)
Lemma allocNodes_single t :
  0 <= nNodes t < maxNodes t -> maxNodes t <= INT_MAX ->
  INT_MIN <= sizeNodeMeta t <= INT_MAX ->
  arr_get (NodeStackStatus t) (nNodes t) = 0 ->
  allocNodes t 1
  = Ok (set_NodeStackStatus
          (set_NodeRankAt
             (set_lastNode (set_nNodes t (nNodes t + 1)) (lastNode t + sizeNodeMeta t))
             (<[lastNode t := nNodes t]> (NodeRankAt t)))
          (arr_set (NodeStackStatus t) (nNodes t) 1),
        lastNode t).
Proof.
  intros Hn Hmax Hsz Hfree. unfold allocNodes.
  cbn [nNodes maxNodes set_nNodes lastNode sizeNodeMeta].
  rewrite int32_id by (unfold INT_MIN, INT_MAX in *; lia).
  destruct (maxNodes t <? nNodes t + 1) eqn:E; [apply Z.ltb_lt in E; lia|].
  rewrite Z.mul_1_l, (int32_id (sizeNodeMeta t)) by exact Hsz.
  change (seqZ 0 1) with [0]. cbn [fold_left]. unfold allocNodes_mark.
  cbn [nNodes set_nNodes set_lastNode set_NodeRankAt NodeStackStatus NodeRankAt].
  replace (nNodes t + 1 + 0 - 1) with (nNodes t) by lia.
  rewrite Hfree. reflexivity.
Qed.

(** [allocNodes(1)] returns normally only below the budget. *)
Lemma allocNodes_Ok_below t t' p :
  0 <= nNodes t <= maxNodes t -> maxNodes t < INT_MAX ->
  allocNodes t 1 = Ok (t', p) -> nNodes t < maxNodes t.
Proof.
  intros Hn Hmax. unfold allocNodes. cbn [nNodes maxNodes set_nNodes].
  destruct (Z_lt_dec (nNodes t) (maxNodes t)) as [Hlt|Hge]; [intros _; exact Hlt|].
  rewrite int32_id by (unfold INT_MIN, INT_MAX in *; lia).
  destruct (maxNodes t <? nNodes t + 1) eqn:E; [discriminate|].
  apply Z.ltb_ge in E. lia.
Qed.

Lemma fmap_seqZ_S {A : Type} (f : Z -> A) (n : nat) :
  f <$> seqZ 0 (Z.of_nat (S n)) = f 0 :: ((fun j => f (1 + j)) <$> seqZ 0 (Z.of_nat n)).
Proof.
  rewrite Nat2Z.inj_succ, <- Z.add_1_l, seqZ_cons by lia. cbn [fmap list_fmap].
  f_equal. replace (Z.pred (1 + Z.of_nat n)) with (Z.of_nat n) by lia.
  change (Z.succ 0) with (1 + 0). rewrite <- fmap_add_seqZ, <- list_fmap_compose.
  reflexivity.
Qed.

(** ** The slots of the root nodes *)

Section RootSlots.
Context (D order sp sf max_nodes sdata gendata : Z).
Let t0 := SerialTree_init D order sp sf max_nodes sdata gendata.
Let slot (k : Z) : Z := firstNode t0 + k * sizeNodeMeta t0.

(** The pool after the first [k] single-slot allocations. *)
Let filled (k : Z) (t : SerialTree) : Prop :=
  nNodes t = k /\ lastNode t = slot k /\ maxNodes t = max_nodes /\
  sizeNodeMeta t = sizeNodeMeta t0 /\
  Z.of_nat (length (NodeStackStatus t)) = max_nodes + 1 /\
  (forall i, 0 <= i < k -> arr_get (NodeStackStatus t) i = 1) /\
  (forall i, k <= i < max_nodes -> arr_get (NodeStackStatus t) i = 0) /\
  (forall i, 0 <= i < k -> NodeRankAt t !! slot i = Some i) /\
  log t = [].

Lemma filled_init : 0 <= max_nodes -> filled 0 t0.
Proof.
  intros Hmax. unfold filled, slot, t0, SerialTree_init.
  cbn [nNodes lastNode firstNode maxNodes sizeNodeMeta NodeStackStatus NodeRankAt log].
  split; [reflexivity|]. split; [lia|]. split; [reflexivity|]. split; [reflexivity|].
  split; [rewrite length_app, length_replicate; cbn [length]; lia|].
  split; [intros i Hi; lia|].
  split; [|split; [intros i Hi; lia|reflexivity]].
  intros i Hi. unfold arr_get. destruct (0 <=? i) eqn:E; [|reflexivity].
  rewrite lookup_app_l by (rewrite length_replicate; lia).
  rewrite lookup_replicate_2 by lia. reflexivity.
Qed.

Lemma filled_step k t :
  0 < sizeNodeMeta t0 <= INT_MAX -> max_nodes <= INT_MAX ->
  0 <= k < max_nodes -> filled k t ->
  exists t1, allocNodes t 1 = Ok (t1, slot k) /\ filled (k + 1) t1.
Proof.
  intros Hsz Hmax Hk (Hc & Hl & Hm & Hs & Hlen & Hocc & Hfree & Hrank & Hlog).
  rewrite allocNodes_single;
    [|lia|lia|unfold INT_MIN; lia|rewrite Hc; apply Hfree; lia].
  eexists. split; [rewrite Hl; reflexivity|]. unfold filled.
  cbn [nNodes lastNode maxNodes sizeNodeMeta NodeStackStatus NodeRankAt log
       set_NodeStackStatus set_NodeRankAt set_lastNode set_nNodes].
  rewrite arr_set_length, Hc, Hs.
  split; [reflexivity|]. split; [unfold slot; lia|]. split; [exact Hm|].
  split; [reflexivity|]. split; [exact Hlen|].
  split; [|split; [|split; [|exact Hlog]]].
  - intros i Hi. destruct (Z.eq_dec i k) as [->|Hne].
    + apply arr_get_set_eq. lia.
    + rewrite arr_get_set_ne by lia. apply Hocc. lia.
  - intros i Hi. rewrite arr_get_set_ne by lia. apply Hfree. lia.
  - intros i Hi. destruct (Z.eq_dec i k) as [->|Hne].
    + apply lookup_insert_eq.
    + rewrite lookup_insert_ne by (unfold slot; nia). apply Hrank. lia.
Qed.

Lemma filled_full t :
  max_nodes < INT_MAX -> filled max_nodes t -> 0 <= max_nodes ->
  allocNodes t 1 = Fatal (MaxNodesExceeded max_nodes).
Proof.
  intros Hmax (Hc & _ & Hm & _) H0. unfold allocNodes.
  cbn [nNodes maxNodes set_nNodes]. rewrite Hc, Hm.
  rewrite int32_id by (unfold INT_MIN, INT_MAX in *; lia).
  destruct (Z.ltb_spec max_nodes (max_nodes + 1)) as [_|H]; [reflexivity|lia].
Qed.

Lemma allocNodes_seq_filled (n : nat) : forall k t,
  0 < sizeNodeMeta t0 <= INT_MAX -> max_nodes < INT_MAX ->
  0 <= k <= max_nodes -> filled k t ->
  (k + Z.of_nat n <= max_nodes ->
   exists t',
     allocNodes_seq n t = Ok (t', (fun j => slot (k + j)) <$> seqZ 0 (Z.of_nat n)) /\
     filled (k + Z.of_nat n) t') /\
  (max_nodes < k + Z.of_nat n ->
   allocNodes_seq n t = Fatal (MaxNodesExceeded max_nodes)).
Proof.
  induction n as [|n IH]; intros k t Hsz Hmax Hk Hf.
  { split; [|lia]. intros _. exists t. split; [reflexivity|].
    replace (k + Z.of_nat 0) with k by lia. exact Hf. }
  cbn [allocNodes_seq].
  destruct (Z.eq_dec k max_nodes) as [->|Hne].
  { split; [lia|]. intros _. rewrite (filled_full t Hmax Hf); [reflexivity|lia]. }
  destruct (filled_step k t Hsz ltac:(lia) ltac:(lia) Hf) as (t1 & Ea & Hf1).
  rewrite Ea.
  destruct (IH (k + 1) t1 Hsz Hmax ltac:(lia) Hf1) as (IHok & IHover).
  split.
  - intros Hn. destruct IHok as (t' & Eseq & Hf'); [lia|].
    exists t'. rewrite Eseq. split.
    + rewrite fmap_seqZ_S. replace (k + 0) with k by lia. do 3 f_equal.
      apply list_fmap_ext. intros _ j _. f_equal. lia.
    + replace (k + Z.of_nat (S n)) with (k + 1 + Z.of_nat n) by lia. exact Hf'.
  - intros Hn. rewrite IHover by lia. reflexivity.
Qed.
(** The pool when [k] nodes have been made and released again, one
    after the other. *)
Let worn (k : Z) (t : SerialTree) : Prop :=
  nNodes t = 0 /\ lastNode t = slot k /\ maxNodes t = max_nodes /\
  sizeNodeMeta t = sizeNodeMeta t0 /\
  Z.of_nat (length (NodeStackStatus t)) = max_nodes + 1 /\
  (forall i, 0 <= i < max_nodes -> arr_get (NodeStackStatus t) i = 0) /\
  log t = [].

Lemma worn_init : 0 <= max_nodes -> worn 0 t0.
Proof.
  intros Hmax. destruct (filled_init Hmax) as (H1 & H2 & H3 & H4 & H5 & _ & H7 & _ & H9).
  repeat split; assumption.
Qed.

Lemma worn_step k t :
  0 < sizeNodeMeta t0 <= INT_MAX -> 1 <= max_nodes <= INT_MAX -> worn k t ->
  exists t1, alloc_release t = Ok (t1, slot k) /\ worn (k + 1) t1.
Proof.
  intros Hsz Hmax (Hc & Hl & Hm & Hs & Hlen & Hfree & Hlog).
  unfold alloc_release.
  rewrite allocNodes_single;
    [|lia|lia|unfold INT_MIN; lia|rewrite Hc; apply Hfree; lia].
  set (t1 := set_NodeStackStatus _ _).
  assert (Hrank : default 0 (NodeRankAt t1 !! lastNode t) = nNodes t1 - 1).
  { subst t1. cbn [NodeRankAt nNodes set_NodeStackStatus set_NodeRankAt set_lastNode
                   set_nNodes].
    rewrite lookup_insert_eq. unfold default, id. cbn [from_option]. lia. }
  rewrite Hrank, DeAllocNodes_top by (subst t1; cbn; lia).
  eexists. split; [rewrite Hl; reflexivity|].
  subst t1. unfold worn.
  cbn [nNodes lastNode maxNodes sizeNodeMeta NodeStackStatus NodeRankAt log
       set_NodeStackStatus set_NodeRankAt set_lastNode set_nNodes].
  rewrite !arr_set_length, Hc, Hs, Hl. change (0 + 1 - 1) with 0. change (0 + 1) with 1.
  assert (Hz : forall i, 0 <= i < max_nodes ->
            arr_get (arr_set (arr_set (NodeStackStatus t) 0 1) 0 0) i = 0).
  { intros i Hi. destruct (Z.eq_dec i 0) as [->|Hne].
    - apply arr_get_set_eq. rewrite arr_set_length. lia.
    - rewrite !arr_get_set_ne by lia. apply Hfree. exact Hi. }
  split.
  - apply recede_to; [lia| |left; reflexivity].
    intros i Hi. apply Hz. lia.
  - split; [unfold slot; lia|]. split; [exact Hm|]. split; [reflexivity|].
    split; [exact Hlen|]. split; [exact Hz|exact Hlog].
Qed.

Lemma alloc_release_times_worn (n : nat) : forall k t,
  0 < sizeNodeMeta t0 <= INT_MAX -> 1 <= max_nodes <= INT_MAX -> worn k t ->
  exists t', alloc_release_times n t = Ok t' /\ worn (k + Z.of_nat n) t'.
Proof.
  induction n as [|n IH]; intros k t Hsz Hmax Hw.
  { exists t. split; [reflexivity|]. replace (k + Z.of_nat 0) with k by lia. exact Hw. }
  destruct (worn_step k t Hsz Hmax Hw) as (t1 & E1 & Hw1).
  destruct (IH (k + 1) t1 Hsz Hmax Hw1) as (t' & E' & Hw').
  exists t'. cbn [alloc_release_times]. rewrite E1. split; [exact E'|].
  replace (k + Z.of_nat (S n)) with (k + 1 + Z.of_nat n) by lia. exact Hw'.
Qed.

Lemma worn_alloc k t :
  0 < sizeNodeMeta t0 <= INT_MAX -> 1 <= max_nodes <= INT_MAX -> worn k t ->
  exists t', allocNodes t 1 = Ok (t', slot k) /\ nNodes t' = 1 /\
             NodeRankAt t' !! slot k = Some 0.
Proof.
  intros Hsz Hmax (Hc & Hl & Hm & Hs & Hlen & Hfree & Hlog).
  rewrite allocNodes_single;
    [|lia|lia|unfold INT_MIN; lia|rewrite Hc; apply Hfree; lia].
  eexists. split; [rewrite Hl; reflexivity|].
  cbn [nNodes NodeRankAt set_NodeStackStatus set_NodeRankAt set_lastNode set_nNodes].
  rewrite Hc, lookup_insert_eq. split; reflexivity.
Qed.
End RootSlots.

(** X1.  The loop of the constructor over the root box: the [n] calls
    of [allocNodes(1)] on the pool it has just built return the first
    [n] slots of the node region, one record apart and in order; slot
    [k] is marked occupied and holds the rank [k]; the slots above stay
    free and nothing is logged.  A root box with more nodes than the
    budget is fatal. *)
Theorem root_slots_consecutive (D order sp sf max_nodes sdata gendata : Z) (n : nat) :
  0 < sp <= INT_MAX - 15 -> 0 <= max_nodes < INT_MAX ->
  let t0 := SerialTree_init D order sp sf max_nodes sdata gendata in
  (Z.of_nat n <= max_nodes ->
   exists t,
     allocNodes_seq n t0
     = Ok (t, (fun k => firstNode t0 + k * sizeNodeMeta t0) <$> seqZ 0 (Z.of_nat n)) /\
     nNodes t = Z.of_nat n /\
     lastNode t = firstNode t0 + Z.of_nat n * sizeNodeMeta t0 /\
     (forall k, 0 <= k < Z.of_nat n ->
        arr_get (NodeStackStatus t) k = 1 /\
        NodeRankAt t !! (firstNode t0 + k * sizeNodeMeta t0) = Some k) /\
     (forall k, Z.of_nat n <= k < max_nodes -> arr_get (NodeStackStatus t) k = 0) /\
     log t = []) /\
  (max_nodes < Z.of_nat n ->
   allocNodes_seq n t0 = Fatal (MaxNodesExceeded max_nodes)).
Proof.
  intros Hsp Hmax t0.
  assert (Hsz : 0 < sizeNodeMeta t0 <= INT_MAX) by (apply round16_pos; exact Hsp).
  pose proof (filled_init D order sp sf max_nodes sdata gendata ltac:(lia)) as H0.
  destruct (allocNodes_seq_filled D order sp sf max_nodes sdata gendata n 0 t0
              Hsz ltac:(lia) ltac:(lia) H0) as (Hok & Hover).
  split; [|intros Hn; apply Hover; lia].
  intros Hn. destruct Hok as (t & Eseq & Hf); [lia|].
  destruct Hf as (Hc & Hl & _ & _ & _ & Hocc & Hfree & Hrank & Hlog).
  exists t. split.
  - rewrite Eseq. do 2 f_equal.
  - split; [exact Hc|]. split; [exact Hl|].
    split; [intros k Hk; split; [apply Hocc|apply Hrank]; lia|].
    split; [intros k Hk; apply Hfree; lia|exact Hlog].
Qed.

Lemma root_slots_consecutive_witness :
  exists t,
    allocNodes_seq 3 pool4 = Ok (t, [4896; 5296; 5696]) /\
    nNodes t = 3 /\ log t = [] /\
    allocNodes_seq 5 pool4 = Fatal (MaxNodesExceeded 4).
Proof.
  destruct (root_slots_consecutive 3 1 400 800 4 4096 1000000 3) as (Hok & _);
    [unfold INT_MAX; lia|unfold INT_MAX; lia|].
  destruct Hok as (t & Eseq & Hn & _ & _ & _ & Hlog); [lia|].
  exists t. split; [exact Eseq|]. split; [exact Hn|]. split; [exact Hlog|].
  apply (root_slots_consecutive 3 1 400 800 4 4096 1000000 5);
    unfold INT_MAX; lia.
Defined.

(** The node region ends where the region of the blocks starts. *)
Lemma firstNodeCoeff_init D order sp sf max_nodes sdata gendata :
  let t0 := SerialTree_init D order sp sf max_nodes sdata gendata in
  0 < sp <= INT_MAX - 15 -> 0 <= max_nodes ->
  max_nodes * sizeNodeMeta t0 <= INT_MAX ->
  firstNodeCoeff t0 = firstNode t0 + max_nodes * sizeNodeMeta t0.
Proof.
  intros t0 Hsp Hmax Hfit.
  destruct (round16_pos sp Hsp) as (Hpos & (q & Hq)).
  unfold t0, SerialTree_init in *. cbn [firstNodeCoeff firstNode sizeNodeMeta] in *.
  unfold dptr_add at 1.
  rewrite elem_offset_exact; [reflexivity|nia|exists (2 * q); lia].
Qed.

(** X2.  [DeAllocNodes] gives a rank back but never the record:
    [lastNode] only moves forward.  After [k] nodes were made and
    released one after the other on the pool the constructor built, the
    pool is empty and nothing was logged, and the next [allocNodes(1)]
    returns the slot [k] records after the first one with the rank [0];
    when [k] is the budget and the node region is within the range of an
    [int] in bytes ([max_nodes * sizeNodeMeta <= INT_MAX], the product
    of line 73), that is the address of the first block of the permanent
    pool. *)
Theorem node_records_not_reused (D order sp sf max_nodes sdata gendata : Z) (k : nat) :
  0 < sp <= INT_MAX - 15 -> 1 <= max_nodes < INT_MAX ->
  let t0 := SerialTree_init D order sp sf max_nodes sdata gendata in
  exists t t',
    alloc_release_times k t0 = Ok t /\
    nNodes t = 0 /\
    (forall i, 0 <= i < max_nodes -> arr_get (NodeStackStatus t) i = 0) /\
    log t = [] /\
    allocNodes t 1 = Ok (t', firstNode t0 + Z.of_nat k * sizeNodeMeta t0) /\
    NodeRankAt t' !! (firstNode t0 + Z.of_nat k * sizeNodeMeta t0) = Some 0 /\
    (Z.of_nat k = max_nodes -> max_nodes * sizeNodeMeta t0 <= INT_MAX ->
     firstNode t0 + Z.of_nat k * sizeNodeMeta t0 = firstNodeCoeff t0).
Proof.
  intros Hsp Hmax t0.
  assert (Hsz : 0 < sizeNodeMeta t0 <= INT_MAX) by (apply round16_pos; exact Hsp).
  pose proof (worn_init D order sp sf max_nodes sdata gendata ltac:(lia)) as H0.
  destruct (alloc_release_times_worn D order sp sf max_nodes sdata gendata k 0 t0
              Hsz ltac:(lia) H0) as (t & Et & Hw).
  destruct (worn_alloc D order sp sf max_nodes sdata gendata _ t Hsz ltac:(lia) Hw)
    as (t' & Ea & _ & Hr).
  destruct Hw as (Hc & _ & _ & _ & _ & Hfree & Hlog).
  exists t, t'. split; [exact Et|]. split; [exact Hc|]. split; [exact Hfree|].
  split; [exact Hlog|]. split; [exact Ea|]. split; [exact Hr|].
  intros Hk Hfit. rewrite Hk.
  symmetry. apply firstNodeCoeff_init; [exact Hsp|lia|exact Hfit].
Qed.

Lemma node_records_not_reused_witness :
  exists t t',
    alloc_release_times 4 pool4 = Ok t /\ nNodes t = 0 /\
    allocNodes t 1 = Ok (t', firstNodeCoeff pool4).
Proof.
  destruct (node_records_not_reused 3 1 400 800 4 4096 1000000 4)
    as (t & t' & Et & Hc & _ & _ & Ea & _ & Hend);
    [unfold INT_MAX; lia|unfold INT_MAX; lia|].
  exists t, t'. split; [exact Et|]. split; [exact Hc|].
  unfold pool4. rewrite <- Hend; [exact Ea|reflexivity|vm_compute; discriminate].
Defined.

(** ** What the pools keep *)

Lemma init_status_get (n : Z) i :
  0 <= n ->
  arr_get (replicate (Z.to_nat n) 0 ++ [-1]) i
  = if (0 <=? i) && (i <? n) then 0 else if i =? n then -1 else 0.
Proof.
  intros Hn. unfold arr_get.
  destruct (0 <=? i) eqn:E0;
    [|cbn [andb]; destruct (Z.eqb_spec i n); [apply Z.leb_gt in E0; lia|reflexivity]].
  apply Z.leb_le in E0. cbn [andb].
  destruct (i <? n) eqn:E1.
  - apply Z.ltb_lt in E1. rewrite lookup_app_l by (rewrite length_replicate; lia).
    rewrite lookup_replicate_2 by lia. reflexivity.
  - apply Z.ltb_ge in E1. rewrite lookup_app_r by (rewrite length_replicate; lia).
    rewrite length_replicate.
    destruct (i =? n) eqn:E2.
    + apply Z.eqb_eq in E2. subst i. replace (Z.to_nat n - Z.to_nat n)%nat with 0%nat by lia.
      reflexivity.
    + apply Z.eqb_neq in E2.
      rewrite lookup_ge_None_2 by (cbn [length]; lia). reflexivity.
Qed.

Lemma node_pool_inv_init D order sp sf max_nodes sdata gendata :
  0 <= max_nodes <= INT_MAX ->
  node_pool_inv (SerialTree_init D order sp sf max_nodes sdata gendata).
Proof.
  intros H. split; [apply SerialTree_init_node_pool_ok; exact H|].
  unfold SerialTree_init. cbn [nNodes maxNodes NodeStackStatus]. split.
  - intros i Hi. rewrite init_status_get by lia.
    destruct (Z.leb_spec 0 i); [|lia]. destruct (Z.ltb_spec i max_nodes); [|lia].
    reflexivity.
  - rewrite init_status_get by lia.
    destruct (Z.ltb_spec max_nodes max_nodes); [lia|].
    rewrite andb_false_r, Z.eqb_refl. reflexivity.
Qed.

Lemma coeff_pool_inv_init D order sp sf max_nodes sdata gendata :
  0 <= max_nodes < INT_MAX ->
  coeff_pool_inv (SerialTree_init D order sp sf max_nodes sdata gendata).
Proof.
  intros H. split; [apply SerialTree_init_coeff_pool_ok; exact H|].
  unfold SerialTree_init. cbn [nNodesCoeff maxNodesCoeff CoeffStackStatus]. split.
  - intros i Hi. rewrite init_status_get by lia.
    destruct (Z.leb_spec 0 i); [|lia]. destruct (Z.ltb_spec i max_nodes); [|lia].
    reflexivity.
  - rewrite init_status_get by lia.
    destruct (Z.ltb_spec max_nodes max_nodes); [lia|].
    rewrite andb_false_r, Z.eqb_refl. reflexivity.
Qed.

(** [allocNodes(1)]: the node pool keeps its shape, the other pools and
    the log are not touched. *)
Lemma allocNodes_inv t t' p :
  node_pool_inv t -> maxNodes t < INT_MAX ->
  INT_MIN <= sizeNodeMeta t <= INT_MAX ->
  allocNodes t 1 = Ok (t', p) ->
  node_pool_inv t' /\ nNodes t' = nNodes t + 1 /\ p = lastNode t /\
  pool_consts t' = pool_consts t /\ log t' = log t /\
  nNodesCoeff t' = nNodesCoeff t /\ CoeffStackStatus t' = CoeffStackStatus t /\
  nGenNodesCoeff t' = nGenNodesCoeff t /\
  GenCoeffStackStatus t' = GenCoeffStackStatus t.
Proof.
  intros (Hok & Hfree & Hend) Hmax Hsz Ha.
  pose proof Hok as (Hn & _ & Hlen & Htop).
  pose proof (allocNodes_Ok_below t t' p ltac:(lia) Hmax Ha) as Hlt.
  rewrite allocNodes_single in Ha; [|lia|lia|exact Hsz|apply Hfree; lia].
  injection Ha as <- <-.
  split; [|repeat split; reflexivity].
  split; [|split].
  - unfold node_pool_ok.
    cbn [nNodes maxNodes NodeStackStatus set_NodeStackStatus set_NodeRankAt set_lastNode
         set_nNodes].
    rewrite arr_set_length. split; [lia|]. split; [lia|]. split; [exact Hlen|].
    right. replace (nNodes t + 1 - 1) with (nNodes t) by lia.
    rewrite arr_get_set_eq by lia. lia.
  - cbn [nNodes maxNodes NodeStackStatus set_NodeStackStatus set_NodeRankAt set_lastNode
         set_nNodes].
    intros i Hi. rewrite arr_get_set_ne by lia. apply Hfree. lia.
  - cbn [nNodes maxNodes NodeStackStatus set_NodeStackStatus set_NodeRankAt set_lastNode
         set_nNodes].
    rewrite arr_get_set_ne by lia. exact Hend.
Qed.

(** [DeAllocNodes] of a slot of the pool. *)
Lemma DeAllocNodes_inv t r :
  node_pool_inv t -> 0 <= r < maxNodes t ->
  let t' := DeAllocNodes t r in
  node_pool_inv t' /\ nNodes t' <= nNodes t /\
  pool_consts t' = pool_consts t /\ log t' = log t /\ lastNode t' = lastNode t /\
  nNodesCoeff t' = nNodesCoeff t /\ CoeffStackStatus t' = CoeffStackStatus t /\
  nGenNodesCoeff t' = nGenNodesCoeff t /\
  GenCoeffStackStatus t' = GenCoeffStackStatus t.
Proof.
  intros (Hok & Hfree & Hend) Hr t'.
  pose proof (node_pool_ok_release t r Hok) as Hok'.
  pose proof Hok as (Hn & _ & Hlen & Htop).
  assert (Hs : NodeStackStatus t' = arr_set (NodeStackStatus t) r 0)
    by (apply DeAllocNodes_status; lia).
  destruct (Z.eq_dec r (nNodes t - 1)) as [Er|Hne].
  - subst r. destruct (DeAllocNodes_top_lands t Hok ltac:(lia)) as (Hlt & Hz & _).
    fold t' in Hlt, Hz.
    assert (Et : t' = set_nNodes
                        (set_NodeStackStatus t (arr_set (NodeStackStatus t) (nNodes t - 1) 0))
                        (recede (arr_set (NodeStackStatus t) (nNodes t - 1) 0) (-1)
                           (nNodes t)))
      by (apply DeAllocNodes_top; lia).
    split; [|split; [lia|rewrite Et; repeat split; reflexivity]].
    split; [exact Hok'|]. split.
    + intros i Hi. destruct (Z_lt_dec i (nNodes t)) as [Hlo|Hhi]; [apply Hz; lia|].
      rewrite Hs, arr_get_set_ne by lia.
      apply Hfree. rewrite Et in Hi. cbn [maxNodes set_nNodes set_NodeStackStatus] in Hi.
      lia.
    + rewrite Hs. rewrite Et. cbn [maxNodes set_nNodes set_NodeStackStatus].
      rewrite arr_get_set_ne by lia. exact Hend.
  - assert (Et : t' = set_NodeStackStatus t (arr_set (NodeStackStatus t) r 0))
      by (apply DeAllocNodes_non_top; lia).
    split; [|rewrite Et; cbn [nNodes set_NodeStackStatus];
             split; [lia|repeat split; reflexivity]].
    split; [exact Hok'|]. rewrite Et.
    cbn [nNodes maxNodes NodeStackStatus set_NodeStackStatus]. split.
    + intros i Hi. destruct (Z.eq_dec i r) as [->|Hir].
      * apply arr_get_set_eq. lia.
      * rewrite arr_get_set_ne by lia. apply Hfree. exact Hi.
    + rewrite arr_get_set_ne by lia. exact Hend.
Qed.

(** The three ways [allocCoeff(2^D)] ends on a pool that keeps its
    shape: a block, a null pointer at the mark after the last block, an
    abort above it. *)
Lemma allocCoeff_cases t :
  coeff_pool_inv t -> maxNodesCoeff t < INT_MAX ->
  let j := nNodesCoeff t + 1 in
  (j < maxNodesCoeff t ->
   allocCoeff t (Z.shiftl 1 (Dim t))
   = Ok (set_CoeffStackStatus (set_nNodesCoeff t j) (arr_set (CoeffStackStatus t) j 1),
         arr_get (CoeffStack t) j)) /\
  (j = maxNodesCoeff t ->
   allocCoeff t (Z.shiftl 1 (Dim t))
   = Ok (println (set_nNodesCoeff t j) (CoeffStackNotAvailable j (-1)), 0)) /\
  (maxNodesCoeff t < j ->
   allocCoeff t (Z.shiftl 1 (Dim t)) = Fatal (MaxNodesCoeffExceeded (maxNodesCoeff t))).
Proof.
  intros ((Hn & _ & Hlen & Htop) & Hfree & Hend) Hmax j. unfold allocCoeff.
  cbn [Dim nNodesCoeff maxNodesCoeff CoeffStackStatus CoeffStack set_nNodesCoeff].
  rewrite int32_id by (unfold INT_MIN, INT_MAX in *; lia).
  rewrite Z.eqb_refl. cbn [negb]. fold j.
  split; [|split]; intros Hj.
  - destruct (Z.ltb_spec (maxNodesCoeff t) j) as [H|_]; [lia|].
    rewrite (Hfree j) by lia. reflexivity.
  - destruct (Z.ltb_spec (maxNodesCoeff t) j) as [H|_]; [lia|].
    rewrite Hj, Hend. reflexivity.
  - destruct (Z.ltb_spec (maxNodesCoeff t) j) as [_|H]; [reflexivity|lia].
Qed.

Lemma allocCoeff_inv t t' p :
  coeff_pool_inv t -> maxNodesCoeff t < INT_MAX ->
  allocCoeff t (Z.shiftl 1 (Dim t)) = Ok (t', p) ->
  coeff_pool_inv t' /\ nNodesCoeff t' = nNodesCoeff t + 1 /\
  pool_consts t' = pool_consts t /\
  (log t' = log t \/ exists i v, log t' = log t ++ [CoeffStackNotAvailable i v]) /\
  nNodes t' = nNodes t /\ NodeStackStatus t' = NodeStackStatus t /\
  CoeffStack t' = CoeffStack t /\
  nGenNodesCoeff t' = nGenNodesCoeff t /\
  GenCoeffStackStatus t' = GenCoeffStackStatus t.
Proof.
  intros Hinv Hmax Ha.
  pose proof (coeff_pool_ok_alloc t _ t' p (proj1 Hinv) Ha) as Hok'.
  destruct (allocCoeff_cases t Hinv Hmax) as (Hblock & Hnull & Hfatal).
  destruct Hinv as ((Hn & _ & Hlen & Htop) & Hfree & Hend).
  destruct (Z.lt_trichotomy (nNodesCoeff t + 1) (maxNodesCoeff t)) as [Hj|[Hj|Hj]].
  - rewrite (Hblock Hj) in Ha. injection Ha as <- <-.
    split; [|split; [reflexivity|split; [reflexivity|split; [left; reflexivity|]]];
             repeat split; reflexivity].
    split; [exact Hok'|].
    cbn [nNodesCoeff maxNodesCoeff CoeffStackStatus set_nNodesCoeff set_CoeffStackStatus].
    split.
    + intros i Hi. rewrite arr_get_set_ne by lia. apply Hfree. lia.
    + rewrite arr_get_set_ne by lia. exact Hend.
  - rewrite (Hnull Hj) in Ha. injection Ha as <- <-.
    split; [|split; [reflexivity|split; [reflexivity|split; [right; eauto|]]];
             repeat split; reflexivity].
    split; [exact Hok'|].
    cbn [nNodesCoeff maxNodesCoeff CoeffStackStatus set_nNodesCoeff println].
    split; [intros i Hi; lia|exact Hend].
  - rewrite (Hfatal Hj) in Ha. discriminate.
Qed.

Lemma DeAllocCoeff_inv t ix :
  coeff_pool_inv t -> 0 <= ix < maxNodesCoeff t ->
  let t' := DeAllocCoeff t ix in
  coeff_pool_inv t' /\ nNodesCoeff t' <= nNodesCoeff t /\
  (0 <= nNodesCoeff t -> 0 <= nNodesCoeff t') /\
  CoeffStackStatus t' = arr_set (CoeffStackStatus t) ix 0 /\
  pool_consts t' = pool_consts t /\
  (log t' = log t \/ log t' = log t ++ [DeletingUnallocatedCoeff ix]) /\
  nNodes t' = nNodes t /\ NodeStackStatus t' = NodeStackStatus t /\
  CoeffStack t' = CoeffStack t /\
  nGenNodesCoeff t' = nGenNodesCoeff t /\
  GenCoeffStackStatus t' = GenCoeffStackStatus t.
Proof.
  intros Hinv Hix t'.
  pose proof (coeff_pool_ok_release t ix (proj1 Hinv)) as Hok'. fold t' in Hok'.
  destruct Hinv as ((Hn & _ & Hlen & Htop) & Hfree & Hend).
  set (t1 := if arr_get (CoeffStackStatus t) ix =? 0
             then println t (DeletingUnallocatedCoeff ix) else t).
  assert (H1 : nNodesCoeff t1 = nNodesCoeff t /\ maxNodesCoeff t1 = maxNodesCoeff t /\
               CoeffStackStatus t1 = CoeffStackStatus t /\
               pool_consts t1 = pool_consts t /\
               (log t1 = log t \/ log t1 = log t ++ [DeletingUnallocatedCoeff ix]) /\
               nNodes t1 = nNodes t /\ NodeStackStatus t1 = NodeStackStatus t /\
               CoeffStack t1 = CoeffStack t /\
               nGenNodesCoeff t1 = nGenNodesCoeff t /\
               GenCoeffStackStatus t1 = GenCoeffStackStatus t).
  { subst t1. destruct (_ =? 0); repeat split; try reflexivity; [right|left]; reflexivity. }
  destruct H1 as (Hn1 & Hm1 & Hs1 & Hc1 & Hl1 & Hf1 & Hf2 & Hf3 & Hf4 & Hf5).
  assert (Et : t' = if ix =? nNodesCoeff t
                    then set_nNodesCoeff
                           (set_CoeffStackStatus t1 (arr_set (CoeffStackStatus t) ix 0))
                           (recede (arr_set (CoeffStackStatus t) ix 0) 0 (nNodesCoeff t))
                    else set_CoeffStackStatus t1 (arr_set (CoeffStackStatus t) ix 0)).
  { unfold t', DeAllocCoeff. fold t1.
    cbn [nNodesCoeff set_CoeffStackStatus CoeffStackStatus]. rewrite Hn1, Hs1. reflexivity. }
  destruct (recede_spec (arr_set (CoeffStackStatus t) ix 0) 0 (nNodesCoeff t))
    as (R1 & R2 & R3 & R4 & R5).
  set (r := recede (arr_set (CoeffStackStatus t) ix 0) 0 (nNodesCoeff t)) in *.
  assert (Hstat : CoeffStackStatus t' = arr_set (CoeffStackStatus t) ix 0)
    by (rewrite Et; destruct (ix =? nNodesCoeff t); reflexivity).
  assert (Hmax' : maxNodesCoeff t' = maxNodesCoeff t)
    by (rewrite Et; destruct (ix =? nNodesCoeff t); exact Hm1).
  assert (Htop' : nNodesCoeff t' = if ix =? nNodesCoeff t then r else nNodesCoeff t)
    by (rewrite Et; destruct (ix =? nNodesCoeff t); [reflexivity|exact Hn1]).
  split; [|split; [|split; [|split; [exact Hstat|]]]].
  - split; [exact Hok'|]. rewrite Hstat, Hmax', Htop'. split.
    + intros i Hi. destruct (Z.eq_dec i ix) as [->|Hne];
        [apply arr_get_set_eq; lia|].
      destruct (Z.eqb_spec ix (nNodesCoeff t)) as [Etop|_].
      * destruct (Z_le_gt_dec i (nNodesCoeff t)) as [Hlo|Hhi].
        -- specialize (R4 i ltac:(lia)). rewrite Z.add_0_r in R4. exact R4.
        -- rewrite arr_get_set_ne by lia. apply Hfree. lia.
      * rewrite arr_get_set_ne by lia. apply Hfree. lia.
    + rewrite arr_get_set_ne by lia. exact Hend.
  - rewrite Htop'. destruct (ix =? nNodesCoeff t); lia.
  - rewrite Htop'. destruct (ix =? nNodesCoeff t); lia.
  - rewrite Et. destruct (ix =? nNodesCoeff t);
      cbn [pool_consts Dim maxNodes maxNodesCoeff maxGenNodesCoeff sizeNodeMeta log nNodes
           NodeStackStatus CoeffStack nGenNodesCoeff GenCoeffStackStatus
           set_nNodesCoeff set_CoeffStackStatus];
      (split; [exact Hc1|split; [exact Hl1|]]); repeat split; assumption.
Qed.

Lemma allocGenCoeff_frame t n t' p :
  allocGenCoeff t n = Ok (t', p) ->
  pool_consts t' = pool_consts t /\
  (log t' = log t \/ exists i v, log t' = log t ++ [GenCoeffStackNotAvailable i v]) /\
  nNodes t' = nNodes t /\ NodeStackStatus t' = NodeStackStatus t /\
  nNodesCoeff t' = nNodesCoeff t /\ CoeffStackStatus t' = CoeffStackStatus t.
Proof.
  unfold allocGenCoeff.
  destruct (negb (n =? Z.shiftl 1 (Dim t))); [discriminate|].
  destruct (_ <? _); [discriminate|].
  destruct (negb _); intros [= <- <-].
  - split; [reflexivity|]. split; [right; eauto|]. repeat split; reflexivity.
  - split; [reflexivity|]. split; [left; reflexivity|]. repeat split; reflexivity.
Qed.

Lemma DeAllocGenCoeff_frame t ix :
  let t' := DeAllocGenCoeff t ix in
  pool_consts t' = pool_consts t /\
  (log t' = log t \/ log t' = log t ++ [DeletingUnallocatedGencoeff ix]) /\
  nNodes t' = nNodes t /\ NodeStackStatus t' = NodeStackStatus t /\
  nNodesCoeff t' = nNodesCoeff t /\ CoeffStackStatus t' = CoeffStackStatus t.
Proof.
  unfold DeAllocGenCoeff. destruct (_ =? 0).
  - split; [reflexivity|]. split; [right; reflexivity|]. repeat split; reflexivity.
  - cbn [nGenNodesCoeff set_GenCoeffStackStatus]. destruct (ix =? nGenNodesCoeff t);
      (split; [reflexivity|]); (split; [left; reflexivity|]); repeat split; reflexivity.
Qed.

Lemma int32_range z : INT_MIN <= int32 z <= INT_MAX.
Proof.
  unfold int32, INT_MIN, INT_MAX.
  pose proof (Z.mod_pos_bound (z + 2147483648) 4294967296 ltac:(lia)). lia.
Qed.

Lemma Forall_app_one {A : Type} (P : A -> Prop) l x :
  Forall P l -> P x -> Forall P (l ++ [x]).
Proof. intros Hl Hx. apply Forall_app. split; [exact Hl|constructor; [exact Hx|constructor]]. Qed.

(** The state of the pools that every operation in range keeps. *)
Lemma run_op_keeps t0 t o t' :
  maxNodes t0 < INT_MAX ->
  INT_MIN <= sizeNodeMeta t0 <= INT_MAX ->
  pool_consts t = pool_consts t0 ->
  node_pool_inv t -> coeff_pool_inv t ->
  Forall (fun m => node_pool_msg m = false) (log t) ->
  maxNodesCoeff t0 < INT_MAX ->
  op_in_range t0 o -> run_op t o = Ok t' ->
  pool_consts t' = pool_consts t0 /\ node_pool_inv t' /\ coeff_pool_inv t' /\
  Forall (fun m => node_pool_msg m = false) (log t').
Proof.
  intros Hmax Hsz Hc Hnode Hcoeff Hlog Hmaxc Hr Hrun.
  injection Hc as HD Hm Hmc Hmg Hs.
  assert (Hnodes : forall t1 p, allocNodes t 1 = Ok (t1, p) ->
            pool_consts t1 = pool_consts t0 /\ node_pool_inv t1 /\ coeff_pool_inv t1 /\
            Forall (fun m => node_pool_msg m = false) (log t1)).
  { intros t1 p Ha.
    destruct (allocNodes_inv t t1 p Hnode ltac:(lia) ltac:(lia) Ha)
      as (Hn1 & _ & _ & Hc1 & Hl1 & Hk1 & Hk2 & _).
    split; [rewrite Hc1; unfold pool_consts; congruence|]. split; [exact Hn1|].
    split; [|rewrite Hl1; exact Hlog].
    injection Hc1 as _ _ Hmc1 _ _.
    destruct Hcoeff as ((C1 & C2 & C3 & C4) & C5 & C6).
    unfold coeff_pool_inv, coeff_pool_ok. rewrite Hk1, Hk2, Hmc1.
    repeat split; assumption || lia. }
  destruct o as [n|r|n|n|ix|n|ix]; cbn [run_op op_in_range] in Hr, Hrun.
  - subst n. destruct (allocNodes t 1) as [[t1 p]|] eqn:Ha; [|discriminate].
    injection Hrun as <-. exact (Hnodes t1 p eq_refl).
  - injection Hrun as <-.
    destruct (DeAllocNodes_inv t r Hnode ltac:(lia))
      as (Hn1 & _ & Hc1 & Hl1 & _ & Hk1 & Hk2 & _).
    split; [rewrite Hc1; unfold pool_consts; congruence|]. split; [exact Hn1|].
    split; [|rewrite Hl1; exact Hlog].
    injection Hc1 as _ _ Hmc1 _ _.
    destruct Hcoeff as ((C1 & C2 & C3 & C4) & C5 & C6).
    unfold coeff_pool_inv, coeff_pool_ok. rewrite Hk1, Hk2, Hmc1.
    repeat split; assumption || lia.
  - subst n. change (allocGenNodes t 1) with (allocNodes t 1) in Hrun.
    destruct (allocNodes t 1) as [[t1 p]|] eqn:Ha; [|discriminate].
    injection Hrun as <-. exact (Hnodes t1 p eq_refl).
  - subst n. rewrite <- HD in Hrun.
    destruct (allocCoeff t (Z.shiftl 1 (Dim t))) as [[t1 p]|] eqn:Ha; [|discriminate].
    injection Hrun as <-.
    destruct (allocCoeff_inv t t1 p Hcoeff ltac:(lia) Ha)
      as (Hc1' & _ & Hc1 & Hl1 & Hk1 & Hk2 & _).
    split; [rewrite Hc1; unfold pool_consts; congruence|].
    split; [|split; [exact Hc1'|]].
    + injection Hc1 as _ Hm1 _ _ _.
      destruct Hnode as ((N1 & N2 & N3 & N4) & N5 & N6).
      unfold node_pool_inv, node_pool_ok. rewrite Hk1, Hk2, Hm1.
      repeat split; assumption || lia.
    + destruct Hl1 as [->|(i & v & ->)]; [exact Hlog|].
      apply Forall_app_one; [exact Hlog|reflexivity].
  - injection Hrun as <-.
    destruct (DeAllocCoeff_inv t ix Hcoeff ltac:(lia))
      as (Hc1' & _ & _ & _ & Hc1 & Hl1 & Hk1 & Hk2 & _).
    split; [rewrite Hc1; unfold pool_consts; congruence|].
    split; [|split; [exact Hc1'|]].
    + injection Hc1 as _ Hm1 _ _ _.
      destruct Hnode as ((N1 & N2 & N3 & N4) & N5 & N6).
      unfold node_pool_inv, node_pool_ok. rewrite Hk1, Hk2, Hm1.
      repeat split; assumption || lia.
    + destruct Hl1 as [->| ->]; [exact Hlog|].
      apply Forall_app_one; [exact Hlog|reflexivity].
  - destruct (allocGenCoeff t n) as [[t1 p]|] eqn:Ha; [|discriminate].
    injection Hrun as <-.
    destruct (allocGenCoeff_frame t n t1 p Ha) as (Hc1 & Hl1 & Hk1 & Hk2 & Hk3 & Hk4).
    split; [rewrite Hc1; unfold pool_consts; congruence|].
    injection Hc1 as _ Hm1 Hmc1 _ _.
    split; [|split].
    + destruct Hnode as ((N1 & N2 & N3 & N4) & N5 & N6).
      unfold node_pool_inv, node_pool_ok. rewrite Hk1, Hk2, Hm1.
      repeat split; assumption || lia.
    + destruct Hcoeff as ((C1 & C2 & C3 & C4) & C5 & C6).
      unfold coeff_pool_inv, coeff_pool_ok. rewrite Hk3, Hk4, Hmc1.
      repeat split; assumption || lia.
    + destruct Hl1 as [->|(i & v & ->)]; [exact Hlog|].
      apply Forall_app_one; [exact Hlog|reflexivity].
  - injection Hrun as <-.
    destruct (DeAllocGenCoeff_frame t ix) as (Hc1 & Hl1 & Hk1 & Hk2 & Hk3 & Hk4).
    split; [rewrite Hc1; unfold pool_consts; congruence|].
    injection Hc1 as _ Hm1 Hmc1 _ _.
    split; [|split].
    + destruct Hnode as ((N1 & N2 & N3 & N4) & N5 & N6).
      unfold node_pool_inv, node_pool_ok. rewrite Hk1, Hk2, Hm1.
      repeat split; assumption || lia.
    + destruct Hcoeff as ((C1 & C2 & C3 & C4) & C5 & C6).
      unfold coeff_pool_inv, coeff_pool_ok. rewrite Hk3, Hk4, Hmc1.
      repeat split; assumption || lia.
    + destruct Hl1 as [->| ->]; [exact Hlog|].
      apply Forall_app_one; [exact Hlog|reflexivity].
Qed.

Lemma run_ops_keep t0 ops : forall t t',
  maxNodes t0 < INT_MAX ->
  INT_MIN <= sizeNodeMeta t0 <= INT_MAX ->
  maxNodesCoeff t0 < INT_MAX ->
  pool_consts t = pool_consts t0 ->
  node_pool_inv t -> coeff_pool_inv t ->
  Forall (fun m => node_pool_msg m = false) (log t) ->
  Forall (op_in_range t0) ops -> run_ops t ops = Ok t' ->
  pool_consts t' = pool_consts t0 /\ node_pool_inv t' /\ coeff_pool_inv t' /\
  Forall (fun m => node_pool_msg m = false) (log t').
Proof.
  induction ops as [|o ops IH]; intros t t' Hmax Hsz Hmaxc Hc Hn Hco Hlog Hr Hrun.
  { injection Hrun as <-. auto. }
  apply Forall_cons in Hr as (Ho & Hr). cbn [run_ops] in Hrun.
  destruct (run_op t o) as [t1|] eqn:E1; [|discriminate].
  destruct (run_op_keeps t0 t o t1 Hmax Hsz Hc Hn Hco Hlog Hmaxc Ho E1)
    as (Hc1 & Hn1 & Hco1 & Hlog1).
  exact (IH t1 t' Hmax Hsz Hmaxc Hc1 Hn1 Hco1 Hlog1 Hr Hrun).
Qed.

(** X3.  In every state the allocator reaches from the constructor by
    operations whose arguments are in range (nodes one at a time, blocks
    by [2^D], releases of slots and blocks of the pools), both stacks
    keep their shape: the node count stays between [0] and the budget,
    the slot below the top is occupied unless the pool is empty, every
    slot from the top on is free and the mark after the last slot is in
    place; the same holds for the permanent pool, whose top is the last
    block handed out.  The node pool never logs: the branch
    ["minNodes exceeded"] of [DeAllocNodes] and the message
    ["NodeStackStatus: not available"] of [allocNodes] are never
    reached. *)
Theorem pools_keep_shape (D order sp sf max_nodes sdata gendata : Z)
    (ops : list alloc_op) (t : SerialTree) :
  let t0 := SerialTree_init D order sp sf max_nodes sdata gendata in
  0 <= max_nodes < INT_MAX ->
  Forall (op_in_range t0) ops ->
  run_ops t0 ops = Ok t ->
  node_pool_inv t /\ coeff_pool_inv t /\
  Forall (fun m => node_pool_msg m = false) (log t).
Proof.
  intros t0 Hmax Hr Hrun.
  destruct (run_ops_keep t0 ops t0 t) as (_ & Hn & Hc & Hlog); try assumption.
  - cbn. lia.
  - apply int32_range.
  - cbn. lia.
  - reflexivity.
  - apply node_pool_inv_init. lia.
  - apply coeff_pool_inv_init. lia.
  - constructor.
  - auto.
Qed.

Lemma pools_keep_shape_witness :
  node_pool_inv pool4_used /\ coeff_pool_inv pool4_used /\
  Forall (fun m => node_pool_msg m = false) (log pool4_used).
Proof.
  apply (pools_keep_shape 3 1 400 800 4 4096 1000000 pool4_run).
  - unfold INT_MAX. lia.
  - repeat constructor; vm_compute; intuition discriminate.
  - vm_compute. reflexivity.
Defined.

(** ** The blocks [allocCoeff] hands out *)

Lemma run_ops_layout os : forall t t',
  run_ops t os = Ok t' -> coeff_layout t' = coeff_layout t.
Proof.
  induction os as [|o os IH]; intros t t' H; cbn [run_ops] in H.
  - injection H as <-. reflexivity.
  - destruct (run_op t o) as [t1|] eqn:E; [|discriminate].
    rewrite (IH _ _ H). exact (run_op_layout _ _ _ E).
Qed.

(** The table of the block addresses, as the constructor fills it. *)
Lemma CoeffStack_init_get D order sp sf max_nodes sdata gendata i :
  let t0 := SerialTree_init D order sp sf max_nodes sdata gendata in
  0 <= sizeNodeCoeff t0 -> max_nodes * sizeNodeCoeff t0 <= INT_MAX ->
  0 <= i < max_nodes ->
  arr_get (CoeffStack t0) i = firstNodeCoeff t0 + i * sizeNodeCoeff t0.
Proof.
  intros t0 Hsz Hfit Hi. subst t0.
  cbn [CoeffStack firstNodeCoeff sizeNodeCoeff SerialTree_init] in *.
  rewrite arr_get_fmap_seqZ by lia. unfold dptr_add at 1.
  rewrite elem_offset_exact; [reflexivity| |apply SizeCoefOnly_div8].
  split; [apply Z.mul_nonneg_nonneg; lia|].
  apply Z.le_trans with (max_nodes * SizeCoefOnly D order); [|exact Hfit].
  apply Z.mul_le_mono_nonneg_r; lia.
Qed.

(** X4.  [allocCoeff] never hands out an index that is marked in use.
    In every state reached from the constructor by operations in range,
    [allocCoeff(2^D)] ends in one of three ways: below the capacity it
    returns the entry of [CoeffStack] above the top, whose mark was
    free, and marks it occupied; when all blocks up to the last have
    been passed it returns a null pointer, logs, and leaves the marks
    alone; above that it aborts.  While the coefficient region is within
    the range of an [int] in bytes
    ([max_nodes * sizeNodeCoeff <= INT_MAX]), the entry returned is the
    block [firstNodeCoeff + j * sizeNodeCoeff], and it overlaps no block
    that is marked occupied; beyond that range the entries of the table
    are not these addresses. *)
Theorem allocCoeff_block_not_in_use (D order sp sf max_nodes sdata gendata : Z)
    (ops : list alloc_op) (t : SerialTree) :
  let t0 := SerialTree_init D order sp sf max_nodes sdata gendata in
  let j := nNodesCoeff t + 1 in
  let block i := firstNodeCoeff t0 + i * sizeNodeCoeff t0 in
  0 <= max_nodes < INT_MAX ->
  Forall (op_in_range t0) ops ->
  run_ops t0 ops = Ok t ->
  (j < max_nodes /\
   arr_get (CoeffStackStatus t) j = 0 /\
   (exists t', allocCoeff t (Z.shiftl 1 D) = Ok (t', arr_get (CoeffStack t0) j) /\
               CoeffStackStatus t' = arr_set (CoeffStackStatus t) j 1 /\
               nNodesCoeff t' = j) /\
   (0 < sizeNodeCoeff t0 -> max_nodes * sizeNodeCoeff t0 <= INT_MAX ->
    arr_get (CoeffStack t0) j = block j /\
    forall i, 0 <= i < max_nodes -> arr_get (CoeffStackStatus t) i <> 0 ->
              arr_get (CoeffStack t0) i = block i /\
              blocks_apart (block i) (block j) (sizeNodeCoeff t0 / sizeof_double))) \/
  (j = max_nodes /\
   exists t', allocCoeff t (Z.shiftl 1 D) = Ok (t', 0) /\
              CoeffStackStatus t' = CoeffStackStatus t /\
              log t' = log t ++ [CoeffStackNotAvailable max_nodes (-1)]) \/
  (max_nodes < j /\
   allocCoeff t (Z.shiftl 1 D) = Fatal (MaxNodesCoeffExceeded max_nodes)).
Proof.
  intros t0 j block Hmax Hr Hrun.
  destruct (run_ops_keep t0 ops t0 t) as (Hc & _ & Hinv & _); try assumption;
    [cbn; lia|apply int32_range|cbn; lia|reflexivity|apply node_pool_inv_init; lia
    |apply coeff_pool_inv_init; lia|constructor|].
  injection Hc as HD _ Hmc _ _.
  change (Dim t0) with D in HD. change (maxNodesCoeff t0) with max_nodes in Hmc.
  assert (Hcs : CoeffStack t = CoeffStack t0).
  { pose proof (run_ops_layout _ _ _ Hrun) as Hl. unfold coeff_layout in Hl.
    exact (f_equal (fun x => fst (fst (fst (fst x)))) Hl). }
  destruct (allocCoeff_cases t Hinv ltac:(lia)) as (Hblock & Hnull & Hfatal).
  rewrite HD, Hmc in Hblock, Hnull, Hfatal. fold j in Hblock, Hnull, Hfatal.
  destruct Hinv as ((Hn & _ & Hlen & Htop) & Hfree & Hend). rewrite Hmc in *.
  destruct (Z.lt_trichotomy j max_nodes) as [Hj|[Hj|Hj]].
  - left. split; [exact Hj|].
    assert (Hj0 : arr_get (CoeffStackStatus t) j = 0) by (apply Hfree; unfold j; lia).
    split; [exact Hj0|]. split.
    + exists (set_CoeffStackStatus (set_nNodesCoeff t j)
                (arr_set (CoeffStackStatus t) j 1)).
      split; [|split; reflexivity].
      rewrite (Hblock Hj), Hcs. reflexivity.
    + intros Hsz Hfit.
      assert (Hget : forall i, 0 <= i < max_nodes -> arr_get (CoeffStack t0) i = block i).
      { intros i Hi. apply CoeffStack_init_get;
          [exact (Z.lt_le_incl _ _ Hsz)|exact Hfit|exact Hi]. }
      split; [apply Hget; unfold j; lia|].
      intros i Hi Hocc. split; [apply Hget; exact Hi|].
      assert (Hij : i <> j) by (intros ->; contradiction).
      pose proof (SizeCoefOnly_div8 D order) as (q & Hq).
      change (SizeCoefOnly D order) with (sizeNodeCoeff t0) in Hq.
      unfold blocks_apart, block, sizeof_double. rewrite Hq, Z.div_mul by lia.
      destruct (Z_lt_dec i j); [left|right]; nia.
  - right. left. split; [exact Hj|].
    exists (println (set_nNodesCoeff t j) (CoeffStackNotAvailable j (-1))).
    split; [exact (Hnull Hj)|]. split; [reflexivity|]. rewrite Hj. reflexivity.
  - right. right. split; [exact Hj|]. exact (Hfatal Hj).
Qed.

Lemma allocCoeff_block_not_in_use_witness :
  exists t',
    allocCoeff pool4_used 8 = Ok (t', firstNodeCoeff pool4 + 2 * sizeNodeCoeff pool4) /\
    arr_get (CoeffStackStatus pool4_used) 2 = 0.
Proof.
  destruct (allocCoeff_block_not_in_use 3 1 400 800 4 4096 1000000 pool4_run pool4_used)
    as [(_ & Hfree & (t' & Ea & _) & Haddr)|[(Hj & _)|(Hj & _)]].
  - unfold INT_MAX. lia.
  - repeat constructor; vm_compute; intuition discriminate.
  - vm_compute. reflexivity.
  - destruct Haddr as (Hblock & _); [vm_compute; reflexivity|vm_compute; discriminate|].
    exists t'. split; [|exact Hfree].
    exact (eq_trans Ea (f_equal (fun p => Ok (t', p)) Hblock)).
  - vm_compute in Hj. discriminate.
  - vm_compute in Hj. discriminate.
Defined.

(** ** A full pool, and an empty one *)

Lemma DeAllocCoeff_non_top t ix :
  ix <> nNodesCoeff t -> nNodesCoeff (DeAllocCoeff t ix) = nNodesCoeff t.
Proof.
  intros Hne. unfold DeAllocCoeff.
  set (t1 := if arr_get (CoeffStackStatus t) ix =? 0
             then println t (DeletingUnallocatedCoeff ix) else t).
  assert (Hn1 : nNodesCoeff t1 = nNodesCoeff t) by (subst t1; destruct (_ =? 0); reflexivity).
  cbn [nNodesCoeff set_CoeffStackStatus]. rewrite Hn1.
  destruct (Z.eqb_spec ix (nNodesCoeff t)) as [E|_]; [contradiction|].
  cbn [nNodesCoeff set_CoeffStackStatus]. exact Hn1.
Qed.

Lemma release_coeffs_stuck ixs : forall t,
  coeff_pool_inv t -> nNodesCoeff t = maxNodesCoeff t ->
  Forall (fun i => 0 <= i < maxNodesCoeff t) ixs ->
  let t' := release_coeffs t ixs in
  coeff_pool_inv t' /\ nNodesCoeff t' = maxNodesCoeff t' /\
  pool_consts t' = pool_consts t.
Proof.
  induction ixs as [|ix ixs IH]; intros t Hinv Htop Hr; [cbn; auto|].
  apply Forall_cons in Hr as (Hix & Hr). cbn [release_coeffs fold_left].
  destruct (DeAllocCoeff_inv t ix Hinv Hix) as (Hinv1 & _ & _ & _ & Hc1 & _).
  pose proof (DeAllocCoeff_non_top t ix ltac:(lia)) as Hn1.
  pose proof Hc1 as Hc1'. injection Hc1' as _ _ Hmc1 _ _.
  destruct (IH (DeAllocCoeff t ix) Hinv1 ltac:(lia)) as (H1 & H2 & H3).
  { rewrite Hmc1. exact Hr. }
  split; [exact H1|]. split; [exact H2|]. rewrite <- Hc1. exact H3.
Qed.

(** X5.  A permanent pool that was asked for one block too many stays
    full.  In a state reached from the constructor in which all blocks
    but none beyond have been passed, [allocCoeff(2^D)] returns a null
    pointer and moves the top onto the mark after the last block; from
    then on no release of a block moves the top again, so every later
    [allocCoeff] aborts, whatever is released in between. *)
Theorem full_pool_stays_full (D order sp sf max_nodes sdata gendata : Z)
    (ops : list alloc_op) (t : SerialTree) :
  let t0 := SerialTree_init D order sp sf max_nodes sdata gendata in
  0 <= max_nodes < INT_MAX ->
  Forall (op_in_range t0) ops ->
  run_ops t0 ops = Ok t ->
  nNodesCoeff t + 1 = max_nodes ->
  exists t1,
    allocCoeff t (Z.shiftl 1 D) = Ok (t1, 0) /\
    nNodesCoeff t1 = max_nodes /\
    forall ixs, Forall (fun i => 0 <= i < max_nodes) ixs ->
      nNodesCoeff (release_coeffs t1 ixs) = max_nodes /\
      allocCoeff (release_coeffs t1 ixs) (Z.shiftl 1 D)
      = Fatal (MaxNodesCoeffExceeded max_nodes).
Proof.
  intros t0 Hmax Hr Hrun Hfull.
  destruct (run_ops_keep t0 ops t0 t) as (Hc & _ & Hinv & _); try assumption;
    [cbn; lia|apply int32_range|cbn; lia|reflexivity|apply node_pool_inv_init; lia
    |apply coeff_pool_inv_init; lia|constructor|].
  injection Hc as HD _ Hmc _ _.
  change (Dim t0) with D in HD. change (maxNodesCoeff t0) with max_nodes in Hmc.
  destruct (allocCoeff_cases t Hinv ltac:(lia)) as (_ & Hnull & _).
  rewrite HD, Hmc in Hnull. specialize (Hnull Hfull).
  set (t1 := println (set_nNodesCoeff t (nNodesCoeff t + 1))
               (CoeffStackNotAvailable (nNodesCoeff t + 1) (-1))) in *.
  destruct (allocCoeff_inv t t1 0 Hinv ltac:(lia) ltac:(rewrite HD; exact Hnull))
    as (Hinv1 & Hn1 & _).
  assert (HD1 : Dim t1 = D) by exact HD.
  assert (Hmc1 : maxNodesCoeff t1 = max_nodes) by exact Hmc.
  exists t1. split; [exact Hnull|]. split; [lia|].
  intros ixs Hixs.
  destruct (release_coeffs_stuck ixs t1 Hinv1 ltac:(lia)) as (Hinv2 & Hn2 & Hc2).
  { rewrite Hmc1. exact Hixs. }
  assert (HD2 : Dim (release_coeffs t1 ixs) = D)
    by (rewrite <- HD1; exact (f_equal (fun x => fst (fst (fst (fst x)))) Hc2)).
  assert (Hmc2 : maxNodesCoeff (release_coeffs t1 ixs) = max_nodes)
    by (rewrite <- Hmc1; exact (f_equal (fun x => snd (fst (fst x))) Hc2)).
  split; [lia|].
  destruct (allocCoeff_cases _ Hinv2 ltac:(lia)) as (_ & _ & Hfatal).
  rewrite HD2, Hmc2 in Hfatal. apply Hfatal. lia.
Qed.

Lemma full_pool_stays_full_witness :
  exists t1,
    allocCoeff pool4_full 8 = Ok (t1, 0) /\
    allocCoeff (release_coeffs t1 [3; 2; 1; 0]) 8 = Fatal (MaxNodesCoeffExceeded 4).
Proof.
  destruct (full_pool_stays_full 3 1 400 800 4 4096 1000000
              (replicate 4 (OpAllocCoeff 8)) pool4_full) as (t1 & Ea & _ & Hrel).
  - unfold INT_MAX. lia.
  - repeat constructor.
  - vm_compute. reflexivity.
  - vm_compute. reflexivity.
  - exists t1. split; [exact Ea|].
    apply Hrel. repeat constructor; lia.
Defined.

(** Operations in range leave a top at or above [0] there. *)
Lemma run_op_top_nonneg t0 t o t' :
  maxNodes t0 < INT_MAX -> INT_MIN <= sizeNodeMeta t0 <= INT_MAX ->
  maxNodesCoeff t0 < INT_MAX ->
  pool_consts t = pool_consts t0 -> node_pool_inv t -> coeff_pool_inv t ->
  op_in_range t0 o -> run_op t o = Ok t' ->
  0 <= nNodesCoeff t -> 0 <= nNodesCoeff t'.
Proof.
  intros Hmax Hsz Hmaxc Hc Hnode Hcoeff Hr Hrun Htop.
  injection Hc as HD Hm Hmc Hmg Hs.
  destruct o as [n|r|n|n|ix|n|ix]; cbn [run_op op_in_range] in Hr, Hrun.
  - subst n. destruct (allocNodes t 1) as [[t1 p]|] eqn:Ha; [|discriminate].
    injection Hrun as <-.
    destruct (allocNodes_inv t t1 p Hnode ltac:(lia) ltac:(lia) Ha)
      as (_ & _ & _ & _ & _ & Hk & _). lia.
  - injection Hrun as <-.
    destruct (DeAllocNodes_inv t r Hnode ltac:(lia)) as (_ & _ & _ & _ & _ & Hk & _). lia.
  - subst n. change (allocGenNodes t 1) with (allocNodes t 1) in Hrun.
    destruct (allocNodes t 1) as [[t1 p]|] eqn:Ha; [|discriminate].
    injection Hrun as <-.
    destruct (allocNodes_inv t t1 p Hnode ltac:(lia) ltac:(lia) Ha)
      as (_ & _ & _ & _ & _ & Hk & _). lia.
  - subst n. rewrite <- HD in Hrun.
    destruct (allocCoeff t (Z.shiftl 1 (Dim t))) as [[t1 p]|] eqn:Ha; [|discriminate].
    injection Hrun as <-.
    destruct (allocCoeff_inv t t1 p Hcoeff ltac:(lia) Ha) as (_ & Hk & _). lia.
  - injection Hrun as <-.
    destruct (DeAllocCoeff_inv t ix Hcoeff ltac:(lia)) as (_ & _ & Hk & _). auto.
  - destruct (allocGenCoeff t n) as [[t1 p]|] eqn:Ha; [|discriminate].
    injection Hrun as <-.
    destruct (allocGenCoeff_frame t n t1 p Ha) as (_ & _ & _ & _ & Hk & _). lia.
  - injection Hrun as <-.
    destruct (DeAllocGenCoeff_frame t ix) as (_ & _ & _ & _ & Hk & _). lia.
Qed.

Lemma run_ops_top_nonneg t0 ops : forall t t',
  maxNodes t0 < INT_MAX -> INT_MIN <= sizeNodeMeta t0 <= INT_MAX ->
  maxNodesCoeff t0 < INT_MAX ->
  pool_consts t = pool_consts t0 -> node_pool_inv t -> coeff_pool_inv t ->
  Forall (fun m => node_pool_msg m = false) (log t) ->
  Forall (op_in_range t0) ops -> run_ops t ops = Ok t' ->
  0 <= nNodesCoeff t -> 0 <= nNodesCoeff t'.
Proof.
  induction ops as [|o ops IH]; intros t t' Hmax Hsz Hmaxc Hc Hn Hco Hlog Hr Hrun Htop.
  { injection Hrun as <-. exact Htop. }
  apply Forall_cons in Hr as (Ho & Hr). cbn [run_ops] in Hrun.
  destruct (run_op t o) as [t1|] eqn:E1; [|discriminate].
  destruct (run_op_keeps t0 t o t1 Hmax Hsz Hc Hn Hco Hlog Hmaxc Ho E1)
    as (Hc1 & Hn1 & Hco1 & Hlog1).
  pose proof (run_op_top_nonneg t0 t o t1 Hmax Hsz Hmaxc Hc Hn Hco Ho E1 Htop) as Htop1.
  exact (IH t1 t' Hmax Hsz Hmaxc Hc1 Hn1 Hco1 Hlog1 Hr Hrun Htop1).
Qed.

(** X6.  The first block of the permanent pool is handed out once.  The
    top starts at [-1], but the loop of [DeAllocCoeff] stops at [0]:
    once a block has been handed out, no run of operations brings the
    top below [0] again.  So when every block has been released, the
    pool is empty with its top at [0] and the next [allocCoeff(2^D)]
    returns the entry of index [1], the second block, unless the pool
    was asked once for a block beyond its capacity: then the top is
    still on [maxNodesCoeff] and the next [allocCoeff(2^D)] aborts. *)
Theorem first_block_handed_out_once (D order sp sf max_nodes sdata gendata : Z)
    (ops ops' : list alloc_op) (t t' : SerialTree) :
  let t0 := SerialTree_init D order sp sf max_nodes sdata gendata in
  0 <= max_nodes < INT_MAX ->
  Forall (op_in_range t0) ops -> run_ops t0 ops = Ok t ->
  0 <= nNodesCoeff t ->
  Forall (op_in_range t0) ops' -> run_ops t ops' = Ok t' ->
  0 <= nNodesCoeff t' <= max_nodes /\
  ((forall i, 0 <= i < max_nodes -> arr_get (CoeffStackStatus t') i = 0) ->
   (nNodesCoeff t' < max_nodes ->
    nNodesCoeff t' = 0 /\
    (2 <= max_nodes ->
     exists t'', allocCoeff t' (Z.shiftl 1 D) = Ok (t'', arr_get (CoeffStack t0) 1) /\
                 (0 < sizeNodeCoeff t0 ->
                  arr_get (CoeffStack t0) 1 = firstNodeCoeff t0 + sizeNodeCoeff t0))) /\
   (nNodesCoeff t' = max_nodes ->
    allocCoeff t' (Z.shiftl 1 D) = Fatal (MaxNodesCoeffExceeded max_nodes))).
Proof.
  intros t0 Hmax Hr Hrun Htop Hr' Hrun'.
  assert (H0 : maxNodes t0 < INT_MAX) by (cbn; lia).
  assert (H1 : INT_MIN <= sizeNodeMeta t0 <= INT_MAX) by apply int32_range.
  assert (H2 : maxNodesCoeff t0 < INT_MAX) by (cbn; lia).
  destruct (run_ops_keep t0 ops t0 t) as (Hc & Hn & Hinv & Hlog); try assumption;
    [reflexivity|apply node_pool_inv_init; lia|apply coeff_pool_inv_init; lia
    |constructor|].
  destruct (run_ops_keep t0 ops' t t') as (Hc' & Hn' & Hinv' & Hlog'); try assumption.
  pose proof (run_ops_top_nonneg t0 ops' t t' H0 H1 H2 Hc Hn Hinv Hlog Hr' Hrun' Htop)
    as Htop'.
  injection Hc' as HD _ Hmc _ _.
  change (Dim t0) with D in HD. change (maxNodesCoeff t0) with max_nodes in Hmc.
  pose proof Hinv' as ((Hrange & _ & _ & Hocc) & _). rewrite Hmc in Hrange.
  split; [lia|]. intros Hfree.
  assert (Hcs : CoeffStack t' = CoeffStack t0).
  { pose proof (run_ops_layout _ _ _ Hrun') as Hl'.
    pose proof (run_ops_layout _ _ _ Hrun) as Hl. rewrite Hl in Hl'.
    unfold coeff_layout in Hl'.
    exact (f_equal (fun x => fst (fst (fst (fst x)))) Hl'). }
  destruct (allocCoeff_cases t' Hinv' ltac:(lia)) as (Hblock & _ & Hfatal).
  rewrite HD, Hmc in Hblock, Hfatal.
  split.
  - intros Hlt.
    assert (Hz : nNodesCoeff t' = 0).
    { destruct Hocc as [Hle|Hocc]; [lia|]. exfalso. apply Hocc. apply Hfree. lia. }
    split; [exact Hz|]. intros H2max.
    rewrite Hz in Hblock. eexists. split.
    + rewrite Hblock by lia. rewrite Hcs. reflexivity.
    + intros Hsz. subst t0. cbn [CoeffStack firstNodeCoeff sizeNodeCoeff SerialTree_init] in *.
      rewrite arr_get_fmap_seqZ by lia. unfold dptr_add at 1. f_equal.
      rewrite elem_offset_exact; [lia| |apply SizeCoefOnly_div8].
      pose proof (int32_range (to_size_t (int32 (Z.shiftl 1 D * ipow (order + 1) D))
                               * sizeof_double)) as Hr32.
      fold (SizeCoefOnly D order) in Hr32. lia.
  - intros Hfull. apply Hfatal. lia.
Qed.

Lemma first_block_handed_out_once_witness :
  nNodesCoeff pool4_round_trip = 0 /\
  exists t'', allocCoeff pool4_round_trip 8
              = Ok (t'', firstNodeCoeff pool4 + sizeNodeCoeff pool4).
Proof.
  destruct (first_block_handed_out_once 3 1 400 800 4 4096 1000000
              [OpAllocCoeff 8] [OpAllocCoeff 8; OpDeAllocCoeff 1; OpDeAllocCoeff 0]
              (state_of (run_ops pool4 [OpAllocCoeff 8]) pool4) pool4_round_trip)
    as (_ & Hempty).
  - unfold INT_MAX. lia.
  - repeat constructor.
  - vm_compute. reflexivity.
  - vm_compute. discriminate.
  - repeat constructor; vm_compute; intuition discriminate.
  - vm_compute. reflexivity.
  - destruct Hempty as ((Hz & Hnext) & _).
    + intros i Hi.
      assert (Hc : i = 0 \/ i = 1 \/ i = 2 \/ i = 3) by lia.
      destruct Hc as [->|[->|[->| ->]]]; vm_compute; reflexivity.
    + vm_compute. reflexivity.
    + split; [exact Hz|].
      destruct Hnext as (t'' & Ea & Haddr); [lia|].
      exists t''.
      refine (eq_trans Ea (f_equal (fun p => Ok (t'', p)) (Haddr _))).
      vm_compute. reflexivity.
Defined.

(** ** The top of the generated pool *)

(** X7.  The loop of [DeAllocGenCoeff] that moves the top reads the
    occupancy of the permanent pool, so the top of the generated pool
    follows the other pool.  When the top block of the generated pool is
    released: if the permanent pool has a block in use at that index the
    top does not move, and the next [allocGenCoeff(2^D)] takes the block
    above and leaves the released one free below the top; if the
    permanent pool has no block in use from index [1] up to that index,
    the top drops to [0] whatever the generated pool still holds, and
    with the second generated block still in use the next
    [allocGenCoeff(2^D)] returns a null pointer. *)
Theorem gen_top_follows_permanent_pool (t : SerialTree) (ix : Z) :
  ix = nGenNodesCoeff t -> 0 <= ix <= maxGenNodesCoeff t ->
  arr_get (GenCoeffStackStatus t) ix <> 0 ->
  maxGenNodesCoeff t < INT_MAX ->
  let t' := DeAllocGenCoeff t ix in
  GenCoeffStackStatus t' = arr_set (GenCoeffStackStatus t) ix 0 /\
  (arr_get (CoeffStackStatus t) ix <> 0 ->
   nGenNodesCoeff t' = ix /\
   (ix + 1 <= maxGenNodesCoeff t ->
    arr_get (GenCoeffStackStatus t) (ix + 1) = 0 ->
    exists t'', allocGenCoeff t' (Z.shiftl 1 (Dim t))
                = Ok (t'', arr_get (GenCoeffStack t) (ix + 1)) /\
                nGenNodesCoeff t'' = ix + 1)) /\
  ((forall i, 0 < i <= ix -> arr_get (CoeffStackStatus t) i = 0) ->
   nGenNodesCoeff t' = 0 /\
   (2 <= ix -> arr_get (GenCoeffStackStatus t) 1 <> 0 ->
    exists t'', allocGenCoeff t' (Z.shiftl 1 (Dim t)) = Ok (t'', 0) /\
                log t'' = log t ++ [GenCoeffStackNotAvailable 1
                                      (arr_get (GenCoeffStackStatus t) 1)])).
Proof.
  intros Hix H0 Hocc Hmax t'.
  assert (Et : t' = set_nGenNodesCoeff
                      (set_GenCoeffStackStatus t (arr_set (GenCoeffStackStatus t) ix 0))
                      (recede (CoeffStackStatus t) 0 ix)).
  { unfold t', DeAllocGenCoeff.
    destruct (Z.eqb_spec (arr_get (GenCoeffStackStatus t) ix) 0) as [E|_];
      [contradiction|].
    cbn [nGenNodesCoeff set_GenCoeffStackStatus CoeffStackStatus].
    rewrite <- Hix, Z.eqb_refl. reflexivity. }
  split; [rewrite Et; reflexivity|]. split.
  - intros Hperm.
    assert (Hr : recede (CoeffStackStatus t) 0 ix = ix).
    { apply recede_occupied. rewrite Z.add_0_r. exact Hperm. }
    split; [rewrite Et; exact Hr|]. intros Hroom Hfree.
    rewrite Et, Hr. unfold allocGenCoeff.
    cbn [Dim nGenNodesCoeff maxGenNodesCoeff GenCoeffStackStatus GenCoeffStack
         set_nGenNodesCoeff set_GenCoeffStackStatus].
    rewrite Z.eqb_refl. cbn [negb].
    rewrite int32_id by (unfold INT_MIN, INT_MAX in *; lia).
    destruct (Z.ltb_spec (maxGenNodesCoeff t) (ix + 1)) as [H|_]; [lia|].
    rewrite arr_get_set_ne by lia. rewrite Hfree. cbn [Z.eqb negb].
    eexists. split; reflexivity.
  - intros Hperm.
    assert (Hr : recede (CoeffStackStatus t) 0 ix = 0).
    { apply recede_to; [lia| |left; reflexivity].
      intros i Hi. rewrite Z.add_0_r. apply Hperm. exact Hi. }
    split; [rewrite Et; exact Hr|]. intros H2 Hsecond.
    rewrite Et, Hr. unfold allocGenCoeff.
    cbn [Dim nGenNodesCoeff maxGenNodesCoeff GenCoeffStackStatus GenCoeffStack
         set_nGenNodesCoeff set_GenCoeffStackStatus].
    rewrite Z.eqb_refl. cbn [negb].
    change (int32 (0 + 1)) with 1.
    destruct (Z.ltb_spec (maxGenNodesCoeff t) 1) as [H|_].
    { lia. }
    rewrite arr_get_set_ne by lia.
    destruct (Z.eqb_spec (arr_get (GenCoeffStackStatus t) 1) 0) as [E|_];
      [contradiction|].
    cbn [negb]. eexists. split; reflexivity.
Qed.

Lemma gen_top_follows_permanent_pool_witness :
  (let t' := DeAllocGenCoeff pool4_gen3 2 in
   nGenNodesCoeff t' = 0 /\
   arr_get (GenCoeffStackStatus t') 0 = 1 /\
   exists t'', allocGenCoeff t' 8 = Ok (t'', 0)) /\
  (let t' := DeAllocGenCoeff pool4_both2 1 in
   nGenNodesCoeff t' = 1 /\
   exists t'', allocGenCoeff t' 8 = Ok (t'', arr_get (GenCoeffStack pool4) 2)).
Proof.
  split.
  - destruct (gen_top_follows_permanent_pool pool4_gen3 2) as (_ & _ & Hdrop).
    + vm_compute. reflexivity.
    + vm_compute. split; discriminate.
    + vm_compute. discriminate.
    + vm_compute. reflexivity.
    + destruct Hdrop as (Hz & Hnull).
      * intros i Hi. assert (Hc : i = 1 \/ i = 2) by lia.
        destruct Hc as [->| ->]; vm_compute; reflexivity.
      * destruct Hnull as (t'' & Ea & _); [lia|vm_compute; discriminate|].
        split; [exact Hz|]. split; [vm_compute; reflexivity|].
        exists t''. exact Ea.
  - destruct (gen_top_follows_permanent_pool pool4_both2 1) as (_ & Hstay & _).
    + vm_compute. reflexivity.
    + vm_compute. split; discriminate.
    + vm_compute. discriminate.
    + vm_compute. reflexivity.
    + destruct Hstay as (Hz & Hnext); [vm_compute; discriminate|].
      destruct Hnext as (t'' & Ea & _); [vm_compute; discriminate|vm_compute; reflexivity|].
      split; [exact Hz|]. exists t''. exact Ea.
Defined.

(** ** The layout of the arena *)

(** X8.  The arena the constructor asks for is exactly the header, the
    node records and the blocks, in this order and without a gap: the
    node region starts after the header, the region of the blocks after
    [maxNodes] records, block [i] of the permanent pool is [i] strides
    further, blocks of different indices do not overlap, and the last
    block ends where the [mysize] doubles of the arena end.  The array
    of the generated pool is filled by its blocks in the same way. *)
Theorem arena_layout (D order sp sf max_nodes sdata gendata : Z) :
  let t0 := SerialTree_init D order sp sf max_nodes sdata gendata in
  0 < sp <= INT_MAX - 15 -> 0 < sf <= INT_MAX - 15 ->
  1 <= max_nodes -> 0 < sizeNodeCoeff t0 ->
  max_nodes * (sizeNodeMeta t0 + sizeNodeCoeff t0) + sizeTreeMeta t0 <= INT_MAX ->
  firstNode t0 = sdata + sizeTreeMeta t0 /\
  firstNodeCoeff t0 = firstNode t0 + max_nodes * sizeNodeMeta t0 /\
  (forall i, 0 <= i < max_nodes ->
     arr_get (CoeffStack t0) i = firstNodeCoeff t0 + i * sizeNodeCoeff t0 /\
     arr_get (GenCoeffStack t0) i = gendata + i * sizeGenNodeCoeff t0) /\
  (forall i j, 0 <= i < max_nodes -> 0 <= j < max_nodes -> i <> j ->
     blocks_apart (arr_get (CoeffStack t0) i) (arr_get (CoeffStack t0) j)
       (sizeNodeCoeff t0 / sizeof_double)) /\
  sdata + sizeof_double * arena_doubles t0
  = firstNodeCoeff t0 + max_nodes * sizeNodeCoeff t0 /\
  gendata + sizeof_double * gen_doubles t0 = gendata + max_nodes * sizeGenNodeCoeff t0.
Proof.
  intros t0 Hsp Hsf Hmax Hsz Hfit.
  destruct (round16_pos sp Hsp) as (Hmeta & (qm & Hqm)).
  destruct (round16_pos sf Hsf) as (Htree & (qt & Hqt)).
  pose proof (SizeCoefOnly_div8 D order) as (qc & Hqc).
  change (sizeNodeMeta t0) with (round16 sp) in *.
  change (sizeTreeMeta t0) with (round16 sf) in *.
  change (sizeNodeCoeff t0) with (SizeCoefOnly D order) in *.
  change (sizeGenNodeCoeff t0) with (SizeCoefOnly D order).
  assert (Hfirst : firstNode t0 = sdata + round16 sf).
  { unfold t0, SerialTree_init. cbn [firstNode]. unfold dptr_add, to_size_t, sizeof_double.
    rewrite Z.mod_small by (unfold INT_MAX in *; lia).
    rewrite Hqt. replace (qt * 16) with (2 * qt * 8) by lia. rewrite Z.div_mul by lia. lia. }
  assert (Hcoeff : firstNodeCoeff t0 = firstNode t0 + max_nodes * round16 sp).
  { apply firstNodeCoeff_init; [exact Hsp|lia|].
    change (sizeNodeMeta (SerialTree_init D order sp sf max_nodes sdata gendata))
      with (round16 sp). unfold INT_MAX in *. nia. }
  assert (Hblock : forall i, 0 <= i < max_nodes ->
            arr_get (CoeffStack t0) i = firstNodeCoeff t0 + i * SizeCoefOnly D order).
  { intros i Hi. apply CoeffStack_init_get; [| |exact Hi];
      change (sizeNodeCoeff (SerialTree_init D order sp sf max_nodes sdata gendata))
        with (SizeCoefOnly D order); unfold INT_MAX in *; nia. }
  split; [exact Hfirst|]. split; [exact Hcoeff|]. split; [|split; [|split]].
  - intros i Hi. split; [exact (Hblock i Hi)|].
    unfold t0, SerialTree_init. cbn [GenCoeffStack].
    rewrite arr_get_fmap_seqZ by lia. unfold dptr_add.
    rewrite elem_offset_exact; [reflexivity| |exists qc; exact Hqc].
    unfold INT_MAX in *. nia.
  - intros i j Hi Hj Hij. rewrite (Hblock i Hi), (Hblock j Hj).
    unfold blocks_apart, sizeof_double. rewrite Hqc, Z.div_mul by lia.
    destruct (Z_lt_dec i j); [left|right]; nia.
  - rewrite Hcoeff, Hfirst. unfold arena_doubles, t0, SerialTree_init.
    cbn [sizeTreeMeta maxNodes sizeNode].
    rewrite (int32_id (round16 sp + SizeCoefOnly D order))
      by (unfold INT_MIN, INT_MAX in *; nia).
    unfold to_size_t, sizeof_double.
    rewrite (Z.mod_small (round16 sf)) by (unfold INT_MAX in *; lia).
    rewrite (Z.mod_small max_nodes) by (unfold INT_MAX in *; nia).
    rewrite (Z.mod_small (round16 sp + SizeCoefOnly D order))
      by (unfold INT_MAX in *; nia).
    rewrite Hqt, Hqm, Hqc in *.
    replace (qt * 16) with (2 * qt * 8) by lia.
    replace (qm * 16 + qc * 8) with ((2 * qm + qc) * 8) by lia.
    rewrite !Z.div_mul by lia.
    rewrite Z.mod_small by (unfold INT_MAX in *; nia).
    rewrite int32_id by (unfold INT_MIN, INT_MAX in *; nia). lia.
  - unfold gen_doubles, t0, SerialTree_init. cbn [maxGenNodesCoeff sizeGenNodeCoeff].
    rewrite elem_offset_exact; [reflexivity| |exists qc; exact Hqc].
    unfold INT_MAX in *. nia.
Qed.

Lemma arena_layout_witness :
  firstNode pool4 = 4096 + 800 /\
  firstNodeCoeff pool4 = firstNode pool4 + 4 * 400 /\
  4096 + 8 * arena_doubles pool4 = firstNodeCoeff pool4 + 4 * 512.
Proof.
  destruct (arena_layout 3 1 400 800 4 4096 1000000) as (H1 & H2 & _ & _ & H3 & _).
  - unfold INT_MAX. lia.
  - unfold INT_MAX. lia.
  - lia.
  - vm_compute. reflexivity.
  - vm_compute. discriminate.
  - split; [exact H1|]. split; [exact H2|exact H3].
Defined.

(** ** A block handed out and given back *)

Lemma arr_set_twice a i v w : arr_set (arr_set a i v) i w = arr_set a i w.
Proof.
  unfold arr_set. destruct (0 <=? i); [|reflexivity].
  apply list_insert_insert_eq.
Qed.

(** X18.  A block of the permanent pool that is given back right after
    it was handed out is handed out again.  In every state reached from
    the constructor in which a block was handed out before (the top is
    not [-1]) and a block is left, [allocCoeff(2^D)] followed by
    [DeAllocCoeff] of the index it took restores the allocator as it
    was, top, marks and log, so the next [allocCoeff(2^D)] returns the
    same block. *)
Theorem allocCoeff_release_round_trip (D order sp sf max_nodes sdata gendata : Z)
    (ops : list alloc_op) (t : SerialTree) :
  let t0 := SerialTree_init D order sp sf max_nodes sdata gendata in
  0 <= max_nodes < INT_MAX ->
  Forall (op_in_range t0) ops ->
  run_ops t0 ops = Ok t ->
  0 <= nNodesCoeff t -> nNodesCoeff t + 1 < max_nodes ->
  exists t1 p,
    allocCoeff t (Z.shiftl 1 D) = Ok (t1, p) /\
    nNodesCoeff t1 = nNodesCoeff t + 1 /\
    DeAllocCoeff t1 (nNodesCoeff t1) = t /\
    allocCoeff (DeAllocCoeff t1 (nNodesCoeff t1)) (Z.shiftl 1 D) = Ok (t1, p).
Proof.
  intros t0 Hmax Hr Hrun Htop0 Hleft.
  destruct (run_ops_keep t0 ops t0 t) as (Hc & _ & Hinv & _); try assumption;
    [cbn; lia|apply int32_range|cbn; lia|reflexivity|apply node_pool_inv_init; lia
    |apply coeff_pool_inv_init; lia|constructor|].
  injection Hc as HD _ Hmc _ _.
  change (Dim t0) with D in HD. change (maxNodesCoeff t0) with max_nodes in Hmc.
  destruct (allocCoeff_cases t Hinv ltac:(lia)) as (Hblock & _ & _).
  rewrite HD, Hmc in Hblock. specialize (Hblock Hleft).
  destruct Hinv as ((Hn & _ & Hlen & Htop) & Hfree & Hend). rewrite Hmc in *.
  set (j := nNodesCoeff t + 1) in *.
  assert (Hj0 : arr_get (CoeffStackStatus t) j = 0) by (apply Hfree; unfold j; lia).
  assert (Hback : DeAllocCoeff
                    (set_CoeffStackStatus (set_nNodesCoeff t j)
                       (arr_set (CoeffStackStatus t) j 1)) j = t).
  { unfold DeAllocCoeff. cbn [CoeffStackStatus set_CoeffStackStatus set_nNodesCoeff].
    rewrite arr_get_set_eq by (unfold j; lia).
    change (1 =? 0) with false. cbn iota.
    cbn [CoeffStackStatus set_CoeffStackStatus set_nNodesCoeff nNodesCoeff].
    rewrite Z.eqb_refl, arr_set_twice, (arr_set_same _ _ Hj0).
    rewrite (recede_to _ 0 j (nNodesCoeff t)).
    - destruct t. reflexivity.
    - unfold j. lia.
    - intros i Hi. replace (i + 0) with j by (unfold j in *; lia). exact Hj0.
    - rewrite Z.add_0_r. destruct Htop as [Hle|Hocc]; [left; lia|right; exact Hocc]. }
  eexists _, _. split; [exact Hblock|]. split; [reflexivity|].
  cbn [nNodesCoeff set_CoeffStackStatus set_nNodesCoeff].
  split; [exact Hback|]. rewrite Hback. exact Hblock.
Qed.

Lemma allocCoeff_release_round_trip_witness :
  exists t1 p,
    allocCoeff pool4_used 8 = Ok (t1, p) /\
    DeAllocCoeff t1 2 = pool4_used /\
    allocCoeff (DeAllocCoeff t1 2) 8 = Ok (t1, p).
Proof.
  destruct (allocCoeff_release_round_trip 3 1 400 800 4 4096 1000000 pool4_run pool4_used)
    as (t1 & p & Ea & Hn & Hback & Hagain).
  - unfold INT_MAX. lia.
  - repeat constructor; vm_compute; intuition discriminate.
  - vm_compute. reflexivity.
  - vm_compute. discriminate.
  - vm_compute. reflexivity.
  - assert (H2 : nNodesCoeff t1 = 2) by (rewrite Hn; vm_compute; reflexivity).
    rewrite H2 in Hback, Hagain.
    exists t1, p. split; [exact Ea|]. split; [exact Hback|exact Hagain].
Defined.

(** * Arenas whose coefficient region is beyond the range of an int in bytes *)

(** A run of [allocCoeff(2^D)] on a pool with room hands out the blocks
    above the top one after the other. *)
Lemma allocCoeff_fill : forall (n : nat) t k,
  coeff_pool_inv t -> maxNodesCoeff t < INT_MAX ->
  nNodesCoeff t = k - 1 -> 0 <= k -> k + Z.of_nat n <= maxNodesCoeff t ->
  (forall i, 0 <= i < k -> arr_get (CoeffStackStatus t) i = 1) ->
  exists t',
    run_ops t (replicate n (OpAllocCoeff (Z.shiftl 1 (Dim t)))) = Ok t' /\
    coeff_pool_inv t' /\ nNodesCoeff t' = k + Z.of_nat n - 1 /\
    (forall i, 0 <= i < k + Z.of_nat n -> arr_get (CoeffStackStatus t') i = 1) /\
    CoeffStack t' = CoeffStack t /\ Dim t' = Dim t /\
    maxNodesCoeff t' = maxNodesCoeff t.
Proof.
  induction n as [|n IH]; intros t k Hinv Hmax Htop Hk Hroom Hocc.
  - exists t. cbn [replicate run_ops]. split; [reflexivity|]. split; [exact Hinv|].
    split; [lia|]. split; [intros i Hi; apply Hocc; lia|]. repeat split.
  - destruct (allocCoeff_cases t Hinv Hmax) as (Hblock & _ & _).
    assert (Hj : nNodesCoeff t + 1 < maxNodesCoeff t) by lia.
    specialize (Hblock Hj).
    destruct (allocCoeff_inv t _ _ Hinv Hmax Hblock) as (Hinv1 & Htop1 & _).
    set (t1 := set_CoeffStackStatus (set_nNodesCoeff t (nNodesCoeff t + 1))
                 (arr_set (CoeffStackStatus t) (nNodesCoeff t + 1) 1)) in *.
    destruct Hinv as ((_ & _ & Hlen & _) & _ & _).
    destruct (IH t1 (k + 1)) as (t' & Er & Hinv' & Htop' & Hocc' & Hcs & HD & Hmc).
    + exact Hinv1.
    + exact Hmax.
    + rewrite Htop1. lia.
    + lia.
    + change (maxNodesCoeff t1) with (maxNodesCoeff t). lia.
    + intros i Hi. unfold t1. cbn [CoeffStackStatus set_CoeffStackStatus].
      destruct (Z.eq_dec i (nNodesCoeff t + 1)) as [->|Hne].
      * apply arr_get_set_eq. lia.
      * rewrite arr_get_set_ne by (intros E; apply Hne; symmetry; exact E).
        apply Hocc. lia.
    + exists t'. cbn [replicate run_ops run_op]. rewrite Hblock.
      change (Dim t1) with (Dim t) in Er. split; [exact Er|].
      split; [exact Hinv'|]. split; [lia|].
      split; [intros i Hi; apply Hocc'; lia|].
      split; [exact Hcs|]. split; [exact HD|exact Hmc].
Qed.

Lemma big_pool_sizes :
  Dim big_pool = 3 /\ maxNodesCoeff big_pool = 50421 /\
  sizeNodeCoeff big_pool = 85184 /\ nNodesCoeff big_pool = -1.
Proof. repeat split. Qed.

Lemma big_pool_last_entry :
  arr_get (CoeffStack big_pool) 50420 = firstNodeCoeff big_pool + 9984.
Proof.
  unfold big_pool, SerialTree_init. cbn [CoeffStack firstNodeCoeff].
  rewrite arr_get_fmap_seqZ by lia. unfold dptr_add at 1. f_equal.
Qed.

(** C10, where the code falls short.  The arena of order 10 with room
    for 50421 nodes is one the constructor accepts: the number of doubles
    it asks for, computed with the division before the product as the
    comment at line 51 demands, is 539403958.  But the loop that fills
    [CoeffStack] (line 86) multiplies the index by the block size in
    bytes as an [int] before it divides: for the last index, 50420, the
    product [50420 * 85184] is [2^32 + 9984] and is held as [9984].
    The entry of index 50420 is therefore 9984 bytes after the start of
    the coefficient region, not [50420 * sizeNodeCoeff] bytes after it:
    it lies inside the block of index 0.  After 50420 blocks have been
    handed out, the block of index 0 among them, [allocCoeff(2^D)] at
    the top-of-stack index 50420 returns that address. *)
Theorem CoeffStack_entry_inside_first_block :
  arena_doubles big_pool = 539403958 /\
  sizeNodeCoeff big_pool = 85184 /\
  arr_get (CoeffStack big_pool) 0 = firstNodeCoeff big_pool /\
  arr_get (CoeffStack big_pool) 50420 = firstNodeCoeff big_pool + 9984 /\
  arr_get (CoeffStack big_pool) 50420
  <> firstNodeCoeff big_pool + 50420 * sizeNodeCoeff big_pool /\
  exists t t',
    run_ops big_pool (replicate (Z.to_nat 50420) (OpAllocCoeff 8)) = Ok t /\
    nNodesCoeff t + 1 = 50420 /\
    arr_get (CoeffStackStatus t) 0 = 1 /\
    allocCoeff t 8 = Ok (t', firstNodeCoeff big_pool + 9984).
Proof.
  destruct big_pool_sizes as (HD & Hmc & Hsz & Htop).
  split; [reflexivity|]. split; [exact Hsz|].
  split.
  { unfold big_pool, SerialTree_init. cbn [CoeffStack firstNodeCoeff].
    rewrite arr_get_fmap_seqZ by lia. unfold dptr_add at 1.
    change (elem_offset 0 (SizeCoefOnly 3 10)) with 0. lia. }
  split; [exact big_pool_last_entry|].
  split; [rewrite big_pool_last_entry, Hsz; lia|].
  assert (Hinv : coeff_pool_inv big_pool)
    by (apply coeff_pool_inv_init; unfold INT_MAX; lia).
  destruct (allocCoeff_fill (Z.to_nat 50420) big_pool 0 Hinv)
    as (t & Er & Hinv' & Htop' & Hocc & Hcs & HD' & Hmc').
  - rewrite Hmc. unfold INT_MAX. lia.
  - rewrite Htop. reflexivity.
  - lia.
  - rewrite Hmc. lia.
  - intros i Hi. lia.
  - destruct (allocCoeff_cases t Hinv') as (Hblock & _ & _).
    { rewrite Hmc', Hmc. unfold INT_MAX. lia. }
    rewrite Hmc', Hmc, HD', HD in Hblock.
    assert (Hj : nNodesCoeff t + 1 = 50420) by lia.
    rewrite Hj in Hblock. specialize (Hblock ltac:(lia)).
    rewrite Hcs, big_pool_last_entry in Hblock.
    rewrite HD in Er.
    eexists t, _. split; [exact Er|]. split; [exact Hj|].
    split; [apply Hocc; lia|]. exact Hblock.
Qed.

(** * The transform kernels *)

Lemma sweep_value_hit K oper i mask ftlim k1 k2 ins gt ft :
  0 <= ft < ftlim -> Z.lor gt mask = Z.lor ft mask ->
  exists v, sweep_value K oper i mask ftlim k1 k2 ins gt = Some v.
Proof.
  intros H Hm. unfold sweep_value.
  assert (Hin : ft ∈ seqZ 0 ftlim) by (apply elem_of_seqZ; lia).
  generalize (@None (Z -> float)) as acc. revert Hin.
  generalize (seqZ 0 ftlim) as l.
  induction l as [|ft' l IH]; intros Hin acc; [inversion Hin|].
  cbn [fold_left]. apply elem_of_cons in Hin as [<- | Hin].
  - unfold sweep_value_ft at 2. rewrite Hm, Z.eqb_refl. apply sweep_value_ft_some.
  - apply IH. exact Hin.
Qed.

Ltac below8 g H :=
  let C := fresh "C" in
  assert (C : g = 0 \/ g = 1 \/ g = 2 \/ g = 3 \/ g = 4 \/ g = 5 \/ g = 6 \/ g = 7)
    by lia;
  clear H;
  destruct C as [->|[->|[->|[->|[->|[->|[->| ->]]]]]]].

(** Every block a sweep of the Synthesis kernel reads was written by the
    sweep before it. *)
Lemma synthesis_first_some K (ro : bool) ins ft :
  0 <= ft < (if ro then 2 else 8) ->
  exists v, synthesis_first K ro ins ft = Some v.
Proof.
  intros H. unfold synthesis_first. destruct ro.
  - apply (sweep_value_hit _ _ _ _ _ _ _ _ _ 0); [lia|].
    assert (C : ft = 0 \/ ft = 1) by lia. destruct C as [-> | ->]; reflexivity.
  - apply sweep_value_some. exact H.
Qed.

Lemma synthesis_second_some K (ro : bool) k1 k2 ins ft :
  0 <= ft < (if ro then 4 else 8) ->
  exists v, sweep_value K Reconstruction 1 2 (if ro then 2 else 8) k1 k2 ins ft = Some v.
Proof.
  intros H. destruct ro.
  - apply (sweep_value_hit _ _ _ _ _ _ _ _ _ (ft mod 2)).
    + pose proof (Z.mod_pos_bound ft 2). lia.
    + assert (C : ft = 0 \/ ft = 1 \/ ft = 2 \/ ft = 3) by lia.
      destruct C as [->|[->|[->| ->]]]; reflexivity.
  - apply sweep_value_some. exact H.
Qed.

Lemma synthesis_third_some K (ro : bool) k1 k2 ins g :
  0 <= g < 8 ->
  exists v, sweep_value K Reconstruction 2 4 (if ro then 4 else 8) k1 k2 ins g = Some v.
Proof.
  intros H. destruct ro.
  - apply (sweep_value_hit _ _ _ _ _ _ _ _ _ (g mod 4)).
    + pose proof (Z.mod_pos_bound g 4). lia.
    + below8 g H; reflexivity.
  - apply sweep_value_some. exact H.
Qed.

(** ** The Synthesis kernel *)

(** [S_mwTransform] never aborts in three dimensions.  It writes the
    sub-blocks at [coeff_out] in its first sweep and the blocks of the
    children in its last; what it leaves in the blocks of the children
    is [synthesis_block] of the sub-blocks of the parent it reads. *)
Lemma S_mwTransform_spec K M cin cout (ro : bool) stride :
  let kd := kp1 K * (kp1 K * kp1 K) in
  0 <= kp1 K ->
  (forall g ft, 0 <= g < 8 -> 0 <= ft < (if ro then 1 else 8) ->
     blocks_apart (dptr_add cin (ft * kd)) (dptr_add cout (g * kd)) kd) ->
  (forall g g', 0 <= g < 8 -> 0 <= g' < 8 -> g <> g' ->
     blocks_apart (dptr_add cout (g * stride)) (dptr_add cout (g' * stride)) kd) ->
  exists M',
    S_mwTransform K 3 M cin cout ro stride = Done M' /\
    (forall a,
       (forall g, 0 <= g < 8 -> in_block (dptr_add cout (g * kd)) kd a = false) ->
       (forall g, 0 <= g < 8 -> in_block (dptr_add cout (g * stride)) kd a = false) ->
       M' a = M a) /\
    (forall g j, 0 <= g < 8 -> 0 <= j < kd ->
       (forall g', 0 <= g' < 8 ->
          in_block (dptr_add cout (g' * stride)) kd
                   (dptr_add (dptr_add cout (g * kd)) j) = false) ->
       M' (dptr_add (dptr_add cout (g * kd)) j)
       = match synthesis_first K ro (parent_blocks K M cin) g with
         | Some v => v j
         | None => M (dptr_add (dptr_add cout (g * kd)) j)
         end) /\
    (forall g, 0 <= g < 8 ->
       read_block M' (dptr_add cout (g * stride)) kd
       = synthesis_block K ro (parent_blocks K M cin) g).
Proof.
  intros kd Hk Hap Hout. unfold S_mwTransform.
  change (negb (3 =? 3)) with false. cbn iota.
  change (Z.shiftl 1 3) with 8.
  assert (Hkd : 0 <= kd)
    by (subst kd; apply Z.mul_nonneg_nonneg; [|apply Z.mul_nonneg_nonneg]; lia).
  replace (kp1 K * kp1 K * kp1 K) with kd by (subst kd; lia).
  set (k2 := kp1 K * kp1 K).
  set (ins1 := parent_blocks K M cin).
  set (ins2 := fun g => swept kd (synthesis_first K ro ins1 g) []).
  set (ins3 := fun g => swept kd (sweep_value K Reconstruction 1 2 (if ro then 2 else 8)
                                    (kp1 K) k2 ins2 g) []).
  assert (L1 : (if ro then 1 else 8) <= 8) by (destruct ro; lia).
  assert (L2 : (if ro then 2 else 8) <= 8) by (destruct ro; lia).
  assert (L3 : (if ro then 4 else 8) <= 8) by (destruct ro; lia).
  (* first sweep: the parent to the sub-blocks at [coeff_out] *)
  destruct (sweep_spec K Reconstruction 0 1 Heap cout kd Heap cin kd (kp1 K) k2 ins1
              8 (if ro then 1 else 8) (mkBufs M (uninit K)))
    as (b1 & E1 & (Ho1 & Hout1) & Hin1).
  { intros g g' _ _ Hne. apply consecutive_blocks_apart; assumption. }
  { intros b' (_ & Hout') ft Hft. subst ins1. unfold parent_blocks.
    apply read_block_ext. intros j Hj. rewrite Hout'; [reflexivity|].
    intros g Hg. apply in_block_apart; [|exact Hj]. apply Hap; assumption. }
  rewrite E1.
  (* second sweep: the sub-blocks at [coeff_out] to the local array *)
  destruct (sweep_spec K Reconstruction 1 2 Tmp 0 kd Heap cout kd (kp1 K) k2 ins2
              8 (if ro then 2 else 8) b1) as (b2 & E2 & (Ho2 & Hout2) & Hin2).
  { intros g g' _ _ Hne. apply consecutive_blocks_apart; assumption. }
  { intros b' (Ho' & _) ft Hft. rewrite (Ho' Heap) by discriminate.
    subst ins2. cbn beta.
    destruct (synthesis_first_some K ro ins1 ft) as (v & Ev); [destruct ro; lia|].
    rewrite Ev. cbn [swept].
    apply read_block_fmap. intros j Hj.
    rewrite (Hin1 ft j) by (try exact Hj; destruct ro; lia).
    change (sweep_value K Reconstruction 0 1 (if ro then 1 else 8) (kp1 K) k2 ins1 ft)
      with (synthesis_first K ro ins1 ft).
    rewrite Ev. reflexivity. }
  rewrite E2.
  (* third sweep: the local array to the blocks of the children *)
  destruct (sweep_spec K Reconstruction 2 4 Heap cout stride Tmp 0 kd (kp1 K) k2 ins3
              8 (if ro then 4 else 8) b2) as (b3 & E3 & (Ho3 & Hout3) & Hin3).
  { exact Hout. }
  { intros b' (Ho' & _) ft Hft. rewrite (Ho' Tmp) by discriminate.
    subst ins3. cbn beta.
    destruct (synthesis_second_some K ro (kp1 K) k2 ins2 ft) as (v & Ev);
      [destruct ro; lia|].
    rewrite Ev. cbn [swept].
    apply read_block_fmap. intros j Hj.
    rewrite (Hin2 ft j) by (try exact Hj; destruct ro; lia).
    rewrite Ev. reflexivity. }
  rewrite E3. exists (heap b3). split; [reflexivity|]. split; [|split].
  - intros a Ha1 Ha3. change (heap b3) with (buf b3 Heap).
    rewrite (Hout3 a Ha3). rewrite (Ho2 Heap) by discriminate.
    rewrite (Hout1 a Ha1). reflexivity.
  - intros g j Hg Hj Ha3. change (heap b3) with (buf b3 Heap).
    rewrite (Hout3 _ Ha3). rewrite (Ho2 Heap) by discriminate.
    rewrite (Hin1 g j Hg Hj). reflexivity.
  - intros g Hg.
    change (read_block (heap b3) (dptr_add cout (g * stride)) kd
            = swept kd (sweep_value K Reconstruction 2 4 (if ro then 4 else 8)
                          (kp1 K) k2 ins3 g) []).
    destruct (synthesis_third_some K ro (kp1 K) k2 ins3 g Hg) as (v & Ev).
    rewrite Ev. cbn [swept].
    apply read_block_fmap. intros j Hj.
    change (heap b3) with (buf b3 Heap).
    rewrite (Hin3 g j Hg Hj), Ev. reflexivity.
Qed.

Lemma block_search (f : Z -> bool) (n : nat) :
  (forall g, 0 <= g < Z.of_nat n -> f g = false) \/
  (exists g, 0 <= g < Z.of_nat n /\ f g = true).
Proof.
  induction n as [|n IH]; [left; intros; lia|].
  destruct IH as [IH|(g & Hg & E)]; [|right; exists g; split; [lia|exact E]].
  destruct (f (Z.of_nat n)) eqn:E.
  - right. exists (Z.of_nat n). split; [lia|exact E].
  - left. intros g Hg. destruct (Z.eq_dec g (Z.of_nat n)) as [->|Hne]; [exact E|].
    apply IH. lia.
Qed.

Lemma dptr_add_0 p k : dptr_add p (0 * k) = p.
Proof. unfold dptr_add. lia. Qed.

Lemma strided_blocks_apart p kd stride g g' :
  0 <= kd <= stride -> g <> g' ->
  blocks_apart (dptr_add p (g * stride)) (dptr_add p (g' * stride)) kd.
Proof.
  intros Hk Hne. unfold blocks_apart, dptr_add, sizeof_double.
  destruct (Z_lt_le_dec g g'); [left|right]; nia.
Qed.

(** With the scaling block of the parent read only, the three sweeps
    use the scaling filters only. *)
Lemma synthesis_block_scaling K ins g :
  0 <= g < 8 ->
  synthesis_block K true ins g
  = scaling_synthesis (kp1 K) (filterProduct K) (H0 (filter K)) (H1 (filter K))
      (ins 0) g.
Proof. intros H. below8 g H; reflexivity. Qed.

Lemma synthesis_first_scaling_none K ins g :
  2 <= g < 8 -> synthesis_first K true ins g = None.
Proof.
  intros H.
  assert (C : g = 2 \/ g = 3 \/ g = 4 \/ g = 5 \/ g = 6 \/ g = 7) by lia.
  destruct C as [->|[->|[->|[->|[->| ->]]]]]; reflexivity.
Qed.

(** The values of the sweeps do not depend on the content of the local
    array. *)
Lemma sweep_value_uninit K u oper i mask ftlim k1 k2 ins gt :
  sweep_value (with_uninit K u) oper i mask ftlim k1 k2 ins gt
  = sweep_value K oper i mask ftlim k1 k2 ins gt.
Proof.
  unfold sweep_value. generalize (@None (Z -> float)) as acc.
  generalize (seqZ 0 ftlim) as l.
  induction l as [|ft l IH]; intros acc; cbn [fold_left]; [reflexivity|].
  rewrite IH. f_equal.
Qed.

Lemma analysis_block_uninit K u ins ins' g :
  (forall ft, 0 <= ft < 8 -> ins ft = ins' ft) ->
  analysis_block (with_uninit K u) ins g = analysis_block K ins' g.
Proof.
  intros H. unfold analysis_block. cbn zeta.
  change (kp1 (with_uninit K u)) with (kp1 K). f_equal.
  rewrite sweep_value_uninit.
  apply sweep_value_ext. intros g2 Hg2. cbn beta. f_equal.
  rewrite sweep_value_uninit.
  apply sweep_value_ext. intros g1 Hg1. cbn beta. f_equal.
  rewrite sweep_value_uninit.
  apply sweep_value_ext. exact H.
Qed.

Lemma synthesis_block_uninit K u (ro : bool) ins ins' g :
  (forall ft, 0 <= ft < (if ro then 1 else 8) -> ins ft = ins' ft) ->
  synthesis_block (with_uninit K u) ro ins g = synthesis_block K ro ins' g.
Proof.
  intros H. unfold synthesis_block, synthesis_first. cbn zeta.
  change (kp1 (with_uninit K u)) with (kp1 K). f_equal.
  rewrite sweep_value_uninit.
  apply sweep_value_ext. intros g2 Hg2. cbn beta. f_equal.
  rewrite sweep_value_uninit.
  apply sweep_value_ext. intros g1 Hg1. cbn beta. f_equal.
  rewrite sweep_value_uninit.
  apply sweep_value_ext. exact H.
Qed.

(** X9.  Synthesis from the scaling block alone
    ([ReadOnlyScalingCoeff = true]), with the blocks of the children at
    least two sub-blocks apart and the scaling block of the parent
    outside the first eight sub-blocks at [coeff_out].  The kernel ends;
    the scaling block of child [g] is the scaling block of the parent
    pushed through the scaling filters [H0] or [H1], one for each bit of
    [g], and neither the other filters, nor the detail blocks of the
    parent, nor the local array as it was found enter the result.  The
    sub-block after the scaling block of the first child is left holding
    a by-product of the first sweep; memory outside the first two
    sub-blocks at [coeff_out] and outside the scaling blocks of the
    children is unchanged. *)
Theorem S_mwTransform_scaling_only K M cin cout stride :
  let kd := kp1 K * (kp1 K * kp1 K) in
  0 <= kp1 K -> 2 * kd <= stride ->
  (forall g, 0 <= g < 8 -> blocks_apart cin (dptr_add cout (g * kd)) kd) ->
  exists M',
    S_mwTransform K 3 M cin cout true stride = Done M' /\
    (forall a, in_block cout (2 * kd) a = false ->
       (forall g, 0 <= g < 8 -> in_block (dptr_add cout (g * stride)) kd a = false) ->
       M' a = M a) /\
    (forall g, 0 <= g < 8 ->
       read_block M' (dptr_add cout (g * stride)) kd
       = scaling_synthesis (kp1 K) (filterProduct K) (H0 (filter K)) (H1 (filter K))
           (read_block M cin kd) g) /\
    read_block M' (dptr_add cout kd) kd
    = filtered (kp1 K) (filterProduct K) (H1 (filter K)) (read_block M cin kd).
Proof.
  intros kd Hk Hstride Hap.
  assert (Hkd : 0 <= kd)
    by (subst kd; apply Z.mul_nonneg_nonneg; [|apply Z.mul_nonneg_nonneg]; lia).
  destruct (S_mwTransform_spec K M cin cout true stride Hk)
    as (M' & E & Hframe & Hby & Hres).
  { intros g ft Hg Hft. replace ft with 0 by lia. rewrite dptr_add_0.
    apply Hap. exact Hg. }
  { intros g g' _ _ Hne. apply strided_blocks_apart; [fold kd; lia|exact Hne]. }
  fold kd in Hframe, Hby, Hres.
  assert (Hp : parent_blocks K M cin 0 = read_block M cin kd).
  { unfold parent_blocks. rewrite dptr_add_0. reflexivity. }
  exists M'. split; [exact E|]. split; [|split].
  - intros a Ha Houts.
    destruct (block_search (fun g => in_block (dptr_add cout (g * kd)) kd a) 8)
      as [Hall|(g & Hg & Hin)]; change (Z.of_nat 8) with 8 in *.
    + apply Hframe; assumption.
    + cbn beta in Hin.
      assert (Hg2 : 2 <= g).
      { destruct (Z_lt_le_dec g 2) as [Hlt|Hge]; [|exact Hge]. exfalso.
        rewrite (in_block_sub cout (2 * kd) kd g a) in Ha;
          [discriminate|lia|exact Hkd|nia|exact Hin]. }
      destruct (in_block_inv _ _ _ Hin) as (j & Hj & ->).
      rewrite (Hby g j Hg Hj) by exact Houts.
      rewrite synthesis_first_scaling_none by lia. reflexivity.
  - intros g Hg. rewrite (Hres g Hg), synthesis_block_scaling by exact Hg.
    rewrite Hp. reflexivity.
  - unfold filtered. fold kd. apply read_block_fmap. intros j Hj.
    replace (dptr_add cout kd) with (dptr_add cout (1 * kd)) by (f_equal; lia).
    assert (Hfree : forall g', 0 <= g' < 8 ->
              in_block (dptr_add cout (g' * stride)) kd
                       (dptr_add (dptr_add cout (1 * kd)) j) = false).
    { intros g' Hg'. apply in_block_apart; [|exact Hj].
      unfold blocks_apart, dptr_add, sizeof_double.
      destruct (Z.eq_dec g' 0) as [->|Hne]; [right|left]; nia. }
    rewrite (Hby 1 j ltac:(lia) Hj Hfree).
    change (synthesis_first K true (parent_blocks K M cin) 1)
      with (Some (filterProduct K (H1 (filter K)) (kp1 K) (kp1 K * kp1 K)
                    (parent_blocks K M cin 0))).
    cbn iota. rewrite Hp. reflexivity.
Qed.

Lemma S_mwTransform_scaling_only_witness :
  exists M',
    S_mwTransform sample_kernel 3 sample_mem 4096 8192 true 64 = Done M' /\
    read_block M' (dptr_add 8192 (5 * 64)) 8
    = scaling_synthesis 2 transposeProduct (H0 sample_filter) (H1 sample_filter)
        (read_block sample_mem 4096 8) 5 /\
    M' 4096 = sample_mem 4096.
Proof.
  destruct (S_mwTransform_scaling_only sample_kernel sample_mem 4096 8192 64)
    as (M' & E & Hframe & Hres & _).
  - cbn. lia.
  - cbn. lia.
  - intros g Hg. unfold blocks_apart, dptr_add, sizeof_double. cbn. lia.
  - exists M'. split; [exact E|]. split.
    + exact (Hres 5 ltac:(lia)).
    + apply Hframe; [reflexivity|].
      intros g Hg. unfold in_block, dptr_add, sizeof_double. cbn [kp1 sample_kernel].
      destruct (Z.leb_spec (8192 + 8 * (g * 64)) 4096); [lia|reflexivity].
Defined.

(** X10.  The Analysis kernel reads the scaling blocks of the eight
    children and nothing else: two runs from memories that agree on
    these eight blocks, with any content of the local array, both end
    and leave the same eight sub-blocks in the block of the parent, as
    long as this block does not overlap the blocks read.  The run changes
    no address outside the block of the parent, so the blocks of the
    children are as before. *)
Theorem S_mwTransformBack_reads_children_only K (u : cmem) M1 M2 cin cout stride :
  let kd := kp1 K * (kp1 K * kp1 K) in
  0 <= kp1 K ->
  (forall g ft, 0 <= g < 8 -> 0 <= ft < 8 ->
     blocks_apart (dptr_add cin (ft * stride)) (dptr_add cout (g * kd)) kd) ->
  (forall ft, 0 <= ft < 8 ->
     read_block M1 (dptr_add cin (ft * stride)) kd
     = read_block M2 (dptr_add cin (ft * stride)) kd) ->
  exists M1' M2',
    S_mwTransformBack K 3 M1 cin cout stride = Done M1' /\
    S_mwTransformBack (with_uninit K u) 3 M2 cin cout stride = Done M2' /\
    (forall g, 0 <= g < 8 ->
       read_block M1' (dptr_add cout (g * kd)) kd
       = read_block M2' (dptr_add cout (g * kd)) kd) /\
    (forall a, in_block cout (8 * kd) a = false -> M1' a = M1 a) /\
    (forall ft, 0 <= ft < 8 ->
       read_block M1' (dptr_add cin (ft * stride)) kd
       = read_block M1 (dptr_add cin (ft * stride)) kd).
Proof.
  intros kd Hk Hap Hsame.
  assert (Hkd : 0 <= kd)
    by (subst kd; apply Z.mul_nonneg_nonneg; [|apply Z.mul_nonneg_nonneg]; lia).
  destruct (S_mwTransformBack_spec K M1 cin cout stride Hk Hap)
    as (M1' & E1 & Hf1 & Hr1).
  destruct (S_mwTransformBack_spec (with_uninit K u) M2 cin cout stride Hk Hap)
    as (M2' & E2 & _ & Hr2).
  exists M1', M2'. split; [exact E1|]. split; [exact E2|].
  fold kd in Hf1, Hr1. change (kp1 (with_uninit K u)) with (kp1 K) in Hr2.
  fold kd in Hr2.
  split; [|split].
  - intros g Hg. rewrite (Hr1 g Hg), (Hr2 g Hg).
    symmetry. apply analysis_block_uninit. intros ft Hft.
    unfold child_blocks. change (kp1 (with_uninit K u)) with (kp1 K).
    symmetry. apply Hsame. exact Hft.
  - intros a Ha. apply Hf1. intros g Hg. apply outside_sub_blocks; assumption.
  - intros ft Hft. apply read_block_ext. intros j Hj. apply Hf1.
    intros g Hg. apply in_block_apart; [|exact Hj]. apply Hap; assumption.
Qed.

Lemma S_mwTransformBack_reads_children_only_witness :
  exists M1' M2',
    S_mwTransformBack sample_kernel 3 sample_mem 4096 8192 64 = Done M1' /\
    S_mwTransformBack (with_uninit sample_kernel (fun _ => 1%float)) 3
      (fun a => if a <? 8192 then sample_mem a else 0%float) 4096 8192 64 = Done M2' /\
    read_block M1' 8192 8 = read_block M2' 8192 8.
Proof.
  destruct (S_mwTransformBack_reads_children_only sample_kernel (fun _ => 1%float)
              sample_mem (fun a => if a <? 8192 then sample_mem a else 0%float)
              4096 8192 64)
    as (M1' & M2' & E1 & E2 & Hres & _).
  - cbn. lia.
  - intros g ft Hg Hft. unfold blocks_apart, dptr_add, sizeof_double. cbn. lia.
  - intros ft Hft. apply read_block_ext. intros j Hj. cbn in Hj.
    unfold dptr_add, sizeof_double.
    destruct (Z.ltb_spec (4096 + 8 * (ft * 64) + 8 * j) 8192); [reflexivity|lia].
  - exists M1', M2'. split; [exact E1|]. split; [exact E2|].
    exact (Hres 0 ltac:(lia)).
Defined.

(** X11.  The Synthesis kernel reads the sub-blocks of the parent its
    mode selects, the first or all eight, and nothing else: two runs
    from memories that agree on these sub-blocks, with any content of
    the local array, both end and leave the same scaling blocks for the
    eight children.  Memory outside the first eight sub-blocks at
    [coeff_out] and outside these scaling blocks is unchanged. *)
Theorem S_mwTransform_reads_parent_only K (u : cmem) (ro : bool) M1 M2 cin cout stride :
  let kd := kp1 K * (kp1 K * kp1 K) in
  0 <= kp1 K -> kd <= stride ->
  (forall g ft, 0 <= g < 8 -> 0 <= ft < (if ro then 1 else 8) ->
     blocks_apart (dptr_add cin (ft * kd)) (dptr_add cout (g * kd)) kd) ->
  (forall ft, 0 <= ft < (if ro then 1 else 8) ->
     read_block M1 (dptr_add cin (ft * kd)) kd
     = read_block M2 (dptr_add cin (ft * kd)) kd) ->
  exists M1' M2',
    S_mwTransform K 3 M1 cin cout ro stride = Done M1' /\
    S_mwTransform (with_uninit K u) 3 M2 cin cout ro stride = Done M2' /\
    (forall g, 0 <= g < 8 ->
       read_block M1' (dptr_add cout (g * stride)) kd
       = read_block M2' (dptr_add cout (g * stride)) kd) /\
    (forall a, in_block cout (8 * kd) a = false ->
       (forall g, 0 <= g < 8 -> in_block (dptr_add cout (g * stride)) kd a = false) ->
       M1' a = M1 a).
Proof.
  intros kd Hk Hstride Hap Hsame.
  assert (Hkd : 0 <= kd)
    by (subst kd; apply Z.mul_nonneg_nonneg; [|apply Z.mul_nonneg_nonneg]; lia).
  assert (Hout : forall g g', 0 <= g < 8 -> 0 <= g' < 8 -> g <> g' ->
            blocks_apart (dptr_add cout (g * stride)) (dptr_add cout (g' * stride)) kd).
  { intros g g' _ _ Hne. apply strided_blocks_apart; [lia|exact Hne]. }
  destruct (S_mwTransform_spec K M1 cin cout ro stride Hk Hap Hout)
    as (M1' & E1 & Hf1 & _ & Hr1).
  destruct (S_mwTransform_spec (with_uninit K u) M2 cin cout ro stride Hk Hap Hout)
    as (M2' & E2 & _ & _ & Hr2).
  exists M1', M2'. split; [exact E1|]. split; [exact E2|].
  fold kd in Hf1, Hr1. change (kp1 (with_uninit K u)) with (kp1 K) in Hr2.
  fold kd in Hr2.
  split.
  - intros g Hg. rewrite (Hr1 g Hg), (Hr2 g Hg).
    symmetry. apply synthesis_block_uninit. intros ft Hft.
    unfold parent_blocks. change (kp1 (with_uninit K u)) with (kp1 K).
    symmetry. apply Hsame. exact Hft.
  - intros a Ha Houts. apply Hf1; [|exact Houts].
    intros g Hg. apply outside_sub_blocks; assumption.
Qed.

Lemma S_mwTransform_reads_parent_only_witness :
  exists M1' M2',
    S_mwTransform sample_kernel 3 sample_mem 4096 8192 false 64 = Done M1' /\
    S_mwTransform (with_uninit sample_kernel (fun _ => 1%float)) 3
      (fun a => if a <? 8192 then sample_mem a else 0%float) 4096 8192 false 64
    = Done M2' /\
    read_block M1' (dptr_add 8192 (7 * 64)) 8 = read_block M2' (dptr_add 8192 (7 * 64)) 8.
Proof.
  destruct (S_mwTransform_reads_parent_only sample_kernel (fun _ => 1%float) false
              sample_mem (fun a => if a <? 8192 then sample_mem a else 0%float)
              4096 8192 64)
    as (M1' & M2' & E1 & E2 & Hres & _).
  - cbn. lia.
  - cbn. lia.
  - intros g ft Hg Hft. unfold blocks_apart, dptr_add, sizeof_double. cbn. lia.
  - intros ft Hft. apply read_block_ext. intros j Hj. cbn in Hj.
    unfold dptr_add, sizeof_double. cbn [kp1 sample_kernel].
    destruct (Z.ltb_spec (4096 + 8 * (ft * (2 * (2 * 2))) + 8 * j) 8192);
      [reflexivity|lia].
  - exists M1', M2'. split; [exact E1|]. split; [exact E2|].
    exact (Hres 7 ltac:(lia)).
Defined.

(** ** GenS_nodes *)



(** * The filter *)

Lemma nth_fmap_default {A B : Type} (f : A -> B) (l : list A) (n : nat) (d : A) (d' : B) :
  f d = d' -> nth n (f <$> l) d' = f (nth n l d).
Proof. intros <-. apply List.map_nth. Qed.

Lemma nth_fmap_seqZ {A : Type} (f : Z -> A) (n i : Z) (d : A) :
  0 <= i < n -> nth (Z.to_nat i) (f <$> seqZ 0 n) d = f i.
Proof.
  intros H. apply nth_lookup_Some.
  rewrite list_lookup_fmap, lookup_seqZ_lt by lia. cbn. do 2 f_equal. lia.
Qed.

Lemma mat_get_block m i j p q r c :
  0 <= i -> 0 <= j -> 0 <= r < p -> 0 <= c < q ->
  mat_get (block m i j p q) r c = mat_get m (i + r) (j + c).
Proof.
  intros Hi Hj Hr Hc. unfold mat_get, block.
  rewrite (nth_fmap_default _ _ _ [])
    by (rewrite drop_nil, take_nil; reflexivity).
  rewrite List.nth_firstn, List.nth_skipn.
  destruct (Nat.ltb_spec (Z.to_nat c) (Z.to_nat q)) as [_|H]; [|lia].
  rewrite List.nth_firstn, List.nth_skipn.
  destruct (Nat.ltb_spec (Z.to_nat r) (Z.to_nat p)) as [_|H]; [|lia].
  rewrite !Z2Nat.inj_add by lia. reflexivity.
Qed.

Lemma mat_get_transpose m p q r c :
  0 <= r < p -> 0 <= c < q ->
  mat_get (transpose p q m) c r = mat_get m r c.
Proof.
  intros Hr Hc. unfold mat_get at 1. unfold transpose.
  rewrite (nth_fmap_seqZ _ q c) by exact Hc.
  rewrite (nth_fmap_seqZ _ p r) by exact Hr. reflexivity.
Qed.

Lemma square_block m n i j k :
  0 <= i -> 0 <= j -> 0 <= k -> i + k <= n -> j + k <= n ->
  square n m -> square k (block m i j k k).
Proof.
  intros Hi Hj Hk Hik Hjk (Hrows & Hcols). unfold square, block. split.
  - rewrite length_fmap, length_take, length_drop. lia.
  - apply Forall_fmap. apply Forall_forall. intros row Hrow. cbn.
    assert (Hin : row ∈ m).
    { apply (subseteq_take (Z.to_nat k)) in Hrow.
      apply (subseteq_drop (Z.to_nat i)) in Hrow. exact Hrow. }
    rewrite Forall_forall in Hcols.
    rewrite length_take, length_drop, (Hcols row Hin). lia.
Qed.

Lemma square_transpose m k : square k (transpose k k m).
Proof.
  unfold square, transpose. split.
  - rewrite length_fmap, length_seqZ. reflexivity.
  - apply Forall_fmap. apply Forall_forall. intros c _. cbn.
    rewrite length_fmap, length_seqZ. reflexivity.
Qed.

(** X13.  The sub-filters as [fillFilterBlocks] cuts them out of a
    filter matrix of [2K] rows and columns, [K = order + 1].  The
    sub-filter that Reconstruction gets for the index [2a + b] is the
    block of [K] rows from row [(1 - b) K] and [K] columns from column
    [a K]; the sub-filter that Compression gets for the index [2b + a],
    with the two bits swapped, is its transpose.  Both are square of
    size [K].  An index outside [0..3] is fatal for both operations. *)
Theorem subfilters_are_transposed_blocks (order : Z) (filter : matrix) (a b : Z) :
  let K := order + 1 in
  let F := fillFilterBlocks order filter in
  0 <= order < INT_MAX -> square (2 * K) filter ->
  0 <= a <= 1 -> 0 <= b <= 1 ->
  (exists R C,
     getSubFilter F (2 * a + b) Reconstruction = Done R /\
     getSubFilter F (2 * b + a) Compression = Done C /\
     square K R /\ square K C /\
     (forall r c, 0 <= r < K -> 0 <= c < K ->
        mat_get R r c = mat_get filter ((1 - b) * K + r) (a * K + c) /\
        mat_get C c r = mat_get R r c)) /\
  (forall i oper, ~ 0 <= i <= 3 -> getSubFilter F i oper = Abort FilterIndexOutOfBounds).
Proof.
  intros K F Horder Hsq Ha Hb.
  assert (HK : int32 (order + 1) = K)
    by (apply int32_id; unfold INT_MIN, INT_MAX in *; lia).
  assert (HK0 : 0 <= K) by (subst K; lia).
  split.
  - assert (Hblock : forall i j, (i = 0 \/ i = K) -> (j = 0 \/ j = K) ->
              square K (block filter i j K K) /\
              square K (transpose K K (block filter i j K K)) /\
              (forall r c, 0 <= r < K -> 0 <= c < K ->
                 mat_get (block filter i j K K) r c = mat_get filter (i + r) (j + c) /\
                 mat_get (transpose K K (block filter i j K K)) c r
                 = mat_get (block filter i j K K) r c)).
    { intros i j Hi Hj. split; [|split].
      - apply (square_block filter (2 * K)); try lia. exact Hsq.
      - apply square_transpose.
      - intros r c Hr Hc. split.
        + apply mat_get_block; lia.
        + apply mat_get_transpose; assumption. }
    assert (Ca : a = 0 \/ a = 1) by lia. assert (Cb : b = 0 \/ b = 1) by lia.
    assert (Hpick : forall i j R C,
              (i = 0 \/ i = K) -> (j = 0 \/ j = K) ->
              R = block filter i j K K -> C = transpose K K R ->
              i = (1 - b) * K -> j = a * K ->
              square K R /\ square K C /\
              (forall r c, 0 <= r < K -> 0 <= c < K ->
                 mat_get R r c = mat_get filter ((1 - b) * K + r) (a * K + c) /\
                 mat_get C c r = mat_get R r c)).
    { intros i j R C Hi Hj -> -> Ei Ej.
      destruct (Hblock i j Hi Hj) as (S1 & S2 & Hent).
      split; [exact S1|]. split; [exact S2|]. rewrite <- Ei, <- Ej. exact Hent. }
    destruct Ca as [-> | ->], Cb as [-> | ->].
    + exists (H0 F), (H0t F). split; [reflexivity|]. split; [reflexivity|].
      unfold F, fillFilterBlocks. rewrite HK. cbn [H0 H0t].
      apply (Hpick K 0); try reflexivity; lia.
    + exists (G0 F), (G0t F). split; [reflexivity|]. split; [reflexivity|].
      unfold F, fillFilterBlocks. rewrite HK. cbn [G0 G0t].
      apply (Hpick 0 0); try reflexivity; lia.
    + exists (H1 F), (H1t F). split; [reflexivity|]. split; [reflexivity|].
      unfold F, fillFilterBlocks. rewrite HK. cbn [H1 H1t].
      apply (Hpick K K); try reflexivity; lia.
    + exists (G1 F), (G1t F). split; [reflexivity|]. split; [reflexivity|].
      unfold F, fillFilterBlocks. rewrite HK. cbn [G1 G1t].
      apply (Hpick 0 K); try reflexivity; lia.
  - intros i oper Hi.
    destruct oper; destruct i as [|[[p|p|]|[p|p|]|]|p]; try reflexivity; exfalso; lia.
Qed.

Lemma subfilters_are_transposed_blocks_witness :
  fillFilterBlocks 1 sample_filter_matrix = sample_filter /\
  exists R C,
    getSubFilter sample_filter 2 Reconstruction = Done R /\
    getSubFilter sample_filter 1 Compression = Done C /\
    mat_get R 0 1 = mat_get sample_filter_matrix 2 3 /\
    mat_get C 1 0 = mat_get R 0 1.
Proof.
  split; [reflexivity|].
  destruct (subfilters_are_transposed_blocks 1 sample_filter_matrix 1 0)
    as ((R & C & ER & EC & _ & _ & Hent) & _).
  - unfold INT_MAX. lia.
  - split; [reflexivity|]. repeat constructor.
  - lia.
  - lia.
  - exists R, C. split; [exact ER|]. split; [exact EC|].
    exact (Hent 0 1 ltac:(lia) ltac:(lia)).
Defined.

(** * Relocation *)

Lemma rtree_ind' (P : rtree -> Prop) :
  (forall p ks, Forall P ks -> P (RNode p ks)) -> forall t, P t.
Proof.
  intros H. fix IH 1. intros [p ks]. apply H.
  induction ks as [|k ks IHks]; constructor; [apply IH|exact IHks].
Qed.

Lemma moved_tree_b_sound nodes d t : moved_tree_b nodes d t = true -> moved_tree nodes d t.
Proof.
  induction t as [p ks IH] using rtree_ind'. cbn [moved_tree_b]. intros H.
  apply andb_prop in H as [H1 H2].
  destruct (nodes !! p) as [nd|] eqn:E; [|discriminate].
  apply bool_decide_eq_true in H1.
  apply (moved_node nodes d p ks nd E H1).
  rewrite forallb_forall in H2. rewrite Forall_forall in IH |- *.
  intros k Hk. apply IH; [exact Hk|]. apply H2. apply list_elem_of_In. exact Hk.
Qed.

Lemma addrs_cons t ts : addrs (t :: ts) = raddrs t ++ addrs ts.
Proof. reflexivity. Qed.

Lemma addrs_app ts ts' : addrs (ts ++ ts') = addrs ts ++ addrs ts'.
Proof. unfold addrs. rewrite map_app, concat_app. reflexivity. Qed.

Lemma addrs_rev ts : addrs (rev ts) ≡ₚ addrs ts.
Proof.
  induction ts as [|t ts IH]; [reflexivity|].
  cbn [rev]. rewrite addrs_app, addrs_cons, IH.
  change (addrs [t]) with (raddrs t ++ []). rewrite app_nil_r.
  apply Permutation_app_comm.
Qed.

Lemma addrs_pop p ks rest :
  addrs (RNode p ks :: rest) ≡ₚ p :: addrs (rev ks ++ rest).
Proof.
  rewrite addrs_cons, addrs_app, addrs_rev. reflexivity.
Qed.

Lemma fmap_rev {A B : Type} (f : A -> B) (l : list A) : f <$> rev l = rev (f <$> l).
Proof.
  induction l as [|a l IH]; [reflexivity|].
  cbn [rev]. rewrite fmap_app, IH. reflexivity.
Qed.

Lemma need_list_lookup need ks : forall j i k,
  ks !! i = Some k -> (j + i + need k <= need_list need ks j)%nat.
Proof.
  induction ks as [|k0 ks IH]; intros j i k Hk; [discriminate|].
  cbn [need_list]. destruct i as [|i].
  - injection Hk as ->. lia.
  - cbn in Hk. specialize (IH (S j) i k Hk). lia.
Qed.

Lemma fits_push ks : forall rest,
  fits rest ->
  (forall i k, ks !! i = Some k ->
     (length rest + i + stack_need k <= Z.to_nat stack_size)%nat) ->
  fits (rev ks ++ rest).
Proof.
  induction ks as [|k ks IH] using rev_ind; intros rest Hrest Hks; [exact Hrest|].
  rewrite rev_app_distr. cbn [rev app fits]. split.
  - rewrite length_app, length_rev.
    specialize (Hks (length ks) k). rewrite lookup_app_r in Hks by lia.
    rewrite Nat.sub_diag in Hks. specialize (Hks eq_refl). lia.
  - apply IH; [exact Hrest|]. intros i k' Hk'. apply Hks.
    rewrite lookup_app_l; [exact Hk'|]. apply lookup_lt_Some in Hk'. exact Hk'.
Qed.

(** One round of the loop on a node whose record is as it was copied. *)
Lemma RewritePointers_body_moved mw off d f p ks nd rest :
  nodes f !! p = Some nd ->
  (fun c => dptr_add c d) <$> children nd = raddr <$> ks ->
  (length ks + length rest <= Z.to_nat stack_size)%nat ->
  RewritePointers_body mw off d (mkRwState f (p :: (raddr <$> rest)))
  = Finished (mkRwState
                (set_nodes (set_tree_nNodes f (tree_nNodes f + 1))
                           (<[p := relocated (this f) mw off d p nd]> (nodes f)))
                (raddr <$> (rev ks ++ rest))).
Proof.
  intros Hnd Hkids Hroom. unfold RewritePointers_body. cbn [rw_stack rw_forest].
  unfold deref. cbn [nodes set_tree_nNodes]. rewrite Hnd. cbn [bind].
  assert (Hlen : length (children nd) = length ks).
  { apply (f_equal length) in Hkids. rewrite !length_fmap in Hkids. exact Hkids. }
  unfold getNChildren. rewrite fmap_app, fmap_rev, <- Hkids.
  destruct (children nd) as [|c cs] eqn:Ec.
  - destruct ks; [|discriminate]. unfold relocated. rewrite Ec. reflexivity.
  - replace (Z.of_nat (length (c :: cs)) =? 0) with false
      by (symmetry; apply Z.eqb_neq; cbn [length]; lia).
    cbn [negb andb].
    destruct (Z.ltb_spec stack_size
                (Z.of_nat (length (rev ((fun c0 => dptr_add c0 d) <$> c :: cs)
                                   ++ (raddr <$> rest))))) as [Hover|_].
    + exfalso. rewrite length_app, length_rev, !length_fmap in Hover.
      rewrite Hlen in Hover. unfold stack_size, DepthMax in *. lia.
    + unfold relocated. rewrite Ec. reflexivity.
Qed.

Lemma addrs_nonempty t ts : (1 <= length (addrs (t :: ts)))%nat.
Proof. destruct t. cbn. lia. Qed.

(** The walk rewrites each node of the trees on its stack once and
    touches no other record. *)
Lemma RewritePointers_loop_moved mw off d nodes0 : forall n S f,
  (length (addrs S) <= n)%nat -> fits S -> NoDup (addrs S) ->
  Forall (moved_tree nodes0 d) S ->
  (forall p, p ∈ addrs S -> nodes f !! p = nodes0 !! p) ->
  exists f',
    RewritePointers_loop mw off d n (mkRwState f (raddr <$> S))
    = Finished (mkRwState f' []) /\
    this f' = this f /\ mem f' = mem f /\
    tree_squareNorm f' = tree_squareNorm f /\
    tree_nNodes f' = tree_nNodes f + Z.of_nat (length (addrs S)) /\
    (forall p, p ∉ addrs S -> nodes f' !! p = nodes f !! p) /\
    (forall p, p ∈ addrs S ->
       nodes f' !! p = relocated (this f) mw off d p <$> nodes0 !! p).
Proof.
  induction n as [|n IH]; intros S f Hn Hfits Hnd Hmoved Hsame.
  - destruct S as [|t S]; [|pose proof (addrs_nonempty t S); lia].
    exists f. cbn. repeat split; try reflexivity; try lia.
    intros p Hp. inversion Hp.
  - destruct S as [|[p ks] rest].
    { exists f. cbn. repeat split; try reflexivity; try lia.
      intros p Hp. inversion Hp. }
    pose proof (addrs_pop p ks rest) as Hperm.
    inversion Hmoved as [|? ? Htop Hrest]; subst.
    inversion Htop as [? ? nd Hp0 Hkids Hsub]; subst.
    destruct Hfits as (Hroom & Hfits).
    assert (Hp : nodes f !! p = Some nd).
    { rewrite Hsame; [exact Hp0|]. rewrite addrs_cons. cbn [raddrs]. left. }
    cbn [stack_need] in Hroom.
    change (raddr <$> RNode p ks :: rest) with (p :: (raddr <$> rest)).
    cbn [RewritePointers_loop rw_stack].
    rewrite (RewritePointers_body_moved mw off d f p ks nd rest Hp Hkids) by lia.
    cbn [bind].
    set (f2 := set_nodes (set_tree_nNodes f (tree_nNodes f + 1))
                 (<[p := relocated (this f) mw off d p nd]> (nodes f))).
    assert (Hnd' : NoDup (p :: addrs (rev ks ++ rest))) by (rewrite <- Hperm; exact Hnd).
    apply NoDup_cons in Hnd' as (Hfresh & Hnd').
    assert (Hlen : length (addrs (RNode p ks :: rest))
                   = Datatypes.S (length (addrs (rev ks ++ rest)))).
    { rewrite Hperm. reflexivity. }
    assert (Hmem : forall q, q ∈ addrs (RNode p ks :: rest)
                             <-> q = p \/ q ∈ addrs (rev ks ++ rest)).
    { intros q. rewrite Hperm. apply elem_of_cons. }
    destruct (IH (rev ks ++ rest) f2) as (f' & E & Hthis & Hm & Hsq & Hcount & Hout & Hin).
    + lia.
    + apply fits_push; [exact Hfits|]. intros i k Hk.
      pose proof (need_list_lookup stack_need ks 0 i k Hk). lia.
    + exact Hnd'.
    + apply Forall_app. split; [|exact Hrest].
      apply Forall_forall. intros k Hk. rewrite Forall_forall in Hsub.
      apply Hsub. apply list_elem_of_In. apply List.in_rev. apply list_elem_of_In. exact Hk.
    + intros q Hq. unfold f2. cbn [nodes set_nodes].
      rewrite lookup_insert_ne by (intros ->; contradiction).
      apply Hsame. apply Hmem. right. exact Hq.
    + exists f'. split; [exact E|].
      split; [exact Hthis|]. split; [exact Hm|]. split; [exact Hsq|].
      split; [|split].
      * rewrite Hcount, Hlen. unfold f2. cbn [tree_nNodes set_nodes set_tree_nNodes]. lia.
      * intros q Hq. rewrite Hout by (intros Hq'; apply Hq, Hmem; right; exact Hq').
        unfold f2. cbn [nodes set_nodes].
        apply lookup_insert_ne. intros ->. apply Hq, Hmem. left. reflexivity.
      * intros q Hq. apply Hmem in Hq as [-> | Hq].
        -- rewrite (Hout p Hfresh). unfold f2. cbn [nodes set_nodes].
           rewrite lookup_insert_eq, Hp0. reflexivity.
        -- exact (Hin q Hq).
Qed.



(** ** A second run *)

Lemma RewritePointers_pool_eq t :
  RewritePointers_pool t
  = set_lastNodeCoeff t
      (dptr_add (dptr_add (SData t) (to_size_t (sizeTreeMeta t) / sizeof_double))
                (elem_offset (maxNodes t) (sizeNodeMeta t))).
Proof.
  unfold RewritePointers_pool. cbn [maxNodesCoeff set_lastNodeCoeff].
  generalize (seqZ 0 (maxNodesCoeff t)) as l.
  generalize (set_lastNodeCoeff t
                (dptr_add (dptr_add (SData t) (to_size_t (sizeTreeMeta t) / sizeof_double))
                          (elem_offset (maxNodes t) (sizeNodeMeta t)))) as u.
  intros u l. revert u. induction l as [|i l IH]; intros u; cbn [fold_left]; [reflexivity|].
  rewrite IH. unfold dptr_add. rewrite Z.mul_0_r, Z.add_0_r, arr_set_get_id.
  apply set_CoeffStack_id.
Qed.

Lemma RewritePointers_pool_idem t :
  RewritePointers_pool (RewritePointers_pool t) = RewritePointers_pool t.
Proof. rewrite !RewritePointers_pool_eq. reflexivity. Qed.

Lemma RewritePointers_unfold mw off roots fuel f root0 :
  nodes f !! default 0 (roots !! 0%nat) = Some root0 ->
  Z.of_nat (length roots) <= stack_size ->
  RewritePointers mw off roots fuel f
  = do st <- RewritePointers_loop mw off
               (dptr_diff (firstNodeCoeff (RewritePointers_pool (this f))) (coefvec root0))
               fuel
               (mkRwState (set_tree_nNodes (set_this f (RewritePointers_pool (this f))) 0)
                          (rev roots)) ;
    Finished (rw_forest st).
Proof.
  intros Hroot Hlen. unfold RewritePointers, deref. cbn [nodes set_this].
  rewrite Hroot. cbn [bind].
  destruct (Z.ltb_spec stack_size (Z.of_nat (length roots))) as [Hover|_]; [lia|].
  reflexivity.
Qed.

Lemma raddrs_kid k ks p q : k ∈ ks -> q ∈ raddrs k -> q ∈ raddrs (RNode p ks).
Proof.
  intros Hk Hq. cbn [raddrs]. right.
  induction ks as [|k0 ks IH]; [inversion Hk|].
  cbn [map concat]. apply elem_of_app. apply elem_of_cons in Hk as [-> | Hk].
  - left. exact Hq.
  - right. apply IH. exact Hk.
Qed.

Lemma addrs_tree t ts q : t ∈ ts -> q ∈ raddrs t -> q ∈ addrs ts.
Proof.
  intros Ht Hq. induction ts as [|t0 ts IH]; [inversion Ht|].
  rewrite addrs_cons. apply elem_of_app. apply elem_of_cons in Ht as [-> | Ht].
  - left. exact Hq.
  - right. apply IH. exact Ht.
Qed.

Lemma fmap_dptr_add_0 (l : list Z) : (fun c => dptr_add c 0) <$> l = l.
Proof.
  induction l as [|x l IH]; [reflexivity|].
  cbn [fmap list_fmap]. unfold dptr_add at 1. rewrite Z.mul_0_r, Z.add_0_r.
  f_equal. exact IH.
Qed.

(** Rewritten records form the same trees with the offset [0]. *)
Lemma moved_tree_relocated nodes nodes' t' mw off d t :
  moved_tree nodes d t ->
  (forall p nd, p ∈ raddrs t -> nodes !! p = Some nd ->
     nodes' !! p = Some (relocated t' mw off d p nd)) ->
  moved_tree nodes' 0 t.
Proof.
  induction t as [p ks IH] using rtree_ind'. intros Hm Hnew.
  inversion Hm as [? ? nd Hp Hkids Hsub]; subst.
  apply (moved_node nodes' 0 p ks (relocated t' mw off d p nd)).
  - apply Hnew; [cbn [raddrs]; left|exact Hp].
  - unfold relocated, set_links. cbn [children]. rewrite fmap_dptr_add_0. exact Hkids.
  - rewrite Forall_forall in IH, Hsub |- *. intros k Hk.
    apply IH; [exact Hk|apply Hsub; exact Hk|].
    intros q nq Hq Hnq. apply Hnew; [|exact Hnq].
    apply (raddrs_kid k ks p q Hk Hq).
Qed.

Lemma relocated_again t' mw off d p nd :
  relocated t' mw off 0 p (relocated t' mw off d p nd) = relocated t' mw off d p nd.
Proof.
  unfold relocated, set_links. cbn [parent children NodeCoeffIx NodeRank hasWCoefs
    isGenNode squareNorm]. rewrite fmap_dptr_add_0.
  unfold dptr_add at 1. rewrite Z.mul_0_r, Z.add_0_r. reflexivity.
Qed.

Lemma Forest_eq (f g : Forest) :
  this f = this g -> nodes f = nodes g -> mem f = mem g ->
  tree_nNodes f = tree_nNodes g -> tree_squareNorm f = tree_squareNorm g -> f = g.
Proof. destruct f, g. cbn. intros -> -> -> -> ->. reflexivity. Qed.

Lemma RewritePointers_no_roots mw off fuel f root0 :
  nodes f !! 0 = Some root0 ->
  let f' := set_tree_nNodes (set_this f (RewritePointers_pool (this f))) 0 in
  RewritePointers mw off [] fuel f = Finished f' /\
  RewritePointers mw off [] fuel f' = Finished f'.
Proof.
  intros Hroot f'.
  assert (Hlen : Z.of_nat (length (@nil Z)) <= stack_size)
    by (unfold stack_size, DepthMax; cbn; lia).
  split.
  - rewrite (RewritePointers_unfold mw off [] fuel f root0 Hroot Hlen).
    destruct fuel; reflexivity.
  - rewrite (RewritePointers_unfold mw off [] fuel f' root0 Hroot Hlen).
    unfold f'. cbn [this set_tree_nNodes set_this]. rewrite RewritePointers_pool_idem.
    destruct fuel; reflexivity.
Qed.

(** X17.  A second run of [RewritePointers] changes nothing, provided
    the first root node holds the coefficient block of index [0]: after
    the first run its coefficient pointer is the start of the
    coefficient region, so the offset the second run computes is [0];
    the second run walks the same trees, counts the same nodes, and
    leaves every record, the pools and the coefficients as the first
    run left them. *)
Theorem RewritePointers_twice (mw off : Z) (ts : list rtree) (fuel : nat)
    (f : Forest) (root0 : MWNode) :
  let t' := RewritePointers_pool (this f) in
  let d := dptr_diff (firstNodeCoeff t') (coefvec root0) in
  let roots := raddr <$> ts in
  nodes f !! default 0 (roots !! 0%nat) = Some root0 ->
  NodeCoeffIx root0 = 0 ->
  Forall (moved_tree (nodes f) d) ts ->
  NoDup (addrs ts) ->
  (Nat.max (length ts) (need_list stack_need ts 0) <= Z.to_nat stack_size)%nat ->
  (length (addrs ts) <= fuel)%nat ->
  exists f',
    RewritePointers mw off roots fuel f = Finished f' /\
    RewritePointers mw off roots fuel f' = Finished f'.
Proof.
  intros t' d roots Hroot Hix Hmoved Hnd Hneed Hfuel.
  destruct (decide (ts = [])) as [Hemp|Hne].
  { subst roots. subst ts.
    exists (set_tree_nNodes (set_this f t') 0).
    exact (RewritePointers_no_roots mw off fuel f root0 Hroot). }
  assert (Hlen : Z.of_nat (length roots) <= stack_size).
  { unfold roots. rewrite length_fmap. unfold stack_size, DepthMax in *. lia. }
  assert (Hfits : fits (rev ts)).
  { rewrite <- (app_nil_r (rev ts)). apply fits_push; [exact I|].
    intros i k Hk. pose proof (need_list_lookup stack_need ts 0 i k Hk).
    cbn [length]. lia. }
  assert (Hrev : forall (P : rtree -> Prop), Forall P ts -> Forall P (rev ts)).
  { intros P HP. apply Forall_forall. intros k Hk. rewrite Forall_forall in HP.
    apply HP. apply list_elem_of_In. apply List.in_rev. apply list_elem_of_In. exact Hk. }
  (* the first run *)
  destruct (RewritePointers_loop_moved mw off d (nodes f) fuel (rev ts)
              (set_tree_nNodes (set_this f t') 0))
    as (f' & E1 & Hthis & Hm & Hsq & Hcount & Hout & Hin).
  { rewrite addrs_rev. exact Hfuel. }
  { exact Hfits. }
  { rewrite addrs_rev. exact Hnd. }
  { apply Hrev. exact Hmoved. }
  { intros p _. reflexivity. }
  cbn [this mem tree_squareNorm tree_nNodes nodes set_tree_nNodes set_this]
    in Hthis, Hm, Hsq, Hcount, Hout, Hin.
  exists f'. split.
  { rewrite (RewritePointers_unfold mw off roots fuel f root0 Hroot Hlen).
    fold t'. fold d. unfold roots. rewrite <- fmap_rev, E1. reflexivity. }
  (* the second run *)
  assert (Hpool : RewritePointers_pool (this f') = t').
  { rewrite Hthis. apply RewritePointers_pool_idem. }
  assert (Hnew : forall p nd, p ∈ addrs ts -> nodes f !! p = Some nd ->
            nodes f' !! p = Some (relocated t' mw off d p nd)).
  { intros p nd Hp Hndp. rewrite Hin by (rewrite addrs_rev; exact Hp).
    rewrite Hndp. reflexivity. }
  assert (Hroot' : exists root0',
            nodes f' !! default 0 (roots !! 0%nat) = Some root0' /\
            coefvec root0' = firstNodeCoeff t').
  { unfold roots in *. destruct ts as [|[p0 ks0] ts0]; [contradiction|].
    exists (relocated t' mw off d p0 root0). split.
    - apply Hnew; [rewrite addrs_cons; cbn [raddrs]; left|exact Hroot].
    - unfold relocated, set_links. cbn [coefvec]. rewrite Hix.
      unfold elem_offset, dptr_add. rewrite Z.mul_0_l.
      change (to_size_t (int32 0) / sizeof_double) with 0. lia. }
  destruct Hroot' as (root0' & Hroot' & Hcv).
  rewrite (RewritePointers_unfold mw off roots fuel f' root0' Hroot' Hlen).
  rewrite Hpool.
  assert (Hd0 : dptr_diff (firstNodeCoeff t') (coefvec root0') = 0).
  { rewrite Hcv. unfold dptr_diff. rewrite Z.sub_diag. reflexivity. }
  rewrite Hd0.
  destruct (RewritePointers_loop_moved mw off 0 (nodes f') fuel (rev ts)
              (set_tree_nNodes (set_this f' t') 0))
    as (f'' & E2 & Hthis2 & Hm2 & Hsq2 & Hcount2 & Hout2 & Hin2).
  { rewrite addrs_rev. exact Hfuel. }
  { exact Hfits. }
  { rewrite addrs_rev. exact Hnd. }
  { apply Hrev. rewrite Forall_forall in Hmoved |- *. intros t Ht.
    apply (moved_tree_relocated (nodes f) (nodes f') t' mw off d t (Hmoved t Ht)).
    intros p nd Hp Hndp. apply Hnew; [|exact Hndp].
    apply (addrs_tree t ts p Ht Hp). }
  { intros p _. reflexivity. }
  cbn [this mem tree_squareNorm tree_nNodes nodes set_tree_nNodes set_this]
    in Hthis2, Hm2, Hsq2, Hcount2, Hout2, Hin2.
  unfold roots. rewrite <- fmap_rev, E2. cbn [bind rw_forest]. f_equal.
  apply Forest_eq.
  - rewrite Hthis2, Hthis. reflexivity.
  - apply map_eq. intros p.
    destruct (decide (p ∈ addrs (rev ts))) as [Hp|Hp].
    + rewrite (Hin2 p Hp), (Hin p Hp).
      destruct (nodes f !! p) as [nd|]; [|reflexivity].
      cbn [fmap option_fmap option_map]. rewrite relocated_again. reflexivity.
    + apply Hout2. exact Hp.
  - exact Hm2.
  - rewrite Hcount2, Hcount. reflexivity.
  - exact Hsq2.
Qed.

Lemma RewritePointers_twice_witness :
  exists f',
    RewritePointers 77 24 [moved_root] 100 moved_forest = Finished f' /\
    RewritePointers 77 24 [moved_root] 100 f' = Finished f'.
Proof.
  assert (Hd : dptr_diff (firstNodeCoeff (RewritePointers_pool (this moved_forest)))
                 (coefvec (node_at moved_forest moved_root)) = 131072)
    by (vm_compute; reflexivity).
  apply (RewritePointers_twice 77 24 [moved_rtree] 100 moved_forest
           (node_at moved_forest moved_root)).
  - vm_compute. reflexivity.
  - vm_compute. reflexivity.
  - rewrite Hd. constructor; [|constructor].
    apply moved_tree_b_sound. vm_compute. reflexivity.
  - apply (bool_decide_eq_true_1 _). vm_compute. reflexivity.
  - vm_compute. lia.
  - vm_compute. lia.
Defined.

(** * The merge of a node pair: both with detail, neither with detail *)

(** X15.  The combination of a pair of nodes whose coefficient blocks do
    not overlap writes the block of A and the record of A and nothing
    else: every double outside the block of A, so the block of B, and
    every other record are as before.  If both nodes have detail, all
    coefficients of A become [A + c*B] and the allocator is not
    touched.  If neither has, the scaling sub-block of A becomes
    [A + c*B], the detail sub-block of A is left as it was found,
    ["Adding two generated nodes?"] is logged with the stack length, and
    A is marked as holding detail all the same. *)
Theorem add_coefs_writes_A_only (E : TreeEnv) (c : float)
    (N_GenCoeff N_Coeff slenA fposA fposB : Z) (f : Forest) (T : float)
    (ndA ndB : MWNode) :
  nodes f !! fposA = Some ndA -> nodes f !! fposB = Some ndB ->
  0 <= N_GenCoeff <= N_Coeff ->
  blocks_apart (coefvec ndA) (coefvec ndB) N_Coeff ->
  exists f' T' ndA',
    add_coefs E c N_GenCoeff N_Coeff slenA fposA fposB (f, T) = Finished (f', T') /\
    (forall a, in_block (coefvec ndA) N_Coeff a = false -> mem f' a = mem f a) /\
    read_block (mem f') (coefvec ndB) N_Coeff = read_block (mem f) (coefvec ndB) N_Coeff /\
    (forall p, p <> fposA -> nodes f' !! p = nodes f !! p) /\
    nodes f' !! fposA = Some ndA' /\ hasWCoefs ndA' = true /\
    (hasWCoefs ndA = true -> hasWCoefs ndB = true ->
       (forall i, 0 <= i < N_Coeff ->
          mem f' (dptr_add (coefvec ndA) i)
          = (mem f (dptr_add (coefvec ndA) i)
             + c * mem f (dptr_add (coefvec ndB) i))%float) /\
       this f' = this f) /\
    (hasWCoefs ndA = false -> hasWCoefs ndB = false ->
       (forall i, 0 <= i < N_GenCoeff ->
          mem f' (dptr_add (coefvec ndA) i)
          = (mem f (dptr_add (coefvec ndA) i)
             + c * mem f (dptr_add (coefvec ndB) i))%float) /\
       (forall i, N_GenCoeff <= i < N_Coeff ->
          mem f' (dptr_add (coefvec ndA) i) = mem f (dptr_add (coefvec ndA) i)) /\
       this f' = println (this f) (AddingTwoGeneratedNodes slenA)).
Proof.
  intros HA HB HN Hap.
  rewrite (add_coefs_unfold E c N_GenCoeff N_Coeff slenA fposA fposB f T ndA ndB HA HB).
  cbn zeta. eexists _, _, _. split; [reflexivity|].
  assert (Hal : forall lo hi, 0 <= lo -> hi <= N_Coeff ->
            forall i k, lo <= k < i -> i < hi ->
              dptr_add (coefvec ndB) i <> dptr_add (coefvec ndA) k).
  { intros lo hi Hlo Hhi i k Hk Hi.
    apply (blocks_apart_ne _ _ N_Coeff); [exact Hap|lia|lia]. }
  assert (Hframe : forall a, in_block (coefvec ndA) N_Coeff a = false ->
            mem (if hasWCoefs ndA
                 then if hasWCoefs ndB
                      then set_mem f (add_scaled c (coefvec ndA) (coefvec ndB) 0
                                        N_Coeff (mem f))
                      else set_mem f (add_scaled c (coefvec ndA) (coefvec ndB) 0
                                        N_GenCoeff (mem f))
                 else if hasWCoefs ndB
                      then set_mem
                             (set_mem f (add_scaled c (coefvec ndA) (coefvec ndB) 0
                                           N_GenCoeff (mem f)))
                             (set_scaled c (coefvec ndA) (coefvec ndB) N_GenCoeff N_Coeff
                                (mem (set_mem f
                                        (add_scaled c (coefvec ndA) (coefvec ndB) 0
                                           N_GenCoeff (mem f)))))
                      else set_this
                             (set_mem f (add_scaled c (coefvec ndA) (coefvec ndB) 0
                                           N_GenCoeff (mem f)))
                             (println
                                (this (set_mem f
                                         (add_scaled c (coefvec ndA) (coefvec ndB) 0
                                            N_GenCoeff (mem f))))
                                (AddingTwoGeneratedNodes slenA))) a
            = mem f a).
  { intros a Ha.
    assert (Hne : forall lo hi, 0 <= lo -> hi <= N_Coeff ->
              forall k, lo <= k < hi -> a <> dptr_add (coefvec ndA) k).
    { intros lo hi Hlo Hhi k Hk. apply (in_block_false_ne _ N_Coeff); [exact Ha|lia]. }
    destruct (hasWCoefs ndA), (hasWCoefs ndB); cbn [mem set_mem set_this].
    - apply add_scaled_frame. apply Hne; lia.
    - apply add_scaled_frame. apply Hne; lia.
    - rewrite set_scaled_frame by (apply Hne; lia).
      apply add_scaled_frame. apply Hne; lia.
    - apply add_scaled_frame. apply Hne; lia. }
  cbn [nodes set_nodes mem].
  split; [exact Hframe|]. split; [|split; [|split; [|split; [|split]]]].
  - apply read_block_ext. intros j Hj. apply Hframe.
    apply in_block_apart; [|exact Hj]. apply blocks_apart_sym. exact Hap.
  - intros p Hp. rewrite lookup_insert_ne by (intros <-; apply Hp; reflexivity).
    destruct (hasWCoefs ndA), (hasWCoefs ndB); reflexivity.
  - apply lookup_insert_eq.
  - reflexivity.
  - intros -> ->. cbn [mem set_mem this].
    destruct (add_scaled_spec c (coefvec ndA) (coefvec ndB) 0 N_Coeff (mem f)) as (H1 & _).
    { apply (Hal 0); lia. }
    split; [exact H1|reflexivity].
  - intros -> ->. cbn [mem set_mem set_this this].
    destruct (add_scaled_spec c (coefvec ndA) (coefvec ndB) 0 N_GenCoeff (mem f))
      as (H1 & _).
    { apply (Hal 0); lia. }
    split; [exact H1|]. split; [|reflexivity].
    intros i Hi. apply add_scaled_frame.
    intros k Hk E'. apply dptr_add_inj in E'. lia.
Qed.

Lemma add_coefs_writes_A_only_witness :
  (exists f' T',
     add_coefs sample_env 2 8 64 0 (node_addr sample_pool 0) (node_addr sample_pool 1)
       (two_plain, 0%float) = Finished (f', T') /\
     this f' = println sample_pool (AddingTwoGeneratedNodes 0) /\
     mem f' (dptr_add (block_addr sample_pool 0) 8)
     = sample_mem (dptr_add (block_addr sample_pool 0) 8)) /\
  (exists f' T',
     add_coefs sample_env 2 8 64 0 (node_addr sample_pool 100) (node_addr sample_pool 101)
       (merge_forest, 0%float) = Finished (f', T') /\
     read_block (mem f') (block_addr sample_pool 101) 64
     = read_block sample_mem (block_addr sample_pool 101) 64).
Proof.
  split.
  - destruct (add_coefs_writes_A_only sample_env 2 8 64 0
                (node_addr sample_pool 0) (node_addr sample_pool 1) two_plain 0%float
                (node_at two_plain (node_addr sample_pool 0))
                (node_at two_plain (node_addr sample_pool 1)))
      as (f' & T' & ndA' & E & _ & _ & _ & _ & _ & _ & Hplain).
    + vm_compute. reflexivity.
    + vm_compute. reflexivity.
    + lia.
    + vm_compute. left. discriminate.
    + destruct Hplain as (_ & Hkeep & Hlog); [reflexivity|reflexivity|].
      exists f', T'. split; [exact E|]. split; [exact Hlog|].
      exact (Hkeep 8 ltac:(lia)).
  - destruct (add_coefs_writes_A_only sample_env 2 8 64 0
                (node_addr sample_pool 100) (node_addr sample_pool 101) merge_forest
                0%float
                (node_at merge_forest (node_addr sample_pool 100))
                (node_at merge_forest (node_addr sample_pool 101)))
      as (f' & T' & ndA' & E & _ & HB & _).
    + vm_compute. reflexivity.
    + vm_compute. reflexivity.
    + lia.
    + vm_compute. left. discriminate.
    + exists f', T'. split; [exact E|]. exact HB.
Defined.

(** * The merge of two trees of the same shape *)











